(** * aiko-json: a shallow embedding of the tokenizer, the token cursor and
    the streaming serializer of [src/src/aiko-json.c], with the properties
    the specification states about them.

    Conventions of the embedding.
    - A C [char] is its byte value, a [Z] in [0, 255].  Every comparison the
      source makes on a [char] gives the same answer for a signed and an
      unsigned [char] (the only ordered test is [c < 32 || c >= 127]).
    - A C string argument is the list of bytes of the array it points to; the
      terminating NUL is implicit at the end of the list, and an earlier
      zero byte ends the string as in C.
    - [int] fields ([error], [callNo], [elementNo], [isPretty], [toksuper],
      the token fields) are [Z]; [unsigned int] offsets and indices ([pos],
      [toknext], [stackpos], the write offset [bufp - buffer]) are [nat].
      The model is exact for texts shorter than 2^31 bytes, where no offset
      wraps; [size_t] arithmetic of the cursor wraps modulo 2^64 and is
      written out.
    - A read outside the token table (the source evaluates [tokens[-1]] in
      some states) has no defined value in C; the embedding returns [Undef]
      there. *)

From Stdlib Require Import ZArith List Lia Bool String Ascii.
From stdpp Require Import base tactics list.
Import ListNotations.
Local Open Scope Z_scope.

(** ** Constants and enumerations of [include/aiko-json.h] *)

Definition JSON_TOKEN_SIZE : nat := 4096.
Definition JSON_JSON_SIZE : nat := 65536.
Definition JSON_STACK_DEPTH : nat := 32.

Inductive djson_format_e := JSON_COMPACT | JSON_PRETTY.

Definition format_code (f : djson_format_e) : Z :=
  match f with JSON_COMPACT => 0 | JSON_PRETTY => 1 end.

Inductive djson_type_e := JSON_PRIMITIVE | JSON_OBJECT | JSON_ARRAY | JSON_STRING.

Definition type_code (t : djson_type_e) : Z :=
  match t with
  | JSON_PRIMITIVE => 0
  | JSON_OBJECT => 1
  | JSON_ARRAY => 2
  | JSON_STRING => 3
  end.

Definition type_eqb (a b : djson_type_e) : bool := type_code a =? type_code b.

Lemma type_eqb_eq a b : type_eqb a b = true <-> a = b.
Proof.
  unfold type_eqb. rewrite Z.eqb_eq.
  split; [|intros ->; reflexivity].
  destruct a, b; simpl; intros H; try reflexivity; discriminate H.
Qed.

Lemma type_eqb_refl a : type_eqb a a = true.
Proof. apply type_eqb_eq. reflexivity. Qed.

Definition JSON_ERROR_NOMEM : Z := -1.
Definition JSON_ERROR_INVAL : Z := -2.
Definition JSON_ERROR_PART : Z := -3.
Definition JSON_ERROR_BUF_FULL : Z := -4.
Definition JSON_ERROR_NOT_ARRAY : Z := -5.
Definition JSON_ERROR_NOT_OBJECT : Z := -6.
Definition JSON_ERROR_STACK_FULL : Z := -7.
Definition JSON_ERROR_STACK_EMPTY : Z := -8.
Definition JSON_ERROR_NEST_ERROR : Z := -9.
Definition JSON_ERROR_OK : Z := 0.

(** ** Characters and C strings *)

(** The bytes of a Rocq string, to write test inputs legibly. *)
Fixpoint bytes (s : string) : list Z :=
  match s with
  | EmptyString => []
  | String c r => Z.of_nat (nat_of_ascii c) :: bytes r
  end.

Definition ch_quote : Z := 34.      (* the double quote *)
Definition ch_backslash : Z := 92.

(** [js[i]]: past the end of the list the terminating NUL is read. *)
Definition char_at (js : list Z) (i : nat) : Z := nth i js 0.

(** [strlen]. *)
Fixpoint strlen (js : list Z) : nat :=
  match js with
  | [] => O
  | c :: r => if c =? 0 then O else S (strlen r)
  end.

(** * The serializer *)

Module Unparser.

Record nodestack_t := { nodeType : djson_type_e; elementNo : Z }.

(** [buffer] is the whole output array and [bufp] the offset of the write
    pointer in it. *)
Record unparser_s := {
  buffer : list Z;
  bufp : nat;
  tmpbuf : list Z;
  error : Z;
  callNo : Z;
  nodeStack : list nodestack_t;
  stackpos : nat;
  isPretty : Z
}.

Definition frame0 : nodestack_t := {| nodeType := JSON_PRIMITIVE; elementNo := 0 |}.

(** [unparser->nodeStack[i]] *)
Definition frame_at (u : unparser_s) (i : nat) : nodestack_t :=
  nth i (nodeStack u) frame0.

Definition top (u : unparser_s) : nodestack_t := frame_at u (stackpos u).

Definition set_error (u : unparser_s) (e : Z) : unparser_s :=
  {| buffer := buffer u; bufp := bufp u; tmpbuf := tmpbuf u; error := e;
     callNo := callNo u; nodeStack := nodeStack u; stackpos := stackpos u;
     isPretty := isPretty u |}.

Definition set_callNo (u : unparser_s) (n : Z) : unparser_s :=
  {| buffer := buffer u; bufp := bufp u; tmpbuf := tmpbuf u; error := error u;
     callNo := n; nodeStack := nodeStack u; stackpos := stackpos u;
     isPretty := isPretty u |}.

Definition set_tmpbuf (u : unparser_s) (s : list Z) : unparser_s :=
  {| buffer := buffer u; bufp := bufp u; tmpbuf := s; error := error u;
     callNo := callNo u; nodeStack := nodeStack u; stackpos := stackpos u;
     isPretty := isPretty u |}.

Definition set_frame (u : unparser_s) (i : nat) (f : nodestack_t) : unparser_s :=
  {| buffer := buffer u; bufp := bufp u; tmpbuf := tmpbuf u; error := error u;
     callNo := callNo u; nodeStack := <[i := f]> (nodeStack u);
     stackpos := stackpos u; isPretty := isPretty u |}.

Definition set_stackpos (u : unparser_s) (p : nat) : unparser_s :=
  {| buffer := buffer u; bufp := bufp u; tmpbuf := tmpbuf u; error := error u;
     callNo := callNo u; nodeStack := nodeStack u; stackpos := p;
     isPretty := isPretty u |}.

(** The bytes written so far: [buffer[0 .. bufp)]. *)
Definition written (u : unparser_s) : list Z := take (bufp u) (buffer u).

(** [jwPutch]: one byte, or the buffer-full error; the latched error is
    not consulted. *)
Definition jwPutch (u : unparser_s) (c : Z) : unparser_s :=
  if (JSON_JSON_SIZE <=? bufp u)%nat then set_error u JSON_ERROR_BUF_FULL
  else {| buffer := <[bufp u := c]> (buffer u); bufp := S (bufp u);
          tmpbuf := tmpbuf u; error := error u; callNo := callNo u;
          nodeStack := nodeStack u; stackpos := stackpos u;
          isPretty := isPretty u |}.

(** [jwPutraw]: the bytes of [str] up to its NUL. *)
Fixpoint jwPutraw (u : unparser_s) (str : list Z) : unparser_s :=
  match str with
  | [] => u
  | c :: r => if c =? 0 then u else jwPutraw (jwPutch u c) r
  end.

Definition jwPutstr (u : unparser_s) (str : list Z) : unparser_s :=
  jwPutch (jwPutraw (jwPutch u ch_quote) str) ch_quote.

(** The [for] loop of [jwPretty]: [n] indentation units. *)
Fixpoint jwIndent (n : nat) (u : unparser_s) : unparser_s :=
  match n with
  | O => u
  | S m => jwIndent m (jwPutraw u (bytes "    "))
  end.

Definition jwPretty (u : unparser_s) : unparser_s :=
  if isPretty u =? 0 then u
  else jwIndent (stackpos u + 1) (jwPutch u 10).

Definition jwPush (u : unparser_s) (nodeType : djson_type_e) : unparser_s :=
  if (JSON_STACK_DEPTH <=? stackpos u + 1)%nat
  then set_error u JSON_ERROR_STACK_FULL
  else set_frame (set_stackpos u (stackpos u + 1)) (stackpos u + 1)
         {| nodeType := nodeType; elementNo := 0 |}.

Definition jwPop (u : unparser_s) : djson_type_e * unparser_s :=
  let retval := nodeType (top u) in
  if (stackpos u =? 0)%nat then (retval, set_error u JSON_ERROR_STACK_EMPTY)
  else (retval, set_stackpos u (stackpos u - 1)).

(** [elementNo++ > 0] on the top frame: the old value is tested, the frame
    is incremented. *)
Definition bump_elementNo (u : unparser_s) : unparser_s :=
  set_frame u (stackpos u)
    {| nodeType := nodeType (top u); elementNo := elementNo (top u) + 1 |}.

Definition _jwObj (u : unparser_s) (key : list Z) : Z * unparser_s :=
  if error u =? JSON_ERROR_OK then
    let u := set_callNo u (callNo u + 1) in
    let u :=
      if negb (type_eqb (nodeType (top u)) JSON_OBJECT)
      then set_error u JSON_ERROR_NOT_OBJECT
      else
        let old := elementNo (top u) in
        let u := bump_elementNo u in
        if 0 <? old then jwPutch u 44 else u in
    let u := jwPretty u in
    let u := jwPutstr u key in
    let u := jwPutch u 58 in
    let u := if isPretty u =? 0 then u else jwPutch u 32 in
    (error u, u)
  else (error u, u).

Definition _jwArr (u : unparser_s) : Z * unparser_s :=
  if error u =? JSON_ERROR_OK then
    let u := set_callNo u (callNo u + 1) in
    let u :=
      if negb (type_eqb (nodeType (top u)) JSON_ARRAY)
      then set_error u JSON_ERROR_NOT_ARRAY
      else
        let old := elementNo (top u) in
        let u := bump_elementNo u in
        if 0 <? old then jwPutch u 44 else u in
    let u := jwPretty u in
    (error u, u)
  else (error u, u).

(** [modp_itoa10]: the loop writes the digits of [uvalue] least significant
    first; ten rounds are enough for a 32-bit value. *)
Fixpoint itoa_loop (fuel : nat) (uvalue : Z) : list Z :=
  match fuel with
  | O => []
  | S f =>
      (48 + uvalue mod 10) ::
      (if uvalue / 10 =? 0 then [] else itoa_loop f (uvalue / 10))
  end.

Definition modp_itoa10 (value : Z) : list Z :=
  let uvalue := (if value <? 0 then - value else value) mod 2 ^ 32 in
  let wstr := itoa_loop 10 uvalue in
  let wstr := if value <? 0 then wstr ++ [45] else wstr in
  rev wstr.

Definition startUnparsingJSON (u : unparser_s) (rootType : djson_type_e)
    (pretty : djson_format_e) : Z * unparser_s :=
  let u :=
    {| buffer := buffer u; bufp := 0; tmpbuf := tmpbuf u;
       error := JSON_ERROR_OK; callNo := 1;
       nodeStack := <[0%nat := {| nodeType := rootType; elementNo := 0 |}]> (nodeStack u);
       stackpos := 0; isPretty := format_code pretty |} in
  (JSON_ERROR_OK, jwPutch u (if type_eqb rootType JSON_STRING then 123 else 91)).

Definition endUnparsingJSON (u : unparser_s) : Z * unparser_s := (JSON_ERROR_OK, u).

(** [getJSON]: the buffer, read by the caller as a C string. *)
Definition getJSON (u : unparser_s) : list Z := buffer u.

(** [getJSONSize]: [strlen] of the buffer.  [None]: the buffer holds no
    NUL, and the read runs past the end of the array. *)
Definition getJSONSize (u : unparser_s) : option nat :=
  if (strlen (buffer u) <? List.length (buffer u))%nat
  then Some (strlen (buffer u)) else None.

Definition closer (node : djson_type_e) : Z :=
  if type_eqb node JSON_OBJECT then 125 else 93.

Definition endJSON (u : unparser_s) : Z * unparser_s :=
  if error u =? JSON_ERROR_OK then
    let u :=
      if (stackpos u =? 0)%nat then
        let node := nodeType (frame_at u 0) in
        let u := if isPretty u =? 0 then u else jwPutch u 10 in
        jwPutch u (closer node)
      else set_error u JSON_ERROR_NEST_ERROR in
    (error u, u)
  else (error u, u).

Definition endObject (u : unparser_s) : Z * unparser_s :=
  if error u =? JSON_ERROR_OK then
    let lastElemNo := elementNo (top u) in
    let '(node, u) := jwPop u in
    let u := if 0 <? lastElemNo then jwPretty u else u in
    let u := jwPutch u (if type_eqb node JSON_OBJECT then 125 else 93) in
    (error u, u)
  else (error u, u).

Definition endArray (u : unparser_s) : Z * unparser_s :=
  if error u =? JSON_ERROR_OK then
    let lastElemNo := elementNo (top u) in
    let '(node, u) := jwPop u in
    let u := if 0 <? lastElemNo then jwPretty u else u in
    let u := jwPutch u (if type_eqb node JSON_OBJECT then 125 else 93) in
    (error u, u)
  else (error u, u).

Definition getError (u : unparser_s) : Z := callNo u.

Definition addRawTextToObject (u : unparser_s) (key rawtext : list Z) : unparser_s :=
  let '(r, u) := _jwObj u key in
  if r =? JSON_ERROR_OK then jwPutraw u rawtext else u.

Definition addStringToObject (u : unparser_s) (key value : list Z) : unparser_s :=
  let '(r, u) := _jwObj u key in
  if r =? JSON_ERROR_OK then jwPutstr u value else u.

Definition addIntegerToObject (u : unparser_s) (key : list Z) (value : Z) : unparser_s :=
  let u := set_tmpbuf u (modp_itoa10 value) in
  addRawTextToObject u key (tmpbuf u).

Definition addBooleanToObject (u : unparser_s) (key : list Z) (oneOrZero : Z) : unparser_s :=
  addRawTextToObject u key (if oneOrZero =? 0 then bytes "false" else bytes "true").

Definition addNullToObject (u : unparser_s) (key : list Z) : unparser_s :=
  addRawTextToObject u key (bytes "null").

Definition addObjectToObject (u : unparser_s) (key : list Z) : unparser_s :=
  let '(r, u) := _jwObj u key in
  if r =? JSON_ERROR_OK then jwPush (jwPutch u 123) JSON_OBJECT else u.

Definition addArrayToObject (u : unparser_s) (key : list Z) : unparser_s :=
  let '(r, u) := _jwObj u key in
  if r =? JSON_ERROR_OK then jwPush (jwPutch u 91) JSON_ARRAY else u.

Definition addRawTextToArray (u : unparser_s) (rawtext : list Z) : unparser_s :=
  let '(r, u) := _jwArr u in
  if r =? JSON_ERROR_OK then jwPutraw u rawtext else u.

Definition addStringToArray (u : unparser_s) (value : list Z) : unparser_s :=
  let '(r, u) := _jwArr u in
  if r =? JSON_ERROR_OK then jwPutstr u value else u.

Definition addIntegerToArray (u : unparser_s) (value : Z) : unparser_s :=
  let u := set_tmpbuf u (modp_itoa10 value) in
  addRawTextToArray u (tmpbuf u).

Definition addBooleanToArray (u : unparser_s) (oneOrZero : Z) : unparser_s :=
  addRawTextToArray u (if oneOrZero =? 0 then bytes "false" else bytes "true").

Definition addNullToArray (u : unparser_s) : unparser_s :=
  addRawTextToArray u (bytes "null").

Definition addObjectToArray (u : unparser_s) : unparser_s :=
  let '(r, u) := _jwArr u in
  if r =? JSON_ERROR_OK then jwPush (jwPutch u 123) JSON_OBJECT else u.

Definition addArrayToArray (u : unparser_s) : unparser_s :=
  let '(r, u) := _jwArr u in
  if r =? JSON_ERROR_OK then jwPush (jwPutch u 91) JSON_ARRAY else u.

(** A handle as static storage holds it before first use: all zero. *)
Definition fresh : unparser_s :=
  {| buffer := repeat 0 JSON_JSON_SIZE; bufp := 0; tmpbuf := repeat 0 32;
     error := 0; callNo := 0; nodeStack := repeat frame0 JSON_STACK_DEPTH;
     stackpos := 0; isPretty := 0 |}.

End Unparser.

(** ** Properties of the serializer *)

Module UnparserFacts.
Import Unparser.

(** *** Fields that the output primitives leave alone *)

Lemma jwPutch_callNo u c : callNo (jwPutch u c) = callNo u.
Proof. unfold jwPutch. destruct (_ <=? _)%nat; reflexivity. Qed.

Lemma jwPutch_stack u c :
  nodeStack (jwPutch u c) = nodeStack u /\ stackpos (jwPutch u c) = stackpos u /\
  isPretty (jwPutch u c) = isPretty u.
Proof. unfold jwPutch. destruct (_ <=? _)%nat; simpl; auto. Qed.

Lemma jwPutraw_callNo str : forall u, callNo (jwPutraw u str) = callNo u.
Proof.
  induction str as [|c r IH]; intros u; simpl; [reflexivity|].
  destruct (c =? 0); [reflexivity|]. rewrite IH. apply jwPutch_callNo.
Qed.

Lemma jwPutraw_stack str : forall u,
  nodeStack (jwPutraw u str) = nodeStack u /\ stackpos (jwPutraw u str) = stackpos u /\
  isPretty (jwPutraw u str) = isPretty u.
Proof.
  induction str as [|c r IH]; intros u; simpl; [auto|].
  destruct (c =? 0); [auto|].
  destruct (IH (jwPutch u c)) as (-> & -> & ->). apply jwPutch_stack.
Qed.

Lemma jwPutstr_callNo u str : callNo (jwPutstr u str) = callNo u.
Proof.
  unfold jwPutstr. now rewrite jwPutch_callNo, jwPutraw_callNo, jwPutch_callNo.
Qed.

Lemma jwIndent_callNo n : forall u, callNo (jwIndent n u) = callNo u.
Proof.
  induction n as [|n IH]; intros u; cbn [jwIndent]; [reflexivity|].
  rewrite IH. apply jwPutraw_callNo.
Qed.

Lemma jwIndent_stack n : forall u,
  nodeStack (jwIndent n u) = nodeStack u /\ stackpos (jwIndent n u) = stackpos u /\
  isPretty (jwIndent n u) = isPretty u.
Proof.
  induction n as [|n IH]; intros u; cbn [jwIndent]; [auto|].
  destruct (IH (jwPutraw u (bytes "    "))) as (-> & -> & ->).
  apply jwPutraw_stack.
Qed.

Lemma jwPretty_callNo u : callNo (jwPretty u) = callNo u.
Proof.
  unfold jwPretty. destruct (isPretty u =? 0); [reflexivity|].
  now rewrite jwIndent_callNo, jwPutch_callNo.
Qed.

Lemma jwPretty_stack u :
  nodeStack (jwPretty u) = nodeStack u /\ stackpos (jwPretty u) = stackpos u /\
  isPretty (jwPretty u) = isPretty u.
Proof.
  unfold jwPretty. destruct (isPretty u =? 0); [auto|].
  destruct (jwIndent_stack (stackpos u + 1) (jwPutch u 10)) as (-> & -> & ->).
  apply jwPutch_stack.
Qed.

Lemma jwPush_callNo u t : callNo (jwPush u t) = callNo u.
Proof. unfold jwPush. destruct (_ <=? _)%nat; reflexivity. Qed.

Lemma jwPop_callNo u : callNo (snd (jwPop u)) = callNo u.
Proof. unfold jwPop. destruct (_ =? _)%nat; reflexivity. Qed.

Lemma jwPop_node u : fst (jwPop u) = nodeType (top u).
Proof. unfold jwPop. destruct (_ =? _)%nat; reflexivity. Qed.

Lemma jwPop_stack u :
  nodeStack (snd (jwPop u)) = nodeStack u /\
  stackpos (snd (jwPop u)) = Nat.pred (stackpos u) /\
  isPretty (snd (jwPop u)) = isPretty u.
Proof.
  unfold jwPop. destruct (stackpos u) as [|n] eqn:E; simpl; [auto|].
  repeat split. lia.
Qed.

(** *** The two prologues *)

Lemma _jwObj_ret u key : fst (_jwObj u key) = error (snd (_jwObj u key)).
Proof. unfold _jwObj. destruct (error u =? _); reflexivity. Qed.

Lemma _jwArr_ret u : fst (_jwArr u) = error (snd (_jwArr u)).
Proof. unfold _jwArr. destruct (error u =? _); reflexivity. Qed.

Lemma _jwObj_callNo u key :
  callNo (snd (_jwObj u key)) =
  if error u =? JSON_ERROR_OK then callNo u + 1 else callNo u.
Proof.
  unfold _jwObj. destruct (error u =? _); [|reflexivity]. simpl snd.
  match goal with |- callNo (if ?b then _ else _) = _ => destruct b end;
    rewrite ?jwPutch_callNo, jwPutstr_callNo, jwPretty_callNo;
    repeat match goal with |- context [if ?b then _ else _] => destruct b end;
    rewrite ?jwPutch_callNo; reflexivity.
Qed.

Lemma _jwArr_callNo u :
  callNo (snd (_jwArr u)) =
  if error u =? JSON_ERROR_OK then callNo u + 1 else callNo u.
Proof.
  unfold _jwArr. destruct (error u =? _); [|reflexivity]. simpl snd.
  rewrite jwPretty_callNo.
  repeat match goal with |- context [if ?b then _ else _] => destruct b end;
    rewrite ?jwPutch_callNo; reflexivity.
Qed.

(** The add and open calls, as one family. *)
Inductive add_call :=
| AddRawTextToObject (key rawtext : list Z)
| AddStringToObject (key value : list Z)
| AddIntegerToObject (key : list Z) (value : Z)
| AddBooleanToObject (key : list Z) (oneOrZero : Z)
| AddNullToObject (key : list Z)
| AddObjectToObject (key : list Z)
| AddArrayToObject (key : list Z)
| AddRawTextToArray (rawtext : list Z)
| AddStringToArray (value : list Z)
| AddIntegerToArray (value : Z)
| AddBooleanToArray (oneOrZero : Z)
| AddNullToArray
| AddObjectToArray
| AddArrayToArray.

Definition run_add (c : add_call) (u : unparser_s) : unparser_s :=
  match c with
  | AddRawTextToObject k r => addRawTextToObject u k r
  | AddStringToObject k v => addStringToObject u k v
  | AddIntegerToObject k v => addIntegerToObject u k v
  | AddBooleanToObject k b => addBooleanToObject u k b
  | AddNullToObject k => addNullToObject u k
  | AddObjectToObject k => addObjectToObject u k
  | AddArrayToObject k => addArrayToObject u k
  | AddRawTextToArray r => addRawTextToArray u r
  | AddStringToArray v => addStringToArray u v
  | AddIntegerToArray v => addIntegerToArray u v
  | AddBooleanToArray b => addBooleanToArray u b
  | AddNullToArray => addNullToArray u
  | AddObjectToArray => addObjectToArray u
  | AddArrayToArray => addArrayToArray u
  end.

Lemma addRawTextToObject_callNo u k r :
  callNo (addRawTextToObject u k r) =
  if error u =? JSON_ERROR_OK then callNo u + 1 else callNo u.
Proof.
  unfold addRawTextToObject. pose proof (_jwObj_callNo u k) as H.
  destruct (_jwObj u k) as [e v]; simpl in H.
  destruct (e =? _); rewrite ?jwPutraw_callNo; exact H.
Qed.

Lemma addRawTextToArray_callNo u r :
  callNo (addRawTextToArray u r) =
  if error u =? JSON_ERROR_OK then callNo u + 1 else callNo u.
Proof.
  unfold addRawTextToArray. pose proof (_jwArr_callNo u) as H.
  destruct (_jwArr u) as [e v]; simpl in H.
  destruct (e =? _); rewrite ?jwPutraw_callNo; exact H.
Qed.

Lemma run_add_callNo c u :
  callNo (run_add c u) =
  if error u =? JSON_ERROR_OK then callNo u + 1 else callNo u.
Proof.
  destruct c; simpl;
    unfold addIntegerToObject, addBooleanToObject, addNullToObject,
      addIntegerToArray, addBooleanToArray, addNullToArray;
    try apply addRawTextToObject_callNo; try apply addRawTextToArray_callNo;
    try (rewrite addRawTextToObject_callNo; reflexivity);
    try (rewrite addRawTextToArray_callNo; reflexivity);
    try (unfold addStringToObject, addObjectToObject, addArrayToObject;
         pose proof (_jwObj_callNo u key) as H;
         destruct (_jwObj u key) as [e v]; simpl in H;
         destruct (e =? _);
         rewrite ?jwPutstr_callNo, ?jwPush_callNo, ?jwPutch_callNo; exact H);
    try (unfold addStringToArray, addObjectToArray, addArrayToArray;
         pose proof (_jwArr_callNo u) as H;
         destruct (_jwArr u) as [e v]; simpl in H;
         destruct (e =? _);
         rewrite ?jwPutstr_callNo, ?jwPush_callNo, ?jwPutch_callNo; exact H).
Qed.

Lemma end_close_callNo u :
  callNo (snd (endObject u)) = callNo u /\
  callNo (snd (endArray u)) = callNo u /\
  callNo (snd (endJSON u)) = callNo u.
Proof.
  unfold endObject, endArray, endJSON.
  destruct (error u =? _); [|auto].
  pose proof (jwPop_callNo u) as Hp. destruct (jwPop u) as [node v]; simpl in Hp.
  repeat split; simpl snd;
    repeat match goal with |- context [if ?b then _ else _] => destruct b end;
    rewrite ?jwPutch_callNo, ?jwPretty_callNo, ?jwPutch_callNo; auto.
Qed.

Lemma end_close_ret u :
  fst (endObject u) = error (snd (endObject u)) /\
  fst (endArray u) = error (snd (endArray u)) /\
  fst (endJSON u) = error (snd (endJSON u)).
Proof.
  unfold endObject, endArray, endJSON.
  destruct (error u =? _); [|auto].
  destruct (jwPop u) as [node v]. auto.
Qed.

End UnparserFacts.

(** ** The serializer claims *)

Module UnparserClaims.
Import Unparser UnparserFacts.

(** Scenario 2 of the specification: root Object, compact, one integer and
    one string member, then [endJSON]. *)
Definition scenario2 (u : unparser_s) : Z * unparser_s :=
  let u := snd (startUnparsingJSON u JSON_OBJECT JSON_COMPACT) in
  let u := addIntegerToObject u (bytes "x") 5 in
  let u := addStringToObject u (bytes "y") (bytes "z") in
  endJSON u.

(** The text the specification expects of scenario 2. *)
Definition scenario2_expected : list Z :=
  bytes "{" ++ [ch_quote] ++ bytes "x" ++ [ch_quote] ++ bytes ":5," ++
  [ch_quote] ++ bytes "y" ++ [ch_quote] ++ bytes ":" ++
  [ch_quote] ++ bytes "z" ++ [ch_quote] ++ bytes "}".

(** C1, evaluated on the code.  [startUnparsingJSON] selects the opening
    character with [rootType == JSON_STRING], so a root Object is opened
    with a bracket: the episode ends without error and leaves the text
    expected by the specification with its first byte replaced by the
    opening bracket, closed by a brace. *)
Theorem C1_scenario2_opens_with_bracket :
  fst (scenario2 fresh) = JSON_ERROR_OK /\
  written (snd (scenario2 fresh)) = bytes "[" ++ tl scenario2_expected /\
  written (snd (scenario2 fresh)) <> scenario2_expected /\
  written (snd (startUnparsingJSON fresh JSON_OBJECT JSON_COMPACT)) = bytes "[".
Proof.
  assert (E : written (snd (scenario2 fresh)) = bytes "[" ++ tl scenario2_expected)
    by (vm_compute; reflexivity).
  split; [vm_compute; reflexivity|]. split; [exact E|]. split.
  - rewrite E. discriminate.
  - vm_compute; reflexivity.
Qed.

(** The state right after [startUnparsingJSON] with a root Object in pretty
    mode: an Object frame on top, no latched error. *)
Definition pretty_object : unparser_s :=
  snd (startUnparsingJSON fresh JSON_OBJECT JSON_PRETTY).

(** C7, evaluated on the code in pretty mode.  [_jwArr] calls [jwPretty]
    after it has latched the wrong-container error, so the array-only add
    still appends a newline and one indentation unit to the buffer. *)
Theorem C7_pretty_array_add_writes :
  error pretty_object = JSON_ERROR_OK /\
  nodeType (top pretty_object) = JSON_OBJECT /\
  error (addStringToArray pretty_object (bytes "v")) = JSON_ERROR_NOT_ARRAY /\
  written (addStringToArray pretty_object (bytes "v")) =
    written pretty_object ++ [10] ++ bytes "    " /\
  bufp (addStringToArray pretty_object (bytes "v")) <> bufp pretty_object.
Proof. repeat split; try (vm_compute; reflexivity). vm_compute. discriminate. Qed.

(** In compact mode the array-only add on an Object frame does what
    scenario 4 says: the error is latched and the buffer is untouched. *)
Lemma compact_array_add_on_object u value :
  error u = JSON_ERROR_OK ->
  nodeType (top u) = JSON_OBJECT ->
  isPretty u = 0 ->
  error (addStringToArray u value) = JSON_ERROR_NOT_ARRAY /\
  buffer (addStringToArray u value) = buffer u /\
  bufp (addStringToArray u value) = bufp u.
Proof.
  intros He Ht Hp. unfold addStringToArray, _jwArr. rewrite He. simpl.
  unfold top, frame_at in *. simpl. rewrite Ht. simpl.
  unfold jwPretty. simpl. rewrite Hp. simpl. auto.
Qed.

Lemma compact_array_add_on_object_witness :
  error (addStringToArray (snd (startUnparsingJSON fresh JSON_OBJECT JSON_COMPACT))
           (bytes "v")) = JSON_ERROR_NOT_ARRAY /\
  buffer (addStringToArray (snd (startUnparsingJSON fresh JSON_OBJECT JSON_COMPACT))
            (bytes "v")) =
    buffer (snd (startUnparsingJSON fresh JSON_OBJECT JSON_COMPACT)) /\
  bufp (addStringToArray (snd (startUnparsingJSON fresh JSON_OBJECT JSON_COMPACT))
          (bytes "v")) =
    bufp (snd (startUnparsingJSON fresh JSON_OBJECT JSON_COMPACT)).
Proof.
  apply (compact_array_add_on_object
           (snd (startUnparsingJSON fresh JSON_OBJECT JSON_COMPACT)) (bytes "v"));
    reflexivity.
Defined.

(** An array opened inside a root array, on a fresh handle. *)
Definition nested_array : unparser_s :=
  addArrayToArray (snd (startUnparsingJSON fresh JSON_ARRAY JSON_COMPACT)).

(** C10, the part that fails: a close call that succeeds leaves the call
    counter where it was, so the counter is not incremented on close
    attempts. *)
Lemma C10_close_keeps_callNo :
  error nested_array = JSON_ERROR_OK /\
  getError nested_array = 2 /\
  fst (endArray nested_array) = JSON_ERROR_OK /\
  getError (snd (endArray nested_array)) = 2 /\
  getError (snd (endArray nested_array)) <> getError nested_array + 1.
Proof. repeat split; try (vm_compute; reflexivity). vm_compute. discriminate. Qed.

(** C10 as amended.  [getError] is the call counter whatever error is
    latched; [startUnparsingJSON] sets the counter to 1; every add and open
    call increments it exactly when no error is latched on entry; the close
    and end calls leave it alone; and the values [endObject], [endArray] and
    [endJSON] return are the latched error of the state they leave, while
    [startUnparsingJSON] and [endUnparsingJSON] return OK whatever is
    latched. *)
Theorem C10_getError_is_call_counter u :
  getError u = callNo u /\
  (forall e, getError (set_error u e) = getError u) /\
  (forall t f, getError (snd (startUnparsingJSON u t f)) = 1) /\
  (forall c, getError (run_add c u) =
             if error u =? JSON_ERROR_OK then getError u + 1 else getError u) /\
  getError (snd (endObject u)) = getError u /\
  getError (snd (endArray u)) = getError u /\
  getError (snd (endJSON u)) = getError u /\
  fst (endObject u) = error (snd (endObject u)) /\
  fst (endArray u) = error (snd (endArray u)) /\
  fst (endJSON u) = error (snd (endJSON u)) /\
  (forall t f, fst (startUnparsingJSON u t f) = JSON_ERROR_OK) /\
  fst (endUnparsingJSON u) = JSON_ERROR_OK.
Proof.
  unfold getError.
  destruct (end_close_callNo u) as (H1 & H2 & H3).
  destruct (end_close_ret u) as (R1 & R2 & R3).
  repeat apply conj; auto.
  intros c. apply run_add_callNo.
Qed.

End UnparserClaims.

(** * The tokenizer *)

Module Tokenizer.

Record token_s := {
  tok_type : djson_type_e;
  tok_start : Z;
  tok_end : Z;
  tok_size : Z;
  tok_parent : Z
}.

Record jsmne_parser := { pos : nat; toknext : nat; toksuper : Z }.

(** What a call of the tokenizer comes to: it returns [r] and leaves the
    parser and the table as given; or it reads outside the token table;
    or a loop of the model was cut short ([Fuel], shown not to happen
    wherever a result is claimed). *)
Inductive outcome :=
| Ret (r : Z) (p : jsmne_parser) (tokens : list token_s)
| Undef
| Fuel.

Definition set_pos (p : jsmne_parser) (n : nat) : jsmne_parser :=
  {| pos := n; toknext := toknext p; toksuper := toksuper p |}.

Definition set_toksuper (p : jsmne_parser) (s : Z) : jsmne_parser :=
  {| pos := pos p; toknext := toknext p; toksuper := s |}.

Definition set_type (t : token_s) (ty : djson_type_e) : token_s :=
  {| tok_type := ty; tok_start := tok_start t; tok_end := tok_end t;
     tok_size := tok_size t; tok_parent := tok_parent t |}.

Definition set_start (t : token_s) (s : Z) : token_s :=
  {| tok_type := tok_type t; tok_start := s; tok_end := tok_end t;
     tok_size := tok_size t; tok_parent := tok_parent t |}.

Definition set_end (t : token_s) (e : Z) : token_s :=
  {| tok_type := tok_type t; tok_start := tok_start t; tok_end := e;
     tok_size := tok_size t; tok_parent := tok_parent t |}.

Definition set_parent (t : token_s) (q : Z) : token_s :=
  {| tok_type := tok_type t; tok_start := tok_start t; tok_end := tok_end t;
     tok_size := tok_size t; tok_parent := q |}.

(** [tok->size++] *)
Definition incr_size (t : token_s) : token_s :=
  {| tok_type := tok_type t; tok_start := tok_start t; tok_end := tok_end t;
     tok_size := tok_size t + 1; tok_parent := tok_parent t |}.

(** [tokens[i]] for an [int] index: defined inside the table only. *)
Definition tok_at (tokens : list token_s) (i : Z) : option token_s :=
  if i <? 0 then None else tokens !! Z.to_nat i.

(** [jsmne_alloc_token]: [None] is the NULL result; otherwise the index of
    the token handed out.  The token's [type] keeps what the slot held.
    The source tests [toknext >= num_tokens] only.  The table is a list
    here, and a slot behind its end is not handed out either; the two
    agree when the table has the [num_tokens] slots the caller announces,
    as the table of a handle has and as the theorems on arbitrary tables
    assume. *)
Definition jsmne_alloc_token (p : jsmne_parser) (tokens : list token_s)
    (num_tokens : nat) : option (nat * jsmne_parser * list token_s) :=
  if (num_tokens <=? toknext p)%nat then None
  else
    match tokens !! toknext p with
    | None => None
    | Some old =>
        let tok := {| tok_type := tok_type old; tok_start := -1; tok_end := -1;
                      tok_size := 0; tok_parent := -1 |} in
        Some (toknext p,
              {| pos := pos p; toknext := S (toknext p); toksuper := toksuper p |},
              <[toknext p := tok]> tokens)
    end.

Definition jsmne_fill_token (token : token_s) (type : djson_type_e)
    (start end_ : Z) : token_s :=
  {| tok_type := type; tok_start := start; tok_end := end_; tok_size := 0;
     tok_parent := tok_parent token |}.

(** The characters that end a primitive. *)
Definition is_prim_end (c : Z) : bool :=
  (c =? 9) || (c =? 13) || (c =? 10) || (c =? 32) ||
  (c =? 44) || (c =? 93) || (c =? 125).

(** The [for] loop of [jsmne_parse_primitive], counting down the bytes
    left before [len]: the offset at label [found], or [None] for a byte
    below 32 or from 127 on. *)
Fixpoint prim_scan (left : nat) (js : list Z) (pos : nat) : option nat :=
  match left with
  | O => Some pos
  | S left' =>
      let c := char_at js pos in
      if c =? 0 then Some pos
      else if is_prim_end c then Some pos
      else if (c <? 32) || (127 <=? c) then None
      else prim_scan left' js (S pos)
  end.

(** [jsmne_parse_primitive].  The table pointer is never NULL in this
    program, so those branches are left out.  The scan starts on the first
    character of a primitive, which is no delimiter, so [found] is reached
    past [start] and [pos--] does not wrap. *)
Definition jsmne_parse_primitive (p : jsmne_parser) (js : list Z) (len : nat)
    (tokens : list token_s) (num_tokens : nat) : Z * jsmne_parser * list token_s :=
  let start := pos p in
  match prim_scan (len - start) js start with
  | None => (JSON_ERROR_INVAL, set_pos p start, tokens)
  | Some q =>
      match jsmne_alloc_token (set_pos p q) tokens num_tokens with
      | None => (JSON_ERROR_NOMEM, set_pos p start, tokens)
      | Some (i, p1, tokens1) =>
          let fill t :=
            set_parent (jsmne_fill_token t JSON_PRIMITIVE (Z.of_nat start) (Z.of_nat q))
                       (toksuper p1) in
          (0, set_pos p1 (q - 1), alter fill i tokens1)
      end
  end.

Definition is_hex (c : Z) : bool :=
  ((48 <=? c) && (c <=? 57)) || ((65 <=? c) && (c <=? 70)) ||
  ((97 <=? c) && (c <=? 102)).

(** The escapes of one character: quote, slash, backslash, b, f, r, n, t. *)
Definition is_simple_escape (c : Z) : bool :=
  (c =? 34) || (c =? 47) || (c =? 92) || (c =? 98) ||
  (c =? 102) || (c =? 114) || (c =? 110) || (c =? 116).

(** The loop over the digits of [\uXXXX]: at most [i] more digits. *)
Fixpoint hex_loop (i : nat) (js : list Z) (len : nat) (pos : nat) : option nat :=
  match i with
  | O => Some pos
  | S i' =>
      if (pos <? len)%nat && negb (char_at js pos =? 0) then
        if is_hex (char_at js pos) then hex_loop i' js len (S pos) else None
      else Some pos
  end.

(** The backslash case of the string loop at offset [pos]: the offset the
    escape leaves the scan on (before the loop's own [pos++]), or [None]
    for an escape that is not allowed. *)
Definition string_escape (js : list Z) (len : nat) (pos : nat) : option nat :=
  if (char_at js pos =? 92) && (pos + 1 <? len)%nat then
    let e := char_at js (pos + 1) in
    if is_simple_escape e then Some (pos + 1)%nat
    else if e =? 117 then
      match hex_loop 4 js len (pos + 2) with
      | Some q => Some (q - 1)%nat
      | None => None
      end
    else None
  else Some pos.

(** The [for] loop of [jsmne_parse_string]. *)
Fixpoint string_loop (fuel : nat) (js : list Z) (len : nat) (start : nat)
    (p : jsmne_parser) (tokens : list token_s) (num_tokens : nat)
    (pos : nat) : outcome :=
  if (pos <? len)%nat && negb (char_at js pos =? 0) then
    if char_at js pos =? 34 then
      match jsmne_alloc_token (set_pos p pos) tokens num_tokens with
      | None => Ret JSON_ERROR_NOMEM (set_pos p start) tokens
      | Some (i, p1, tokens1) =>
          let fill t :=
            set_parent
              (jsmne_fill_token t JSON_STRING (Z.of_nat start + 1) (Z.of_nat pos))
              (toksuper p1) in
          Ret 0 p1 (alter fill i tokens1)
      end
    else
      match string_escape js len pos with
      | None => Ret JSON_ERROR_INVAL (set_pos p start) tokens
      | Some q =>
          match fuel with
          | O => Fuel
          | S fuel' => string_loop fuel' js len start p tokens num_tokens (S q)
          end
      end
  else Ret JSON_ERROR_PART (set_pos p start) tokens.

Definition jsmne_parse_string (p : jsmne_parser) (js : list Z) (len : nat)
    (tokens : list token_s) (num_tokens : nat) : outcome :=
  string_loop len js len (pos p) p tokens num_tokens (pos p + 1).

(** A token that was started and not yet closed. *)
Definition is_open (t : token_s) : bool :=
  negb (tok_start t =? -1) && (tok_end t =? -1).

Definition is_container (t : token_s) : bool :=
  type_eqb (tok_type t) JSON_ARRAY || type_eqb (tok_type t) JSON_OBJECT.

(** What one round of the scanning loop comes to: go on with the next
    byte, or leave [jsmne_parse]. *)
Inductive step_result :=
| Next (p : jsmne_parser) (tokens : list token_s) (k : Z)
| Stop (o : outcome).

(** The [for (;;)] loop of the closing case, from the token at index [i]
    along the [parent] links. *)
Fixpoint close_loop (fuel : nat) (type : djson_type_e) (p : jsmne_parser)
    (tokens : list token_s) (k : Z) (i : Z) : step_result :=
  match tok_at tokens i with
  | None => Stop Undef
  | Some token =>
      if is_open token then
        if negb (type_eqb (tok_type token) type)
        then Stop (Ret JSON_ERROR_INVAL p tokens)
        else Next (set_toksuper p (tok_parent token))
                  (alter (fun t => set_end t (Z.of_nat (pos p) + 1)) (Z.to_nat i) tokens)
                  k
      else if tok_parent token =? -1 then Next p tokens k
      else
        match fuel with
        | O => Stop Fuel
        | S fuel' => close_loop fuel' type p tokens k (tok_parent token)
        end
  end.

(** The [for] loop of the comma case over [i = n - 1 .. 0]: the index of
    the first container found still open. *)
Fixpoint comma_scan (n : nat) (tokens : list token_s) : option nat :=
  match n with
  | O => None
  | S i =>
      match tokens !! i with
      | Some t => if is_container t && is_open t then Some i else comma_scan i tokens
      | None => comma_scan i tokens
      end
  end.

(** The closing [for] loop of [jsmne_parse] over [i = n - 1 .. 0]: is some
    token still open? *)
Fixpoint any_open (n : nat) (tokens : list token_s) : bool :=
  match n with
  | O => false
  | S i =>
      match tokens !! i with
      | Some t => if is_open t then true else any_open i tokens
      | None => any_open i tokens
      end
  end.

(** [if (parser->toksuper != -1) tokens[parser->toksuper].size++] *)
Definition bump_super (p : jsmne_parser) (tokens : list token_s) : option (list token_s) :=
  if toksuper p =? -1 then Some tokens
  else
    match tok_at tokens (toksuper p) with
    | None => None
    | Some _ => Some (alter incr_size (Z.to_nat (toksuper p)) tokens)
    end.

Definition is_prim_start (c : Z) : bool :=
  (c =? 45) || ((48 <=? c) && (c <=? 57)) || (c =? 116) || (c =? 102) || (c =? 110).

(** The body of the scanning loop of [jsmne_parse] at [js[pos]]. *)
Definition parse_step (js : list Z) (len : nat) (num_tokens : nat)
    (p : jsmne_parser) (tokens : list token_s) (k : Z) : step_result :=
  let c := char_at js (pos p) in
  if (c =? 123) || (c =? 91) then
    match jsmne_alloc_token p tokens num_tokens with
    | None => Stop (Ret JSON_ERROR_NOMEM p tokens)
    | Some (i, p1, tokens1) =>
        match bump_super p1 tokens1 with
        | None => Stop Undef
        | Some tokens2 =>
            let link t := if toksuper p1 =? -1 then t else set_parent t (toksuper p1) in
            let init t :=
              set_start (set_type (link t) (if c =? 123 then JSON_OBJECT else JSON_ARRAY))
                        (Z.of_nat (pos p1)) in
            Next (set_toksuper p1 (Z.of_nat (toknext p1) - 1))
                 (alter init i tokens2) (k + 1)
        end
    end
  else if (c =? 125) || (c =? 93) then
    let type := if c =? 125 then JSON_OBJECT else JSON_ARRAY in
    if (toknext p <? 1)%nat then Stop (Ret JSON_ERROR_INVAL p tokens)
    else close_loop (toknext p) type p tokens k (Z.of_nat (toknext p) - 1)
  else if c =? 34 then
    match jsmne_parse_string p js len tokens num_tokens with
    | Ret r p1 tokens1 =>
        if r <? 0 then Stop (Ret r p1 tokens1)
        else
          match bump_super p1 tokens1 with
          | None => Stop Undef
          | Some tokens2 => Next p1 tokens2 (k + 1)
          end
    | o => Stop o
    end
  else if (c =? 9) || (c =? 13) || (c =? 10) || (c =? 32) then Next p tokens k
  else if c =? 58 then Next (set_toksuper p (Z.of_nat (toknext p) - 1)) tokens k
  else if c =? 44 then
    match tok_at tokens (toksuper p) with
    | None => Stop Undef
    | Some t =>
        if negb (type_eqb (tok_type t) JSON_ARRAY) && negb (type_eqb (tok_type t) JSON_OBJECT)
        then
          match comma_scan (toknext p) tokens with
          | Some i => Next (set_toksuper p (Z.of_nat i)) tokens k
          | None => Next (set_toksuper p (tok_parent t)) tokens k
          end
        else Next p tokens k
    end
  else if is_prim_start c then
    match tok_at tokens (toksuper p) with
    | None => Stop Undef
    | Some t =>
        if type_eqb (tok_type t) JSON_OBJECT ||
           (type_eqb (tok_type t) JSON_STRING && negb (tok_size t =? 0))
        then Stop (Ret JSON_ERROR_INVAL p tokens)
        else
          let '(r, p1, tokens1) := jsmne_parse_primitive p js len tokens num_tokens in
          if r <? 0 then Stop (Ret r p1 tokens1)
          else
            match bump_super p1 tokens1 with
            | None => Stop Undef
            | Some tokens2 => Next p1 tokens2 (k + 1)
            end
    end
  else Stop (Ret JSON_ERROR_INVAL p tokens).

(** The scanning loop of [jsmne_parse] followed by its closing check. *)
Fixpoint parse_loop (fuel : nat) (js : list Z) (len : nat) (num_tokens : nat)
    (p : jsmne_parser) (tokens : list token_s) (k : Z) : outcome :=
  if (pos p <? len)%nat && negb (char_at js (pos p) =? 0) then
    match fuel with
    | O => Fuel
    | S fuel' =>
        match parse_step js len num_tokens p tokens k with
        | Stop o => o
        | Next p1 tokens1 k1 =>
            parse_loop fuel' js len num_tokens (set_pos p1 (S (pos p1))) tokens1 k1
        end
    end
  else if any_open (toknext p) tokens then Ret JSON_ERROR_PART p tokens
  else Ret k p tokens.

Definition jsmne_init : jsmne_parser := {| pos := 0; toknext := 0; toksuper := -1 |}.

(** [jsmne_parse] on a parser state [p].  Every round moves [pos] forward,
    so [len] rounds are enough. *)
Definition jsmne_parse (p : jsmne_parser) (js : list Z) (len : nat)
    (tokens : list token_s) (num_tokens : nat) : outcome :=
  parse_loop len js len num_tokens p tokens 0.

(** ** The parser handle and the cursor *)

Record parser_s := {
  json : list Z;
  counter : Z;
  length : Z;
  tokens : list token_s
}.

(** Conversion to [size_t]. *)
Definition to_size_t (z : Z) : Z := z mod 2 ^ 64.

(** What [startParsingJSON] returns and leaves in the handle; [None] when
    the tokenizer has no defined result. *)
Definition startParsingJSON (parser : parser_s) (js : list Z) : option (Z * parser_s) :=
  match jsmne_parse jsmne_init js (strlen js) (tokens parser) JSON_TOKEN_SIZE with
  | Ret len _ tokens1 =>
      if len =? JSON_ERROR_NOMEM then
        Some (JSON_ERROR_NOMEM,
              {| json := json parser; counter := counter parser;
                 length := length parser; tokens := tokens1 |})
      else
        Some (JSON_ERROR_OK,
              {| json := js; counter := 0; length := to_size_t len; tokens := tokens1 |})
  | _ => None
  end.

Definition endParsingJSON (parser : parser_s) : Z := JSON_ERROR_OK.

Definition hasBeforeToken (parser : parser_s) : bool := 0 <? counter parser.

Definition hasCurrentToken (parser : parser_s) : bool :=
  (0 <=? counter parser) && (counter parser <=? to_size_t (length parser - 1)).

Definition hasNextToken (parser : parser_s) : bool :=
  counter parser <? to_size_t (length parser - 1).

Definition beforeToken (parser : parser_s) : parser_s :=
  {| json := json parser; counter := to_size_t (counter parser - 1);
     length := length parser; tokens := tokens parser |}.

Definition nextToken (parser : parser_s) : parser_s :=
  {| json := json parser; counter := to_size_t (counter parser + 1);
     length := length parser; tokens := tokens parser |}.

Definition sizeOfTokens (parser : parser_s) : Z := length parser.

(** The kind queries: the [int] returned, or [None] when the token read
    lies outside the table. *)
Definition beforeTokenType (parser : parser_s) : option Z :=
  if 0 <? counter parser
  then option_map (fun t => type_code (tok_type t)) (tok_at (tokens parser) (counter parser - 1))
  else Some (-1).

Definition currentTokenType (parser : parser_s) : option Z :=
  if (0 <=? counter parser) && (counter parser <=? to_size_t (length parser - 1))
  then option_map (fun t => type_code (tok_type t)) (tok_at (tokens parser) (counter parser))
  else Some (-1).

Definition nextTokenType (parser : parser_s) : option Z :=
  if counter parser <? to_size_t (length parser - 1)
  then option_map (fun t => type_code (tok_type t)) (tok_at (tokens parser) (counter parser + 1))
  else Some (-1).

Definition token0 : token_s :=
  {| tok_type := JSON_PRIMITIVE; tok_start := 0; tok_end := 0; tok_size := 0;
     tok_parent := 0 |}.

(** A handle as static storage holds it before first use: all zero. *)
Definition fresh : parser_s :=
  {| json := []; counter := 0; length := 0; tokens := repeat token0 JSON_TOKEN_SIZE |}.

End Tokenizer.

(** ** The tokenizer on concrete texts *)

Module TokenizerScenarios.
Import Tokenizer.

(** The bytes of token [t] in the text [js]. *)
Definition tok_text (js : list Z) (t : token_s) : list Z :=
  take (Z.to_nat (tok_end t - tok_start t)) (drop (Z.to_nat (tok_start t)) js).

(** What [startParsingJSON] returns, when defined. *)
Definition start_code (parser : parser_s) (js : list Z) : option Z :=
  option_map fst (startParsingJSON parser js).

(** The token-table length [startParsingJSON] stores, when defined. *)
Definition start_length (parser : parser_s) (js : list Z) : option Z :=
  option_map (fun rh => length (snd rh)) (startParsingJSON parser js).

(** The first [n] tokens of the table [startParsingJSON] leaves. *)
Definition start_tokens (parser : parser_s) (js : list Z) (n : nat) : option (list token_s) :=
  option_map (fun rh => take n (tokens (snd rh))) (startParsingJSON parser js).

(** An opening quote followed by [abc] and the end of the text. *)
Definition open_string : list Z := [ch_quote] ++ bytes "abc".

(** C2, evaluated on the code.  On a byte that starts no JSON construct the
    scan returns the invalid-character code, on an unterminated string the
    partial-input code; [startParsingJSON] tests the scan's result against
    the out-of-memory code only, so in both cases it returns OK and stores
    the negative code, converted to [size_t], as the table length.  A text
    of 4097 opening brackets, which exhausts the table, is reported. *)
Theorem C2_start_returns_OK_on_failed_scan (parser : parser_s) :
  jsmne_parse jsmne_init (bytes "x") 1 (tokens parser) JSON_TOKEN_SIZE =
    Ret JSON_ERROR_INVAL jsmne_init (tokens parser) /\
  startParsingJSON parser (bytes "x") =
    Some (JSON_ERROR_OK,
          {| json := bytes "x"; counter := 0; length := 2 ^ 64 - 2;
             tokens := tokens parser |}) /\
  jsmne_parse jsmne_init open_string 4 (tokens parser) JSON_TOKEN_SIZE =
    Ret JSON_ERROR_PART jsmne_init (tokens parser) /\
  startParsingJSON parser open_string =
    Some (JSON_ERROR_OK,
          {| json := open_string; counter := 0; length := 2 ^ 64 - 3;
             tokens := tokens parser |}) /\
  start_code fresh (repeat 91 4097) = Some JSON_ERROR_NOMEM.
Proof.
  repeat apply conj;
    [reflexivity | reflexivity | reflexivity | reflexivity | vm_compute; reflexivity].
Qed.

(** An empty array followed by a closing brace. *)
Definition stray_closer : list Z := bytes "[]}".

(** C3, evaluated on the code.  When the closing brace of [stray_closer] is
    met, one token exists and none is open: the walk along the parent links
    ends at the unparented array token and leaves the loop without an
    error, so the scan succeeds with one token and [startParsingJSON]
    returns OK. *)
Theorem C3_stray_closer_is_accepted :
  (exists tokens1,
     jsmne_parse jsmne_init stray_closer 3 (tokens fresh) JSON_TOKEN_SIZE =
       Ret 1 {| pos := 3; toknext := 1; toksuper := -1 |} tokens1) /\
  start_code fresh stray_closer = Some JSON_ERROR_OK /\
  start_length fresh stray_closer = Some 1 /\
  start_tokens fresh stray_closer 1 =
    Some [ {| tok_type := JSON_ARRAY; tok_start := 0; tok_end := 2;
              tok_size := 0; tok_parent := -1 |} ].
Proof.
  repeat apply conj; try (vm_compute; reflexivity).
  eexists. vm_compute. reflexivity.
Qed.

(** Scenario 1 of the specification: an object with a number member and an
    array member. *)
Definition scenario1 : list Z :=
  bytes "{" ++ [ch_quote] ++ bytes "a" ++ [ch_quote] ++ bytes ":1," ++
  [ch_quote] ++ bytes "b" ++ [ch_quote] ++ bytes ":[true,null]}".

(** C4 as stated fails on the count: the table holds seven tokens, not six. *)
Lemma C4_scenario1_has_seven_tokens :
  start_length fresh scenario1 = Some 7 /\
  start_length fresh scenario1 <> Some 6.
Proof.
  assert (E : start_length fresh scenario1 = Some 7) by (vm_compute; reflexivity).
  split; [exact E|]. rewrite E. discriminate.
Qed.

(** C4 as amended.  Parsing scenario 1 returns OK and stores the length 7;
    the seven tokens are, in order, Object (size 2), String [a],
    Primitive [1], String [b], Array (size 2), Primitive [true],
    Primitive [null], with the spans and parent links shown. *)
Theorem C4_scenario1_tokens :
  start_code fresh scenario1 = Some JSON_ERROR_OK /\
  start_length fresh scenario1 = Some 7 /\
  start_tokens fresh scenario1 7 =
    Some [ {| tok_type := JSON_OBJECT; tok_start := 0; tok_end := 23;
              tok_size := 2; tok_parent := -1 |};
           {| tok_type := JSON_STRING; tok_start := 2; tok_end := 3;
              tok_size := 1; tok_parent := 0 |};
           {| tok_type := JSON_PRIMITIVE; tok_start := 5; tok_end := 6;
              tok_size := 0; tok_parent := 1 |};
           {| tok_type := JSON_STRING; tok_start := 8; tok_end := 9;
              tok_size := 1; tok_parent := 0 |};
           {| tok_type := JSON_ARRAY; tok_start := 11; tok_end := 22;
              tok_size := 2; tok_parent := 3 |};
           {| tok_type := JSON_PRIMITIVE; tok_start := 12; tok_end := 16;
              tok_size := 0; tok_parent := 4 |};
           {| tok_type := JSON_PRIMITIVE; tok_start := 17; tok_end := 21;
              tok_size := 0; tok_parent := 4 |} ] /\
  option_map (map (tok_text scenario1)) (start_tokens fresh scenario1 7) =
    Some [ scenario1; bytes "a"; bytes "1"; bytes "b";
           bytes "[true,null]"; bytes "true"; bytes "null" ].
Proof. repeat apply conj; vm_compute; reflexivity. Qed.

(** The handle after parsing the empty text: no token, cursor at 0. *)
Definition empty_table : parser_s :=
  {| json := []; counter := 0; length := 0; tokens := tokens fresh |}.

(** C8, evaluated on the code at a table of length 0.  [length - 1] is
    computed in [size_t] and wraps to 2^64 - 1, so with the cursor at 0 the
    current and the next position are reported present although neither
    lies in [0, 0), and the kind queries return the kind left in the unused
    slots 0 and 1 instead of the sentinel -1. *)
Theorem C8_empty_table_has_current_and_next :
  startParsingJSON fresh [] = Some (JSON_ERROR_OK, empty_table) /\
  hasBeforeToken empty_table = false /\
  hasCurrentToken empty_table = true /\
  hasNextToken empty_table = true /\
  beforeTokenType empty_table = Some (-1) /\
  currentTokenType empty_table = Some (type_code JSON_PRIMITIVE) /\
  nextTokenType empty_table = Some (type_code JSON_PRIMITIVE).
Proof. repeat apply conj; vm_compute; reflexivity. Qed.

(** The sentinel of the kind queries is the code of no kind. *)
Lemma sentinel_is_no_kind (t : djson_type_e) : type_code t <> -1.
Proof. destruct t; discriminate. Qed.

End TokenizerScenarios.

(** ** General facts about the scanning loop *)

Module TokenizerFacts.
Import Tokenizer.

(** Boolean tests on characters, turned into arithmetic. *)
Ltac bool_arith :=
  repeat match goal with
  | H : negb _ = true |- _ => apply negb_true_iff in H
  | H : negb _ = false |- _ => apply negb_false_iff in H
  | H : (_ && _) = true |- _ => apply andb_true_iff in H; destruct H
  | H : (_ || _) = false |- _ => apply orb_false_iff in H; destruct H
  | H : (_ =? _) = true |- _ => apply Z.eqb_eq in H
  | H : (_ =? _) = false |- _ => apply Z.eqb_neq in H
  | H : (_ <=? _) = true |- _ => apply Z.leb_le in H
  | H : (_ <=? _) = false |- _ => apply Z.leb_gt in H
  | H : (_ <? _) = true |- _ => apply Z.ltb_lt in H
  | H : (_ <? _) = false |- _ => apply Z.ltb_ge in H
  | H : (_ <? _)%nat = true |- _ => apply Nat.ltb_lt in H
  | H : (_ <? _)%nat = false |- _ => apply Nat.ltb_ge in H
  | H : (_ <=? _)%nat = true |- _ => apply Nat.leb_le in H
  | H : (_ <=? _)%nat = false |- _ => apply Nat.leb_gt in H
  end.

(** The loop condition [pos < len && js[pos] != 0]. *)
Definition guard (js : list Z) (len : nat) (p : jsmne_parser) : bool :=
  (pos p <? len)%nat && negb (char_at js (pos p) =? 0).

(** [n] rounds of the scanning loop that all go on: the state before
    round [n + 1]. *)
Fixpoint run (n : nat) (js : list Z) (len num_tokens : nat)
    (p : jsmne_parser) (tokens : list token_s) (k : Z)
    : option (jsmne_parser * list token_s * Z) :=
  match n with
  | O => Some (p, tokens, k)
  | S n' =>
      if guard js len p then
        match parse_step js len num_tokens p tokens k with
        | Next p1 tokens1 k1 =>
            run n' js len num_tokens (set_pos p1 (S (pos p1))) tokens1 k1
        | Stop _ => None
        end
      else None
  end.

Lemma parse_loop_run n : forall f js len num p tokens k p' tokens' k',
  run n js len num p tokens k = Some (p', tokens', k') ->
  parse_loop (n + f) js len num p tokens k = parse_loop f js len num p' tokens' k'.
Proof.
  induction n as [|n IH]; intros f js len num p tokens k p' tokens' k' H.
  - simpl in H. injection H as -> -> ->. reflexivity.
  - cbn [run] in H. unfold guard in H. cbn [Nat.add parse_loop].
    destruct ((pos p <? len)%nat && negb (char_at js (pos p) =? 0)); [|discriminate].
    destruct (parse_step js len num p tokens k) as [p1 t1 k1|]; [|discriminate].
    apply IH. exact H.
Qed.

Lemma run_app n m : forall js len num p tokens k p' tokens' k',
  run n js len num p tokens k = Some (p', tokens', k') ->
  run (n + m) js len num p tokens k = run m js len num p' tokens' k'.
Proof.
  induction n as [|n IH]; intros js len num p tokens k p' tokens' k' H.
  - simpl in H. injection H as -> -> ->. reflexivity.
  - cbn [run Nat.add] in *. destruct (guard js len p); [|discriminate].
    destruct (parse_step js len num p tokens k) as [p1 t1 k1|]; [|discriminate].
    apply IH. exact H.
Qed.

(** *** Every round moves [pos] forward *)

Lemma alloc_pos p tokens num i p1 tokens1 :
  jsmne_alloc_token p tokens num = Some (i, p1, tokens1) ->
  pos p1 = pos p /\ toksuper p1 = toksuper p /\ toknext p1 = S (toknext p) /\
  i = toknext p.
Proof.
  unfold jsmne_alloc_token. destruct (num <=? toknext p)%nat; [discriminate|].
  destruct (tokens !! toknext p); [|discriminate].
  intros H. injection H as <- <- <-. simpl. auto.
Qed.

Lemma prim_scan_ge left : forall js pos q,
  prim_scan left js pos = Some q -> (pos <= q)%nat.
Proof.
  induction left as [|left IH]; intros js pos q H; simpl in H.
  - injection H as <-. lia.
  - destruct (char_at js pos =? 0); [injection H as <-; lia|].
    destruct (is_prim_end (char_at js pos)); [injection H as <-; lia|].
    destruct ((char_at js pos <? 32) || (127 <=? char_at js pos)); [discriminate|].
    apply IH in H. lia.
Qed.

Lemma prim_start_not_end c :
  is_prim_start c = true -> is_prim_end c = false /\ (c =? 0) = false.
Proof.
  unfold is_prim_start, is_prim_end. intros H.
  repeat (apply orb_true_iff in H; destruct H as [H|H]); bool_arith;
    split; repeat (apply orb_false_iff; split); apply Z.eqb_neq; lia.
Qed.

Lemma prim_scan_gt left js pos q :
  is_prim_start (char_at js pos) = true ->
  prim_scan (S left) js pos = Some q -> (pos < q)%nat.
Proof.
  intros Hs H. apply prim_start_not_end in Hs as [He H0].
  simpl in H. rewrite H0, He in H.
  destruct ((char_at js pos <? 32) || (127 <=? char_at js pos)); [discriminate|].
  apply prim_scan_ge in H. lia.
Qed.

Lemma hex_loop_ge i : forall js len pos q,
  hex_loop i js len pos = Some q -> (pos <= q)%nat.
Proof.
  induction i as [|i IH]; intros js len pos q H; simpl in H.
  - injection H as <-. lia.
  - destruct ((pos <? len)%nat && negb (char_at js pos =? 0)); [|injection H as <-; lia].
    destruct (is_hex (char_at js pos)); [|discriminate].
    apply IH in H. lia.
Qed.

Lemma string_escape_ge js len pos q :
  string_escape js len pos = Some q -> (pos <= q)%nat.
Proof.
  unfold string_escape.
  destruct ((char_at js pos =? 92) && (pos + 1 <? len)%nat); [|intros H; injection H as <-; lia].
  destruct (is_simple_escape _); [intros H; injection H as <-; lia|].
  destruct (_ =? 117); [|discriminate].
  destruct (hex_loop 4 js len (pos + 2)) as [q'|] eqn:E; [|discriminate].
  apply hex_loop_ge in E. intros H. injection H as <-. lia.
Qed.

Lemma string_loop_pos fuel : forall js len start p tokens num pos0 r p1 tokens1,
  string_loop fuel js len start p tokens num pos0 = Ret r p1 tokens1 ->
  (r <? 0) = false ->
  (pos0 <= pos p1)%nat /\ toksuper p1 = toksuper p /\ toknext p1 = S (toknext p).
Proof.
  induction fuel as [|fuel IH]; intros js len start p tokens num pos0 r p1 tokens1 H Hr;
    cbn [string_loop] in H;
    (destruct ((pos0 <? len)%nat && negb (char_at js pos0 =? 0));
     [|injection H as <- <- <-; discriminate Hr]);
    (destruct (char_at js pos0 =? 34);
     [destruct (jsmne_alloc_token (set_pos p pos0) tokens num) as [[[i p2] t2]|] eqn:E;
      [apply alloc_pos in E as (E1 & E2 & E3 & _); injection H as <- <- <-;
       simpl in *; rewrite E1; auto with lia
      |injection H as <- <- <-; discriminate Hr]|]);
    (destruct (string_escape js len pos0) as [q|] eqn:E;
     [|injection H as <- <- <-; discriminate Hr]).
  - discriminate H.
  - apply string_escape_ge in E. apply IH in H; [|exact Hr]. intuition lia.
Qed.

Lemma close_loop_pos fuel : forall ty p tokens k i p1 tokens1 k1,
  close_loop fuel ty p tokens k i = Next p1 tokens1 k1 ->
  pos p1 = pos p /\ toknext p1 = toknext p.
Proof.
  induction fuel as [|fuel IH]; intros ty p tokens k i p1 tokens1 k1 H;
    cbn [close_loop] in H;
    (destruct (tok_at tokens i) as [t|]; [|discriminate]);
    (destruct (is_open t);
     [destruct (negb (type_eqb (tok_type t) ty)); [discriminate|];
      injection H as <- <- <-; auto|]);
    (destruct (tok_parent t =? -1); [injection H as <- <- <-; auto|]).
  - discriminate.
  - eapply IH; eauto.
Qed.

Lemma parse_primitive_pos p js len tokens num r p1 tokens1 :
  (pos p < len)%nat ->
  is_prim_start (char_at js (pos p)) = true ->
  jsmne_parse_primitive p js len tokens num = (r, p1, tokens1) ->
  (r <? 0) = false ->
  (pos p <= pos p1)%nat /\ toksuper p1 = toksuper p /\ toknext p1 = S (toknext p).
Proof.
  intros Hlt Hs H Hr. unfold jsmne_parse_primitive in H.
  destruct (len - pos p)%nat as [|left] eqn:El; [lia|].
  destruct (prim_scan (S left) js (pos p)) as [q|] eqn:E;
    [|injection H as <- <- <-; discriminate Hr].
  apply prim_scan_gt in E; [|exact Hs].
  destruct (jsmne_alloc_token (set_pos p q) tokens num) as [[[i p2] t2]|] eqn:Ea;
    [|injection H as <- <- <-; discriminate Hr].
  apply alloc_pos in Ea as (E1 & E2 & E3 & _). injection H as <- <- <-.
  simpl in *. auto with lia.
Qed.

Lemma bump_super_some p tokens tokens2 :
  bump_super p tokens = Some tokens2 ->
  tokens2 = if toksuper p =? -1 then tokens
            else alter incr_size (Z.to_nat (toksuper p)) tokens.
Proof.
  unfold bump_super. destruct (toksuper p =? -1); [congruence|].
  destruct (tok_at tokens (toksuper p)); congruence.
Qed.

Lemma parse_step_pos js len num p tokens k p1 tokens1 k1 :
  guard js len p = true ->
  parse_step js len num p tokens k = Next p1 tokens1 k1 ->
  (pos p <= pos p1)%nat.
Proof.
  unfold guard, parse_step. intros Hg H. apply andb_true_iff in Hg as [Hlt _].
  apply Nat.ltb_lt in Hlt.
  destruct ((char_at js (pos p) =? 123) || (char_at js (pos p) =? 91)).
  { destruct (jsmne_alloc_token p tokens num) as [[[i p2] t2]|] eqn:E; [|discriminate].
    apply alloc_pos in E as (E1 & _).
    destruct (bump_super p2 t2); [|discriminate].
    injection H as <- <- <-. simpl. lia. }
  destruct ((char_at js (pos p) =? 125) || (char_at js (pos p) =? 93)).
  { destruct (toknext p <? 1)%nat; [discriminate|].
    apply close_loop_pos in H as [-> _]. lia. }
  destruct (char_at js (pos p) =? 34).
  { unfold jsmne_parse_string in H.
    destruct (string_loop len js len (pos p) p tokens num (pos p + 1))
      as [r p2 t2| |] eqn:E; try discriminate.
    destruct (r <? 0) eqn:Hr; [discriminate|].
    apply string_loop_pos in E as (E1 & _); [|exact Hr].
    destruct (bump_super p2 t2); [|discriminate].
    injection H as <- <- <-. lia. }
  destruct ((char_at js (pos p) =? 9) || (char_at js (pos p) =? 13) ||
            (char_at js (pos p) =? 10) || (char_at js (pos p) =? 32)).
  { injection H as <- <- <-. lia. }
  destruct (char_at js (pos p) =? 58).
  { injection H as <- <- <-. simpl. lia. }
  destruct (char_at js (pos p) =? 44).
  { destruct (tok_at tokens (toksuper p)) as [t|]; [|discriminate].
    destruct (negb (type_eqb (tok_type t) JSON_ARRAY) &&
              negb (type_eqb (tok_type t) JSON_OBJECT)).
    - destruct (comma_scan (toknext p) tokens); injection H as <- <- <-; simpl; lia.
    - injection H as <- <- <-. lia. }
  destruct (is_prim_start (char_at js (pos p))) eqn:Hs; [|discriminate].
  destruct (tok_at tokens (toksuper p)) as [t|]; [|discriminate].
  destruct (type_eqb (tok_type t) JSON_OBJECT ||
            type_eqb (tok_type t) JSON_STRING && negb (tok_size t =? 0)); [discriminate|].
  destruct (jsmne_parse_primitive p js len tokens num) as [[r p2] t2] eqn:E.
  destruct (r <? 0) eqn:Hr; [discriminate|].
  apply parse_primitive_pos in E as (E1 & _); auto.
  destruct (bump_super p2 t2); [|discriminate].
  injection H as <- <- <-. lia.
Qed.

Lemma run_pos n : forall js len num p tokens k p' tokens' k',
  run n js len num p tokens k = Some (p', tokens', k') ->
  (pos p + n <= pos p')%nat.
Proof.
  induction n as [|n IH]; intros js len num p tokens k p' tokens' k' H.
  - simpl in H. injection H as <- <- <-. lia.
  - cbn [run] in H. destruct (guard js len p) eqn:Hg; [|discriminate].
    destruct (parse_step js len num p tokens k) as [p1 t1 k1|] eqn:E; [|discriminate].
    apply parse_step_pos in E; [|exact Hg].
    apply IH in H. simpl in H. lia.
Qed.

(** *** Reading a text through one of its suffixes *)

Lemma char_at_drop js n l i :
  drop n js = l -> (i < List.length l)%nat -> char_at js (n + i) = nth i l 0.
Proof.
  intros <- Hi. unfold char_at. rewrite !nth_lookup, lookup_drop. reflexivity.
Qed.

Lemma char_at_drop_0 js n c r : drop n js = c :: r -> char_at js n = c.
Proof.
  intros H. replace n with (n + 0)%nat by lia.
  erewrite char_at_drop; [|exact H|simpl; lia]. reflexivity.
Qed.

Lemma drop_length_eq {A} (js : list A) n l :
  drop n js = l -> l <> [] -> List.length js = (n + List.length l)%nat.
Proof.
  intros <- Hne. rewrite length_drop.
  destruct (decide (n < List.length js)%nat); [lia|].
  rewrite drop_ge in Hne by lia. congruence.
Qed.

Lemma drop_step {A} (js : list A) n i l :
  drop n js = l -> drop (n + i) js = drop i l.
Proof. intros <-. rewrite drop_drop. reflexivity. Qed.

Lemma strlen_no_nul js : Forall (fun c => c <> 0) js -> strlen js = List.length js.
Proof.
  induction 1 as [|c r Hc _ IH]; simpl; [reflexivity|].
  destruct (c =? 0) eqn:E; [apply Z.eqb_eq in E; contradiction|]. now rewrite IH.
Qed.

Lemma char_at_no_nul js i :
  Forall (fun c => c <> 0) js -> (i < List.length js)%nat -> (char_at js i =? 0) = false.
Proof.
  intros Hf Hi. apply Z.eqb_neq. unfold char_at.
  destruct (lookup_lt_is_Some_2 js i Hi) as [c Hc].
  rewrite nth_lookup, Hc. simpl.
  rewrite Forall_lookup in Hf. exact (Hf i c Hc).
Qed.

End TokenizerFacts.

(** ** Unterminated strings *)

Module UnterminatedString.
Import Tokenizer TokenizerFacts.

(** The bytes that may follow an opening quote up to the end of the text
    when the string is never closed and every escape in it is an allowed
    one: plain bytes other than quote and backslash; a backslash with one
    of the eight escape characters; [\u] with four hexadecimal digits;
    and, at the very end of the text, a lone backslash or [\u] with fewer
    than four digits. *)
Inductive open_body : list Z -> Prop :=
| ob_end : open_body []
| ob_plain c r : c <> 34 -> c <> 92 -> open_body r -> open_body (c :: r)
| ob_escape e r : is_simple_escape e = true -> open_body r -> open_body (92 :: e :: r)
| ob_unicode h1 h2 h3 h4 r :
    is_hex h1 = true -> is_hex h2 = true -> is_hex h3 = true -> is_hex h4 = true ->
    open_body r -> open_body (92 :: 117 :: h1 :: h2 :: h3 :: h4 :: r)
| ob_backslash_last : open_body [92]
| ob_unicode_cut h :
    (List.length h < 4)%nat -> forallb is_hex h = true -> open_body (92 :: 117 :: h).

Lemma simple_escape_not_u e : is_simple_escape e = true -> (e =? 117) = false.
Proof.
  unfold is_simple_escape. intros H. apply Z.eqb_neq.
  repeat (apply orb_true_iff in H; destruct H as [H|H]); bool_arith; lia.
Qed.

Lemma is_hex_not_nul c : is_hex c = true -> (c =? 0) = false.
Proof.
  unfold is_hex. intros H. apply Z.eqb_neq.
  repeat (apply orb_true_iff in H; destruct H as [H|H]); bool_arith; lia.
Qed.

(** The hexadecimal loop over digits that are all there. *)
Lemma hex_loop_digits js len n h : forall i r,
  drop n js = h ++ r -> forallb is_hex h = true ->
  (n + List.length h <= len)%nat -> (List.length h <= i)%nat ->
  (r = [] /\ len = (n + List.length h)%nat \/ List.length h = i) ->
  hex_loop i js len n = Some (n + List.length h)%nat.
Proof.
  revert n. induction h as [|c h IH]; intros n i r Hd Hh Hlen Hi Hend.
  - simpl in *. rewrite Nat.add_0_r.
    destruct i as [|i]; [reflexivity|]. simpl.
    destruct Hend as [[-> ->]|]; [|lia].
    rewrite Nat.add_0_r, Nat.ltb_irrefl. reflexivity.
  - simpl in Hh. apply andb_true_iff in Hh as [Hc Hh].
    destruct i as [|i]; [simpl in Hi; lia|]. cbn [hex_loop].
    rewrite (char_at_drop_0 _ _ _ _ Hd), Hc, (is_hex_not_nul _ Hc).
    simpl in Hlen. replace (n <? len)%nat with true by (symmetry; apply Nat.ltb_lt; lia).
    simpl. rewrite (IH (S n) i r).
    + f_equal. simpl. lia.
    + replace (S n) with (n + 1)%nat by lia. rewrite (drop_step _ _ 1 _ Hd). reflexivity.
    + exact Hh.
    + lia.
    + simpl in Hi. lia.
    + simpl in Hend. destruct Hend as [[-> ->]|]; [left; split; [reflexivity|lia]|right; lia].
Qed.

(** From inside a string that is never closed, the string loop runs to the
    end of the text and reports partial input, with the scan rewound to
    [start] and the table untouched. *)
Lemma string_loop_open_body body :
  open_body body ->
  forall fuel js start p tokens num n,
    Forall (fun c => c <> 0) js ->
    drop n js = body ->
    (n <= List.length js)%nat ->
    (List.length body <= fuel)%nat ->
    string_loop fuel js (List.length js) start p tokens num n =
      Ret JSON_ERROR_PART (set_pos p start) tokens.
Proof.
  induction 1 as [|c r Hq Hb Hr IH|e r He Hr IH|h1 h2 h3 h4 r H1 H2 H3 H4 Hr IH| |h Hl Hh];
    intros fuel js start p tokens num n Hnul Hd Hn Hf.
  - (* end of the text *)
    assert (List.length js = n).
    { apply (f_equal (@List.length Z)) in Hd. rewrite length_drop in Hd. simpl in Hd. lia. }
    destruct fuel; cbn [string_loop];
      (replace (n <? List.length js)%nat with false by (symmetry; apply Nat.ltb_ge; lia));
      reflexivity.
  - (* a plain byte *)
    pose proof (drop_length_eq _ _ _ Hd ltac:(discriminate)) as Hlen. simpl in Hlen, Hf.
    destruct fuel as [|fuel]; [lia|]. cbn [string_loop].
    replace (n <? List.length js)%nat with true by (symmetry; apply Nat.ltb_lt; lia).
    rewrite char_at_no_nul by (auto; lia). simpl.
    unfold string_escape. rewrite (char_at_drop_0 _ _ _ _ Hd).
    replace (c =? 34) with false by (symmetry; apply Z.eqb_neq; exact Hq).
    replace (c =? 92) with false by (symmetry; apply Z.eqb_neq; exact Hb).
    simpl. apply IH; auto; try lia.
    replace (S n) with (n + 1)%nat by lia. rewrite (drop_step _ _ 1 _ Hd). reflexivity.
  - (* a one-character escape *)
    pose proof (drop_length_eq _ _ _ Hd ltac:(discriminate)) as Hlen. simpl in Hlen, Hf.
    destruct fuel as [|fuel]; [lia|]. cbn [string_loop].
    replace (n <? List.length js)%nat with true by (symmetry; apply Nat.ltb_lt; lia).
    rewrite char_at_no_nul by (auto; lia). simpl.
    unfold string_escape. rewrite (char_at_drop_0 _ _ _ _ Hd).
    replace (char_at js (n + 1)) with e
      by (symmetry; apply (char_at_drop _ _ _ 1 Hd); simpl; lia).
    replace (n + 1 <? List.length js)%nat with true by (symmetry; apply Nat.ltb_lt; lia).
    rewrite He. simpl. apply IH; auto; try lia.
    replace (S (n + 1)) with (n + 2)%nat by lia. rewrite (drop_step _ _ 2 _ Hd). reflexivity.
  - (* a four-digit unicode escape *)
    pose proof (drop_length_eq _ _ _ Hd ltac:(discriminate)) as Hlen. simpl in Hlen, Hf.
    destruct fuel as [|fuel]; [lia|]. cbn [string_loop].
    replace (n <? List.length js)%nat with true by (symmetry; apply Nat.ltb_lt; lia).
    rewrite char_at_no_nul by (auto; lia). simpl.
    unfold string_escape. rewrite (char_at_drop_0 _ _ _ _ Hd).
    replace (char_at js (n + 1)) with 117
      by (symmetry; apply (char_at_drop _ _ _ 1 Hd); simpl; lia).
    replace (n + 1 <? List.length js)%nat with true by (symmetry; apply Nat.ltb_lt; lia).
    cbn [Z.eqb Pos.eqb andb is_simple_escape orb].
    rewrite (hex_loop_digits js _ (n + 2) [h1; h2; h3; h4] 4 r).
    + simpl List.length. replace (S (n + 2 + 4 - 1)) with (n + 6)%nat by lia.
      apply IH; auto; try lia. rewrite (drop_step _ _ 6 _ Hd). reflexivity.
    + rewrite (drop_step _ _ 2 _ Hd). reflexivity.
    + simpl. rewrite H1, H2, H3, H4. reflexivity.
    + simpl. lia.
    + simpl. lia.
    + right. reflexivity.
  - (* a backslash as the last byte *)
    pose proof (drop_length_eq _ _ _ Hd ltac:(discriminate)) as Hlen. simpl in Hlen, Hf.
    destruct fuel as [|fuel]; [lia|]. cbn [string_loop].
    replace (n <? List.length js)%nat with true by (symmetry; apply Nat.ltb_lt; lia).
    rewrite char_at_no_nul by (auto; lia). simpl.
    unfold string_escape. rewrite (char_at_drop_0 _ _ _ _ Hd).
    replace (n + 1 <? List.length js)%nat with false by (symmetry; apply Nat.ltb_ge; lia).
    cbn [Z.eqb Pos.eqb andb].
    destruct fuel; cbn [string_loop];
      (replace (S n <? List.length js)%nat with false by (symmetry; apply Nat.ltb_ge; lia));
      reflexivity.
  - (* a unicode escape cut by the end of the text *)
    pose proof (drop_length_eq _ _ _ Hd ltac:(discriminate)) as Hlen. simpl in Hlen, Hf.
    destruct fuel as [|fuel]; [lia|]. cbn [string_loop].
    replace (n <? List.length js)%nat with true by (symmetry; apply Nat.ltb_lt; lia).
    rewrite char_at_no_nul by (auto; lia). simpl.
    unfold string_escape. rewrite (char_at_drop_0 _ _ _ _ Hd).
    replace (char_at js (n + 1)) with 117
      by (symmetry; apply (char_at_drop _ _ _ 1 Hd); simpl; lia).
    replace (n + 1 <? List.length js)%nat with true by (symmetry; apply Nat.ltb_lt; lia).
    cbn [Z.eqb Pos.eqb andb is_simple_escape orb].
    rewrite (hex_loop_digits js _ (n + 2) h 4 []).
    + destruct fuel; cbn [string_loop];
        (replace (S (n + 2 + List.length h - 1) <? List.length js)%nat with false
           by (symmetry; apply Nat.ltb_ge; lia));
        reflexivity.
    + rewrite (drop_step _ _ 2 _ Hd), app_nil_r. reflexivity.
    + exact Hh.
    + lia.
    + lia.
    + left. split; [reflexivity|lia].
Qed.

End UnterminatedString.

Module UnterminatedStringClaim.
Import Tokenizer TokenizerFacts UnterminatedString TokenizerScenarios.

(** An opening quote, then a backslash and [q]: a string that is never
    closed and holds an escape that is not allowed. *)
Definition bad_escape : list Z := [ch_quote] ++ bytes "\q".

(** A byte that starts no JSON construct, then an unterminated string. *)
Definition junk_then_string : list Z := bytes "x" ++ open_string.

(** C6 as stated fails: a text whose only string is never closed gets the
    invalid-character code when the string holds a disallowed escape, or
    when the scan fails before it reaches the string. *)
Lemma C6_unterminated_string_can_be_invalid :
  jsmne_parse jsmne_init bad_escape (strlen bad_escape) (tokens fresh) JSON_TOKEN_SIZE =
    Ret JSON_ERROR_INVAL jsmne_init (tokens fresh) /\
  jsmne_parse jsmne_init junk_then_string (strlen junk_then_string) (tokens fresh)
      JSON_TOKEN_SIZE =
    Ret JSON_ERROR_INVAL jsmne_init (tokens fresh).
Proof. split; vm_compute; reflexivity. Qed.

(** C6 as amended.  Let the text hold no NUL byte and be shorter than 2^31
    bytes, let the scan reach after [n] rounds, none of which failed, an
    opening quote, and let what follows the quote be an [open_body].  Then
    [jsmne_parse] returns the partial-input code, with the scan position on
    that quote and the table as it was when the quote was reached. *)
Theorem C6_reached_unterminated_string_is_partial
    (js : list Z) (tokens0 : list token_s) (num_tokens n : nat)
    (p : jsmne_parser) (tokens1 : list token_s) (k : Z) (body : list Z) :
  Forall (fun c => c <> 0) js ->
  Z.of_nat (List.length js) < 2 ^ 31 ->
  run n js (List.length js) num_tokens jsmne_init tokens0 0 = Some (p, tokens1, k) ->
  drop (pos p) js = ch_quote :: body ->
  open_body body ->
  jsmne_parse jsmne_init js (strlen js) tokens0 num_tokens =
    Ret JSON_ERROR_PART p tokens1.
Proof.
  intros Hnul _ Hrun Hd Hb. unfold jsmne_parse. rewrite (strlen_no_nul _ Hnul).
  pose proof (drop_length_eq _ _ _ Hd ltac:(discriminate)) as Hlen. simpl in Hlen.
  pose proof (run_pos _ _ _ _ _ _ _ _ _ _ Hrun) as Hn. simpl in Hn.
  replace (List.length js) with (n + S (List.length js - n - 1))%nat at 1 by lia.
  rewrite (parse_loop_run _ _ _ _ _ _ _ _ _ _ _ Hrun). cbn [parse_loop].
  replace (pos p <? List.length js)%nat with true by (symmetry; apply Nat.ltb_lt; lia).
  rewrite char_at_no_nul by (auto; lia). simpl.
  unfold parse_step. rewrite (char_at_drop_0 _ _ _ _ Hd).
  cbn [ch_quote Z.eqb Pos.eqb orb]. unfold jsmne_parse_string.
  rewrite (string_loop_open_body body Hb); auto; try lia.
  - simpl. destruct p; reflexivity.
  - rewrite (drop_step _ _ 1 _ Hd). reflexivity.
Qed.

(** An array opened, then an unterminated string with an escape in it. *)
Definition array_then_open_string : list Z :=
  bytes "[" ++ [ch_quote] ++ bytes "a\nb".

Lemma C6_witness :
  jsmne_parse jsmne_init array_then_open_string (strlen array_then_open_string)
    (tokens fresh) JSON_TOKEN_SIZE =
  Ret JSON_ERROR_PART {| pos := 1; toknext := 1; toksuper := 0 |}
    (<[0%nat := {| tok_type := JSON_ARRAY; tok_start := 0; tok_end := -1;
                   tok_size := 0; tok_parent := -1 |}]> (tokens fresh)).
Proof.
  apply (C6_reached_unterminated_string_is_partial array_then_open_string
           (tokens fresh) JSON_TOKEN_SIZE 1 _ _ 1 (bytes "a\nb")).
  - repeat constructor; discriminate.
  - reflexivity.
  - vm_compute. reflexivity.
  - reflexivity.
  - apply ob_plain; [discriminate | discriminate |].
    apply ob_escape; [reflexivity |].
    apply ob_plain; [discriminate | discriminate |]. apply ob_end.
Defined.

End UnterminatedStringClaim.

(** * JSON texts and the table the tokenizer builds for them *)

Module Json.
Import Tokenizer.

(** ** The grammar, as syntax trees that keep the white space *)

Definition is_ws (c : Z) : bool := (c =? 9) || (c =? 13) || (c =? 10) || (c =? 32).

(** The bytes of a number or of [true], [false], [null]: printable ASCII
    other than the delimiters.  (Every JSON number and literal is such a
    run, starting with a minus sign, a digit, [t], [f] or [n].) *)
Definition is_prim_char (c : Z) : bool :=
  negb (is_prim_end c) && (32 <=? c) && (c <? 127).

Definition prim_text (s : list Z) : Prop :=
  match s with
  | [] => False
  | c :: r => is_prim_start c = true /\ forallb is_prim_char r = true
  end.

(** The bytes between the quotes of a string: plain bytes other than quote
    and backslash, the eight one-character escapes, and [\u] with four
    hexadecimal digits. *)
Inductive string_body : list Z -> Prop :=
| sb_end : string_body []
| sb_plain c r : c <> 34 -> c <> 92 -> string_body r -> string_body (c :: r)
| sb_escape e r : is_simple_escape e = true -> string_body r -> string_body (92 :: e :: r)
| sb_unicode h1 h2 h3 h4 r :
    is_hex h1 = true -> is_hex h2 = true -> is_hex h3 = true -> is_hex h4 = true ->
    string_body r -> string_body (92 :: 117 :: h1 :: h2 :: h3 :: h4 :: r).

(** Values, with the white space of the grammar of RFC 8259 kept: in an
    array every element stands between two runs of white space and the
    elements are separated by commas; in an object every member is white
    space, key, white space, colon, white space, value, white space. *)
Inductive value :=
| VPrim (s : list Z)
| VStr (s : list Z)
| VArr0 (w : list Z)
| VArr (es : elems)
| VObj0 (w : list Z)
| VObj (ms : members)
with elems :=
| EOne (w1 : list Z) (v : value) (w2 : list Z)
| ECons (w1 : list Z) (v : value) (w2 : list Z) (es : elems)
with members :=
| MOne (w1 key w2 w3 : list Z) (v : value) (w4 : list Z)
| MCons (w1 key w2 w3 : list Z) (v : value) (w4 : list Z) (ms : members).

Scheme value_mut := Induction for value Sort Prop
  with elems_mut := Induction for elems Sort Prop
  with members_mut := Induction for members Sort Prop.
Combined Scheme json_mutind from value_mut, elems_mut, members_mut.

(** The text of a value. *)
Fixpoint render (v : value) : list Z :=
  match v with
  | VPrim s => s
  | VStr s => 34 :: s ++ [34]
  | VArr0 w => 91 :: w ++ [93]
  | VArr es => 91 :: render_elems es ++ [93]
  | VObj0 w => 123 :: w ++ [125]
  | VObj ms => 123 :: render_members ms ++ [125]
  end
with render_elems (es : elems) : list Z :=
  match es with
  | EOne w1 v w2 => w1 ++ render v ++ w2
  | ECons w1 v w2 es => w1 ++ render v ++ w2 ++ 44 :: render_elems es
  end
with render_members (ms : members) : list Z :=
  match ms with
  | MOne w1 key w2 w3 v w4 =>
      w1 ++ 34 :: key ++ 34 :: w2 ++ 58 :: w3 ++ render v ++ w4
  | MCons w1 key w2 w3 v w4 ms =>
      w1 ++ 34 :: key ++ 34 :: w2 ++ 58 :: w3 ++ render v ++ w4 ++ 44 :: render_members ms
  end.

Definition ws (w : list Z) : Prop := forallb is_ws w = true.

(** Well-formedness of the leaves and of the white space. *)
Fixpoint wf (v : value) : Prop :=
  match v with
  | VPrim s => prim_text s
  | VStr s => string_body s
  | VArr0 w => ws w
  | VArr es => wf_elems es
  | VObj0 w => ws w
  | VObj ms => wf_members ms
  end
with wf_elems (es : elems) : Prop :=
  match es with
  | EOne w1 v w2 => ws w1 /\ wf v /\ ws w2
  | ECons w1 v w2 es => ws w1 /\ wf v /\ ws w2 /\ wf_elems es
  end
with wf_members (ms : members) : Prop :=
  match ms with
  | MOne w1 key w2 w3 v w4 =>
      ws w1 /\ string_body key /\ ws w2 /\ ws w3 /\ wf v /\ ws w4
  | MCons w1 key w2 w3 v w4 ms =>
      ws w1 /\ string_body key /\ ws w2 /\ ws w3 /\ wf v /\ ws w4 /\ wf_members ms
  end.

Definition is_prim (v : value) : bool :=
  match v with VPrim _ => true | _ => false end.

Definition is_container_value (v : value) : bool :=
  match v with VArr0 _ | VArr _ | VObj0 _ | VObj _ => true | _ => false end.

(** The kind of token a value gets. *)
Definition kind (v : value) : djson_type_e :=
  match v with
  | VPrim _ => JSON_PRIMITIVE
  | VStr _ => JSON_STRING
  | VArr0 _ | VArr _ => JSON_ARRAY
  | VObj0 _ | VObj _ => JSON_OBJECT
  end.

(** A JSON text whose value is an object or an array (the JSON texts of
    RFC 4627), as a predicate on bytes. *)
Definition json_text (js : list Z) : Prop :=
  exists w1 v w2,
    js = w1 ++ render v ++ w2 /\ ws w1 /\ ws w2 /\ wf v /\
    is_container_value v = true.

(** ** The expected table *)

(** How many tokens a value takes: one per primitive, string, array and
    object, and one per member key. *)
Fixpoint ntokens (v : value) : nat :=
  match v with
  | VPrim _ | VStr _ | VArr0 _ | VObj0 _ => 1
  | VArr es => S (ntokens_elems es)
  | VObj ms => S (ntokens_members ms)
  end
with ntokens_elems (es : elems) : nat :=
  match es with
  | EOne _ v _ => ntokens v
  | ECons _ v _ es => (ntokens v + ntokens_elems es)%nat
  end
with ntokens_members (ms : members) : nat :=
  match ms with
  | MOne _ _ _ _ v _ => S (ntokens v)
  | MCons _ _ _ _ v _ ms => (S (ntokens v) + ntokens_members ms)%nat
  end.

Fixpoint count_elems (es : elems) : nat :=
  match es with EOne _ _ _ => 1 | ECons _ _ _ es => S (count_elems es) end.

Fixpoint count_members (ms : members) : nat :=
  match ms with MOne _ _ _ _ _ _ => 1 | MCons _ _ _ _ _ _ ms => S (count_members ms) end.

Definition mk (ty : djson_type_e) (s e : nat) (size : nat) (par : Z) : token_s :=
  {| tok_type := ty; tok_start := Z.of_nat s; tok_end := Z.of_nat e;
     tok_size := Z.of_nat size; tok_parent := par |}.

(** The tokens of a value whose text starts at offset [off], whose token
    has the parent [par] and the index [base]. *)
Fixpoint flatten (v : value) (off : nat) (par : Z) (base : nat) : list token_s :=
  match v with
  | VPrim s => [mk JSON_PRIMITIVE off (off + List.length s) 0 par]
  | VStr s => [mk JSON_STRING (off + 1) (off + 1 + List.length s) 0 par]
  | VArr0 w => [mk JSON_ARRAY off (off + 2 + List.length w) 0 par]
  | VArr es =>
      mk JSON_ARRAY off (off + 2 + List.length (render_elems es)) (count_elems es) par
      :: flatten_elems es (S off) base (S base)
  | VObj0 w => [mk JSON_OBJECT off (off + 2 + List.length w) 0 par]
  | VObj ms =>
      mk JSON_OBJECT off (off + 2 + List.length (render_members ms)) (count_members ms) par
      :: flatten_members ms (S off) base (S base)
  end
with flatten_elems (es : elems) (off : nat) (b : nat) (base : nat) : list token_s :=
  match es with
  | EOne w1 v w2 => flatten v (off + List.length w1) (Z.of_nat b) base
  | ECons w1 v w2 es =>
      flatten v (off + List.length w1) (Z.of_nat b) base ++
      flatten_elems es (off + List.length w1 + List.length (render v) + List.length w2 + 1) b (base + ntokens v)
  end
with flatten_members (ms : members) (off : nat) (b : nat) (base : nat) : list token_s :=
  match ms with
  | MOne w1 key w2 w3 v w4 =>
      mk JSON_STRING (off + List.length w1 + 1) (off + List.length w1 + 1 + List.length key) 1 (Z.of_nat b)
      :: flatten v (off + List.length w1 + 1 + List.length key + 1 + List.length w2 + 1 + List.length w3)
           (Z.of_nat base) (S base)
  | MCons w1 key w2 w3 v w4 ms =>
      mk JSON_STRING (off + List.length w1 + 1) (off + List.length w1 + 1 + List.length key) 1 (Z.of_nat b)
      :: flatten v (off + List.length w1 + 1 + List.length key + 1 + List.length w2 + 1 + List.length w3)
           (Z.of_nat base) (S base) ++
      flatten_members ms
        (off + List.length w1 + 1 + List.length key + 1 + List.length w2 + 1 + List.length w3 + List.length (render v) + List.length w4 + 1)
        b (S base + ntokens v)
  end.

End Json.

(** * The tokenizer on JSON texts *)

Module Simulation.
Import Tokenizer TokenizerFacts Json.

(** The parser state at offset [off] with [base] tokens handed out and the
    superior [par]. *)
Definition st (off base : nat) (par : Z) : jsmne_parser :=
  {| pos := off; toknext := base; toksuper := par |}.

Lemma st_eq off base par off' base' par' :
  off = off' -> base = base' -> par = par' -> st off base par = st off' base' par'.
Proof. intros -> -> ->. reflexivity. Qed.

Lemma some_triple_eq {A B C} (a a' : A) (b b' : B) (c c' : C) :
  a = a' -> b = b' -> c = c' -> Some (a, b, c) = Some (a', b', c').
Proof. intros -> -> ->. reflexivity. Qed.

(** [tok->size += m] *)
Definition add_size (m : Z) (t : token_s) : token_s :=
  {| tok_type := tok_type t; tok_start := tok_start t; tok_end := tok_end t;
     tok_size := tok_size t + m; tok_parent := tok_parent t |}.

(** The table after the size of the superior, if there is one, went up. *)
Definition bump (par : Z) (pre : list token_s) : list token_s :=
  if par =? -1 then pre else alter incr_size (Z.to_nat par) pre.

(** A superior is no token or a token handed out. *)
Definition par_ok (par : Z) (pre : list token_s) : Prop :=
  par = -1 \/ (0 <= par /\ (Z.to_nat par < List.length pre)%nat).

(** A container token as the opening bracket leaves it. *)
Definition opened (ty : djson_type_e) (off : nat) (par : Z) : token_s :=
  {| tok_type := ty; tok_start := Z.of_nat off; tok_end := -1; tok_size := 0;
     tok_parent := par |}.

(** What may follow a primitive: the end of the text or a delimiter. *)
Definition follow_ok (after : list Z) : Prop :=
  match after with [] => True | c :: _ => is_prim_end c = true end.

(** The superior under which a primitive is accepted. *)
Definition prim_parent_ok (t : token_s) : Prop :=
  tok_type t = JSON_ARRAY \/ (tok_type t = JSON_STRING /\ tok_size t = 0).

Lemma length_bump par pre : List.length (bump par pre) = List.length pre.
Proof. unfold bump. destruct (par =? -1); [reflexivity|]. apply length_alter. Qed.

Lemma drop_app_at {A} (js : list A) off a b :
  drop off js = a ++ b -> drop (off + List.length a) js = b.
Proof. intros H. rewrite (drop_step _ _ _ _ H). apply drop_app_length. Qed.

Lemma drop_cons_at {A} (js : list A) off c b :
  drop off js = c :: b -> drop (S off) js = b.
Proof.
  intros H. replace (S off) with (off + 1)%nat by lia.
  rewrite (drop_step _ _ _ _ H). reflexivity.
Qed.

Lemma drop_lt {A} (js : list A) off c b :
  drop off js = c :: b -> (off < List.length js)%nat.
Proof.
  intros H. pose proof (drop_length_eq _ _ _ H ltac:(discriminate)). simpl in *. lia.
Qed.

Lemma guard_at js off base par c b :
  Forall (fun c => c <> 0) js -> drop off js = c :: b ->
  guard js (List.length js) (st off base par) = true.
Proof.
  intros Hn Hd. unfold guard. simpl. pose proof (drop_lt _ _ _ _ Hd).
  rewrite char_at_no_nul by auto.
  replace (off <? List.length js)%nat with true by (symmetry; apply Nat.ltb_lt; lia).
  reflexivity.
Qed.

Lemma run_one js num p tokens k p1 tokens1 k1 :
  guard js (List.length js) p = true ->
  parse_step js (List.length js) num p tokens k = Next p1 tokens1 k1 ->
  run 1 js (List.length js) num p tokens k = Some (set_pos p1 (S (pos p1)), tokens1, k1).
Proof. intros Hg Hs. cbn [run]. rewrite Hg, Hs. reflexivity. Qed.

Lemma run_trans n m js l num p tokens k p1 t1 k1 r :
  run n js l num p tokens k = Some (p1, t1, k1) ->
  run m js l num p1 t1 k1 = r ->
  run (n + m) js l num p tokens k = r.
Proof. intros H1 H2. rewrite (run_app _ _ _ _ _ _ _ _ _ _ _ H1). exact H2. Qed.

(** *** White space *)

Lemma is_ws_cases c : is_ws c = true -> c = 9 \/ c = 13 \/ c = 10 \/ c = 32.
Proof.
  unfold is_ws. intros H.
  repeat (apply orb_true_iff in H; destruct H as [H|H]); bool_arith; auto.
Qed.

Lemma step_ws js l num p tokens k :
  is_ws (char_at js (pos p)) = true ->
  parse_step js l num p tokens k = Next p tokens k.
Proof.
  intros H. unfold parse_step.
  destruct (is_ws_cases _ H) as [E|[E|[E|E]]]; rewrite E; reflexivity.
Qed.

Lemma run_ws w : forall js num off base par tokens k after,
  Forall (fun c => c <> 0) js ->
  ws w -> drop off js = w ++ after ->
  run (List.length w) js (List.length js) num (st off base par) tokens k =
    Some (st (off + List.length w) base par, tokens, k).
Proof.
  induction w as [|c w IH]; intros js num off base par tokens k after Hn Hw Hd.
  - simpl. rewrite Nat.add_0_r. reflexivity.
  - unfold ws in Hw. simpl in Hw. apply andb_true_iff in Hw as [Hc Hw].
    simpl in Hd. change (List.length (c :: w)) with (1 + List.length w)%nat.
    eapply run_trans.
    + apply run_one; [eapply guard_at; eauto|].
      apply step_ws. simpl. rewrite (char_at_drop_0 _ _ _ _ Hd). exact Hc.
    + simpl. replace (off + S (List.length w))%nat with (S off + List.length w)%nat by lia.
      apply (IH js num (S off) base par tokens k after); auto.
      apply (drop_cons_at _ _ _ _ Hd).
Qed.

(** *** Handing out a token *)

Lemma alloc_at off base par pre r0 rest num :
  base = List.length pre -> (base < num)%nat ->
  jsmne_alloc_token (st off base par) (pre ++ r0 :: rest) num =
    Some (base, st off (S base) par,
          pre ++ {| tok_type := tok_type r0; tok_start := -1; tok_end := -1;
                    tok_size := 0; tok_parent := -1 |} :: rest).
Proof.
  intros -> Hlt. unfold jsmne_alloc_token. simpl.
  replace (num <=? List.length pre)%nat with false by (symmetry; apply Nat.leb_gt; lia).
  rewrite list_lookup_middle by reflexivity.
  rewrite insert_app_r_alt by lia. rewrite Nat.sub_diag. reflexivity.
Qed.

Lemma alter_at {A} (f : A -> A) (pre : list A) x rest n :
  n = List.length pre ->
  alter f n (pre ++ x :: rest) = pre ++ f x :: rest.
Proof. intros ->. rewrite alter_app_r_alt by lia. rewrite Nat.sub_diag. reflexivity. Qed.

Lemma tok_at_app pre rest par t :
  tok_at pre par = Some t -> tok_at (pre ++ rest) par = Some t.
Proof.
  unfold tok_at. destruct (par <? 0); [discriminate|]. apply lookup_app_l_Some.
Qed.

Lemma tok_at_nat (l : list token_s) (i : nat) : tok_at l (Z.of_nat i) = l !! i.
Proof.
  unfold tok_at. replace (Z.of_nat i <? 0) with false by (symmetry; apply Z.ltb_ge; lia).
  rewrite Nat2Z.id. reflexivity.
Qed.

Lemma bump_super_at off base par pre rest :
  par_ok par pre ->
  bump_super (st off base par) (pre ++ rest) = Some (bump par pre ++ rest).
Proof.
  intros Hp. unfold bump_super, bump. simpl.
  destruct (par =? -1) eqn:E; [reflexivity|].
  destruct Hp as [->|[H0 Hl]]; [discriminate|].
  unfold tok_at. replace (par <? 0) with false by (symmetry; apply Z.ltb_ge; lia).
  destruct (lookup_lt_is_Some_2 (pre ++ rest) (Z.to_nat par)) as [t ->].
  { rewrite length_app. lia. }
  rewrite alter_app_l by lia. reflexivity.
Qed.

(** *** Opening a container *)

Lemma step_open js l num off base par pre r0 rest k c :
  char_at js off = c -> c = 91 \/ c = 123 ->
  base = List.length pre -> (base < num)%nat -> par_ok par pre ->
  parse_step js l num (st off base par) (pre ++ r0 :: rest) k =
    Next (st off (S base) (Z.of_nat base))
         (bump par pre ++
          opened (if c =? 123 then JSON_OBJECT else JSON_ARRAY) off par :: rest)
         (k + 1).
Proof.
  intros Hc Hcc Hb Hlt Hp. unfold parse_step. cbn [pos st]. rewrite Hc.
  replace ((c =? 123) || (c =? 91)) with true
    by (destruct Hcc as [-> | ->]; reflexivity).
  rewrite (alloc_at off base par pre r0 rest num Hb Hlt).
  rewrite (bump_super_at off (S base) par pre _ Hp).
  cbn [toksuper toknext pos st].
  rewrite alter_at by (rewrite length_bump; auto). f_equal.
  - unfold st, set_toksuper. simpl. f_equal. lia.
  - f_equal. f_equal. unfold opened, set_start, set_type, set_parent. simpl.
    destruct (par =? -1) eqn:E; simpl; [|reflexivity].
    apply Z.eqb_eq in E. subst par. reflexivity.
Qed.

(** *** Primitives *)

Lemma prim_char_facts c :
  is_prim_char c = true ->
  (c =? 0) = false /\ is_prim_end c = false /\ ((c <? 32) || (127 <=? c)) = false.
Proof.
  unfold is_prim_char. intros H. apply andb_true_iff in H as [H H2].
  apply andb_true_iff in H as [H0 H1]. apply negb_true_iff in H0. bool_arith.
  repeat split; auto.
  - apply Z.eqb_neq. lia.
  - apply orb_false_iff. split; [apply Z.ltb_ge|apply Z.leb_gt]; lia.
Qed.

Lemma prim_start_char c : is_prim_start c = true -> is_prim_char c = true.
Proof.
  intros H. destruct (prim_start_not_end _ H) as [He _].
  unfold is_prim_char. rewrite He. simpl.
  unfold is_prim_start in H.
  repeat (apply orb_true_iff in H; destruct H as [H|H]); bool_arith;
    apply andb_true_iff; split; [apply Z.leb_le|apply Z.ltb_lt|apply Z.leb_le
      |apply Z.ltb_lt|apply Z.leb_le|apply Z.ltb_lt|apply Z.leb_le|apply Z.ltb_lt
      |apply Z.leb_le|apply Z.ltb_lt]; lia.
Qed.

Lemma prim_scan_text s : forall js off after,
  forallb is_prim_char s = true ->
  drop off js = s ++ after -> follow_ok after ->
  prim_scan (List.length js - off) js off = Some (off + List.length s)%nat.
Proof.
  induction s as [|c s IH]; intros js off after Hs Hd Hf.
  - simpl in Hd. rewrite Nat.add_0_r.
    destruct after as [|a after].
    + assert (List.length js <= off)%nat.
      { apply (f_equal (@List.length Z)) in Hd. rewrite length_drop in Hd.
        simpl in Hd. lia. }
      replace (List.length js - off)%nat with O by lia. reflexivity.
    + pose proof (drop_lt _ _ _ _ Hd).
      destruct (List.length js - off)%nat as [|left] eqn:E; [lia|].
      simpl. rewrite (char_at_drop_0 _ _ _ _ Hd). simpl in Hf. rewrite Hf.
      destruct (a =? 0); reflexivity.
  - simpl in Hs. apply andb_true_iff in Hs as [Hc Hs]. simpl in Hd.
    pose proof (drop_lt _ _ _ _ Hd).
    destruct (List.length js - off)%nat as [|left] eqn:E; [lia|].
    simpl prim_scan. rewrite (char_at_drop_0 _ _ _ _ Hd).
    destruct (prim_char_facts _ Hc) as (-> & -> & ->).
    replace left with (List.length js - S off)%nat by lia.
    rewrite (IH js (S off) after Hs (drop_cons_at _ _ _ _ Hd) Hf).
    f_equal. simpl. lia.
Qed.

Lemma step_prim js num off base par pre r0 rest k s after tp :
  prim_text s -> drop off js = s ++ after -> follow_ok after ->
  base = List.length pre -> (base < num)%nat ->
  tok_at pre par = Some tp -> prim_parent_ok tp ->
  parse_step js (List.length js) num (st off base par) (pre ++ r0 :: rest) k =
    Next (st (off + List.length s - 1) (S base) par)
         (bump par pre ++
          mk JSON_PRIMITIVE off (off + List.length s) 0 par :: rest)
         (k + 1).
Proof.
  intros Hs Hd Hf Hb Hlt Htp Hok.
  destruct s as [|c s]; [contradiction|]. destruct Hs as [Hc Hs].
  assert (Hp : par_ok par pre).
  { right. unfold tok_at in Htp. destruct (par <? 0) eqn:E; [discriminate|].
    apply Z.ltb_ge in E. split; [exact E|]. eapply lookup_lt_Some; eauto. }
  unfold parse_step. cbn [pos st]. rewrite (char_at_drop_0 _ _ _ _ Hd).
  destruct (prim_start_not_end _ Hc) as [He H0].
  assert (Hno : (c =? 123) || (c =? 91) = false /\ (c =? 125) || (c =? 93) = false /\
                (c =? 34) = false /\
                (c =? 9) || (c =? 13) || (c =? 10) || (c =? 32) = false /\
                (c =? 58) = false /\ (c =? 44) = false).
  { unfold is_prim_start in Hc.
    repeat (apply orb_true_iff in Hc; destruct Hc as [Hc|Hc]); bool_arith;
      repeat split; repeat (apply orb_false_iff; split); apply Z.eqb_neq; lia. }
  destruct Hno as (-> & -> & -> & -> & -> & ->). rewrite Hc.
  cbn [toksuper st]. rewrite (tok_at_app _ _ _ _ Htp).
  replace (type_eqb (tok_type tp) JSON_OBJECT ||
           type_eqb (tok_type tp) JSON_STRING && negb (tok_size tp =? 0)) with false.
  2:{ destruct Hok as [E|[E E2]]; rewrite E; [reflexivity|]. rewrite E2. reflexivity. }
  unfold jsmne_parse_primitive. cbn [pos st].
  rewrite (prim_scan_text (c :: s) js off after); auto.
  2:{ simpl. rewrite (prim_start_char _ Hc). exact Hs. }
  change (set_pos (st off base par) (off + List.length (c :: s)))
    with (st (off + List.length (c :: s)) base par).
  rewrite (alloc_at _ base par pre r0 rest num Hb Hlt).
  cbn [toksuper st]. rewrite alter_at by auto.
  cbn [Z.ltb Z.compare].
  change (set_pos (st (off + List.length (c :: s)) (S base) par)
            (off + List.length (c :: s) - 1))
    with (st (off + List.length (c :: s) - 1) (S base) par).
  rewrite (bump_super_at _ (S base) par pre _ Hp). reflexivity.
Qed.

(** *** Strings *)

Lemma string_loop_body body :
  string_body body ->
  forall fuel js start p tokens num n after,
    Forall (fun c => c <> 0) js ->
    drop n js = body ++ 34 :: after ->
    (List.length body <= fuel)%nat ->
    string_loop fuel js (List.length js) start p tokens num n =
      match jsmne_alloc_token (set_pos p (n + List.length body)) tokens num with
      | None => Ret JSON_ERROR_NOMEM (set_pos p start) tokens
      | Some (i, p1, tokens1) =>
          Ret 0 p1
            (alter (fun t =>
                      set_parent
                        (jsmne_fill_token t JSON_STRING (Z.of_nat start + 1)
                           (Z.of_nat (n + List.length body)))
                        (toksuper p1)) i tokens1)
      end.
Proof.
  induction 1 as [|c r Hq Hb Hr IH|e r He Hr IH|h1 h2 h3 h4 r H1 H2 H3 H4 Hr IH];
    intros fuel js start p tokens num n after Hnul Hd Hf.
  - simpl in Hd. pose proof (drop_lt _ _ _ _ Hd) as Hlt.
    rewrite Nat.add_0_r.
    destruct fuel; cbn [string_loop];
      (replace (n <? List.length js)%nat with true by (symmetry; apply Nat.ltb_lt; lia));
      rewrite char_at_no_nul by (auto; lia); rewrite (char_at_drop_0 _ _ _ _ Hd);
      reflexivity.
  - simpl in Hd, Hf. pose proof (drop_lt _ _ _ _ Hd) as Hlt.
    destruct fuel as [|fuel]; [lia|]. cbn [string_loop].
    replace (n <? List.length js)%nat with true by (symmetry; apply Nat.ltb_lt; lia).
    rewrite char_at_no_nul by (auto; lia). cbn [negb andb].
    unfold string_escape. rewrite (char_at_drop_0 _ _ _ _ Hd).
    replace (c =? 34) with false by (symmetry; apply Z.eqb_neq; exact Hq).
    replace (c =? 92) with false by (symmetry; apply Z.eqb_neq; exact Hb).
    cbn [andb]. rewrite (IH fuel js start p tokens num (S n) after); auto; try lia.
    + replace (S n + List.length r)%nat with (n + S (List.length r))%nat
        by lia. reflexivity.
    + apply (drop_cons_at _ _ _ _ Hd).
  - simpl in Hd, Hf. pose proof (drop_length_eq _ _ _ Hd ltac:(discriminate)) as Hlen.
    simpl in Hlen. rewrite length_app in Hlen. simpl in Hlen.
    destruct fuel as [|fuel]; [lia|]. cbn [string_loop].
    replace (n <? List.length js)%nat with true by (symmetry; apply Nat.ltb_lt; lia).
    rewrite char_at_no_nul by (auto; lia). cbn [negb andb].
    unfold string_escape. rewrite (char_at_drop_0 _ _ _ _ Hd).
    replace (char_at js (n + 1)) with e
      by (symmetry; apply (char_at_drop _ _ _ 1 Hd); simpl; lia).
    replace (n + 1 <? List.length js)%nat with true by (symmetry; apply Nat.ltb_lt; lia).
    rewrite He. cbn [Z.eqb Pos.eqb andb].
    rewrite (IH fuel js start p tokens num (S (n + 1)) after); auto; try lia.
    + replace (S (n + 1) + List.length r)%nat with (n + S (S (List.length r)))%nat
        by lia. reflexivity.
    + replace (S (n + 1)) with (n + 2)%nat by lia.
      rewrite (drop_step _ _ 2 _ Hd). reflexivity.
  - simpl in Hd, Hf. pose proof (drop_length_eq _ _ _ Hd ltac:(discriminate)) as Hlen.
    simpl in Hlen. rewrite length_app in Hlen. simpl in Hlen.
    destruct fuel as [|fuel]; [lia|]. cbn [string_loop].
    replace (n <? List.length js)%nat with true by (symmetry; apply Nat.ltb_lt; lia).
    rewrite char_at_no_nul by (auto; lia). cbn [negb andb].
    unfold string_escape. rewrite (char_at_drop_0 _ _ _ _ Hd).
    replace (char_at js (n + 1)) with 117
      by (symmetry; apply (char_at_drop _ _ _ 1 Hd); simpl; lia).
    replace (n + 1 <? List.length js)%nat with true by (symmetry; apply Nat.ltb_lt; lia).
    cbn [Z.eqb Pos.eqb andb is_simple_escape orb].
    rewrite (UnterminatedString.hex_loop_digits js _ (n + 2) [h1; h2; h3; h4] 4
               (r ++ 34 :: after)).
    + simpl List.length. replace (S (n + 2 + 4 - 1)) with (n + 6)%nat by lia.
      rewrite (IH fuel js start p tokens num (n + 6)%nat after); auto; try lia.
      * replace (n + 6 + List.length r)%nat
          with (n + S (S (S (S (S (S (List.length r)))))))%nat by lia. reflexivity.
      * rewrite (drop_step _ _ 6 _ Hd). reflexivity.
    + rewrite (drop_step _ _ 2 _ Hd). reflexivity.
    + simpl. rewrite H1, H2, H3, H4. reflexivity.
    + simpl. lia.
    + simpl. lia.
    + right. reflexivity.
Qed.

Lemma step_string js num off base par pre r0 rest k s after :
  Forall (fun c => c <> 0) js ->
  string_body s -> drop off js = 34 :: s ++ 34 :: after ->
  base = List.length pre -> (base < num)%nat -> par_ok par pre ->
  parse_step js (List.length js) num (st off base par) (pre ++ r0 :: rest) k =
    Next (st (off + 1 + List.length s) (S base) par)
         (bump par pre ++
          mk JSON_STRING (off + 1) (off + 1 + List.length s) 0 par :: rest)
         (k + 1).
Proof.
  intros Hn Hs Hd Hb Hlt Hp.
  unfold parse_step. cbn [pos st]. rewrite (char_at_drop_0 _ _ _ _ Hd).
  cbn [Z.eqb Pos.eqb orb]. unfold jsmne_parse_string. cbn [pos st].
  pose proof (drop_length_eq _ _ _ Hd ltac:(discriminate)) as Hlen.
  simpl in Hlen. rewrite length_app in Hlen. simpl in Hlen.
  rewrite (string_loop_body s Hs _ js off _ _ num (off + 1) after Hn); try lia.
  2:{ rewrite (drop_step _ _ 1 _ Hd). reflexivity. }
  change (set_pos (st off base par) (off + 1 + List.length s))
    with (st (off + 1 + List.length s) base par).
  rewrite (alloc_at _ base par pre r0 rest num Hb Hlt).
  cbn [toksuper st Z.ltb Z.compare]. rewrite alter_at by auto.
  rewrite (bump_super_at _ (S base) par pre _ Hp).
  f_equal. f_equal. f_equal. unfold mk, set_parent, jsmne_fill_token. simpl.
  f_equal; lia.
Qed.

(** *** Colon, comma and closing bracket *)

Lemma step_colon js l num off base par tokens k :
  char_at js off = 58 ->
  parse_step js l num (st off base par) tokens k =
    Next (st off base (Z.of_nat base - 1)) tokens k.
Proof. intros Hc. unfold parse_step. cbn [pos st]. rewrite Hc. reflexivity. Qed.

Lemma step_comma_array js l num off base par tokens k t :
  char_at js off = 44 ->
  tok_at tokens par = Some t -> tok_type t = JSON_ARRAY ->
  parse_step js l num (st off base par) tokens k = Next (st off base par) tokens k.
Proof.
  intros Hc Ht Hty. unfold parse_step. cbn [pos st toksuper]. rewrite Hc, Ht, Hty.
  reflexivity.
Qed.

Lemma comma_scan_finds tokens b tb : forall n,
  tokens !! b = Some tb -> is_container tb = true -> is_open tb = true ->
  (b < n)%nat ->
  (forall i t, (b < i < n)%nat -> tokens !! i = Some t -> is_open t = false) ->
  comma_scan n tokens = Some b.
Proof.
  induction n as [|n IH]; intros Hb Hc Ho Hlt Hcl; [lia|].
  cbn [comma_scan]. destruct (decide (n = b)) as [->|Hne].
  - rewrite Hb, Hc, Ho. reflexivity.
  - destruct (tokens !! n) as [t|] eqn:E.
    + rewrite (Hcl n t) by (auto; lia). rewrite andb_false_r.
      apply IH; auto; try lia. intros i t' Hi. apply Hcl. lia.
    + apply IH; auto; try lia. intros i t' Hi. apply Hcl. lia.
Qed.

Lemma step_comma_key js l num off base par tokens k t b tb :
  char_at js off = 44 ->
  tok_at tokens par = Some t -> tok_type t = JSON_STRING ->
  tokens !! b = Some tb -> is_container tb = true -> is_open tb = true ->
  (b < base)%nat ->
  (forall i t, (b < i < base)%nat -> tokens !! i = Some t -> is_open t = false) ->
  parse_step js l num (st off base par) tokens k =
    Next (st off base (Z.of_nat b)) tokens k.
Proof.
  intros Hc Ht Hty Hb Hcb Hob Hlt Hcl. unfold parse_step.
  cbn [pos st toksuper toknext]. rewrite Hc, Ht, Hty.
  cbn [Z.eqb Pos.eqb orb type_eqb type_code negb andb].
  rewrite (comma_scan_finds tokens b tb base); auto.
Qed.

Lemma close_loop_finds ty p tokens k b tb : forall fuel i,
  tokens !! b = Some tb -> is_open tb = true -> tok_type tb = ty ->
  (b <= i)%nat -> (i - b <= fuel)%nat ->
  (forall j, (b < j <= i)%nat ->
     exists t, tokens !! j = Some t /\ is_open t = false /\
               Z.of_nat b <= tok_parent t < Z.of_nat j) ->
  close_loop fuel ty p tokens k (Z.of_nat i) =
    Next (set_toksuper p (tok_parent tb))
         (alter (fun t => set_end t (Z.of_nat (pos p) + 1)) b tokens) k.
Proof.
  induction fuel as [|fuel IH]; intros i Hb Ho Hty Hle Hf Hblk.
  - assert (i = b) by lia. subst i. cbn [close_loop].
    rewrite tok_at_nat, Hb, Ho, Hty, type_eqb_refl, Nat2Z.id. reflexivity.
  - destruct (decide (i = b)) as [->|Hne].
    + cbn [close_loop].
      rewrite tok_at_nat, Hb, Ho, Hty, type_eqb_refl, Nat2Z.id. reflexivity.
    + destruct (Hblk i ltac:(lia)) as (t & Ht & Hot & Hpt).
      cbn [close_loop]. rewrite tok_at_nat, Ht, Hot.
      replace (tok_parent t =? -1) with false by (symmetry; apply Z.eqb_neq; lia).
      rewrite <- (Z2Nat.id (tok_parent t)) by lia.
      apply IH; auto; try lia. intros j Hj. apply Hblk. lia.
Qed.

Lemma step_close js l num off base par tokens k c ty b tb :
  char_at js off = c -> (c = 93 /\ ty = JSON_ARRAY \/ c = 125 /\ ty = JSON_OBJECT) ->
  tokens !! b = Some tb -> is_open tb = true -> tok_type tb = ty -> (b < base)%nat ->
  (forall j, (b < j < base)%nat ->
     exists t, tokens !! j = Some t /\ is_open t = false /\
               Z.of_nat b <= tok_parent t < Z.of_nat j) ->
  parse_step js l num (st off base par) tokens k =
    Next (st off base (tok_parent tb))
         (alter (fun t => set_end t (Z.of_nat off + 1)) b tokens) k.
Proof.
  intros Hc Hcc Hb Ho Hty Hlt Hblk. unfold parse_step. cbn [pos st toknext].
  rewrite Hc.
  replace ((c =? 123) || (c =? 91)) with false
    by (destruct Hcc as [[-> _]|[-> _]]; reflexivity).
  replace ((c =? 125) || (c =? 93)) with true
    by (destruct Hcc as [[-> _]|[-> _]]; reflexivity).
  replace (if c =? 125 then JSON_OBJECT else JSON_ARRAY) with ty
    by (destruct Hcc as [[-> ->]|[-> ->]]; reflexivity).
  replace (base <? 1)%nat with false by (symmetry; apply Nat.ltb_ge; lia).
  replace (Z.of_nat base - 1) with (Z.of_nat (base - 1)) by lia.
  rewrite (close_loop_finds ty _ tokens k b tb base (base - 1)); auto; try lia.
  intros j Hj. apply Hblk. lia.
Qed.

Lemma any_open_none tokens : forall n,
  (forall i t, (i < n)%nat -> tokens !! i = Some t -> is_open t = false) ->
  any_open n tokens = false.
Proof.
  induction n as [|n IH]; intros H; [reflexivity|]. cbn [any_open].
  destruct (tokens !! n) as [t|] eqn:E.
  - rewrite (H n t) by (auto; lia). apply IH. intros i t' Hi. apply H. lia.
  - apply IH. intros i t' Hi. apply H. lia.
Qed.

(** *** The expected table: its length, and where its parents point *)

Lemma flatten_length :
  (forall v off par base, List.length (flatten v off par base) = ntokens v) /\
  (forall es off b base, List.length (flatten_elems es off b base) = ntokens_elems es) /\
  (forall ms off b base, List.length (flatten_members ms off b base) = ntokens_members ms).
Proof.
  apply json_mutind; intros; simpl; rewrite ?length_app; auto.
Qed.

Definition flatten_len := proj1 flatten_length.
Definition flatten_elems_len := proj1 (proj2 flatten_length).
Definition flatten_members_len := proj2 (proj2 flatten_length).

Lemma mk_closed ty s e size par : is_open (mk ty s e size par) = false.
Proof.
  unfold is_open, mk. simpl.
  replace (Z.of_nat e =? -1) with false by (symmetry; apply Z.eqb_neq; lia).
  apply andb_false_r.
Qed.

(** Every token of a value is closed, and its parent is the value's own
    parent or a token of the value with a smaller index. *)
Lemma flatten_parents :
  (forall v off par base j t,
     flatten v off par base !! j = Some t ->
     is_open t = false /\
     (tok_parent t = par /\ j = O \/
      Z.of_nat base <= tok_parent t < Z.of_nat (base + j))) /\
  (forall es off b base j t,
     flatten_elems es off b base !! j = Some t ->
     is_open t = false /\
     (tok_parent t = Z.of_nat b \/
      Z.of_nat base <= tok_parent t < Z.of_nat (base + j))) /\
  (forall ms off b base j t,
     flatten_members ms off b base !! j = Some t ->
     is_open t = false /\
     (tok_parent t = Z.of_nat b \/
      Z.of_nat base <= tok_parent t < Z.of_nat (base + j))).
Proof.
  apply json_mutind.
  - intros s off par base [|j] t H; simpl in H; [|discriminate].
    injection H as <-. split; [apply mk_closed|auto].
  - intros s off par base [|j] t H; simpl in H; [|discriminate].
    injection H as <-. split; [apply mk_closed|auto].
  - intros w off par base [|j] t H; simpl in H; [|discriminate].
    injection H as <-. split; [apply mk_closed|auto].
  - intros es IH off par base [|j] t H; simpl in H.
    + injection H as <-. split; [apply mk_closed|auto].
    + apply IH in H as [Hc Hp]. split; [exact Hc|]. right. lia.
  - intros w off par base [|j] t H; simpl in H; [|discriminate].
    injection H as <-. split; [apply mk_closed|auto].
  - intros ms IH off par base [|j] t H; simpl in H.
    + injection H as <-. split; [apply mk_closed|auto].
    + apply IH in H as [Hc Hp]. split; [exact Hc|]. right. lia.
  - intros w1 v IH w2 off b base j t H. simpl in H.
    apply IH in H as [Hc Hp]. split; [exact Hc|]. destruct Hp as [[Hp _]|Hp]; auto.
  - intros w1 v IHv w2 es IHes off b base j t H. simpl in H.
    apply lookup_app_Some in H as [H|[Hge H]].
    + apply IHv in H as [Hc Hp]. split; [exact Hc|]. destruct Hp as [[Hp _]|Hp]; auto.
    + rewrite flatten_len in Hge, H. apply IHes in H as [Hc Hp].
      split; [exact Hc|]. destruct Hp as [Hp|Hp]; [auto|right; lia].
  - intros w1 key w2 w3 v IH w4 off b base [|j] t H; simpl in H.
    + injection H as <-. split; [apply mk_closed|auto].
    + apply IH in H as [Hc Hp]. split; [exact Hc|]. right. lia.
  - intros w1 key w2 w3 v IHv w4 ms IHms off b base [|j] t H; simpl in H.
    + injection H as <-. split; [apply mk_closed|auto].
    + apply lookup_app_Some in H as [H|[Hge H]].
      * apply IHv in H as [Hc Hp]. split; [exact Hc|]. right. lia.
      * rewrite flatten_len in Hge, H. apply IHms in H as [Hc Hp].
        split; [exact Hc|]. destruct Hp as [Hp|Hp]; [auto|right; lia].
Qed.

Definition flatten_par := proj1 flatten_parents.
Definition flatten_elems_par := proj1 (proj2 flatten_parents).
Definition flatten_members_par := proj2 (proj2 flatten_parents).

(** *** The scan of a value, of the elements of an array, of the members
    of an object *)

(** From a state at the first byte of [v], with [pre] handed out and
    [rest] free, some rounds later the scan stands behind [v], the tokens
    of [v] follow [pre], and the superior counts one child more. *)
Definition value_runs (v : value) : Prop :=
  forall js num off par pre rest k after,
    Forall (fun c => c <> 0) js ->
    wf v ->
    drop off js = render v ++ after ->
    par_ok par pre ->
    (is_prim v = true ->
     follow_ok after /\ exists tp, tok_at pre par = Some tp /\ prim_parent_ok tp) ->
    (ntokens v <= List.length rest)%nat ->
    num = (List.length pre + List.length rest)%nat ->
    exists n,
      run n js (List.length js) num (st off (List.length pre) par) (pre ++ rest) k =
        Some (st (off + List.length (render v)) (List.length pre + ntokens v) par,
              bump par pre ++ flatten v off par (List.length pre) ++
                drop (ntokens v) rest,
              k + Z.of_nat (ntokens v)).

Definition elems_run (es : elems) : Prop :=
  forall js num off b tb pre rest k after,
    Forall (fun c => c <> 0) js ->
    wf_elems es ->
    drop off js = render_elems es ++ after ->
    follow_ok after ->
    pre !! b = Some tb -> tok_type tb = JSON_ARRAY ->
    (ntokens_elems es <= List.length rest)%nat ->
    num = (List.length pre + List.length rest)%nat ->
    exists n,
      run n js (List.length js) num (st off (List.length pre) (Z.of_nat b))
          (pre ++ rest) k =
        Some (st (off + List.length (render_elems es))
                 (List.length pre + ntokens_elems es) (Z.of_nat b),
              alter (add_size (Z.of_nat (count_elems es))) b pre ++
                flatten_elems es off b (List.length pre) ++
                drop (ntokens_elems es) rest,
              k + Z.of_nat (ntokens_elems es)).

Definition members_run (ms : members) : Prop :=
  forall js num off b tb pre rest k after,
    Forall (fun c => c <> 0) js ->
    wf_members ms ->
    drop off js = render_members ms ++ after ->
    follow_ok after ->
    pre !! b = Some tb -> tok_type tb = JSON_OBJECT -> is_open tb = true ->
    (forall i t, (b < i)%nat -> pre !! i = Some t -> is_open t = false) ->
    (ntokens_members ms <= List.length rest)%nat ->
    num = (List.length pre + List.length rest)%nat ->
    exists n sup,
      run n js (List.length js) num (st off (List.length pre) (Z.of_nat b))
          (pre ++ rest) k =
        Some (st (off + List.length (render_members ms))
                 (List.length pre + ntokens_members ms) sup,
              alter (add_size (Z.of_nat (count_members ms))) b pre ++
                flatten_members ms off b (List.length pre) ++
                drop (ntokens_members ms) rest,
              k + Z.of_nat (ntokens_members ms)).

Lemma bump_nat b pre : bump (Z.of_nat b) pre = alter incr_size b pre.
Proof.
  unfold bump. replace (Z.of_nat b =? -1) with false by (symmetry; apply Z.eqb_neq; lia).
  rewrite Nat2Z.id. reflexivity.
Qed.

Lemma par_ok_nat b pre (t : token_s) : pre !! b = Some t -> par_ok (Z.of_nat b) pre.
Proof.
  intros H. right. split; [lia|]. rewrite Nat2Z.id. eapply lookup_lt_Some; eauto.
Qed.

Lemma opened_open ty off par : is_open (opened ty off par) = true.
Proof.
  unfold is_open, opened. simpl.
  replace (Z.of_nat off =? -1) with false by (symmetry; apply Z.eqb_neq; lia).
  reflexivity.
Qed.

Lemma add_size_open m t : is_open (add_size m t) = is_open t.
Proof. reflexivity. Qed.

Lemma alter_add_size_bump m b pre (blk : list token_s) :
  (b < List.length pre)%nat ->
  alter (add_size m) b (bump (Z.of_nat b) pre ++ blk) =
  alter (add_size (m + 1)) b pre ++ blk.
Proof.
  intros Hb. rewrite bump_nat, alter_app_l by (rewrite length_alter; lia).
  f_equal. rewrite list_alter_alter_eq. apply list_alter_ext; [|reflexivity].
  intros t _. unfold add_size, incr_size. simpl. f_equal. lia.
Qed.

Lemma value_prim_runs s : value_runs (VPrim s).
Proof.
  intros js num off par pre rest k after Hn Hw Hd Hp Hprim Hcap Hnum.
  destruct (Hprim eq_refl) as (Hf & tp & Htp & Hok). simpl in *.
  destruct rest as [|r0 rest]; [simpl in Hcap; lia|].
  destruct s as [|c s]; [contradiction|].
  exists 1%nat. rewrite (run_one js num _ _ k _ _ _
    (guard_at js off _ par c (s ++ after) Hn Hd)
    (step_prim js num off _ par pre r0 rest k (c :: s) after tp Hw Hd Hf eq_refl
       ltac:(simpl in Hnum; lia) Htp Hok)).
  unfold set_pos, st. simpl. repeat f_equal; lia.
Qed.

Lemma value_string_runs s : value_runs (VStr s).
Proof.
  intros js num off par pre rest k after Hn Hw Hd Hp _ Hcap Hnum. simpl in *.
  destruct rest as [|r0 rest]; [simpl in Hcap; lia|].
  rewrite <- app_assoc in Hd. simpl in Hd.
  exists 1%nat. rewrite (run_one js num _ _ k _ _ _
    (guard_at js off _ par _ _ Hn Hd)
    (step_string js num off _ par pre r0 rest k s after Hn Hw Hd eq_refl
       ltac:(simpl in Hnum; lia) Hp)).
  unfold set_pos, st. simpl. rewrite length_app. simpl. repeat f_equal; lia.
Qed.

(** The two kinds of container share their scan: the opening character,
    the closing character and the kind. *)
Definition brackets (copen cclose : Z) (ty : djson_type_e) : Prop :=
  copen = 91 /\ cclose = 93 /\ ty = JSON_ARRAY \/
  copen = 123 /\ cclose = 125 /\ ty = JSON_OBJECT.

Lemma brackets_type copen cclose ty :
  brackets copen cclose ty ->
  (if copen =? 123 then JSON_OBJECT else JSON_ARRAY) = ty.
Proof. intros [(-> & _ & ->)|(-> & _ & ->)]; reflexivity. Qed.

Lemma empty_container_runs js num off par pre rest k after w copen cclose ty :
  brackets copen cclose ty ->
  Forall (fun c => c <> 0) js ->
  ws w ->
  drop off js = copen :: w ++ cclose :: after ->
  par_ok par pre ->
  (1 <= List.length rest)%nat ->
  num = (List.length pre + List.length rest)%nat ->
  exists n,
    run n js (List.length js) num (st off (List.length pre) par) (pre ++ rest) k =
      Some (st (off + S (List.length w + 1)) (List.length pre + 1) par,
            bump par pre ++ [mk ty off (off + 2 + List.length w) 0 par] ++ drop 1 rest,
            k + 1).
Proof.
  intros Hbr Hn Hw Hd Hp Hcap Hnum.
  destruct rest as [|r0 rest]; [simpl in Hcap; lia|]. simpl in Hnum.
  set (B := List.length pre) in *.
  set (T1 := bump par pre ++ opened ty off par :: rest).
  assert (H1 : run 1 js (List.length js) num (st off B par) (pre ++ r0 :: rest) k =
               Some (st (S off) (S B) (Z.of_nat B), T1, k + 1)).
  { rewrite (run_one js num _ _ k _ _ _ (guard_at js off _ par _ _ Hn Hd)
               (step_open js _ num off B par pre r0 rest k copen
                  (char_at_drop_0 _ _ _ _ Hd)
                  ltac:(destruct Hbr as [(-> & _)|(-> & _)]; auto) eq_refl ltac:(lia) Hp)).
    rewrite (brackets_type _ _ _ Hbr). reflexivity. }
  pose proof (drop_cons_at _ _ _ _ Hd) as Hd1.
  pose proof (run_ws w js num (S off) (S B) (Z.of_nat B) T1 (k + 1) _ Hn Hw Hd1) as H2.
  pose proof (drop_app_at _ _ _ _ Hd1) as Hd2.
  assert (HT1 : T1 !! B = Some (opened ty off par)).
  { unfold T1. apply list_lookup_middle. rewrite length_bump. reflexivity. }
  assert (H3 : run 1 js (List.length js) num
                 (st (S off + List.length w) (S B) (Z.of_nat B)) T1 (k + 1) =
               Some (st (S (S off + List.length w)) (S B) par,
                     alter (fun t => set_end t (Z.of_nat (S off + List.length w) + 1)) B T1,
                     k + 1)).
  { rewrite (run_one js num _ _ (k + 1) _ _ _ (guard_at js _ _ _ _ _ Hn Hd2)
               (step_close js _ num _ (S B) (Z.of_nat B) T1 (k + 1) cclose ty B
                  (opened ty off par) (char_at_drop_0 _ _ _ _ Hd2)
                  ltac:(destruct Hbr as [(_ & -> & ->)|(_ & -> & ->)]; auto)
                  HT1 (opened_open _ _ _) eq_refl ltac:(lia) ltac:(intros; lia))).
    reflexivity. }
  exists (1 + (List.length w + 1))%nat.
  eapply run_trans; [exact H1|]. eapply run_trans; [exact H2|]. rewrite H3.
  unfold T1. rewrite alter_at by (rewrite length_bump; reflexivity).
  unfold st. simpl. repeat f_equal; try lia.
  unfold mk, set_end, opened. simpl. f_equal; lia.
Qed.

Lemma nonempty_container_runs js num off par pre r0 rest k after inner
    copen cclose ty (m N : nat) (blk : list token_s) :
  brackets copen cclose ty ->
  Forall (fun c => c <> 0) js ->
  drop off js = copen :: inner ++ cclose :: after ->
  par_ok par pre ->
  num = (List.length pre + S (List.length rest))%nat ->
  List.length blk = N ->
  (forall j t, blk !! j = Some t ->
     is_open t = false /\
     (tok_parent t = Z.of_nat (List.length pre) \/
      Z.of_nat (S (List.length pre)) <= tok_parent t < Z.of_nat (S (List.length pre) + j))) ->
  (exists n sup,
     run n js (List.length js) num
         (st (S off) (S (List.length pre)) (Z.of_nat (List.length pre)))
         ((bump par pre ++ [opened ty off par]) ++ rest) (k + 1) =
       Some (st (S off + List.length inner) (S (List.length pre) + N) sup,
             alter (add_size (Z.of_nat m)) (List.length pre)
                   (bump par pre ++ [opened ty off par]) ++ blk ++ drop N rest,
             k + 1 + Z.of_nat N)) ->
  exists n,
    run n js (List.length js) num (st off (List.length pre) par) (pre ++ r0 :: rest) k =
      Some (st (off + S (List.length inner + 1)) (List.length pre + S N) par,
            bump par pre ++
              (mk ty off (off + 2 + List.length inner) m par :: blk) ++ drop N rest,
            k + Z.of_nat (S N)).
Proof.
  intros Hbr Hn Hd Hp Hnum HN Hblk (n2 & sup & H2).
  set (B := List.length pre) in *.
  assert (H1 : run 1 js (List.length js) num (st off B par) (pre ++ r0 :: rest) k =
               Some (st (S off) (S B) (Z.of_nat B),
                     (bump par pre ++ [opened ty off par]) ++ rest, k + 1)).
  { rewrite (run_one js num _ _ k _ _ _ (guard_at js off _ par _ _ Hn Hd)
               (step_open js _ num off B par pre r0 rest k copen
                  (char_at_drop_0 _ _ _ _ Hd)
                  ltac:(destruct Hbr as [(-> & _)|(-> & _)]; auto) eq_refl ltac:(lia) Hp)).
    rewrite (brackets_type _ _ _ Hbr), <- app_assoc. reflexivity. }
  pose proof (drop_cons_at _ _ _ _ Hd) as Hd1.
  pose proof (drop_app_at _ _ _ _ Hd1) as Hd2.
  set (tb := add_size (Z.of_nat m) (opened ty off par)).
  set (T2 := alter (add_size (Z.of_nat m)) B (bump par pre ++ [opened ty off par]) ++
             blk ++ drop N rest) in *.
  assert (HT2 : T2 = bump par pre ++ tb :: blk ++ drop N rest).
  { unfold T2. rewrite alter_at by (rewrite length_bump; reflexivity).
    rewrite <- app_assoc. reflexivity. }
  assert (HB : T2 !! B = Some tb).
  { rewrite HT2. apply list_lookup_middle. rewrite length_bump. reflexivity. }
  assert (H3 : run 1 js (List.length js) num
                 (st (S off + List.length inner) (S B + N) sup) T2 (k + 1 + Z.of_nat N) =
               Some (st (S (S off + List.length inner)) (S B + N) par,
                     alter (fun t => set_end t (Z.of_nat (S off + List.length inner) + 1)) B T2,
                     k + 1 + Z.of_nat N)).
  { assert (Hcl : forall j, (B < j < S B + N)%nat ->
              exists t, T2 !! j = Some t /\ is_open t = false /\
                        Z.of_nat B <= tok_parent t < Z.of_nat j).
    { intros j Hj. rewrite HT2.
      destruct (lookup_lt_is_Some_2 blk (j - S B)) as [t Ht]; [lia|].
      exists t. split.
      + rewrite lookup_app_r by (rewrite length_bump; fold B; lia).
        rewrite length_bump. fold B.
        replace (j - B)%nat with (S (j - S B)) by lia. simpl.
        apply lookup_app_l_Some. exact Ht.
      + destruct (Hblk _ _ Ht) as [Hc Hpar]. split; [exact Hc|]. lia. }
    rewrite (run_one js num _ _ _ _ _ _ (guard_at js _ _ _ _ _ Hn Hd2)
               (step_close js _ num _ (S B + N) sup T2 _ cclose ty B tb
                  (char_at_drop_0 _ _ _ _ Hd2)
                  ltac:(destruct Hbr as [(_ & -> & ->)|(_ & -> & ->)]; auto)
                  HB (opened_open _ _ _) eq_refl ltac:(lia) Hcl)).
    reflexivity. }
  exists (1 + (n2 + 1))%nat.
  eapply run_trans; [exact H1|]. eapply run_trans; [exact H2|]. rewrite H3.
  rewrite HT2, alter_at by (rewrite length_bump; reflexivity).
  apply some_triple_eq; [apply st_eq; [lia | lia | reflexivity] | | lia].
  simpl. f_equal. f_equal.
  unfold mk, set_end, tb, add_size, opened. simpl. f_equal; lia.
Qed.

Lemma ws_prim_end c : is_ws c = true -> is_prim_end c = true.
Proof.
  intros H. destruct (is_ws_cases _ H) as [-> | [-> | [-> | ->]]]; reflexivity.
Qed.

Lemma follow_ws w after : ws w -> follow_ok after -> follow_ok (w ++ after).
Proof.
  destruct w as [|c w]; [auto|]. intros Hw _. unfold ws in Hw. simpl in *.
  apply andb_true_iff in Hw as [Hc _]. apply ws_prim_end. exact Hc.
Qed.

(** A value between two runs of white space. *)
Lemma ws_value_ws_runs v w1 w2 :
  value_runs v ->
  forall js num off par pre rest k after,
    Forall (fun c => c <> 0) js ->
    ws w1 -> wf v -> ws w2 ->
    drop off js = w1 ++ render v ++ w2 ++ after ->
    follow_ok after ->
    (exists tp, tok_at pre par = Some tp /\ prim_parent_ok tp) ->
    (ntokens v <= List.length rest)%nat ->
    num = (List.length pre + List.length rest)%nat ->
    exists n,
      run n js (List.length js) num (st off (List.length pre) par) (pre ++ rest) k =
        Some (st (off + List.length w1 + List.length (render v) + List.length w2)
                 (List.length pre + ntokens v) par,
              bump par pre ++ flatten v (off + List.length w1) par (List.length pre) ++
                drop (ntokens v) rest,
              k + Z.of_nat (ntokens v)).
Proof.
  intros IH js num off par pre rest k after Hn Hw1 Hv Hw2 Hd Hf Hpar Hcap Hnum.
  pose proof (run_ws w1 js num off (List.length pre) par (pre ++ rest) k _ Hn Hw1 Hd) as H1.
  pose proof (drop_app_at _ _ _ _ Hd) as Hd1.
  assert (Hp : par_ok par pre).
  { destruct Hpar as (tp & Htp & _). right. unfold tok_at in Htp.
    destruct (par <? 0) eqn:E; [discriminate|]. apply Z.ltb_ge in E.
    split; [exact E|]. eapply lookup_lt_Some; eauto. }
  destruct (IH js num (off + List.length w1)%nat par pre rest k (w2 ++ after)
              Hn Hv Hd1 Hp ltac:(intros _; split; [apply follow_ws; auto|exact Hpar])
              Hcap Hnum) as [n2 H2].
  pose proof (drop_app_at _ _ _ _ Hd1) as Hd2.
  pose proof (run_ws w2 js num _ (List.length pre + ntokens v) par
                (bump par pre ++ flatten v (off + List.length w1) par (List.length pre) ++
                 drop (ntokens v) rest)
                (k + Z.of_nat (ntokens v)) _ Hn Hw2 Hd2) as H3.
  exists (List.length w1 + (n2 + List.length w2))%nat.
  eapply run_trans; [exact H1|]. eapply run_trans; [exact H2|]. exact H3.
Qed.

Lemma elems_one_runs w1 v w2 : value_runs v -> elems_run (EOne w1 v w2).
Proof.
  intros IH js num off b tb pre rest k after Hn (Hw1 & Hv & Hw2) Hd Hf Hb Hty Hcap Hnum.
  simpl in *. rewrite <- !app_assoc in Hd.
  destruct (ws_value_ws_runs v w1 w2 IH js num off (Z.of_nat b) pre rest k after
              Hn Hw1 Hv Hw2 Hd Hf
              ltac:(exists tb; rewrite tok_at_nat; split; [exact Hb|left; exact Hty])
              Hcap Hnum) as [n H].
  exists n. rewrite H. rewrite !length_app, bump_nat.
  apply some_triple_eq; [apply st_eq; [lia | reflexivity | reflexivity] | reflexivity
                        | reflexivity].
Qed.

Lemma elems_cons_runs w1 v w2 es :
  value_runs v -> elems_run es -> elems_run (ECons w1 v w2 es).
Proof.
  intros IHv IHes js num off b tb pre rest k after Hn (Hw1 & Hv & Hw2 & Hes)
    Hd Hf Hb Hty Hcap Hnum.
  simpl in *. rewrite <- !app_assoc in Hd. simpl in Hd.
  pose proof (lookup_lt_Some _ _ _ Hb) as Hblt.
  destruct (ws_value_ws_runs v w1 w2 IHv js num off (Z.of_nat b) pre rest k
              (44 :: render_elems es ++ after)
              Hn Hw1 Hv Hw2 Hd eq_refl
              ltac:(exists tb; rewrite tok_at_nat; split; [exact Hb|left; exact Hty])
              ltac:(lia) Hnum) as [n1 H1].
  set (off1 := (off + List.length w1 + List.length (render v) + List.length w2)%nat) in *.
  set (pre1 := bump (Z.of_nat b) pre ++
               flatten v (off + List.length w1) (Z.of_nat b) (List.length pre)).
  assert (Hl1 : List.length pre1 = (List.length pre + ntokens v)%nat).
  { unfold pre1. rewrite length_app, length_bump, flatten_len. reflexivity. }
  assert (Hd1 : drop off1 js = 44 :: render_elems es ++ after).
  { unfold off1.
    replace (off + List.length w1 + List.length (render v) + List.length w2)%nat
      with (off + List.length (w1 ++ render v ++ w2))%nat
      by (rewrite !length_app; lia).
    apply drop_app_at. rewrite Hd, <- !app_assoc. reflexivity. }
  assert (Hb1 : pre1 !! b = Some (incr_size tb)).
  { unfold pre1. rewrite lookup_app_l by (rewrite length_bump; lia).
    rewrite bump_nat, list_lookup_alter_eq, Hb. reflexivity. }
  assert (H2 : run 1 js (List.length js) num
                 (st off1 (List.length pre + ntokens v) (Z.of_nat b))
                 (pre1 ++ drop (ntokens v) rest) (k + Z.of_nat (ntokens v)) =
               Some (st (S off1) (List.length pre1) (Z.of_nat b),
                     pre1 ++ drop (ntokens v) rest, k + Z.of_nat (ntokens v))).
  { rewrite (run_one js num _ _ _ _ _ _ (guard_at js _ _ _ _ _ Hn Hd1)
               (step_comma_array js _ num off1 _ (Z.of_nat b) _ _ (incr_size tb)
                  (char_at_drop_0 _ _ _ _ Hd1)
                  ltac:(rewrite tok_at_nat; apply lookup_app_l_Some; exact Hb1) Hty)).
    rewrite Hl1. reflexivity. }
  destruct (IHes js num (S off1) b (incr_size tb) pre1 (drop (ntokens v) rest)
              (k + Z.of_nat (ntokens v)) after Hn Hes (drop_cons_at _ _ _ _ Hd1) Hf
              Hb1 Hty ltac:(rewrite length_drop; lia)
              ltac:(rewrite length_drop, Hl1; lia)) as [n3 H3].
  rewrite app_assoc in H1. fold pre1 in H1.
  exists (n1 + (1 + n3))%nat.
  eapply run_trans; [exact H1|].
  eapply run_trans; [exact H2|]. rewrite H3.
  apply some_triple_eq.
  - apply st_eq; [|lia|reflexivity]. unfold off1.
    repeat (rewrite ?length_app; simpl). lia.
  - unfold pre1 at 1. rewrite alter_add_size_bump by lia.
    rewrite <- !app_assoc, drop_drop, Hl1.
    replace (off1 + 1)%nat with (S off1) by lia.
    replace (Z.of_nat (count_elems es) + 1) with (Z.of_nat (S (count_elems es))) by lia.
    reflexivity.
  - lia.
Qed.

(** One member of an object: white space, key, white space, colon, white
    space, value, white space.  The key becomes the superior of the value
    and stays the superior behind it. *)
Lemma member_runs w1 key w2 w3 v w4 :
  value_runs v ->
  forall js num off b tb pre rest k after,
    Forall (fun c => c <> 0) js ->
    ws w1 -> string_body key -> ws w2 -> ws w3 -> wf v -> ws w4 ->
    drop off js =
      w1 ++ 34 :: key ++ 34 :: w2 ++ 58 :: w3 ++ render v ++ w4 ++ after ->
    follow_ok after ->
    pre !! b = Some tb ->
    (S (ntokens v) <= List.length rest)%nat ->
    num = (List.length pre + List.length rest)%nat ->
    exists n,
      run n js (List.length js) num (st off (List.length pre) (Z.of_nat b))
          (pre ++ rest) k =
        Some (st (off + List.length w1 + 1 + List.length key + 1 + List.length w2 + 1 +
                  List.length w3 + List.length (render v) + List.length w4)
                 (List.length pre + S (ntokens v)) (Z.of_nat (List.length pre)),
              bump (Z.of_nat b) pre ++
                (mk JSON_STRING (off + List.length w1 + 1)
                    (off + List.length w1 + 1 + List.length key) 1 (Z.of_nat b)
                 :: flatten v
                      (off + List.length w1 + 1 + List.length key + 1 +
                       List.length w2 + 1 + List.length w3)
                      (Z.of_nat (List.length pre)) (S (List.length pre))) ++
                drop (S (ntokens v)) rest,
              k + Z.of_nat (S (ntokens v))).
Proof.
  intros IH js num off b tb pre rest k after Hn Hw1 Hkey Hw2 Hw3 Hv Hw4 Hd Hf Hb
    Hcap Hnum.
  destruct rest as [|r0 rest]; [simpl in Hcap; lia|]. simpl in Hcap, Hnum.
  set (B := List.length pre) in *.
  pose proof (par_ok_nat _ _ _ Hb) as Hp.
  (* white space *)
  pose proof (run_ws w1 js num off B (Z.of_nat b) (pre ++ r0 :: rest) k _ Hn Hw1 Hd) as H1.
  pose proof (drop_app_at _ _ _ _ Hd) as Hd1.
  (* the key *)
  set (o1 := (off + List.length w1)%nat) in *.
  set (key0 := mk JSON_STRING (o1 + 1) (o1 + 1 + List.length key) 0 (Z.of_nat b)).
  set (pre2 := bump (Z.of_nat b) pre ++ [key0]).
  assert (Hl2 : List.length pre2 = S B).
  { unfold pre2. rewrite length_app, length_bump. simpl. fold B. lia. }
  assert (H2 : run 1 js (List.length js) num (st o1 B (Z.of_nat b)) (pre ++ r0 :: rest) k =
               Some (st (S (o1 + 1 + List.length key)) (S B) (Z.of_nat b),
                     pre2 ++ rest, k + 1)).
  { rewrite (run_one js num _ _ k _ _ _ (guard_at js o1 _ _ _ _ Hn Hd1)
               (step_string js num o1 B (Z.of_nat b) pre r0 rest k key _ Hn Hkey Hd1
                  eq_refl ltac:(lia) Hp)).
    unfold pre2. rewrite <- app_assoc. reflexivity. }
  assert (Hd2 : drop (S (o1 + 1 + List.length key)) js =
                w2 ++ 58 :: w3 ++ render v ++ w4 ++ after).
  { replace (S (o1 + 1 + List.length key)) with (o1 + List.length ((34 :: key ++ [34])%Z))%nat
      by (simpl; rewrite length_app; simpl; lia).
    apply drop_app_at. rewrite Hd1. simpl. rewrite <- app_assoc. reflexivity. }
  (* white space, colon *)
  set (o2 := S (o1 + 1 + List.length key)) in *.
  pose proof (run_ws w2 js num o2 (S B) (Z.of_nat b) (pre2 ++ rest) (k + 1) _ Hn Hw2 Hd2)
    as H3.
  pose proof (drop_app_at _ _ _ _ Hd2) as Hd3.
  assert (H4 : run 1 js (List.length js) num (st (o2 + List.length w2) (S B) (Z.of_nat b))
                 (pre2 ++ rest) (k + 1) =
               Some (st (S (o2 + List.length w2)) (List.length pre2) (Z.of_nat B),
                     pre2 ++ rest, k + 1)).
  { rewrite (run_one js num _ _ _ _ _ _ (guard_at js _ _ _ _ _ Hn Hd3)
               (step_colon js _ num _ (S B) (Z.of_nat b) _ _ (char_at_drop_0 _ _ _ _ Hd3))).
    rewrite Hl2.
    apply some_triple_eq; [apply st_eq; simpl; lia | reflexivity | reflexivity]. }
  (* white space, value, white space *)
  assert (Hk0 : pre2 !! B = Some key0).
  { unfold pre2. apply list_lookup_middle. rewrite length_bump. reflexivity. }
  destruct (ws_value_ws_runs v w3 w4 IH js num (S (o2 + List.length w2)) (Z.of_nat B)
              pre2 rest (k + 1) after Hn Hw3 Hv Hw4 (drop_cons_at _ _ _ _ Hd3) Hf
              ltac:(exists key0; rewrite tok_at_nat; split;
                    [exact Hk0 | right; split; reflexivity])
              ltac:(lia) ltac:(rewrite Hl2; lia)) as [n5 H5].
  exists (List.length w1 + (1 + (List.length w2 + (1 + n5))))%nat.
  eapply run_trans; [exact H1|]. eapply run_trans; [exact H2|].
  eapply run_trans; [exact H3|]. eapply run_trans; [exact H4|]. rewrite H5.
  apply some_triple_eq.
  - apply st_eq; [unfold o2, o1; lia | rewrite Hl2; lia | reflexivity].
  - rewrite Hl2, bump_nat. unfold pre2.
    rewrite alter_at by (rewrite length_bump; reflexivity).
    rewrite <- !app_assoc. simpl.
    replace (S (S (o1 + 1 + List.length key + List.length w2 + List.length w3)))
      with (o1 + 1 + List.length key + 1 + List.length w2 + 1 + List.length w3)%nat
      by lia.
    reflexivity.
  - lia.
Qed.

Lemma closed_above b pre key blk :
  (forall i t, (b < i)%nat -> pre !! i = Some t -> is_open t = false) ->
  is_open key = false ->
  (forall j t, blk !! j = Some t -> is_open t = false) ->
  forall i t, (b < i)%nat ->
    (bump (Z.of_nat b) pre ++ key :: blk) !! i = Some t -> is_open t = false.
Proof.
  intros Hpre Hkey Hblk i t Hi H.
  apply lookup_app_Some in H as [H|[Hge H]].
  - rewrite bump_nat, list_lookup_alter_ne in H by lia. eapply Hpre; eauto.
  - destruct (i - List.length (bump (Z.of_nat b) pre))%nat as [|j]; simpl in H.
    + injection H as <-. exact Hkey.
    + eapply Hblk; eauto.
Qed.

Lemma members_one_runs w1 key w2 w3 v w4 :
  value_runs v -> members_run (MOne w1 key w2 w3 v w4).
Proof.
  intros IH js num off b tb pre rest k after Hn (Hw1 & Hkey & Hw2 & Hw3 & Hv & Hw4)
    Hd Hf Hb Hty Hopen Hcl Hcap Hnum.
  simpl in *. repeat (rewrite <- ?app_assoc in Hd; simpl in Hd).
  destruct (member_runs w1 key w2 w3 v w4 IH js num off b tb pre rest k after
              Hn Hw1 Hkey Hw2 Hw3 Hv Hw4 Hd Hf Hb Hcap Hnum) as [n H].
  exists n, (Z.of_nat (List.length pre)). rewrite H.
  apply some_triple_eq; [apply st_eq; [|reflexivity|reflexivity] | | reflexivity].
  - repeat (rewrite ?length_app; simpl). lia.
  - rewrite bump_nat. reflexivity.
Qed.

Lemma members_cons_runs w1 key w2 w3 v w4 ms :
  value_runs v -> members_run ms -> members_run (MCons w1 key w2 w3 v w4 ms).
Proof.
  intros IHv IHms js num off b tb pre rest k after Hn
    (Hw1 & Hkey & Hw2 & Hw3 & Hv & Hw4 & Hms) Hd Hf Hb Hty Hopen Hcl Hcap Hnum.
  simpl in *. repeat (rewrite <- ?app_assoc in Hd; simpl in Hd).
  pose proof (lookup_lt_Some _ _ _ Hb) as Hblt.
  destruct (member_runs w1 key w2 w3 v w4 IHv js num off b tb pre rest k
              (44 :: render_members ms ++ after)
              Hn Hw1 Hkey Hw2 Hw3 Hv Hw4 Hd eq_refl Hb ltac:(lia) Hnum) as [n1 H1].
  set (B := List.length pre) in *.
  set (off1 := (off + List.length w1 + 1 + List.length key + 1 + List.length w2 + 1 +
                List.length w3 + List.length (render v) + List.length w4)%nat) in *.
  set (key1 := mk JSON_STRING (off + List.length w1 + 1)
                 (off + List.length w1 + 1 + List.length key) 1 (Z.of_nat b)) in *.
  set (blk := flatten v (off + List.length w1 + 1 + List.length key + 1 +
                         List.length w2 + 1 + List.length w3) (Z.of_nat B) (S B)) in *.
  set (pre1 := bump (Z.of_nat b) pre ++ key1 :: blk).
  rewrite app_assoc in H1. fold pre1 in H1.
  assert (Hl1 : List.length pre1 = (B + S (ntokens v))%nat).
  { unfold pre1, blk. rewrite length_app, length_bump. simpl. rewrite flatten_len.
    fold B. lia. }
  assert (Hd1 : drop off1 js = 44 :: render_members ms ++ after).
  { unfold off1.
    replace (off + List.length w1 + 1 + List.length key + 1 + List.length w2 + 1 +
             List.length w3 + List.length (render v) + List.length w4)%nat
      with (off + List.length
                    ((w1 ++ 34 :: key ++ 34 :: w2 ++ 58 :: w3 ++ render v ++ w4)%Z))%nat
      by (repeat (rewrite ?length_app; simpl); lia).
    apply drop_app_at. rewrite Hd. repeat (rewrite <- ?app_assoc; simpl). reflexivity. }
  assert (Hb1 : pre1 !! b = Some (incr_size tb)).
  { unfold pre1. rewrite lookup_app_l by (rewrite length_bump; lia).
    rewrite bump_nat, list_lookup_alter_eq, Hb. reflexivity. }
  assert (Hk1 : pre1 !! B = Some key1).
  { unfold pre1. apply list_lookup_middle. rewrite length_bump. reflexivity. }
  assert (Hcl1 : forall i t, (b < i)%nat -> pre1 !! i = Some t -> is_open t = false).
  { apply closed_above; [exact Hcl | apply mk_closed |].
    intros j t Ht. apply (flatten_par _ _ _ _ _ _ Ht). }
  assert (H2 : run 1 js (List.length js) num
                 (st off1 (B + S (ntokens v)) (Z.of_nat B))
                 (pre1 ++ drop (S (ntokens v)) rest) (k + Z.of_nat (S (ntokens v))) =
               Some (st (S off1) (List.length pre1) (Z.of_nat b),
                     pre1 ++ drop (S (ntokens v)) rest, k + Z.of_nat (S (ntokens v)))).
  { rewrite (run_one js num _ _ _ _ _ _ (guard_at js _ _ _ _ _ Hn Hd1)
               (step_comma_key js _ num off1 (B + S (ntokens v)) (Z.of_nat B)
                  (pre1 ++ drop (S (ntokens v)) rest) _ key1 b (incr_size tb)
                  (char_at_drop_0 _ _ _ _ Hd1)
                  ltac:(rewrite tok_at_nat; apply lookup_app_l_Some; exact Hk1)
                  eq_refl
                  ltac:(apply lookup_app_l_Some; exact Hb1)
                  ltac:(unfold is_container; simpl; rewrite Hty; reflexivity)
                  Hopen ltac:(lia)
                  ltac:(intros i t Hi Ht; apply (Hcl1 i t); [lia|];
                        rewrite lookup_app_l in Ht by (rewrite Hl1; lia); exact Ht))).
    rewrite Hl1. reflexivity. }
  destruct (IHms js num (S off1) b (incr_size tb) pre1 (drop (S (ntokens v)) rest)
              (k + Z.of_nat (S (ntokens v))) after Hn Hms (drop_cons_at _ _ _ _ Hd1) Hf
              Hb1 Hty Hopen Hcl1 ltac:(rewrite length_drop; lia)
              ltac:(rewrite length_drop, Hl1; lia)) as (n3 & sup & H3).
  exists (n1 + (1 + n3))%nat, sup.
  eapply run_trans; [exact H1|]. eapply run_trans; [exact H2|]. rewrite H3.
  apply some_triple_eq.
  - apply st_eq; [|lia|reflexivity]. unfold off1.
    repeat (rewrite ?length_app; simpl). lia.
  - unfold pre1 at 1. rewrite alter_add_size_bump by lia.
    rewrite <- !app_assoc, drop_drop, Hl1. simpl.
    replace (Z.of_nat (count_members ms) + 1) with (Z.of_nat (S (count_members ms))) by lia.
    replace (off1 + 1)%nat with (S off1) by lia.
    replace (S (B + ntokens v)) with (B + S (ntokens v))%nat by lia.
    replace (S (ntokens v + ntokens_members ms))
      with (S (ntokens v) + ntokens_members ms)%nat by lia.
    reflexivity.
  - lia.
Qed.

Lemma value_empty_runs w copen cclose ty v :
  brackets copen cclose ty ->
  render v = copen :: w ++ [cclose] ->
  wf v = ws w -> ntokens v = 1%nat ->
  (forall off par base, flatten v off par base = [mk ty off (off + 2 + List.length w) 0 par]) ->
  value_runs v.
Proof.
  intros Hbr Hr Hwf Hnt Hfl js num off par pre rest k after Hn Hw Hd Hp _ Hcap Hnum.
  rewrite Hr in Hd. rewrite Hwf in Hw. simpl in Hd. rewrite <- app_assoc in Hd.
  simpl in Hd.
  destruct (empty_container_runs js num off par pre rest k after w copen cclose ty
              Hbr Hn Hw Hd Hp ltac:(lia) Hnum) as [n H].
  exists n. rewrite H, Hr, Hnt, Hfl. simpl. rewrite length_app. reflexivity.
Qed.

Lemma value_array_runs es : elems_run es -> value_runs (VArr es).
Proof.
  intros IH js num off par pre rest k after Hn Hw Hd Hp _ Hcap Hnum.
  simpl in Hw, Hd, Hcap. rewrite <- app_assoc in Hd. simpl in Hd.
  destruct rest as [|r0 rest]; [simpl in Hcap; lia|]. simpl in Hcap, Hnum.
  set (pre1 := bump par pre ++ [opened JSON_ARRAY off par]).
  assert (Hl1 : List.length pre1 = S (List.length pre)).
  { unfold pre1. rewrite length_app, length_bump. simpl. lia. }
  assert (Hb1 : pre1 !! List.length pre = Some (opened JSON_ARRAY off par)).
  { unfold pre1. apply list_lookup_middle. rewrite length_bump. reflexivity. }
  destruct (IH js num (S off) (List.length pre) _ pre1 rest (k + 1) (93 :: after)
              Hn Hw (drop_cons_at _ _ _ _ Hd) eq_refl Hb1 eq_refl ltac:(lia)
              ltac:(rewrite Hl1; lia)) as [n2 H2].
  rewrite Hl1 in H2.
  destruct (nonempty_container_runs js num off par pre r0 rest k after (render_elems es)
              91 93 JSON_ARRAY (count_elems es) (ntokens_elems es)
              (flatten_elems es (S off) (List.length pre) (S (List.length pre)))
              ltac:(left; auto) Hn Hd Hp Hnum (flatten_elems_len _ _ _ _)
              (flatten_elems_par _ _ _ _)
              ltac:(exists n2, (Z.of_nat (List.length pre)); exact H2)) as [n H].
  exists n. rewrite H. simpl. rewrite length_app. reflexivity.
Qed.

Lemma value_object_runs ms : members_run ms -> value_runs (VObj ms).
Proof.
  intros IH js num off par pre rest k after Hn Hw Hd Hp _ Hcap Hnum.
  simpl in Hw, Hd, Hcap. rewrite <- app_assoc in Hd. simpl in Hd.
  destruct rest as [|r0 rest]; [simpl in Hcap; lia|]. simpl in Hcap, Hnum.
  set (pre1 := bump par pre ++ [opened JSON_OBJECT off par]).
  assert (Hl1 : List.length pre1 = S (List.length pre)).
  { unfold pre1. rewrite length_app, length_bump. simpl. lia. }
  assert (Hb1 : pre1 !! List.length pre = Some (opened JSON_OBJECT off par)).
  { unfold pre1. apply list_lookup_middle. rewrite length_bump. reflexivity. }
  destruct (IH js num (S off) (List.length pre) _ pre1 rest (k + 1) (125 :: after)
              Hn Hw (drop_cons_at _ _ _ _ Hd) eq_refl Hb1 eq_refl (opened_open _ _ _)
              ltac:(intros i t Hi Ht; apply lookup_lt_Some in Ht; lia)
              ltac:(lia) ltac:(rewrite Hl1; lia)) as (n2 & sup & H2).
  rewrite Hl1 in H2.
  destruct (nonempty_container_runs js num off par pre r0 rest k after (render_members ms)
              123 125 JSON_OBJECT (count_members ms) (ntokens_members ms)
              (flatten_members ms (S off) (List.length pre) (S (List.length pre)))
              ltac:(right; auto) Hn Hd Hp Hnum (flatten_members_len _ _ _ _)
              (flatten_members_par _ _ _ _)
              ltac:(exists n2, sup; exact H2)) as [n H].
  exists n. rewrite H. simpl. rewrite length_app. reflexivity.
Qed.

(** The scan of every value, every list of elements and every list of
    members builds the expected tokens. *)
Lemma scan_runs :
  (forall v, value_runs v) /\ (forall es, elems_run es) /\ (forall ms, members_run ms).
Proof.
  apply json_mutind.
  - apply value_prim_runs.
  - apply value_string_runs.
  - intros w. apply (value_empty_runs w 91 93 JSON_ARRAY); auto. left; auto.
  - apply value_array_runs.
  - intros w. apply (value_empty_runs w 123 125 JSON_OBJECT); auto. right; auto.
  - apply value_object_runs.
  - intros w1 v IH w2. apply elems_one_runs; auto.
  - intros w1 v IHv w2 es IHes. apply elems_cons_runs; auto.
  - intros w1 key w2 w3 v IH w4. apply members_one_runs; auto.
  - intros w1 key w2 w3 v IHv w4 ms IHms. apply members_cons_runs; auto.
Qed.

(** The whole scan: on a text made of white space, a value that is no
    primitive, and white space, with a table that has room for the tokens
    of the value, [jsmne_parse] returns the number of tokens and leaves the
    expected tokens at the front of the table. *)
Theorem parse_value_text js w1 v w2 tokens0 :
  Forall (fun c => c <> 0) js ->
  js = w1 ++ render v ++ w2 ->
  ws w1 -> ws w2 -> wf v -> is_prim v = false ->
  (ntokens v <= List.length tokens0)%nat ->
  jsmne_parse jsmne_init js (strlen js) tokens0 (List.length tokens0) =
    Ret (Z.of_nat (ntokens v)) (st (List.length js) (ntokens v) (-1))
        (flatten v (List.length w1) (-1) 0 ++ drop (ntokens v) tokens0).
Proof.
  intros Hn Hjs Hw1 Hw2 Hv Hnp Hcap.
  set (num := List.length tokens0).
  assert (Hd0 : drop 0 js = w1 ++ render v ++ w2 ++ []).
  { rewrite app_nil_r. exact Hjs. }
  pose proof (run_ws w1 js num 0 0 (-1) tokens0 0 _ Hn Hw1 Hd0) as H1.
  pose proof (drop_app_at _ _ _ _ Hd0) as Hd1.
  destruct (proj1 scan_runs v js num (0 + List.length w1)%nat (-1) [] tokens0 0 (w2 ++ [])
              Hn Hv Hd1 ltac:(left; reflexivity)
              ltac:(rewrite Hnp; discriminate) Hcap eq_refl) as [n2 H2].
  pose proof (drop_app_at _ _ _ _ Hd1) as Hd2.
  simpl in H2.
  pose proof (run_ws w2 js num _ (ntokens v) (-1)
                (flatten v (List.length w1) (-1) 0 ++ drop (ntokens v) tokens0)
                (Z.of_nat (ntokens v)) _ Hn Hw2 Hd2) as H3.
  assert (Hrun : run (List.length w1 + (n2 + List.length w2)) js (List.length js) num
                   jsmne_init tokens0 0 =
                 Some (st (List.length js) (ntokens v) (-1),
                       flatten v (List.length w1) (-1) 0 ++ drop (ntokens v) tokens0,
                       Z.of_nat (ntokens v))).
  { cbn [Nat.add] in H1, H2, H3. rewrite Z.add_0_l in H2.
    eapply run_trans; [exact H1|]. eapply run_trans; [exact H2|]. rewrite H3.
    apply some_triple_eq; [apply st_eq|..]; try reflexivity.
    rewrite Hjs, !length_app. lia. }
  pose proof (run_pos _ _ _ _ _ _ _ _ _ _ Hrun) as Hpos. simpl in Hpos.
  unfold jsmne_parse. rewrite (strlen_no_nul _ Hn).
  replace (List.length js)
    with (List.length w1 + (n2 + List.length w2) +
          (List.length js - (List.length w1 + (n2 + List.length w2))))%nat at 1 by lia.
  rewrite (parse_loop_run _ _ _ _ _ _ _ _ _ _ _ Hrun).
  assert (Hend : forall f, parse_loop f js (List.length js) num
                   (st (List.length js) (ntokens v) (-1))
                   (flatten v (List.length w1) (-1) 0 ++ drop (ntokens v) tokens0)
                   (Z.of_nat (ntokens v)) =
                 Ret (Z.of_nat (ntokens v)) (st (List.length js) (ntokens v) (-1))
                   (flatten v (List.length w1) (-1) 0 ++ drop (ntokens v) tokens0)).
  { intros f.
    assert (Hg : (List.length js <? List.length js)%nat = false) by apply Nat.ltb_irrefl.
    assert (Ha : any_open (ntokens v)
                   (flatten v (List.length w1) (-1) 0 ++ drop (ntokens v) tokens0) = false).
    { apply any_open_none. intros i t Hi Ht.
      rewrite lookup_app_l in Ht by (rewrite flatten_len; lia).
      apply (flatten_par _ _ _ _ _ _ Ht). }
    destruct f; cbn [parse_loop pos st toknext]; rewrite Hg, Ha; reflexivity. }
  apply Hend.
Qed.

End Simulation.

(** * What the expected table says about spans, sizes and parents *)

Module TableFacts.
Import Tokenizer Json Simulation.

(** ** Parent chains *)

(** The token without a parent that the chain of [parent] links from
    token [i] ends in, within [fuel] links. *)
Fixpoint root_of (fuel : nat) (toks : list token_s) (i : nat) : option nat :=
  match toks !! i with
  | None => None
  | Some t =>
      if tok_parent t =? -1 then Some i
      else
        match fuel with
        | O => None
        | S fuel' => root_of fuel' toks (Z.to_nat (tok_parent t))
        end
  end.

Lemma root_of_first toks :
  (forall j t, toks !! j = Some t ->
     tok_parent t = -1 /\ j = O \/ 0 <= tok_parent t < Z.of_nat j) ->
  forall fuel i, (i <= fuel)%nat -> (i < List.length toks)%nat ->
    root_of fuel toks i = Some O.
Proof.
  intros H. induction fuel as [|fuel IH]; intros i Hi Hlt.
  - assert (i = O) by lia. subst i. simpl.
    destruct (lookup_lt_is_Some_2 toks O Hlt) as [t Ht]. rewrite Ht.
    destruct (H _ _ Ht) as [[-> _]|?]; [reflexivity|lia].
  - cbn [root_of]. destruct (lookup_lt_is_Some_2 toks i Hlt) as [t Ht]. rewrite Ht.
    destruct (H _ _ Ht) as [[-> ->]|Hp]; [reflexivity|].
    replace (tok_parent t =? -1) with false by (symmetry; apply Z.eqb_neq; lia).
    apply IH; lia.
Qed.

(** ** Sizes *)

(** How many tokens of [toks] have the parent [i]. *)
Fixpoint children (toks : list token_s) (i : Z) : nat :=
  match toks with
  | [] => O
  | t :: r => ((if (tok_parent t =? i)%Z then 1 else 0) + children r i)%nat
  end.

Lemma children_app a b i : children (a ++ b) i = (children a i + children b i)%nat.
Proof. induction a as [|t a IH]; simpl; [reflexivity|]. rewrite IH. lia. Qed.

Lemma children_none toks i :
  (forall j t, toks !! j = Some t -> tok_parent t <> i) -> children toks i = O.
Proof.
  induction toks as [|t r IH]; intros H; simpl; [reflexivity|].
  replace (tok_parent t =? i) with false
    by (symmetry; apply Z.eqb_neq; apply (H O t); reflexivity).
  rewrite IH; [reflexivity|]. intros j t' Ht. apply (H (S j) t'). exact Ht.
Qed.

(** The first token of a value is the one that carries the value's parent. *)
Lemma flatten_head v off par base :
  exists t r, flatten v off par base = t :: r /\ tok_parent t = par /\
              forall j t', r !! j = Some t' ->
                Z.of_nat base <= tok_parent t' < Z.of_nat (base + S j).
Proof.
  destruct (flatten v off par base) as [|t r] eqn:E.
  - pose proof (flatten_len v off par base) as Hl. rewrite E in Hl.
    destruct v; simpl in Hl; discriminate.
  - exists t, r. split; [reflexivity|]. split.
    + destruct v; simpl in E; injection E as <- _; reflexivity.
    + intros j t' Ht. pose proof (flatten_par v off par base (S j) t') as H.
      rewrite E in H. destruct (H Ht) as [_ [[_ Hj]|Hp]]; [discriminate|exact Hp].
Qed.

(** Outside its own indices a value has one child link: that of its first
    token to the value's parent. *)
Lemma children_value_outside v off par base i :
  (i < Z.of_nat base \/ Z.of_nat (base + ntokens v) <= i) ->
  children (flatten v off par base) i = if par =? i then 1%nat else O.
Proof.
  intros Hi. destruct (flatten_head v off par base) as (t & r & E & Hp & Hr).
  pose proof (flatten_len v off par base) as Hl. rewrite E in Hl. simpl in Hl.
  rewrite E. simpl. rewrite Hp. rewrite (children_none r i); [lia|].
  intros j t' Ht. specialize (Hr _ _ Ht). apply lookup_lt_Some in Ht. lia.
Qed.

Lemma children_elems_outside es : forall off b base i,
  (i < Z.of_nat base \/ Z.of_nat (base + ntokens_elems es) <= i) ->
  children (flatten_elems es off b base) i =
    if Z.of_nat b =? i then count_elems es else O.
Proof.
  induction es as [w1 v w2|w1 v w2 es IH]; intros off b base i Hi; simpl in *.
  - rewrite children_value_outside by lia. reflexivity.
  - rewrite children_app, children_value_outside, IH by lia.
    destruct (Z.of_nat b =? i); reflexivity.
Qed.

Lemma children_members_outside ms : forall off b base i,
  (i < Z.of_nat base \/ Z.of_nat (base + ntokens_members ms) <= i) ->
  children (flatten_members ms off b base) i =
    if Z.of_nat b =? i then count_members ms else O.
Proof.
  induction ms as [w1 key w2 w3 v w4|w1 key w2 w3 v w4 ms IH];
    intros off b base i Hi; simpl in *.
  - rewrite children_value_outside by lia.
    replace (Z.of_nat base =? i) with false by (symmetry; apply Z.eqb_neq; lia).
    destruct (Z.of_nat b =? i); reflexivity.
  - rewrite children_app, children_value_outside, IH by lia.
    replace (Z.of_nat base =? i) with false by (symmetry; apply Z.eqb_neq; lia).
    destruct (Z.of_nat b =? i); reflexivity.
Qed.

Lemma eqb_false_lt (a b : Z) : a < b -> (a =? b) = false.
Proof. intros H. apply Z.eqb_neq. lia. Qed.

(** Every token's [size] is the number of tokens whose parent it is. *)
Lemma flatten_sizes :
  (forall v off par base j t,
     par < Z.of_nat base ->
     flatten v off par base !! j = Some t ->
     tok_size t = Z.of_nat (children (flatten v off par base) (Z.of_nat (base + j)))) /\
  (forall es off b base j t,
     (b < base)%nat ->
     flatten_elems es off b base !! j = Some t ->
     tok_size t = Z.of_nat (children (flatten_elems es off b base) (Z.of_nat (base + j)))) /\
  (forall ms off b base j t,
     (b < base)%nat ->
     flatten_members ms off b base !! j = Some t ->
     tok_size t = Z.of_nat (children (flatten_members ms off b base) (Z.of_nat (base + j)))).
Proof.
  apply json_mutind.
  - intros s off par base [|j] t Hp H; simpl in H; [|discriminate].
    injection H as <-. simpl. rewrite eqb_false_lt by lia. reflexivity.
  - intros s off par base [|j] t Hp H; simpl in H; [|discriminate].
    injection H as <-. simpl. rewrite eqb_false_lt by lia. reflexivity.
  - intros w off par base [|j] t Hp H; simpl in H; [|discriminate].
    injection H as <-. simpl. rewrite eqb_false_lt by lia. reflexivity.
  - intros es IH off par base [|j] t Hp H; cbn [flatten] in *; simpl in H.
    + injection H as <-. cbn [children tok_parent tok_size mk].
      rewrite eqb_false_lt by lia.
      rewrite children_elems_outside by lia.
      replace (Z.of_nat base =? Z.of_nat (base + 0)) with true
        by (symmetry; apply Z.eqb_eq; lia). reflexivity.
    + cbn [children tok_parent mk]. rewrite eqb_false_lt by lia.
      rewrite (fun pf => IH _ _ _ _ _ pf H) by lia.
      replace (S base + j)%nat with (base + S j)%nat by lia. reflexivity.
  - intros w off par base [|j] t Hp H; simpl in H; [|discriminate].
    injection H as <-. simpl. rewrite eqb_false_lt by lia. reflexivity.
  - intros ms IH off par base [|j] t Hp H; cbn [flatten] in *; simpl in H.
    + injection H as <-. cbn [children tok_parent tok_size mk].
      rewrite eqb_false_lt by lia.
      rewrite children_members_outside by lia.
      replace (Z.of_nat base =? Z.of_nat (base + 0)) with true
        by (symmetry; apply Z.eqb_eq; lia). reflexivity.
    + cbn [children tok_parent mk]. rewrite eqb_false_lt by lia.
      rewrite (fun pf => IH _ _ _ _ _ pf H) by lia.
      replace (S base + j)%nat with (base + S j)%nat by lia. reflexivity.
  - intros w1 v IH w2 off b base j t Hb H. simpl in *. apply IH; [lia|exact H].
  - intros w1 v IHv w2 es IHes off b base j t Hb H. cbn [flatten_elems] in *.
    rewrite children_app.
    apply lookup_app_Some in H as [H|[Hge H]].
    + pose proof (lookup_lt_Some _ _ _ H) as Hj. rewrite flatten_len in Hj.
      rewrite (fun pf => IHv _ _ _ _ _ pf H) by lia.
      rewrite children_elems_outside by lia.
      rewrite (eqb_false_lt (Z.of_nat b)) by lia. f_equal. lia.
    + rewrite flatten_len in Hge, H.
      rewrite (fun pf => IHes _ _ _ _ _ pf H) by lia.
      rewrite children_value_outside by lia.
      rewrite (eqb_false_lt (Z.of_nat b)) by lia.
      replace (base + ntokens v + (j - ntokens v))%nat with (base + j)%nat by lia.
      reflexivity.
  - intros w1 key w2 w3 v IH w4 off b base [|j] t Hb H; cbn [flatten_members] in *;
      simpl in H.
    + injection H as <-. cbn [children tok_parent tok_size mk].
      rewrite eqb_false_lt by lia.
      rewrite children_value_outside by lia.
      replace (Z.of_nat base =? Z.of_nat (base + 0)) with true
        by (symmetry; apply Z.eqb_eq; lia). reflexivity.
    + cbn [children tok_parent mk]. rewrite eqb_false_lt by lia.
      rewrite (fun pf => IH _ _ _ _ _ pf H) by lia.
      replace (S base + j)%nat with (base + S j)%nat by lia. reflexivity.
  - intros w1 key w2 w3 v IHv w4 ms IHms off b base [|j] t Hb H;
      cbn [flatten_members] in *; simpl in H.
    + injection H as <-. cbn [children tok_parent tok_size mk].
      rewrite eqb_false_lt by lia.
      rewrite children_app, children_value_outside, children_members_outside by lia.
      replace (Z.of_nat base =? Z.of_nat (base + 0)) with true
        by (symmetry; apply Z.eqb_eq; lia).
      rewrite (eqb_false_lt (Z.of_nat b)) by lia. reflexivity.
    + cbn [children tok_parent mk]. rewrite eqb_false_lt by lia.
      rewrite children_app.
      apply lookup_app_Some in H as [H|[Hge H]].
      * pose proof (lookup_lt_Some _ _ _ H) as Hj. rewrite flatten_len in Hj.
        rewrite (fun pf => IHv _ _ _ _ _ pf H) by lia.
        rewrite children_members_outside by lia.
        rewrite (eqb_false_lt (Z.of_nat b)) by lia.
        replace (S base + j)%nat with (base + S j)%nat by lia. f_equal. lia.
      * rewrite flatten_len in Hge, H.
        rewrite (fun pf => IHms _ _ _ _ _ pf H) by lia.
        rewrite children_value_outside by lia.
        rewrite (eqb_false_lt (Z.of_nat base)) by lia.
        simpl. f_equal. f_equal. lia.
Qed.

(** ** Spans *)

Definition open_char (ty : djson_type_e) : Z :=
  if type_eqb ty JSON_OBJECT then 123 else 91.

Definition close_char (ty : djson_type_e) : Z :=
  if type_eqb ty JSON_OBJECT then 125 else 93.

(** The token [t] spans in [js] exactly the text of a well-formed array or
    object of its kind: [start] is the offset of the opening bracket and
    [end] the offset behind the closing bracket that matches it. *)
Definition spans_container (js : list Z) (t : token_s) : Prop :=
  exists v o,
    is_container_value v = true /\ wf v /\ kind v = tok_type t /\
    tok_start t = Z.of_nat o /\
    tok_end t = Z.of_nat (o + List.length (render v)) /\
    take (List.length (render v)) (drop o js) = render v.

Lemma container_text_shape v :
  is_container_value v = true ->
  exists inner, render v = open_char (kind v) :: inner ++ [close_char (kind v)].
Proof.
  destruct v; simpl; try discriminate; intros _; eexists; reflexivity.
Qed.

(** The first byte of such a span is the opening bracket of the token's
    kind and its last byte the closing bracket of that kind. *)
Lemma spans_container_brackets js t :
  spans_container js t ->
  char_at js (Z.to_nat (tok_start t)) = open_char (tok_type t) /\
  char_at js (Z.to_nat (tok_end t) - 1) = close_char (tok_type t) /\
  tok_start t < tok_end t - 1.
Proof.
  intros (v & o & Hc & _ & Hk & Hs & He & Ht).
  destruct (container_text_shape v Hc) as [inner Hr].
  rewrite Hs, He, !Nat2Z.id, <- Hk.
  assert (Hl : List.length (render v) = S (List.length inner + 1)).
  { rewrite Hr. simpl. rewrite length_app. reflexivity. }
  assert (Hn : forall i, (i < List.length (render v))%nat ->
                 char_at js (o + i) = nth i (render v) 0).
  { intros i Hi. unfold char_at. rewrite !nth_lookup, <- Ht.
    rewrite lookup_take_lt by lia. rewrite lookup_drop. reflexivity. }
  repeat split.
  - replace o with (o + 0)%nat at 1 by lia. rewrite Hn by lia. rewrite Hr. reflexivity.
  - replace (o + List.length (render v) - 1)%nat
      with (o + S (List.length inner))%nat by lia.
    rewrite Hn by lia. rewrite Hr. simpl.
    rewrite app_nth2 by lia. rewrite Nat.sub_diag. reflexivity.
  - lia.
Qed.

Lemma take_render_at js off (r after : list Z) :
  drop off js = r ++ after -> take (List.length r) (drop off js) = r.
Proof. intros ->. apply take_app_length. Qed.

Lemma mk_not_container ty s e size par :
  ty = JSON_PRIMITIVE \/ ty = JSON_STRING -> is_container (mk ty s e size par) = false.
Proof. intros [-> | ->]; reflexivity. Qed.

Lemma flatten_spans :
  (forall v js off par base after j t,
     wf v -> drop off js = render v ++ after ->
     flatten v off par base !! j = Some t -> is_container t = true ->
     spans_container js t) /\
  (forall es js off b base after j t,
     wf_elems es -> drop off js = render_elems es ++ after ->
     flatten_elems es off b base !! j = Some t -> is_container t = true ->
     spans_container js t) /\
  (forall ms js off b base after j t,
     wf_members ms -> drop off js = render_members ms ++ after ->
     flatten_members ms off b base !! j = Some t -> is_container t = true ->
     spans_container js t).
Proof.
  apply json_mutind.
  - intros s js off par base after [|j] t _ _ H Hc; simpl in H; [|discriminate].
    injection H as <-. discriminate Hc.
  - intros s js off par base after [|j] t _ _ H Hc; simpl in H; [|discriminate].
    injection H as <-. discriminate Hc.
  - intros w js off par base after [|j] t Hw Hd H Hc; simpl in H; [|discriminate].
    injection H as <-. exists (VArr0 w), off.
    repeat split; auto.
    + simpl. rewrite length_app. simpl. f_equal. lia.
    + apply (take_render_at _ _ _ _ Hd).
  - intros es IH js off par base after [|j] t Hw Hd H Hc; cbn [flatten] in H; simpl in H.
    + injection H as <-. exists (VArr es), off.
      repeat split; auto.
      * simpl. rewrite length_app. simpl. f_equal. lia.
      * apply (take_render_at _ _ _ _ Hd).
    + simpl in Hd. rewrite <- app_assoc in Hd.
      apply (IH js (S off) _ _ _ _ _ Hw (drop_cons_at _ _ _ _ Hd) H Hc).
  - intros w js off par base after [|j] t Hw Hd H Hc; simpl in H; [|discriminate].
    injection H as <-. exists (VObj0 w), off.
    repeat split; auto.
    + simpl. rewrite length_app. simpl. f_equal. lia.
    + apply (take_render_at _ _ _ _ Hd).
  - intros ms IH js off par base after [|j] t Hw Hd H Hc; cbn [flatten] in H; simpl in H.
    + injection H as <-. exists (VObj ms), off.
      repeat split; auto.
      * simpl. rewrite length_app. simpl. f_equal. lia.
      * apply (take_render_at _ _ _ _ Hd).
    + simpl in Hd. rewrite <- app_assoc in Hd.
      apply (IH js (S off) _ _ _ _ _ Hw (drop_cons_at _ _ _ _ Hd) H Hc).
  - intros w1 v IH w2 js off b base after j t (Hw1 & Hv & Hw2) Hd H Hc.
    simpl in *. rewrite <- !app_assoc in Hd.
    apply (IH js _ _ _ _ _ _ Hv (drop_app_at _ _ _ _ Hd) H Hc).
  - intros w1 v IHv w2 es IHes js off b base after j t (Hw1 & Hv & Hw2 & Hes) Hd H Hc.
    cbn [flatten_elems render_elems] in *.
    repeat (rewrite <- ?app_assoc in Hd; simpl in Hd).
    pose proof (drop_app_at _ _ _ _ Hd) as Hd1.
    apply lookup_app_Some in H as [H|[_ H]].
    + apply (IHv js _ _ _ _ _ _ Hv Hd1 H Hc).
    + pose proof (drop_app_at _ _ _ _ Hd1) as Hd2.
      pose proof (drop_cons_at _ _ _ _ (drop_app_at _ _ _ _ Hd2)) as Hd3.
      refine (IHes js _ _ _ _ _ _ Hes _ H Hc).
      replace (off + List.length w1 + List.length (render v) + List.length w2 + 1)%nat
        with (S (off + List.length w1 + List.length (render v) + List.length w2)) by lia.
      exact Hd3.
  - intros w1 key w2 w3 v IH w4 js off b base after [|j] t
      (Hw1 & Hkey & Hw2 & Hw3 & Hv & Hw4) Hd H Hc;
      cbn [flatten_members render_members] in *; simpl in H.
    + injection H as <-. discriminate Hc.
    + repeat (rewrite <- ?app_assoc in Hd; simpl in Hd).
      refine (IH js _ _ _ (w4 ++ after) _ _ Hv _ H Hc).
      replace (off + List.length w1 + 1 + List.length key + 1 + List.length w2 + 1 +
               List.length w3)%nat
        with (off + List.length ((w1 ++ 34 :: key ++ 34 :: w2 ++ 58 :: w3)%Z))%nat
        by (repeat (rewrite ?length_app; simpl); lia).
      apply drop_app_at. rewrite Hd. repeat (rewrite <- ?app_assoc; simpl). reflexivity.
  - intros w1 key w2 w3 v IHv w4 ms IHms js off b base after [|j] t
      (Hw1 & Hkey & Hw2 & Hw3 & Hv & Hw4 & Hms) Hd H Hc;
      cbn [flatten_members render_members] in *; simpl in H.
    + injection H as <-. discriminate Hc.
    + repeat (rewrite <- ?app_assoc in Hd; simpl in Hd).
      apply lookup_app_Some in H as [H|[_ H]].
      * refine (IHv js _ _ _ (w4 ++ 44 :: render_members ms ++ after) _ _ Hv _ H Hc).
        replace (off + List.length w1 + 1 + List.length key + 1 + List.length w2 + 1 +
                 List.length w3)%nat
          with (off + List.length ((w1 ++ 34 :: key ++ 34 :: w2 ++ 58 :: w3)%Z))%nat
          by (repeat (rewrite ?length_app; simpl); lia).
        apply drop_app_at. rewrite Hd. repeat (rewrite <- ?app_assoc; simpl). reflexivity.
      * refine (IHms js _ _ _ after _ _ Hms _ H Hc).
        replace (off + List.length w1 + 1 + List.length key + 1 + List.length w2 + 1 +
                 List.length w3 + List.length (render v) + List.length w4 + 1)%nat
          with (off + List.length
                  ((w1 ++ 34 :: key ++ 34 :: w2 ++ 58 :: w3 ++ render v ++ w4 ++ [44])%Z))%nat
          by (repeat (rewrite ?length_app; simpl); lia).
        apply drop_app_at. rewrite Hd. repeat (rewrite <- ?app_assoc; simpl). reflexivity.
Qed.

End TableFacts.

(** * The tokenizer on whole JSON texts *)

Module JsonTexts.
Import Tokenizer TokenizerFacts Json Simulation TableFacts TokenizerScenarios.

Lemma token_size_value : Z.of_nat JSON_TOKEN_SIZE = 4096.
Proof. vm_compute. reflexivity. Qed.

(** A JSON text in the sense of RFC 8259: white space, any value, white
    space. *)
Definition json_value_text (js : list Z) : Prop :=
  exists w1 v w2, js = w1 ++ render v ++ w2 /\ ws w1 /\ ws w2 /\ wf v.

(** C5, evaluated on the code at a text whose value is a primitive.  The
    text [1] is a JSON text that needs one token.  To decide whether the
    primitive is allowed the scan evaluates [tokens[parser->toksuper]]
    while [toksuper] is still -1, a read in front of the token table:
    the scan has no defined result and neither has [startParsingJSON],
    whatever the table holds. *)
Theorem C5_root_primitive_reads_before_table (parser : parser_s) :
  json_value_text (bytes "1") /\
  ntokens (VPrim (bytes "1")) = 1%nat /\
  parse_step (bytes "1") 1 JSON_TOKEN_SIZE jsmne_init (tokens parser) 0 = Stop Undef /\
  jsmne_parse jsmne_init (bytes "1") (strlen (bytes "1")) (tokens parser) JSON_TOKEN_SIZE
    = Undef /\
  startParsingJSON parser (bytes "1") = None.
Proof.
  repeat apply conj; try reflexivity.
  exists [], (VPrim (bytes "1")), []. repeat split; reflexivity.
Qed.

(** What the specification asks of the table [toks] left for the
    text [js]: every array and object token spans the text of a
    well-formed array or object, from its opening bracket to behind the
    matching closing bracket; every token's [size] is the number of
    tokens whose parent it is; and from every token the chain of parent
    links ends in token 0, which has no parent. *)
Definition table_ok (js : list Z) (toks : list token_s) : Prop :=
  (forall i t, toks !! i = Some t -> is_container t = true ->
     spans_container js t /\
     char_at js (Z.to_nat (tok_start t)) = open_char (tok_type t) /\
     char_at js (Z.to_nat (tok_end t) - 1) = close_char (tok_type t)) /\
  (forall i t, toks !! i = Some t ->
     tok_size t = Z.of_nat (children toks (Z.of_nat i))) /\
  (forall i, (i < List.length toks)%nat ->
     root_of (List.length toks) toks i = Some O) /\
  (exists t0, toks !! O = Some t0 /\ tok_parent t0 = -1).

Lemma flatten_table_ok js w1 v w2 :
  js = w1 ++ render v ++ w2 -> wf v ->
  table_ok js (flatten v (List.length w1) (-1) 0).
Proof.
  intros Hjs Hv.
  assert (Hd : drop (List.length w1) js = render v ++ w2).
  { rewrite Hjs. apply drop_app_length. }
  repeat apply conj.
  - intros i t Ht Hc.
    pose proof (proj1 flatten_spans v js _ _ _ _ _ _ Hv Hd Ht Hc) as Hs.
    destruct (spans_container_brackets _ _ Hs) as (Ho & Hcl & _). auto.
  - intros i t Ht.
    apply (proj1 flatten_sizes v (List.length w1) (-1) O i t ltac:(lia) Ht).
  - intros i Hi. apply root_of_first; [|lia|exact Hi].
    intros j t Ht. destruct (flatten_par _ _ _ _ _ _ Ht) as [_ [H|H]]; [auto|right; lia].
  - destruct (flatten_head v (List.length w1) (-1) 0) as (t & r & E & Hp & _).
    exists t. rewrite E. auto.
Qed.

(** The specification's property of well-formed texts, for the texts
    whose value is an object or an array.  For every such text without
    NUL byte and shorter than 2^31 bytes, whose value needs no more tokens
    than the table of the handle has, [startParsingJSON] returns OK, puts
    the cursor at 0, stores the number of tokens as the table length, and
    leaves at the front of the table exactly the expected tokens, which
    satisfy [table_ok]. *)
Theorem json_text_is_tokenized (parser : parser_s) (js w1 w2 : list Z) (v : value) :
  Forall (fun c => c <> 0) js ->
  Z.of_nat (List.length js) < 2 ^ 31 ->
  js = w1 ++ render v ++ w2 ->
  ws w1 -> ws w2 -> wf v -> is_container_value v = true ->
  List.length (tokens parser) = JSON_TOKEN_SIZE ->
  (ntokens v <= JSON_TOKEN_SIZE)%nat ->
  exists h,
    startParsingJSON parser js = Some (JSON_ERROR_OK, h) /\
    json h = js /\ counter h = 0 /\ length h = Z.of_nat (ntokens v) /\
    take (ntokens v) (tokens h) = flatten v (List.length w1) (-1) 0 /\
    table_ok js (take (ntokens v) (tokens h)).
Proof.
  intros Hn _ Hjs Hw1 Hw2 Hv Hc Hlen Hcap.
  assert (Hnp : is_prim v = false) by (destruct v; try discriminate; reflexivity).
  pose proof (parse_value_text js w1 v w2 (tokens parser) Hn Hjs Hw1 Hw2 Hv Hnp
                ltac:(rewrite Hlen; exact Hcap)) as Hp.
  rewrite Hlen in Hp.
  assert (Hb : Z.of_nat (ntokens v) <= 4096).
  { rewrite <- token_size_value. apply Nat2Z.inj_le. exact Hcap. }
  unfold startParsingJSON. rewrite Hp.
  replace (Z.of_nat (ntokens v) =? JSON_ERROR_NOMEM) with false
    by (symmetry; apply Z.eqb_neq; unfold JSON_ERROR_NOMEM; lia).
  eexists. split; [reflexivity|]. cbn [json counter length tokens].
  assert (Ht : take (ntokens v)
                 (flatten v (List.length w1) (-1) 0 ++ drop (ntokens v) (tokens parser)) =
               flatten v (List.length w1) (-1) 0).
  { apply take_app_length'. rewrite flatten_len. reflexivity. }
  repeat apply conj; auto.
  - unfold to_size_t. apply Z.mod_small. lia.
  - rewrite Ht. apply (flatten_table_ok js w1 v w2 Hjs Hv).
  - rewrite Ht. apply (flatten_table_ok js w1 v w2 Hjs Hv).
  - rewrite Ht. apply (flatten_table_ok js w1 v w2 Hjs Hv).
  - rewrite Ht. apply (flatten_table_ok js w1 v w2 Hjs Hv).
Qed.

(** Scenario 1 as a syntax tree. *)
Definition scenario1_value : value :=
  VObj (MCons [] (bytes "a") [] [] (VPrim (bytes "1")) []
       (MOne [] (bytes "b") [] []
          (VArr (ECons [] (VPrim (bytes "true")) []
                (EOne [] (VPrim (bytes "null")) []))) [])).

Lemma json_text_is_tokenized_witness :
  exists h,
    startParsingJSON fresh scenario1 = Some (JSON_ERROR_OK, h) /\
    json h = scenario1 /\ counter h = 0 /\
    length h = Z.of_nat (ntokens scenario1_value) /\
    take (ntokens scenario1_value) (tokens h) = flatten scenario1_value 0 (-1) 0 /\
    table_ok scenario1 (take (ntokens scenario1_value) (tokens h)).
Proof.
  apply (json_text_is_tokenized fresh scenario1 [] [] scenario1_value).
  - repeat constructor; discriminate.
  - vm_compute. reflexivity.
  - reflexivity.
  - reflexivity.
  - reflexivity.
  - simpl. repeat split; try reflexivity;
      repeat (first [apply sb_end | apply sb_plain; [discriminate | discriminate |]]).
  - reflexivity.
  - vm_compute. reflexivity.
  - apply Nat.leb_le. vm_compute. reflexivity.
Defined.

End JsonTexts.

(** * The scan on arbitrary texts: parent links and termination *)

Module ScanInvariant.
Import Tokenizer TokenizerFacts.

(** What every state of the scan satisfies: the tokens handed out lie in
    the table, the superior is no token or a token handed out, and the
    parent of every token handed out is no token or a token with a smaller
    index. *)
Definition inv (p : jsmne_parser) (tokens : list token_s) : Prop :=
  (toknext p <= List.length tokens)%nat /\
  -1 <= toksuper p < Z.of_nat (toknext p) /\
  forall i t, (i < toknext p)%nat -> tokens !! i = Some t ->
    -1 <= tok_parent t < Z.of_nat i.

Lemma inv_init tokens : inv jsmne_init tokens.
Proof.
  split; [simpl; lia|]. split; [simpl; lia|].
  intros i t Hi. simpl in Hi. lia.
Qed.

Lemma inv_set_pos p tokens n : inv p tokens -> inv (set_pos p n) tokens.
Proof. intros H. exact H. Qed.

(** An update of one token that keeps its parent keeps the invariant. *)
Lemma inv_alter p tokens f i :
  (forall t, tok_parent (f t) = tok_parent t) ->
  inv p tokens -> inv p (alter f i tokens).
Proof.
  intros Hf (Hl & Hs & Hp).
  split; [rewrite length_alter; exact Hl|]. split; [exact Hs|].
  intros j t Hj Ht. destruct (decide (i = j)) as [->|Hne].
  - rewrite list_lookup_alter_eq in Ht.
    destruct (tokens !! j) as [t0|] eqn:E; [|discriminate].
    injection Ht as <-. rewrite Hf. apply (Hp j t0 Hj E).
  - rewrite list_lookup_alter_ne in Ht by exact Hne. apply (Hp j t Hj Ht).
Qed.

Lemma inv_bump p tokens tokens2 :
  inv p tokens -> bump_super p tokens = Some tokens2 -> inv p tokens2.
Proof.
  intros Hi H. apply bump_super_some in H. subst tokens2.
  destruct (toksuper p =? -1); [exact Hi|]. apply inv_alter; auto.
Qed.

(** A token handed out and then given the superior as its parent. *)
Lemma inv_alloc p tokens num i p1 tokens1 f :
  inv p tokens ->
  jsmne_alloc_token p tokens num = Some (i, p1, tokens1) ->
  (forall t, tok_parent t = -1 ->
     tok_parent (f t) = -1 \/ tok_parent (f t) = toksuper p) ->
  inv p1 (alter f i tokens1).
Proof.
  intros (Hl & Hs & Hp) Ha Hf. unfold jsmne_alloc_token in Ha.
  destruct (num <=? toknext p)%nat; [discriminate|].
  destruct (tokens !! toknext p) as [old|] eqn:E; [|discriminate].
  injection Ha as <- <- <-. pose proof (lookup_lt_Some _ _ _ E) as Hlt.
  split; [simpl; rewrite length_alter, length_insert; lia|].
  split; [simpl; lia|].
  intros j t Hj Ht. simpl in Hj. destruct (decide (j = toknext p)) as [->|Hne].
  - rewrite list_lookup_alter_eq, list_lookup_insert_eq in Ht by lia.
    injection Ht as <-.
    match goal with |- context [f ?x] => destruct (Hf x eq_refl) as [-> | ->] end; lia.
  - rewrite list_lookup_alter_ne, list_lookup_insert_ne in Ht by lia.
    apply (Hp j t ltac:(lia) Ht).
Qed.

Lemma inv_toksuper p tokens s :
  inv p tokens -> -1 <= s < Z.of_nat (toknext p) -> inv (set_toksuper p s) tokens.
Proof.
  intros (Hl & Hs & Hp) H. split; [exact Hl|]. split; [exact H|]. exact Hp.
Qed.

Lemma comma_scan_lt n tokens i : comma_scan n tokens = Some i -> (i < n)%nat.
Proof.
  induction n as [|n IH]; simpl; [discriminate|].
  destruct (tokens !! n) as [t|].
  - destruct (is_container t && is_open t); [intros H; injection H as <-; lia|].
    intros H. apply IH in H. lia.
  - intros H. apply IH in H. lia.
Qed.

(** The closing loop keeps the invariant and, started with one unit of
    fuel per token below its index, is not cut short. *)
Lemma close_loop_inv ty p tokens k : forall fuel (i : nat),
  inv p tokens -> (i < toknext p)%nat -> (i <= fuel)%nat ->
  match close_loop fuel ty p tokens k (Z.of_nat i) with
  | Next p1 tokens1 _ => inv p1 tokens1
  | Stop (Ret _ p1 tokens1) => inv p1 tokens1
  | Stop Undef => True
  | Stop Fuel => False
  end.
Proof.
  induction fuel as [|fuel IH]; intros i Hi Hlt Hf; cbn [close_loop];
    rewrite Simulation.tok_at_nat;
    (destruct (tokens !! i) as [t|] eqn:E; [|exact I]);
    pose proof Hi as (Hl & Hs & Hp); pose proof (Hp i t Hlt E) as Hpt;
    (destruct (is_open t);
     [destruct (negb (type_eqb (tok_type t) ty)); [exact Hi|];
      apply inv_alter; [reflexivity|]; apply inv_toksuper; [exact Hi|lia]|]);
    (destruct (tok_parent t =? -1) eqn:Ep; [exact Hi|]); apply Z.eqb_neq in Ep.
  - lia.
  - rewrite <- (Z2Nat.id (tok_parent t)) by lia. apply IH; auto; lia.
Qed.

Lemma string_loop_inv fuel : forall js len start p tokens num pos0,
  inv p tokens -> (len - pos0 <= fuel)%nat ->
  match string_loop fuel js len start p tokens num pos0 with
  | Ret _ p1 tokens1 => inv p1 tokens1
  | Undef => True
  | Fuel => False
  end.
Proof.
  induction fuel as [|fuel IH]; intros js len start p tokens num pos0 Hi Hf;
    cbn [string_loop];
    (destruct ((pos0 <? len)%nat && negb (char_at js pos0 =? 0)) eqn:Hg; [|exact Hi]);
    apply andb_true_iff in Hg as [Hlt _]; apply Nat.ltb_lt in Hlt;
    (destruct (char_at js pos0 =? 34);
     [destruct (jsmne_alloc_token (set_pos p pos0) tokens num) as [[[i p2] t2]|] eqn:E;
      [|exact Hi];
      pose proof (alloc_pos _ _ _ _ _ _ E) as (_ & E2 & _);
      apply (inv_alloc (set_pos p pos0) tokens num i p2 t2); auto;
      intros t _; right; simpl; rewrite E2; reflexivity|]);
    (destruct (string_escape js len pos0) as [q|] eqn:E; [|exact Hi]).
  - lia.
  - apply string_escape_ge in E. apply IH; auto. lia.
Qed.

(** One round of the scanning loop keeps the invariant and is never cut
    short. *)
Lemma parse_step_inv js len num p tokens k :
  inv p tokens ->
  match parse_step js len num p tokens k with
  | Next p1 tokens1 _ => inv p1 tokens1
  | Stop (Ret _ p1 tokens1) => inv p1 tokens1
  | Stop Undef => True
  | Stop Fuel => False
  end.
Proof.
  intros Hi. pose proof Hi as (Hl & Hs & Hp). unfold parse_step.
  destruct ((char_at js (pos p) =? 123) || (char_at js (pos p) =? 91)).
  { destruct (jsmne_alloc_token p tokens num) as [[[i p2] t2]|] eqn:E; [|exact Hi].
    pose proof (alloc_pos _ _ _ _ _ _ E) as (E1 & E2 & E3 & E4).
    assert (Hi2 : inv p2 (alter (fun t => t) i t2)).
    { apply (inv_alloc p tokens num i p2 t2); auto. }
    rewrite list_alter_id in Hi2 by reflexivity.
    destruct (bump_super p2 t2) as [t3|] eqn:Eb; [|exact I].
    pose proof (inv_bump _ _ _ Hi2 Eb) as Hi3.
    apply inv_toksuper; [|simpl; lia].
    destruct Hi3 as (Hl3 & Hs3 & Hp3).
    split; [rewrite length_alter; exact Hl3|]. split; [exact Hs3|].
    intros j t Hj Ht. destruct (decide (i = j)) as [->|Hne].
    - rewrite list_lookup_alter_eq in Ht.
      destruct (t3 !! j) as [t0|] eqn:E0; [|discriminate]. injection Ht as <-.
      pose proof (Hp3 _ _ Hj E0). subst j.
      destruct (toksuper p2 =? -1); simpl; lia.
    - rewrite list_lookup_alter_ne in Ht by exact Hne. apply (Hp3 _ _ Hj Ht). }
  destruct ((char_at js (pos p) =? 125) || (char_at js (pos p) =? 93)).
  { destruct (toknext p <? 1)%nat eqn:E; [exact Hi|]. apply Nat.ltb_ge in E.
    replace (Z.of_nat (toknext p) - 1) with (Z.of_nat (toknext p - 1)) by lia.
    apply close_loop_inv; auto; lia. }
  destruct (char_at js (pos p) =? 34).
  { unfold jsmne_parse_string.
    pose proof (string_loop_inv len js len (pos p) p tokens num
                  (pos p + 1) Hi ltac:(lia)) as H.
    destruct (string_loop len js len (pos p) p tokens num
                (pos p + 1)) as [r p2 t2| |]; auto.
    destruct (r <? 0); [exact H|].
    destruct (bump_super p2 t2) as [t3|] eqn:Eb; [|exact I].
    apply (inv_bump _ _ _ H Eb). }
  destruct ((char_at js (pos p) =? 9) || (char_at js (pos p) =? 13) ||
            (char_at js (pos p) =? 10) || (char_at js (pos p) =? 32)); [exact Hi|].
  destruct (char_at js (pos p) =? 58); [apply inv_toksuper; [exact Hi|lia]|].
  destruct (char_at js (pos p) =? 44).
  { unfold tok_at. destruct (toksuper p <? 0) eqn:E0; [exact I|]. apply Z.ltb_ge in E0.
    destruct (tokens !! Z.to_nat (toksuper p)) as [t|] eqn:E; [|exact I].
    destruct (negb (type_eqb (tok_type t) JSON_ARRAY) &&
              negb (type_eqb (tok_type t) JSON_OBJECT)); [|exact Hi].
    destruct (comma_scan (toknext p) tokens) as [i|] eqn:Ec.
    - apply comma_scan_lt in Ec. apply inv_toksuper; [exact Hi|lia].
    - pose proof (Hp (Z.to_nat (toksuper p)) t ltac:(lia) E).
      apply inv_toksuper; [exact Hi|lia]. }
  destruct (is_prim_start (char_at js (pos p))); [|exact Hi].
  destruct (tok_at tokens (toksuper p)) as [t|]; [|exact I].
  destruct (type_eqb (tok_type t) JSON_OBJECT ||
            type_eqb (tok_type t) JSON_STRING && negb (tok_size t =? 0)); [exact Hi|].
  unfold jsmne_parse_primitive.
  destruct (prim_scan (len - pos p) js (pos p)) as [q|]; [|exact Hi].
  destruct (jsmne_alloc_token (set_pos p q) tokens num) as [[[i p2] t2]|] eqn:E;
    [|exact Hi].
  pose proof (alloc_pos _ _ _ _ _ _ E) as (_ & E2 & _).
  assert (Hi2 : inv (set_pos p2 (q - 1))
                  (alter (fun t => set_parent
                            (jsmne_fill_token t JSON_PRIMITIVE (Z.of_nat (pos p)) (Z.of_nat q))
                            (toksuper p2)) i t2)).
  { apply inv_set_pos.
    apply (inv_alloc (set_pos p q) tokens num i p2 t2);
      [exact Hi | exact E | intros t0 _; right; simpl; rewrite E2; reflexivity]. }
  cbn [Z.ltb Z.compare].
  destruct (bump_super _ _) as [t3|] eqn:Eb; [|exact I].
  apply (inv_bump _ _ _ Hi2 Eb).
Qed.

(** The scan from a state that satisfies the invariant, with at least as
    much fuel as there are bytes left: it ends, and the state it ends in
    satisfies the invariant. *)
Lemma parse_loop_inv fuel : forall js len num p tokens k,
  inv p tokens -> (len - pos p <= fuel)%nat ->
  match parse_loop fuel js len num p tokens k with
  | Ret _ p1 tokens1 => inv p1 tokens1
  | Undef => True
  | Fuel => False
  end.
Proof.
  induction fuel as [|fuel IH]; intros js len num p tokens k Hi Hf; cbn [parse_loop];
    fold (guard js len p); destruct (guard js len p) eqn:Hg;
    try (destruct (any_open (toknext p) tokens); exact Hi).
  - unfold guard in Hg. apply andb_true_iff in Hg as [Hlt _].
    apply Nat.ltb_lt in Hlt. lia.
  - pose proof (parse_step_inv js len num p tokens k Hi) as Hs.
    destruct (parse_step js len num p tokens k) as [p1 t1 k1|o] eqn:E.
    + apply parse_step_pos in E; [|exact Hg].
      apply IH; [apply inv_set_pos; exact Hs|].
      unfold guard in Hg. apply andb_true_iff in Hg as [Hlt _].
      apply Nat.ltb_lt in Hlt. simpl. lia.
    + destruct o; auto.
Qed.

(** The scan of a whole text, for a table that has the [num_tokens]
    slots the caller announces and a text shorter than 2^31 bytes, so that
    no offset of the source wraps: with the fuel [jsmne_parse] gives its
    loop it ends, and unless it read a token before the table, every token
    it handed out lies in the table and has as parent no token or a token
    handed out before it. *)
Theorem jsmne_parse_ends js len tokens num :
  (num <= List.length tokens)%nat -> Z.of_nat len < 2 ^ 31 ->
  match jsmne_parse jsmne_init js len tokens num with
  | Ret _ p1 tokens1 => inv p1 tokens1
  | Undef => True
  | Fuel => False
  end.
Proof.
  intros _ _. unfold jsmne_parse. apply parse_loop_inv; [apply inv_init|]. simpl. lia.
Qed.

Lemma jsmne_parse_ends_witness :
  match jsmne_parse jsmne_init (bytes "[1,[2]") 6 (tokens fresh) JSON_TOKEN_SIZE with
  | Ret _ p1 tokens1 => inv p1 tokens1
  | Undef => True
  | Fuel => False
  end.
Proof.
  apply (jsmne_parse_ends (bytes "[1,[2]") 6 (tokens fresh) JSON_TOKEN_SIZE).
  - apply Nat.leb_le. vm_compute. reflexivity.
  - reflexivity.
Defined.

End ScanInvariant.

(** * The table of the scan on arbitrary texts: slots, spans and results *)

Module ScanTable.
Import Tokenizer TokenizerFacts ScanInvariant.

(** A token's span against the part of the text read so far, the first
    [b] bytes: it starts in that part, and is open or ends in it, not
    before its start. *)
Definition span_ok (b : nat) (t : token_s) : Prop :=
  0 <= tok_start t < Z.of_nat b /\
  (tok_end t = -1 \/ tok_start t <= tok_end t <= Z.of_nat b).

(** The table [tokens] and the count [k] when [n] tokens are handed out
    and [b] bytes are read, for a scan that was given the table [tokens0]
    with room for [num] tokens. *)
Definition good (tokens0 : list token_s) (num b n : nat)
    (tokens : list token_s) (k : Z) : Prop :=
  List.length tokens = List.length tokens0 /\
  drop n tokens = drop n tokens0 /\
  (n <= num)%nat /\
  k = Z.of_nat n /\
  (forall i t, (i < n)%nat -> tokens !! i = Some t -> span_ok b t) /\
  (forall i j ti tj, (i < j)%nat -> (j < n)%nat ->
     tokens !! i = Some ti -> tokens !! j = Some tj -> tok_start ti < tok_start tj).

(** The codes a scan fails with. *)
Definition fail_code (r : Z) : Prop :=
  r = JSON_ERROR_NOMEM \/ r = JSON_ERROR_INVAL \/ r = JSON_ERROR_PART.

Lemma span_mono b b' t : (b <= b')%nat -> span_ok b t -> span_ok b' t.
Proof. unfold span_ok. intros Hb (H1 & H2). split; [lia|]. destruct H2; [auto|right; lia]. Qed.

Lemma good_init tokens0 num : good tokens0 num 0 0 tokens0 0.
Proof.
  repeat apply conj; auto; try lia; intros; lia.
Qed.

(** A round that hands out no token: spans are kept, or an end is set
    within the bytes read. *)
Lemma good_upd tokens0 num b b' n tokens tokens' k :
  good tokens0 num b n tokens k -> (b <= b')%nat ->
  List.length tokens' = List.length tokens ->
  drop n tokens' = drop n tokens ->
  (forall j t', (j < n)%nat -> tokens' !! j = Some t' ->
     exists t, tokens !! j = Some t /\ tok_start t' = tok_start t /\
       (tok_end t' = tok_end t \/ tok_start t <= tok_end t' <= Z.of_nat b')) ->
  good tokens0 num b' n tokens' k.
Proof.
  intros (H1 & H2 & H3 & H4 & H5 & H6) Hb Hl Hd Hs.
  repeat apply conj; auto; try congruence.
  - intros i t' Hi Ht. destruct (Hs i t' Hi Ht) as (t & Et & Es & Ee).
    pose proof (span_mono b b' t Hb (H5 i t Hi Et)) as (Ha & Hc).
    split; [lia|]. destruct Ee as [Ee|Ee]; [|right; lia].
    rewrite Ee, Es. exact Hc.
  - intros i j ti tj Hij Hj Hti Htj.
    destruct (Hs i ti ltac:(lia) Hti) as (ti0 & Ei & Esi & _).
    destruct (Hs j tj Hj Htj) as (tj0 & Ej & Esj & _).
    rewrite Esi, Esj. apply (H6 i j ti0 tj0 Hij Hj Ei Ej).
Qed.

(** A round that hands out the token [tn], which starts behind the bytes
    read before. *)
Lemma good_new tokens0 num b b' n tokens tokens' k tn :
  good tokens0 num b n tokens k ->
  (n < num)%nat ->
  List.length tokens' = List.length tokens ->
  drop (S n) tokens' = drop (S n) tokens ->
  (forall j t', (j < n)%nat -> tokens' !! j = Some t' ->
     exists t, tokens !! j = Some t /\ tok_start t' = tok_start t /\
               tok_end t' = tok_end t) ->
  tokens' !! n = Some tn -> Z.of_nat b <= tok_start tn -> span_ok b' tn ->
  good tokens0 num b' (S n) tokens' (k + 1).
Proof.
  intros (H1 & H2 & H3 & H4 & H5 & H6) Hn Hl Hd Hs Htn Hb Hsp.
  assert (Hbb : (b <= b')%nat) by (destruct Hsp; lia).
  repeat apply conj; try congruence; try lia.
  - rewrite Hd. replace (S n) with (n + 1)%nat by lia.
    rewrite <- !drop_drop. rewrite H2. reflexivity.
  - intros i t' Hi Ht. destruct (decide (i = n)) as [->|Hne].
    + rewrite Htn in Ht. injection Ht as <-. exact Hsp.
    + destruct (Hs i t' ltac:(lia) Ht) as (t & Et & Es & Ee).
      pose proof (span_mono b b' t Hbb (H5 i t ltac:(lia) Et)) as Hc.
      unfold span_ok in *. rewrite Es, Ee. exact Hc.
  - intros i j ti tj Hij Hj Hti Htj.
    destruct (Hs i ti ltac:(lia) Hti) as (ti0 & Ei & Esi & _).
    destruct (decide (j = n)) as [->|Hne].
    + rewrite Htn in Htj. injection Htj as <-.
      destruct (H5 i ti0 ltac:(lia) Ei) as (Ha & _). lia.
    + destruct (Hs j tj ltac:(lia) Htj) as (tj0 & Ej & Esj & _).
      rewrite Esi, Esj. apply (H6 i j ti0 tj0 Hij ltac:(lia) Ei Ej).
Qed.


(** *** The table after [size++] on the superior *)

Lemma bump_defined p tokens :
  -1 <= toksuper p < Z.of_nat (List.length tokens) ->
  exists t2, bump_super p tokens = Some t2.
Proof.
  intros H. unfold bump_super, tok_at. destruct (toksuper p =? -1) eqn:E; [eauto|].
  apply Z.eqb_neq in E. destruct (toksuper p <? 0) eqn:E0; [apply Z.ltb_lt in E0; lia|].
  assert (Hlt : (Z.to_nat (toksuper p) < List.length tokens)%nat) by lia.
  destruct (lookup_lt_is_Some_2 _ _ Hlt) as [t ->]. eauto.
Qed.

Lemma bump_length p tokens t2 :
  bump_super p tokens = Some t2 -> List.length t2 = List.length tokens.
Proof.
  intros H. apply bump_super_some in H. subst.
  destruct (toksuper p =? -1); [reflexivity|apply length_alter].
Qed.

Lemma bump_lookup_ne p tokens t2 j :
  bump_super p tokens = Some t2 -> -1 <= toksuper p -> toksuper p <> Z.of_nat j ->
  t2 !! j = tokens !! j.
Proof.
  intros H Hge Hne. apply bump_super_some in H. subst.
  destruct (toksuper p =? -1) eqn:E; [reflexivity|]. apply Z.eqb_neq in E.
  apply list_lookup_alter_ne. lia.
Qed.

Lemma bump_drop p tokens t2 n :
  bump_super p tokens = Some t2 -> -1 <= toksuper p < Z.of_nat n ->
  drop n t2 = drop n tokens.
Proof.
  intros H Hn. apply bump_super_some in H. subst.
  destruct (toksuper p =? -1) eqn:E; [reflexivity|]. apply Z.eqb_neq in E.
  apply drop_alter_lt. lia.
Qed.

Lemma bump_same p tokens t2 j t' :
  bump_super p tokens = Some t2 -> t2 !! j = Some t' ->
  exists t, tokens !! j = Some t /\ tok_start t' = tok_start t /\
            tok_end t' = tok_end t.
Proof.
  intros H Ht. apply bump_super_some in H. subst.
  destruct (toksuper p =? -1); [eauto|].
  destruct (decide (Z.to_nat (toksuper p) = j)) as [E|E].
  - subst j. rewrite list_lookup_alter_eq in Ht.
    destruct (tokens !! Z.to_nat (toksuper p)) as [t|]; [|discriminate].
    injection Ht as <-. eauto.
  - rewrite list_lookup_alter_ne in Ht by exact E. eauto.
Qed.

Lemma set_pos_same p : set_pos p (pos p) = p.
Proof. destruct p. reflexivity. Qed.

Lemma prim_scan_le left : forall js pos q,
  prim_scan left js pos = Some q -> (q <= pos + left)%nat.
Proof.
  induction left as [|left IH]; intros js pos q H; cbn [prim_scan] in H.
  - injection H as <-. lia.
  - destruct (char_at js pos =? 0); [injection H as <-; lia|].
    destruct (is_prim_end (char_at js pos)); [injection H as <-; lia|].
    destruct ((char_at js pos <? 32) || (127 <=? char_at js pos)); [discriminate|].
    apply IH in H. lia.
Qed.

(** *** The closing case *)

(** The walk along the parent links stays in the table.  It ends at an
    open token of the closer's kind, which it closes behind the closer; or
    at an open token of the other kind, and fails; or at a token without
    parent, and changes nothing. *)
Lemma close_loop_good ty p tokens k : forall fuel (i : nat),
  inv p tokens -> (i < toknext p)%nat ->
  match close_loop fuel ty p tokens k (Z.of_nat i) with
  | Next p1 t1 k1 =>
      k1 = k /\ pos p1 = pos p /\ toknext p1 = toknext p /\
      (t1 = tokens \/
       exists j t, (j < toknext p)%nat /\ tokens !! j = Some t /\ is_open t = true /\
         t1 = alter (fun t => set_end t (Z.of_nat (pos p) + 1)) j tokens)
  | Stop (Ret r p1 t1) => p1 = p /\ t1 = tokens /\ r = JSON_ERROR_INVAL
  | Stop Undef => False
  | Stop Fuel => True
  end.
Proof.
  induction fuel as [|fuel IH]; intros i Hi Hlt; cbn [close_loop];
    rewrite Simulation.tok_at_nat;
    pose proof Hi as (Hl & Hs & Hp);
    assert (Hil : (i < List.length tokens)%nat) by lia;
    (destruct (lookup_lt_is_Some_2 _ _ Hil) as [t E]); rewrite E;
    pose proof (Hp i t Hlt E) as Hpt;
    (destruct (is_open t) eqn:Eo;
     [destruct (negb (type_eqb (tok_type t) ty)); [auto|];
      repeat apply conj; auto; right; exists i, t; rewrite Nat2Z.id; auto|]);
    (destruct (tok_parent t =? -1) eqn:Ep; [auto|]); apply Z.eqb_neq in Ep.
  - exact I.
  - rewrite <- (Z2Nat.id (tok_parent t)) by lia. apply IH; auto; lia.
Qed.

(** *** The string case *)

(** The string loop reads no token.  It fails and leaves the parser and
    the table as they were; or it finds the closing quote at some offset
    [q] behind the opening one and hands out one token for the bytes
    between them. *)
Lemma string_loop_good fuel : forall js len start p tokens num pos0,
  (start < pos0)%nat -> start = pos p ->
  match string_loop fuel js len start p tokens num pos0 with
  | Ret r p1 t1 =>
      (fail_code r /\ p1 = p /\ t1 = tokens /\
       (r = JSON_ERROR_NOMEM ->
        (num <= toknext p)%nat \/ tokens !! toknext p = None)) \/
      (r = 0 /\ exists q t2,
         (start < q < len)%nat /\
         jsmne_alloc_token (set_pos p q) tokens num = Some (toknext p, p1, t2) /\
         t1 = alter (fun t => set_parent
                       (jsmne_fill_token t JSON_STRING (Z.of_nat start + 1) (Z.of_nat q))
                       (toksuper p1)) (toknext p) t2)
  | Undef => False
  | Fuel => True
  end.
Proof.
  induction fuel as [|fuel IH]; intros js len start p tokens num pos0 Hs Hp;
    cbn [string_loop];
    (destruct ((pos0 <? len)%nat && negb (char_at js pos0 =? 0)) eqn:Hg;
     [|left; subst start; rewrite set_pos_same; unfold fail_code, JSON_ERROR_PART,
         JSON_ERROR_NOMEM; repeat apply conj; auto; discriminate]);
    apply andb_true_iff in Hg as [Hlt _]; apply Nat.ltb_lt in Hlt;
    (destruct (char_at js pos0 =? 34);
     [destruct (jsmne_alloc_token (set_pos p pos0) tokens num) as [[[i p2] t2]|] eqn:E;
      [pose proof (alloc_pos _ _ _ _ _ _ E) as (_ & _ & _ & ->); right;
       split; [reflexivity|]; exists pos0, t2; repeat apply conj; auto
      |left; subst start; rewrite set_pos_same; unfold fail_code; repeat apply conj; auto;
       intros _; unfold jsmne_alloc_token in E; simpl in E;
       destruct (num <=? toknext p)%nat eqn:En; [left; apply Nat.leb_le; exact En|];
       destruct (tokens !! toknext p); [discriminate|right; reflexivity]]|]);
    (destruct (string_escape js len pos0) as [q|] eqn:E;
     [|left; subst start; rewrite set_pos_same; unfold fail_code, JSON_ERROR_INVAL,
         JSON_ERROR_NOMEM; repeat apply conj; auto; discriminate]).
  - exact I.
  - apply string_escape_ge in E. apply IH; auto. lia.
Qed.


(** *** Handing out a token *)

Lemma alloc_none p tokens num :
  jsmne_alloc_token p tokens num = None ->
  (num <= toknext p)%nat \/ tokens !! toknext p = None.
Proof.
  unfold jsmne_alloc_token. destruct (num <=? toknext p)%nat eqn:E.
  - intros _. left. apply Nat.leb_le. exact E.
  - destruct (tokens !! toknext p); [discriminate|auto].
Qed.

Lemma alloc_shape p tokens num i p1 t1 :
  jsmne_alloc_token p tokens num = Some (i, p1, t1) ->
  (toknext p < num)%nat /\ (toknext p < List.length tokens)%nat /\
  exists tok, t1 = <[toknext p := tok]> tokens /\ tok_start tok = -1 /\ tok_end tok = -1.
Proof.
  unfold jsmne_alloc_token. destruct (num <=? toknext p)%nat eqn:E; [discriminate|].
  apply Nat.leb_gt in E.
  destruct (tokens !! toknext p) as [old|] eqn:El; [|discriminate].
  intros H. injection H as <- <- <-. apply lookup_lt_Some in El.
  repeat apply conj; auto. eexists. repeat apply conj; reflexivity.
Qed.

(** The table after a token was handed out at index [n], set up by [f],
    and the superior's size was incremented. *)
Lemma new_token_table tokens n tok f p' T' :
  (n < List.length tokens)%nat ->
  bump_super p' (alter f n (<[n := tok]> tokens)) = Some T' ->
  -1 <= toksuper p' < Z.of_nat n ->
  List.length T' = List.length tokens /\
  drop (S n) T' = drop (S n) tokens /\
  (forall j t', (j < n)%nat -> T' !! j = Some t' ->
     exists t, tokens !! j = Some t /\ tok_start t' = tok_start t /\
               tok_end t' = tok_end t) /\
  T' !! n = Some (f tok).
Proof.
  intros Hn Hb Hs. repeat apply conj.
  - rewrite (bump_length _ _ _ Hb), length_alter, length_insert. reflexivity.
  - rewrite (bump_drop _ _ _ (S n) Hb) by lia.
    rewrite drop_alter_lt, drop_insert_lt by lia. reflexivity.
  - intros j t' Hj Ht. destruct (bump_same _ _ _ _ _ Hb Ht) as (t & Et & Es & Ee).
    rewrite list_lookup_alter_ne, list_lookup_insert_ne in Et by lia. eauto.
  - rewrite (bump_lookup_ne _ _ _ n Hb) by lia.
    rewrite list_lookup_alter_eq, list_lookup_insert_eq by lia. reflexivity.
Qed.

(** *** One round of the scanning loop *)

(** A round that goes on leaves a good table for the bytes up to the one
    it stopped on; a round that fails returns one of the three codes and
    leaves the parser and the table as it found them; and the only read
    outside the table is that of the superior, at a comma or at the first
    character of a primitive, when there is no superior. *)
Lemma parse_step_good js len num tokens0 p tokens k :
  inv p tokens -> good tokens0 num (pos p) (toknext p) tokens k ->
  guard js len p = true ->
  match parse_step js len num p tokens k with
  | Next p1 t1 k1 =>
      good tokens0 num (S (pos p1)) (toknext p1) t1 k1 /\ (pos p1 < len)%nat
  | Stop (Ret r p1 t1) =>
      p1 = p /\ t1 = tokens /\ fail_code r /\
      (r = JSON_ERROR_NOMEM -> (num <= toknext p)%nat \/ tokens !! toknext p = None)
  | Stop Undef =>
      toksuper p = -1 /\
      (char_at js (pos p) = 44 \/ is_prim_start (char_at js (pos p)) = true)
  | Stop Fuel => True
  end.
Proof.
  intros Hi Hg Hgd. pose proof Hi as (Hl & Hs & Hp).
  unfold guard in Hgd. apply andb_true_iff in Hgd as [Hlt Hnz]. apply Nat.ltb_lt in Hlt.
  assert (Hinval : forall q t, q = p -> t = tokens ->
            q = p /\ t = tokens /\ fail_code JSON_ERROR_INVAL /\
            (JSON_ERROR_INVAL = JSON_ERROR_NOMEM ->
             (num <= toknext p)%nat \/ tokens !! toknext p = None)).
  { intros q t -> ->. unfold fail_code. repeat apply conj; auto. discriminate. }
  unfold parse_step.
  destruct ((char_at js (pos p) =? 123) || (char_at js (pos p) =? 91)).
  { destruct (jsmne_alloc_token p tokens num) as [[[i p2] t2]|] eqn:E.
    2:{ unfold fail_code. repeat apply conj; auto. intros _. apply alloc_none. exact E. }
    pose proof (alloc_pos _ _ _ _ _ _ E) as (E1 & E2 & E3 & ->).
    destruct (alloc_shape _ _ _ _ _ _ E) as (Hnum & Hlen & tok & -> & Ts & Te).
    destruct (bump_defined p2 (<[toknext p := tok]> tokens)) as [t3 Eb].
    { rewrite length_insert, E2. lia. }
    rewrite Eb. cbn [pos toknext set_toksuper]. rewrite E1, E3. split; [|exact Hlt].
    rewrite <- (list_alter_id (fun t => t) (<[toknext p := tok]> tokens) (toknext p))
      in Eb by reflexivity.
    destruct (new_token_table tokens (toknext p) tok (fun t => t) p2 t3 Hlen Eb
                ltac:(rewrite E2; lia)) as (N1 & N2 & N3 & N4).
    eapply (good_new tokens0 num (pos p) (S (pos p)) (toknext p) tokens); eauto.
    - rewrite length_alter. exact N1.
    - rewrite drop_alter_lt by lia. exact N2.
    - intros j t' Hj Ht. rewrite list_lookup_alter_ne in Ht by lia. eauto.
    - rewrite list_lookup_alter_eq, N4. reflexivity.
    - simpl. lia.
    - unfold span_ok. destruct (toksuper p2 =? -1); simpl; lia. }
  destruct ((char_at js (pos p) =? 125) || (char_at js (pos p) =? 93)).
  { destruct (toknext p <? 1)%nat eqn:E; [auto|]. apply Nat.ltb_ge in E.
    replace (Z.of_nat (toknext p) - 1) with (Z.of_nat (toknext p - 1)) by lia.
    pose proof (close_loop_good
                  (if char_at js (pos p) =? 125 then JSON_OBJECT else JSON_ARRAY)
                  p tokens k (toknext p) (toknext p - 1) Hi ltac:(lia)) as Hc.
    destruct (close_loop _ _ _ _ _ _) as [p1 t1 k1|[r p1 t1| |]]; auto.
    - destruct Hc as (-> & Ep & En & Ht). rewrite Ep, En. split; [|exact Hlt].
      destruct Ht as [->|(j & t & Hj & Et & Eo & ->)].
      + apply (good_upd tokens0 num (pos p) (S (pos p)) (toknext p) tokens); auto.
        intros j t' _ Ht. eauto.
      + apply (good_upd tokens0 num (pos p) (S (pos p)) (toknext p) tokens); auto.
        * apply length_alter.
        * apply drop_alter_lt. exact Hj.
        * intros i t' _ Ht. destruct (decide (j = i)) as [->|Hne].
          -- rewrite list_lookup_alter_eq, Et in Ht. injection Ht as <-.
             exists t. repeat apply conj; auto. right. simpl.
             destruct Hg as (_ & _ & _ & _ & G5 & _).
             destruct (G5 i t Hj Et) as (Ha & _). lia.
          -- rewrite list_lookup_alter_ne in Ht by exact Hne. eauto.
    - destruct Hc as (-> & -> & ->). auto.
    - destruct Hc. }
  destruct (char_at js (pos p) =? 34).
  { unfold jsmne_parse_string.
    pose proof (string_loop_good len js len (pos p) p tokens num (pos p + 1)
                  ltac:(lia) eq_refl) as H.
    destruct (string_loop len js len (pos p) p tokens num (pos p + 1))
      as [r p2 t2| |]; auto; [|destruct H].
    destruct H as [(Hf & -> & -> & Hm)|(-> & q & t3 & Hq & E & ->)].
    - destruct Hf as [-> | [-> | ->]]; cbn [Z.ltb Z.compare JSON_ERROR_NOMEM
        JSON_ERROR_INVAL JSON_ERROR_PART]; unfold fail_code; repeat apply conj; auto;
        discriminate.
    - cbn [Z.ltb Z.compare].
      pose proof (alloc_pos _ _ _ _ _ _ E) as (E1 & E2 & E3 & _). simpl in E1, E2, E3.
      destruct (alloc_shape _ _ _ _ _ _ E) as (Hnum & Hlen & tok & -> & Ts & Te).
      simpl in Hnum, Hlen.
      match goal with |- context [bump_super p2 ?T] =>
        destruct (bump_defined p2 T) as [t4 Eb] end.
      { rewrite length_alter, length_insert, E2. lia. }
      rewrite Eb. rewrite E1, E3. split; [|lia].
      destruct (new_token_table tokens (toknext p) tok _ p2 t4 Hlen Eb
                  ltac:(rewrite E2; lia)) as (N1 & N2 & N3 & N4).
      eapply (good_new tokens0 num (pos p) (S q) (toknext p) tokens); eauto.
      + simpl. lia.
      + unfold span_ok. simpl. lia. }
  destruct ((char_at js (pos p) =? 9) || (char_at js (pos p) =? 13) ||
            (char_at js (pos p) =? 10) || (char_at js (pos p) =? 32)).
  { split; [|exact Hlt].
    apply (good_upd tokens0 num (pos p) (S (pos p)) (toknext p) tokens); auto.
    intros j t' _ Ht. eauto. }
  destruct (char_at js (pos p) =? 58).
  { split; [|exact Hlt]. simpl.
    apply (good_upd tokens0 num (pos p) (S (pos p)) (toknext p) tokens); auto.
    intros j t' _ Ht. eauto. }
  destruct (char_at js (pos p) =? 44) eqn:Ecomma.
  { apply Z.eqb_eq in Ecomma.
    unfold tok_at. destruct (toksuper p <? 0) eqn:E0.
    { apply Z.ltb_lt in E0. split; [lia|auto]. }
    apply Z.ltb_ge in E0.
    assert (Hsl : (Z.to_nat (toksuper p) < List.length tokens)%nat) by lia.
    destruct (lookup_lt_is_Some_2 _ _ Hsl) as [t ->].
    assert (Hsame : good tokens0 num (S (pos p)) (toknext p) tokens k).
    { apply (good_upd tokens0 num (pos p) (S (pos p)) (toknext p) tokens); auto.
      intros j t' _ Ht. eauto. }
    destruct (negb (type_eqb (tok_type t) JSON_ARRAY) &&
              negb (type_eqb (tok_type t) JSON_OBJECT)); [|auto].
    destruct (comma_scan (toknext p) tokens); auto. }
  destruct (is_prim_start (char_at js (pos p))) eqn:Eprim; [|auto].
  unfold tok_at. destruct (toksuper p <? 0) eqn:E0.
  { apply Z.ltb_lt in E0. split; [lia|auto]. }
  apply Z.ltb_ge in E0.
  assert (Hsl : (Z.to_nat (toksuper p) < List.length tokens)%nat) by lia.
  destruct (lookup_lt_is_Some_2 _ _ Hsl) as [t ->].
  destruct (type_eqb (tok_type t) JSON_OBJECT ||
            type_eqb (tok_type t) JSON_STRING && negb (tok_size t =? 0)); [auto|].
  unfold jsmne_parse_primitive.
  destruct (prim_scan (len - pos p) js (pos p)) as [q|] eqn:Eq.
  2:{ cbn [Z.ltb Z.compare JSON_ERROR_INVAL]. apply Hinval; auto using set_pos_same. }
  destruct (jsmne_alloc_token (set_pos p q) tokens num) as [[[i p2] t2]|] eqn:E.
  2:{ cbn [Z.ltb Z.compare JSON_ERROR_NOMEM]. unfold fail_code.
      repeat apply conj; auto using set_pos_same. intros _.
      apply alloc_none in E. exact E. }
  cbn [Z.ltb Z.compare].
  pose proof (alloc_pos _ _ _ _ _ _ E) as (E1 & E2 & E3 & ->). simpl in E1, E2, E3.
  destruct (alloc_shape _ _ _ _ _ _ E) as (Hnum & Hlen & tok & -> & Ts & Te).
  simpl in Hnum, Hlen.
  assert (Hq1 : (pos p < q)%nat).
  { destruct (len - pos p)%nat as [|left] eqn:El; [lia|].
    apply (prim_scan_gt left js); auto. }
  assert (Hq2 : (q <= len)%nat).
  { apply prim_scan_le in Eq. lia. }
  match goal with |- context [bump_super ?P ?T] =>
    destruct (bump_defined P T) as [t4 Eb] end.
  { rewrite length_alter, length_insert. simpl. rewrite E2. lia. }
  rewrite Eb. cbn [pos toknext set_pos]. rewrite E3. split; [|lia].
  destruct (new_token_table tokens (toknext p) tok _ _ t4 Hlen Eb
              ltac:(simpl; rewrite E2; lia)) as (N1 & N2 & N3 & N4).
  replace (S (q - 1)) with q by lia.
  eapply (good_new tokens0 num (pos p) q (toknext p) tokens); eauto.
  - simpl. lia.
  - unfold span_ok. simpl. lia.
Qed.


(** *** The whole scan *)

Lemma run_good n : forall js len num tokens0 p tokens k p' tokens' k',
  inv p tokens -> good tokens0 num (pos p) (toknext p) tokens k ->
  (pos p <= len)%nat ->
  run n js len num p tokens k = Some (p', tokens', k') ->
  inv p' tokens' /\ good tokens0 num (pos p') (toknext p') tokens' k' /\
  (pos p' <= len)%nat.
Proof.
  induction n as [|n IH]; intros js len num tokens0 p tokens k p' tokens' k' Hi Hg Hl H;
    cbn [run] in H.
  - injection H as <- <- <-. auto.
  - destruct (guard js len p) eqn:Hgd; [|discriminate].
    pose proof (parse_step_inv js len num p tokens k Hi) as H1.
    pose proof (parse_step_good js len num tokens0 p tokens k Hi Hg Hgd) as H2.
    destruct (parse_step js len num p tokens k) as [p1 t1 k1|]; [|discriminate].
    destruct H2 as (H2 & H3).
    apply (IH js len num tokens0 _ _ _ _ _ _ (inv_set_pos _ _ _ H1) H2 H3 H).
Qed.

(** A scan with enough fuel is some rounds that go on, followed by the
    end of the text or by a round that stops. *)
Lemma parse_loop_cases fuel : forall js len num p tokens k,
  (len - pos p <= fuel)%nat ->
  exists n p' tokens' k',
    run n js len num p tokens k = Some (p', tokens', k') /\
    ((guard js len p' = false /\
      parse_loop fuel js len num p tokens k =
        if any_open (toknext p') tokens' then Ret JSON_ERROR_PART p' tokens'
        else Ret k' p' tokens') \/
     (guard js len p' = true /\
      exists o, parse_step js len num p' tokens' k' = Stop o /\
                parse_loop fuel js len num p tokens k = o)).
Proof.
  induction fuel as [|fuel IH]; intros js len num p tokens k Hf; cbn [parse_loop];
    fold (guard js len p); destruct (guard js len p) eqn:Hg;
    try solve [exists O, p, tokens, k; split; [reflexivity|left; split; [exact Hg|reflexivity]]].
  - unfold guard in Hg. apply andb_true_iff in Hg as [Hlt _].
    apply Nat.ltb_lt in Hlt. lia.
  - destruct (parse_step js len num p tokens k) as [p1 t1 k1|o] eqn:E.
    + pose proof (parse_step_pos _ _ _ _ _ _ _ _ _ Hg E) as Hp.
      assert (Hlt : (pos p < len)%nat).
      { unfold guard in Hg. apply andb_true_iff in Hg as [Hlt _].
        apply Nat.ltb_lt in Hlt. exact Hlt. }
      assert (Hf' : (len - pos (set_pos p1 (S (pos p1))) <= fuel)%nat) by (simpl; lia).
      destruct (IH js len num (set_pos p1 (S (pos p1))) t1 k1 Hf')
        as (n & p' & t' & k' & Hr & Hc).
      exists (S n), p', t', k'. split; [|exact Hc].
      cbn [run]. rewrite Hg, E. exact Hr.
    + exists O, p, tokens, k. split; [reflexivity|]. right. split; [exact Hg|].
      exists o. auto.
Qed.

Lemma any_open_false n tokens :
  any_open n tokens = false ->
  forall i t, (i < n)%nat -> tokens !! i = Some t -> is_open t = false.
Proof.
  induction n as [|n IH]; intros H i t Hi Ht; [lia|]. cbn [any_open] in H.
  destruct (decide (i = n)) as [->|Hne].
  - rewrite Ht in H. destruct (is_open t); [discriminate|reflexivity].
  - destruct (tokens !! n) as [tn|].
    + destruct (is_open tn); [discriminate|]. apply (IH H i t ltac:(lia) Ht).
    + apply (IH H i t ltac:(lia) Ht).
Qed.

(** What a scan from [jsmne_init] returns, and the table it leaves. *)
Lemma parse_good js len num tokens0 :
  match jsmne_parse jsmne_init js len tokens0 num with
  | Ret r p1 t1 =>
      inv p1 t1 /\ (pos p1 <= len)%nat /\
      good tokens0 num (pos p1) (toknext p1) t1 (Z.of_nat (toknext p1)) /\
      ((fail_code r /\
        (r = JSON_ERROR_NOMEM ->
         ((num <= toknext p1)%nat \/ t1 !! toknext p1 = None) /\ (pos p1 < len)%nat)) \/
       (r = Z.of_nat (toknext p1) /\ any_open (toknext p1) t1 = false))
  | Undef =>
      exists n p t k,
        run n js len num jsmne_init tokens0 0 = Some (p, t, k) /\
        guard js len p = true /\ toksuper p = -1 /\
        (char_at js (pos p) = 44 \/ is_prim_start (char_at js (pos p)) = true)
  | Fuel => False
  end.
Proof.
  unfold jsmne_parse.
  assert (Hf : (len - pos jsmne_init <= len)%nat) by (simpl; lia).
  destruct (parse_loop_cases len js len num jsmne_init tokens0 0 Hf)
    as (n & p & t & k & Hr & Hc).
  assert (H0 : (pos jsmne_init <= len)%nat) by (simpl; lia).
  destruct (run_good n js len num tokens0 _ _ _ _ _ _ (inv_init tokens0)
              (good_init tokens0 num) H0 Hr) as (Hi & Hg & Hl).
  assert (Hk : k = Z.of_nat (toknext p)) by (destruct Hg as (_ & _ & _ & Hk & _); exact Hk).
  subst k.
  destruct Hc as [(Hgd & ->)|(Hgd & o & Hs & ->)].
  - destruct (any_open (toknext p) t) eqn:Ea.
    + split; [exact Hi|]. split; [exact Hl|]. split; [exact Hg|].
      left. unfold fail_code. split; [auto|discriminate].
    + split; [exact Hi|]. split; [exact Hl|]. split; [exact Hg|]. right. auto.
  - pose proof (parse_step_inv js len num p t (Z.of_nat (toknext p)) Hi) as H1.
    pose proof (parse_step_good js len num tokens0 p t _ Hi Hg Hgd) as H2.
    rewrite Hs in H1, H2. destruct o as [r p1 t1| |].
    + destruct H2 as (-> & -> & Hfc & Hm).
      split; [exact Hi|]. split; [exact Hl|]. split; [exact Hg|]. left.
      split; [exact Hfc|]. intros Hnm. split; [exact (Hm Hnm)|].
      unfold guard in Hgd. apply andb_true_iff in Hgd as [Hlt _].
      apply Nat.ltb_lt in Hlt. exact Hlt.
    + exists n, p, t, (Z.of_nat (toknext p)). destruct H2. auto.
    + exact H1.
Qed.


(** The scan writes to the slots of the tokens it hands out and to no
    other.  For a table that has the [num_tokens] slots the caller
    announces and a text shorter than 2^31 bytes, whatever the text: the
    table keeps its length, no more than [num_tokens] tokens are handed
    out, all of them inside the table, and the slots behind them hold what
    they held before. *)
Theorem scan_keeps_table js len tokens0 num :
  (num <= List.length tokens0)%nat -> Z.of_nat len < 2 ^ 31 ->
  match jsmne_parse jsmne_init js len tokens0 num with
  | Ret r p1 t1 =>
      List.length t1 = List.length tokens0 /\
      (toknext p1 <= num)%nat /\ (toknext p1 <= List.length tokens0)%nat /\
      drop (toknext p1) t1 = drop (toknext p1) tokens0
  | _ => True
  end.
Proof.
  intros _ _. pose proof (parse_good js len num tokens0) as H.
  destruct (jsmne_parse jsmne_init js len tokens0 num) as [r p1 t1| |]; auto.
  destruct H as ((Hl & _) & _ & (G1 & G2 & G3 & _) & _).
  repeat apply conj; auto. rewrite <- G1. exact Hl.
Qed.

Lemma scan_keeps_table_witness :
  match jsmne_parse jsmne_init (bytes "[1,[2]") 6 (tokens fresh) JSON_TOKEN_SIZE with
  | Ret r p1 t1 =>
      List.length t1 = List.length (tokens fresh) /\
      (toknext p1 <= JSON_TOKEN_SIZE)%nat /\
      (toknext p1 <= List.length (tokens fresh))%nat /\
      drop (toknext p1) t1 = drop (toknext p1) (tokens fresh)
  | _ => True
  end.
Proof.
  apply (scan_keeps_table (bytes "[1,[2]") 6 (tokens fresh) JSON_TOKEN_SIZE).
  - apply Nat.leb_le. vm_compute. reflexivity.
  - reflexivity.
Defined.

(** What the scan returns, for a table with room for [num_tokens]
    tokens and a text shorter than 2^31 bytes, so that every offset is
    an [int]: the out-of-memory code, and then all [num_tokens] tokens are
    handed out; or the invalid-character code; or the partial-input code;
    or the number of tokens handed out, and then every one of them is
    closed and spans bytes of the text: [0 <= start <= end <= len]. *)
Theorem scan_result js len tokens0 num :
  (num <= List.length tokens0)%nat -> Z.of_nat len < 2 ^ 31 ->
  match jsmne_parse jsmne_init js len tokens0 num with
  | Ret r p1 t1 =>
      (r = JSON_ERROR_NOMEM /\ toknext p1 = num) \/
      r = JSON_ERROR_INVAL \/ r = JSON_ERROR_PART \/
      (r = Z.of_nat (toknext p1) /\
       forall i t, (i < toknext p1)%nat -> t1 !! i = Some t ->
         0 <= tok_start t <= tok_end t /\ tok_end t <= Z.of_nat len)
  | _ => True
  end.
Proof.
  intros Hnum _. pose proof (parse_good js len num tokens0) as H.
  destruct (jsmne_parse jsmne_init js len tokens0 num) as [r p1 t1| |]; auto.
  destruct H as (Hi & Hl & (G1 & G2 & G3 & _ & G5 & _) & [(Hf & Hm)|(-> & Ha)]).
  - destruct Hf as [-> | [-> | ->]]; auto. left. split; [reflexivity|].
    destruct (Hm eq_refl) as ([Hn|Hn] & _); [lia|].
    apply lookup_ge_None in Hn. lia.
  - right. right. right. split; [reflexivity|]. intros i t Hlt Ht.
    pose proof (any_open_false _ _ Ha i t Hlt Ht) as Ho.
    destruct (G5 i t Hlt Ht) as (Hs & He). unfold is_open in Ho.
    destruct (tok_start t =? -1) eqn:E1; [apply Z.eqb_eq in E1; lia|].
    destruct (tok_end t =? -1) eqn:E2; [discriminate Ho|]. apply Z.eqb_neq in E2.
    destruct He as [He|He]; [contradiction|]. lia.
Qed.

Lemma scan_result_witness :
  match jsmne_parse jsmne_init (bytes "[1,[2]") 6 (tokens fresh) JSON_TOKEN_SIZE with
  | Ret r p1 t1 =>
      (r = JSON_ERROR_NOMEM /\ toknext p1 = JSON_TOKEN_SIZE) \/
      r = JSON_ERROR_INVAL \/ r = JSON_ERROR_PART \/
      (r = Z.of_nat (toknext p1) /\
       forall i t, (i < toknext p1)%nat -> t1 !! i = Some t ->
         0 <= tok_start t <= tok_end t /\ tok_end t <= Z.of_nat 6)
  | _ => True
  end.
Proof.
  apply (scan_result (bytes "[1,[2]") 6 (tokens fresh) JSON_TOKEN_SIZE).
  - apply Nat.leb_le. vm_compute. reflexivity.
  - reflexivity.
Defined.

(** The tokens in the table, at every return of the scan, also a failing
    one, for a table that has the [num_tokens] slots the caller announces
    and a text shorter than 2^31 bytes, so that every offset is an [int]:
    every token handed out starts inside the text and is open
    ([end = -1]) or ends inside it, not before its start; and the tokens
    lie in the table in the order of their starts. *)
Theorem scan_token_spans js len tokens0 num :
  (num <= List.length tokens0)%nat -> Z.of_nat len < 2 ^ 31 ->
  match jsmne_parse jsmne_init js len tokens0 num with
  | Ret r p1 t1 =>
      (forall i t, (i < toknext p1)%nat -> t1 !! i = Some t ->
         0 <= tok_start t < Z.of_nat len /\
         (tok_end t = -1 \/ tok_start t <= tok_end t <= Z.of_nat len)) /\
      (forall i j ti tj, (i < j)%nat -> (j < toknext p1)%nat ->
         t1 !! i = Some ti -> t1 !! j = Some tj -> tok_start ti < tok_start tj)
  | _ => True
  end.
Proof.
  intros _ _. pose proof (parse_good js len num tokens0) as H.
  destruct (jsmne_parse jsmne_init js len tokens0 num) as [r p1 t1| |]; auto.
  destruct H as (_ & Hl & (_ & _ & _ & _ & G5 & G6) & _).
  split; [|exact G6]. intros i t Hi Ht.
  apply (span_mono (pos p1) len t Hl (G5 i t Hi Ht)).
Qed.

Lemma scan_token_spans_witness :
  match jsmne_parse jsmne_init (bytes "[1,[2]") 6 (tokens fresh) JSON_TOKEN_SIZE with
  | Ret r p1 t1 =>
      (forall i t, (i < toknext p1)%nat -> t1 !! i = Some t ->
         0 <= tok_start t < Z.of_nat 6 /\
         (tok_end t = -1 \/ tok_start t <= tok_end t <= Z.of_nat 6)) /\
      (forall i j ti tj, (i < j)%nat -> (j < toknext p1)%nat ->
         t1 !! i = Some ti -> t1 !! j = Some tj -> tok_start ti < tok_start tj)
  | _ => True
  end.
Proof.
  apply (scan_token_spans (bytes "[1,[2]") 6 (tokens fresh) JSON_TOKEN_SIZE).
  - apply Nat.leb_le. vm_compute. reflexivity.
  - reflexivity.
Defined.

(** A state of the scan that reads in front of the table. *)
Lemma parse_step_undef js len num p tokens k :
  toksuper p = -1 ->
  char_at js (pos p) = 44 \/ is_prim_start (char_at js (pos p)) = true ->
  parse_step js len num p tokens k = Stop Undef.
Proof.
  intros Hs Hc. unfold parse_step. rewrite Hs.
  destruct Hc as [-> | Hc]; [reflexivity|].
  assert (Hv : char_at js (pos p) = 45 \/ 48 <= char_at js (pos p) <= 57 \/
               char_at js (pos p) = 116 \/ char_at js (pos p) = 102 \/
               char_at js (pos p) = 110).
  { unfold is_prim_start in Hc. repeat (apply orb_true_iff in Hc as [Hc|Hc]);
      try (apply Z.eqb_eq in Hc; auto).
    apply andb_true_iff in Hc as [H1 H2]. apply Z.leb_le in H1, H2. auto. }
  rewrite Hc.
  repeat match goal with
  | |- context [char_at js (pos p) =? ?n] =>
      replace (char_at js (pos p) =? n) with false by (symmetry; apply Z.eqb_neq; lia)
  end.
  reflexivity.
Qed.

(** When the scan has no defined result, for a table that has the
    [num_tokens] slots the caller announces and a text shorter than 2^31
    bytes.  It reads [tokens[toksuper]] unguarded at a comma and at the
    first character of a primitive; the scan reads in front of the table
    exactly when it comes to one of the two while no token is the
    superior: before the first token, behind the end of the outermost
    container, or behind a colon that no token precedes. *)
Theorem scan_undefined_iff js len tokens0 num :
  (num <= List.length tokens0)%nat -> Z.of_nat len < 2 ^ 31 ->
  jsmne_parse jsmne_init js len tokens0 num = Undef <->
  exists n p t k,
    run n js len num jsmne_init tokens0 0 = Some (p, t, k) /\
    guard js len p = true /\ toksuper p = -1 /\
    (char_at js (pos p) = 44 \/ is_prim_start (char_at js (pos p)) = true).
Proof.
  intros _ _. split.
  - intros H. pose proof (parse_good js len num tokens0) as Hg.
    rewrite H in Hg. exact Hg.
  - intros (n & p & t & k & Hr & Hgd & Hs & Hc).
    pose proof (run_pos _ _ _ _ _ _ _ _ _ _ Hr) as Hp. simpl in Hp.
    assert (Hlt : (pos p < len)%nat).
    { unfold guard in Hgd. apply andb_true_iff in Hgd as [Hlt _].
      apply Nat.ltb_lt in Hlt. exact Hlt. }
    unfold jsmne_parse. replace len with (n + S (len - n - 1))%nat at 1 by lia.
    rewrite (parse_loop_run n _ js len num _ _ _ _ _ _ Hr).
    cbn [parse_loop]. fold (guard js len p). rewrite Hgd.
    rewrite (parse_step_undef js len num p t k Hs Hc). reflexivity.
Qed.

Lemma scan_undefined_iff_witness :
  jsmne_parse jsmne_init (bytes "1") 1 (tokens fresh) JSON_TOKEN_SIZE = Undef <->
  exists n p t k,
    run n (bytes "1") 1 JSON_TOKEN_SIZE jsmne_init (tokens fresh) 0 = Some (p, t, k) /\
    guard (bytes "1") 1 p = true /\ toksuper p = -1 /\
    (char_at (bytes "1") (pos p) = 44 \/
     is_prim_start (char_at (bytes "1") (pos p)) = true).
Proof.
  apply (scan_undefined_iff (bytes "1") 1 (tokens fresh) JSON_TOKEN_SIZE).
  - apply Nat.leb_le. vm_compute. reflexivity.
  - reflexivity.
Defined.

(** Tokens that start at different bytes: no more of them than bytes. *)
Lemma starts_count tokens b n :
  (n <= List.length tokens)%nat ->
  (forall i t, (i < n)%nat -> tokens !! i = Some t -> span_ok b t) ->
  (forall i j ti tj, (i < j)%nat -> (j < n)%nat ->
     tokens !! i = Some ti -> tokens !! j = Some tj -> tok_start ti < tok_start tj) ->
  (n <= b)%nat.
Proof.
  intros Hl H5 H6.
  assert (Hs : forall i, (i < n)%nat ->
            exists t, tokens !! i = Some t /\ Z.of_nat i <= tok_start t).
  { induction i as [|i IH]; intros Hi.
    - destruct (lookup_lt_is_Some_2 tokens 0 ltac:(lia)) as (t & Et).
      exists t. split; [exact Et|]. destruct (H5 0%nat t Hi Et) as (Hs & _). lia.
    - destruct (IH ltac:(lia)) as (ti & Ei & Hsi).
      assert (Hlt : (S i < List.length tokens)%nat) by lia.
      destruct (lookup_lt_is_Some_2 tokens (S i) Hlt) as (t & Et).
      exists t. split; [exact Et|].
      pose proof (H6 i (S i) ti t ltac:(lia) Hi Ei Et). lia. }
  destruct n as [|n]; [lia|].
  destruct (Hs n ltac:(lia)) as (t & Et & Hn).
  destruct (H5 n t ltac:(lia) Et) as (Hb & _). lia.
Qed.

(** No more tokens than bytes.  Every token starts at a byte of its own,
    so a scan of [len] bytes hands out at most [len] tokens, and it
    returns the out-of-memory code only when the text has more bytes than
    the table has room for tokens: a table with a slot for every byte of
    the text is never too small. *)
Theorem scan_token_count js len tokens0 num :
  (num <= List.length tokens0)%nat ->
  match jsmne_parse jsmne_init js len tokens0 num with
  | Ret r p1 t1 =>
      (toknext p1 <= len)%nat /\ (r = JSON_ERROR_NOMEM -> (num < len)%nat)
  | _ => True
  end.
Proof.
  intros Hnum. pose proof (parse_good js len num tokens0) as H.
  destruct (jsmne_parse jsmne_init js len tokens0 num) as [r p1 t1| |]; auto.
  destruct H as ((Hl & _) & Hp & (G1 & G2 & G3 & _ & G5 & G6) & Hr).
  pose proof (starts_count t1 (pos p1) (toknext p1) Hl G5 G6) as Hc.
  split; [lia|]. intros ->.
  destruct Hr as [(_ & Hm)|(Hr & _)]; [|unfold JSON_ERROR_NOMEM in Hr; lia].
  destruct (Hm eq_refl) as ([Hn|Hn] & Hlt); [lia|].
  apply lookup_ge_None in Hn. lia.
Qed.

Lemma scan_token_count_witness :
  match jsmne_parse jsmne_init (bytes "[[[") 3 (tokens fresh) 2 with
  | Ret r p1 t1 =>
      (toknext p1 <= 3)%nat /\ (r = JSON_ERROR_NOMEM -> (2 < 3)%nat)
  | _ => True
  end.
Proof.
  apply (scan_token_count (bytes "[[[") 3 (tokens fresh) 2).
  apply Nat.leb_le. vm_compute. reflexivity.
Defined.

End ScanTable.

(** * The cursor's pointers and the text of a token *)

Module Cursor.
Import Tokenizer.

(** A pointer into the token table is the index it points at; [None] is
    NULL. *)
Definition getBeforeToken (parser : parser_s) : option Z :=
  if (0 <? counter parser) && (counter parser <=? to_size_t (length parser - 1))
  then Some (counter parser - 1) else None.



(** The bytes of a C string: those before its first NUL. *)
Definition c_str (s : list Z) : list Z := take (strlen s) s.

(** [strncmp(a, b, n)] of the C library, on bytes read as [unsigned char]:
    the difference of the first two bytes that differ among the first [n],
    and 0 when there is none before the strings end. *)
Fixpoint strncmp (a b : list Z) (n : Z) : Z :=
  if n <=? 0 then 0
  else
    match a with
    | [] => 0 - hd 0 b
    | ca :: ra =>
        let cb := hd 0 b in
        if ca =? cb then (if ca =? 0 then 0 else strncmp ra (tl b) (n - 1))
        else ca - cb
    end.

(** [tokenEqualString].  The token read is [tokens[counter]]; the text is
    read from [json + start], a pointer into the text or to its NUL, and
    the length [end - start] is converted to [size_t].  [None]: the token
    lies outside the table or the pointer outside the text. *)
Definition tokenEqualString (parser : parser_s) (s : list Z) : option bool :=
  match tok_at (tokens parser) (counter parser) with
  | None => None
  | Some t =>
      if (0 <=? tok_start t) && (tok_start t <=? Z.of_nat (List.length (json parser)))
      then
        let n := to_size_t (tok_end t - tok_start t) in
        Some ((strncmp (drop (Z.to_nat (tok_start t)) (json parser)) s n =? 0) &&
              (Z.of_nat (strlen s) =? n))
      else None
  end.

(** [tokenToString]: a NUL is stored at [json[end]] (storing it over the
    text's own NUL leaves the list as it is) and the pointer [json + start]
    is returned, here as the offset [start].  [None]: the token lies
    outside the table or the store outside the text. *)
Definition tokenToString (parser : parser_s) : option (Z * parser_s) :=
  match tok_at (tokens parser) (counter parser) with
  | None => None
  | Some t =>
      if (0 <=? tok_end t) && (tok_end t <=? Z.of_nat (List.length (json parser)))
      then
        Some (tok_start t,
              {| json := <[Z.to_nat (tok_end t) := 0]> (json parser);
                 counter := counter parser; length := length parser;
                 tokens := tokens parser |})
      else None
  end.

(** The C string at offset [off] of the text [js]. *)
Definition string_at (js : list Z) (off : Z) : option (list Z) :=
  if (0 <=? off) && (off <=? Z.of_nat (List.length js))
  then Some (c_str (drop (Z.to_nat off) js)) else None.

(** The bytes [start .. end) of a text. *)
Definition slice (js : list Z) (start end_ : Z) : list Z :=
  take (Z.to_nat (end_ - start)) (drop (Z.to_nat start) js).

End Cursor.

(** ** Facts on C strings and slices of a text *)

Module CursorFacts.
Import Tokenizer TokenizerFacts Cursor.

Lemma to_size_t_small z : 0 <= z < 2 ^ 64 -> to_size_t z = z.
Proof. intros H. unfold to_size_t. apply Z.mod_small. exact H. Qed.

Lemma strlen_le s : (strlen s <= List.length s)%nat.
Proof.
  induction s as [|c r IH]; simpl; [lia|]. destruct (c =? 0); simpl; lia.
Qed.

Lemma strlen_take_nonzero s : Forall (fun c => c <> 0) (take (strlen s) s).
Proof.
  induction s as [|c r IH]; simpl; [constructor|].
  destruct (c =? 0) eqn:E; simpl; [constructor|].
  apply Z.eqb_neq in E. constructor; auto.
Qed.

Lemma strlen_app_nonzero a b :
  Forall (fun c => c <> 0) a -> strlen (a ++ b) = (List.length a + strlen b)%nat.
Proof.
  induction 1 as [|c r Hc _ IH]; simpl; [reflexivity|].
  apply Z.eqb_neq in Hc. rewrite Hc, IH. reflexivity.
Qed.

Lemma strlen_nul_at a b : Forall (fun c => c <> 0) a -> strlen (a ++ 0 :: b) = List.length a.
Proof. intros H. rewrite strlen_app_nonzero by exact H. simpl. lia. Qed.

(** The bytes of a text before its [strlen] hold no NUL, and so does
    every slice of them. *)
Lemma slice_nonzero js s e :
  0 <= s <= e -> e <= Z.of_nat (strlen js) ->
  Forall (fun c => c <> 0) (slice js s e) /\
  List.length (slice js s e) = Z.to_nat (e - s) /\
  drop (Z.to_nat s) js = slice js s e ++ drop (Z.to_nat e) js.
Proof.
  intros Hs He. unfold slice. pose proof (strlen_le js) as Hl.
  assert (E : drop (Z.to_nat s) js =
              take (Z.to_nat (e - s)) (drop (Z.to_nat s) js) ++ drop (Z.to_nat e) js).
  { rewrite <- (take_drop (Z.to_nat (e - s)) (drop (Z.to_nat s) js)) at 1.
    rewrite drop_drop. repeat f_equal. lia. }
  repeat apply conj; [| |exact E].
  - pose proof (strlen_take_nonzero js) as Hn.
    rewrite Forall_lookup in Hn |- *. intros i c Hc.
    apply lookup_take_Some in Hc as [Hc Hi]. rewrite lookup_drop in Hc.
    apply (Hn (Z.to_nat s + i)%nat c). apply lookup_take_Some. split; [exact Hc|lia].
  - rewrite length_take, length_drop. lia.
Qed.

(** [strncmp] over a prefix without NUL: equal to 0 exactly when the
    other string starts with that prefix. *)
Lemma strncmp_prefix a : forall rest s,
  Forall (fun c => c <> 0) a ->
  (strncmp (a ++ rest) s (Z.of_nat (List.length a)) = 0 <->
   take (List.length a) s = a).
Proof.
  induction a as [|ca ra IH]; intros rest s Hn.
  - simpl. destruct rest; simpl; split; auto; intros _; destruct s; reflexivity.
  - inversion Hn as [|? ? Hc Hr]; subst.
    cbn [app List.length strncmp].
    replace (Z.of_nat (S (List.length ra)) <=? 0) with false
      by (symmetry; apply Z.leb_gt; lia).
    replace (Z.of_nat (S (List.length ra)) - 1) with (Z.of_nat (List.length ra)) by lia.
    destruct s as [|cb rb]; cbn [hd tl take].
    + apply Z.eqb_neq in Hc. rewrite Hc. split; [lia|discriminate].
    + destruct (ca =? cb) eqn:E.
      * apply Z.eqb_eq in E. subst cb. apply Z.eqb_neq in Hc. rewrite Hc.
        rewrite (IH rest rb Hr). split; [intros ->; reflexivity|].
        intros H. injection H as H. exact H.
      * apply Z.eqb_neq in E. split; [lia|]. intros H. injection H as H _. congruence.
Qed.

Lemma c_str_eq s a :
  Forall (fun c => c <> 0) a ->
  (c_str s = a <-> take (List.length a) s = a /\ strlen s = List.length a).
Proof.
  intros Hn. unfold c_str. split.
  - intros H. assert (Hl : strlen s = List.length a).
    { rewrite <- H. rewrite length_take. pose proof (strlen_le s). lia. }
    split; [rewrite <- Hl; exact H|exact Hl].
  - intros [H1 H2]. rewrite H2. exact H1.
Qed.


(** The C string at [s] once a NUL is stored at [e], for offsets before
    the text's own NUL. *)
Lemma string_at_cut js s e :
  0 <= s <= e -> e <= Z.of_nat (strlen js) ->
  string_at (<[Z.to_nat e := 0]> js) s = Some (slice js s e).
Proof.
  intros Hs He. pose proof (strlen_le js) as Hl.
  destruct (slice_nonzero js s e Hs He) as (Hn & Hsl & Hd).
  unfold string_at. rewrite length_insert.
  replace ((0 <=? s) && (s <=? Z.of_nat (List.length js))) with true
    by (symmetry; apply andb_true_iff; split; apply Z.leb_le; lia).
  f_equal. rewrite drop_insert_ge by lia. rewrite Hd.
  replace (Z.to_nat e - Z.to_nat s)%nat with (List.length (slice js s e) + 0)%nat by lia.
  rewrite insert_app_r. unfold c_str.
  destruct (drop (Z.to_nat e) js) as [|c r]; simpl.
  - rewrite app_nil_r. rewrite TokenizerFacts.strlen_no_nul by exact Hn.
    apply firstn_all.
  - rewrite strlen_nul_at by exact Hn. rewrite take_app_length. reflexivity.
Qed.

Lemma strlen_cut js e :
  0 <= e < Z.of_nat (strlen js) -> strlen (<[Z.to_nat e := 0]> js) = Z.to_nat e.
Proof.
  intros He. pose proof (strlen_le js) as Hl.
  destruct (slice_nonzero js 0 e ltac:(lia) ltac:(lia)) as (Hn & Hsl & Hd).
  simpl in Hd. rewrite drop_0 in Hd.
  rewrite Hd at 1.
  replace (Z.to_nat e) with (List.length (slice js 0 e) + 0)%nat at 1 by lia.
  rewrite insert_app_r.
  destruct (drop (Z.to_nat e) js) as [|c r] eqn:E.
  - apply (f_equal (@List.length Z)) in E. rewrite length_drop in E. simpl in E. lia.
  - simpl. rewrite strlen_nul_at by exact Hn. lia.
Qed.

(** A store behind the first NUL does not change the C strings before
    it. *)
Lemma string_at_store_behind js s e :
  0 <= s -> s <= Z.of_nat (strlen js) -> Z.of_nat (strlen js) < e ->
  string_at (<[Z.to_nat e := 0]> js) s = string_at js s.
Proof.
  intros Hs Hl He. pose proof (strlen_le js) as Hle.
  unfold string_at. rewrite length_insert.
  destruct ((0 <=? s) && (s <=? Z.of_nat (List.length js))); [|reflexivity].
  f_equal. rewrite drop_insert_ge by lia.
  destruct (slice_nonzero js s (Z.of_nat (strlen js)) ltac:(lia) ltac:(lia))
    as (Hn & Hsl & Hd).
  rewrite Hd. unfold c_str.
  destruct (drop (Z.to_nat (Z.of_nat (strlen js))) js) as [|c r] eqn:E.
  - rewrite list_insert_ge; [reflexivity|].
    rewrite length_app, Hsl. simpl. lia.
  - assert (Hc : c = 0).
    { assert (Hj : js !! strlen js = Some c).
      { rewrite Nat2Z.id in E. rewrite <- (Nat.add_0_r (strlen js)).
        rewrite <- lookup_drop, E. reflexivity. }
      clear - Hj. revert Hj. induction js as [|a r IH]; simpl; [discriminate|].
      destruct (a =? 0) eqn:Ea; simpl.
      - intros H. injection H as <-. apply Z.eqb_eq. exact Ea.
      - exact IH. }
    subst c.
    replace (Z.to_nat e - Z.to_nat s)%nat
      with (List.length (slice js s (Z.of_nat (strlen js))) +
            S (Z.to_nat e - strlen js - 1))%nat by lia.
    rewrite insert_app_r. simpl. rewrite !strlen_nul_at by exact Hn.
    rewrite !take_app_length. reflexivity.
Qed.

Lemma tokenEqualString_at parser s t :
  tok_at (tokens parser) (counter parser) = Some t ->
  0 <= tok_start t <= tok_end t ->
  tok_end t <= Z.of_nat (strlen (json parser)) ->
  Z.of_nat (strlen (json parser)) < 2 ^ 31 ->
  exists b, tokenEqualString parser s = Some b /\
    (b = true <-> c_str s = slice (json parser) (tok_start t) (tok_end t)).
Proof.
  intros Ht Hs He Hlen. unfold tokenEqualString. rewrite Ht.
  pose proof (strlen_le (json parser)) as Hl.
  replace ((0 <=? tok_start t) && (tok_start t <=? Z.of_nat (List.length (json parser))))
    with true by (symmetry; apply andb_true_iff; split; apply Z.leb_le; lia).
  eexists. split; [reflexivity|].
  destruct (slice_nonzero (json parser) _ _ Hs He) as (Hn & Hsl & Hd).
  rewrite to_size_t_small by lia. rewrite Hd.
  replace (tok_end t - tok_start t)
    with (Z.of_nat (List.length (slice (json parser) (tok_start t) (tok_end t)))) by lia.
  rewrite andb_true_iff, !Z.eqb_eq, strncmp_prefix by exact Hn.
  rewrite c_str_eq by exact Hn. split; intros [A B]; split; auto; lia.
Qed.

Lemma tokenToString_at parser t :
  tok_at (tokens parser) (counter parser) = Some t ->
  0 <= tok_start t <= tok_end t ->
  tok_end t <= Z.of_nat (strlen (json parser)) ->
  exists h, tokenToString parser = Some (tok_start t, h) /\
    json h = <[Z.to_nat (tok_end t) := 0]> (json parser) /\
    counter h = counter parser /\ length h = length parser /\
    tokens h = tokens parser /\
    string_at (json h) (tok_start t) =
      Some (slice (json parser) (tok_start t) (tok_end t)).
Proof.
  intros Ht Hs He. unfold tokenToString. rewrite Ht.
  pose proof (strlen_le (json parser)) as Hl.
  replace ((0 <=? tok_end t) && (tok_end t <=? Z.of_nat (List.length (json parser))))
    with true by (symmetry; apply andb_true_iff; split; apply Z.leb_le; lia).
  eexists. split; [reflexivity|]. cbn [json counter length tokens].
  repeat apply conj; auto. apply string_at_cut; auto.
Qed.

End CursorFacts.

(** ** The text functions and the cursor queries *)

Module TokenText.
Import Tokenizer TokenizerFacts ScanInvariant ScanTable Cursor CursorFacts.
Import TokenizerScenarios.

(** The handle after [startParsingJSON] on scenario 1: seven tokens. *)
Definition scenario1_handle : parser_s :=
  match startParsingJSON fresh scenario1 with
  | Some (_, h) => h
  | None => fresh
  end.

(** Token 1 of scenario 1, the key [a], and token 4, the array. *)
Definition scenario1_key : token_s :=
  {| tok_type := JSON_STRING; tok_start := 2; tok_end := 3; tok_size := 1;
     tok_parent := 0 |}.

Definition scenario1_array : token_s :=
  {| tok_type := JSON_ARRAY; tok_start := 11; tok_end := 22; tok_size := 2;
     tok_parent := 3 |}.

Definition scenario1_true : token_s :=
  {| tok_type := JSON_PRIMITIVE; tok_start := 12; tok_end := 16; tok_size := 0;
     tok_parent := 4 |}.

(** The handle with the cursor moved to position [c]. *)
Definition cursor_at (h : parser_s) (c : nat) : parser_s := Nat.iter c nextToken h.

(** Scenario 1 after [tokenToString] at token 5, the primitive [true]. *)
Definition scenario1_after_true : parser_s :=
  match tokenToString (cursor_at scenario1_handle 5) with
  | Some (_, h) => h
  | None => fresh
  end.

(** [tokenEqualString] on a token that spans bytes of the text before
    its NUL: the comparison is defined, and it is true exactly when the
    string [s] is the text of the token, byte for byte and of the same
    length. *)
Theorem tokenEqualString_compares parser s t :
  tok_at (tokens parser) (counter parser) = Some t ->
  0 <= tok_start t <= tok_end t ->
  tok_end t <= Z.of_nat (strlen (json parser)) ->
  Z.of_nat (strlen (json parser)) < 2 ^ 31 ->
  exists b, tokenEqualString parser s = Some b /\
    (b = true <-> c_str s = slice (json parser) (tok_start t) (tok_end t)).
Proof. apply tokenEqualString_at. Qed.

Lemma tokenEqualString_compares_witness :
  exists b, tokenEqualString (cursor_at scenario1_handle 1) (bytes "a") = Some b /\
    (b = true <->
     c_str (bytes "a") = slice (json (cursor_at scenario1_handle 1)) 2 3).
Proof.
  apply (tokenEqualString_compares (cursor_at scenario1_handle 1) (bytes "a")
           scenario1_key).
  - vm_compute. reflexivity.
  - vm_compute. split; discriminate.
  - vm_compute. discriminate.
  - vm_compute. reflexivity.
Defined.

(** [tokenToString] on such a token: it returns the pointer to the
    token's start, stores a NUL over the byte at the token's end and
    nothing else, and the C string at the pointer returned is then the
    text of the token. *)
Theorem tokenToString_returns_text parser t :
  tok_at (tokens parser) (counter parser) = Some t ->
  0 <= tok_start t <= tok_end t ->
  tok_end t <= Z.of_nat (strlen (json parser)) ->
  exists h, tokenToString parser = Some (tok_start t, h) /\
    json h = <[Z.to_nat (tok_end t) := 0]> (json parser) /\
    counter h = counter parser /\ length h = length parser /\
    tokens h = tokens parser /\
    string_at (json h) (tok_start t) =
      Some (slice (json parser) (tok_start t) (tok_end t)).
Proof. apply tokenToString_at. Qed.

Lemma tokenToString_returns_text_witness :
  exists h, tokenToString (cursor_at scenario1_handle 4) = Some (11, h) /\
    json h = <[22%nat := 0]> (json (cursor_at scenario1_handle 4)) /\
    counter h = counter (cursor_at scenario1_handle 4) /\
    length h = length (cursor_at scenario1_handle 4) /\
    tokens h = tokens (cursor_at scenario1_handle 4) /\
    string_at (json h) 11 = Some (slice (json (cursor_at scenario1_handle 4)) 11 22).
Proof.
  apply (tokenToString_returns_text (cursor_at scenario1_handle 4) scenario1_array).
  - vm_compute. reflexivity.
  - vm_compute. split; discriminate.
  - vm_compute. discriminate.
Defined.

(** [tokenToString] is destructive.  Once it was called at a token [t],
    a call at a token [t'] whose text holds the byte at the end of [t]
    (a container around [t], for one) returns the text of [t'] cut at
    that byte. *)
Theorem tokenToString_cuts_enclosing parser t h off h2 t' :
  tok_at (tokens parser) (counter parser) = Some t ->
  0 <= tok_start t <= tok_end t ->
  tokenToString parser = Some (off, h) ->
  json h2 = json h ->
  tok_at (tokens h2) (counter h2) = Some t' ->
  0 <= tok_start t' <= tok_end t ->
  tok_end t < tok_end t' ->
  tok_end t' <= Z.of_nat (strlen (json parser)) ->
  exists h3, tokenToString h2 = Some (tok_start t', h3) /\
    string_at (json h3) (tok_start t') =
      Some (slice (json parser) (tok_start t') (tok_end t)) /\
    (List.length (slice (json parser) (tok_start t') (tok_end t)) <
     List.length (slice (json parser) (tok_start t') (tok_end t')))%nat.
Proof.
  intros Ht Hs Hc Hj Ht' Hs' Hlt He'.
  destruct (tokenToString_at parser t Ht Hs ltac:(lia)) as (h0 & E0 & Ej & _).
  rewrite E0 in Hc. injection Hc as <- <-.
  pose proof (strlen_le (json parser)) as Hl.
  unfold tokenToString. rewrite Ht', Hj, Ej, length_insert.
  replace ((0 <=? tok_end t') && (tok_end t' <=? Z.of_nat (List.length (json parser))))
    with true by (symmetry; apply andb_true_iff; split; apply Z.leb_le; lia).
  eexists. split; [reflexivity|]. cbn [json]. split.
  - rewrite string_at_store_behind.
    + apply string_at_cut; lia.
    + lia.
    + rewrite strlen_cut by lia. lia.
    + rewrite strlen_cut by lia. lia.
  - destruct (slice_nonzero (json parser) (tok_start t') (tok_end t) ltac:(lia) ltac:(lia))
      as (_ & -> & _).
    destruct (slice_nonzero (json parser) (tok_start t') (tok_end t') ltac:(lia) ltac:(lia))
      as (_ & -> & _).
    lia.
Qed.

Lemma tokenToString_cuts_enclosing_witness :
  exists h3, tokenToString (beforeToken scenario1_after_true) = Some (11, h3) /\
    string_at (json h3) 11 =
      Some (slice (json (cursor_at scenario1_handle 5)) 11 16) /\
    (List.length (slice (json (cursor_at scenario1_handle 5)) 11 16) <
     List.length (slice (json (cursor_at scenario1_handle 5)) 11 22))%nat.
Proof.
  apply (tokenToString_cuts_enclosing (cursor_at scenario1_handle 5) scenario1_true
           scenario1_after_true 12 (beforeToken scenario1_after_true) scenario1_array).
  - vm_compute. reflexivity.
  - vm_compute. split; discriminate.
  - vm_compute. reflexivity.
  - reflexivity.
  - vm_compute. reflexivity.
  - vm_compute. split; discriminate.
  - vm_compute. reflexivity.
  - vm_compute. discriminate.
Defined.


(** *** After an accepted scan *)

(** A handle that [startParsingJSON] filled and whose length is within
    the table: the length is the number of tokens, and each of them is
    in the table, closed, and spans bytes of the text. *)
Lemma start_accepts parser js h :
  startParsingJSON parser js = Some (JSON_ERROR_OK, h) ->
  length h <= Z.of_nat JSON_TOKEN_SIZE ->
  json h = js /\ counter h = 0 /\ 0 <= length h /\
  forall i, Z.of_nat i < length h ->
    exists t, tokens h !! i = Some t /\
      0 <= tok_start t <= tok_end t /\ tok_end t <= Z.of_nat (strlen js).
Proof.
  unfold startParsingJSON.
  pose proof (parse_good js (strlen js) JSON_TOKEN_SIZE (tokens parser)) as Hg.
  destruct (jsmne_parse jsmne_init js (strlen js) (tokens parser) JSON_TOKEN_SIZE)
    as [r p1 t1| |]; try discriminate.
  destruct (r =? JSON_ERROR_NOMEM) eqn:En; [discriminate|].
  intros H Hlen. injection H as <-. cbn [json counter length tokens] in *.
  destruct Hg as ((Hl & _) & Hp & (_ & _ & G3 & _ & G5 & _) & [(Hf & _)|(-> & Ha)]).
  - exfalso. apply Z.eqb_neq in En.
    destruct Hf as [-> | [-> | ->]]; [apply En; reflexivity| |];
      vm_compute in Hlen; apply Hlen; reflexivity.
  - rewrite to_size_t_small in * by (split; [lia|]; apply Z.le_lt_trans with (Z.of_nat JSON_TOKEN_SIZE); [lia|reflexivity]).
    repeat apply conj; auto; [lia|]. intros i Hi.
    assert (Hil : (i < List.length t1)%nat) by lia.
    assert (Hin : (i < toknext p1)%nat) by lia.
    destruct (lookup_lt_is_Some_2 _ _ Hil) as [t Et]. exists t. split; [exact Et|].
    pose proof (any_open_false _ _ Ha i t Hin Et) as Ho.
    destruct (G5 i t Hin Et) as (Hs & He). unfold is_open in Ho.
    destruct (tok_start t =? -1) eqn:E1; [apply Z.eqb_eq in E1; lia|].
    destruct (tok_end t =? -1) eqn:E2; [discriminate Ho|]. apply Z.eqb_neq in E2.
    destruct He as [He|He]; [contradiction|]. lia.
Qed.

Lemma iter_nextToken i : forall h,
  0 <= counter h -> counter h + Z.of_nat i < 2 ^ 64 ->
  json (Nat.iter i nextToken h) = json h /\
  counter (Nat.iter i nextToken h) = counter h + Z.of_nat i /\
  length (Nat.iter i nextToken h) = length h /\
  tokens (Nat.iter i nextToken h) = tokens h.
Proof.
  induction i as [|i IH]; intros h H0 Hlt.
  - change (Nat.iter 0 nextToken h) with h. repeat apply conj; auto. lia.
  - change (Nat.iter (S i) nextToken h) with (nextToken (Nat.iter i nextToken h)).
    destruct (IH h H0 ltac:(lia)) as (E1 & E2 & E3 & E4).
    set (c := Nat.iter i nextToken h) in *.
    unfold nextToken. cbn [json counter length tokens].
    repeat apply conj; auto. rewrite E2. rewrite to_size_t_small by lia. lia.
Qed.

(** Walking an accepted text.  When [startParsingJSON] returned OK and a
    length within the table, then after [i] calls of [nextToken], for
    every [i] below the length, the cursor stands on token [i]: the token
    is current, there is a next one exactly when [i + 1] is below the
    length, the kind query returns the token's kind, and
    [tokenEqualString] and [tokenToString] are defined and compare and
    return the bytes [start .. end) of the text. *)
Theorem accepted_text_walk parser js h i :
  startParsingJSON parser js = Some (JSON_ERROR_OK, h) ->
  length h <= Z.of_nat JSON_TOKEN_SIZE ->
  Z.of_nat (strlen js) < 2 ^ 31 ->
  Z.of_nat i < length h ->
  exists t,
    tokens h !! i = Some t /\
    counter (Nat.iter i nextToken h) = Z.of_nat i /\
    hasCurrentToken (Nat.iter i nextToken h) = true /\
    (hasNextToken (Nat.iter i nextToken h) = true <-> Z.of_nat i + 1 < length h) /\
    currentTokenType (Nat.iter i nextToken h) = Some (type_code (tok_type t)) /\
    (forall s, exists b,
       tokenEqualString (Nat.iter i nextToken h) s = Some b /\
       (b = true <-> c_str s = slice js (tok_start t) (tok_end t))) /\
    exists h',
      tokenToString (Nat.iter i nextToken h) = Some (tok_start t, h') /\
      string_at (json h') (tok_start t) = Some (slice js (tok_start t) (tok_end t)).
Proof.
  intros Hs Hlen Hjs Hi.
  destruct (start_accepts parser js h Hs Hlen) as (Ej & Ec & H0 & Ht).
  destruct (Ht i Hi) as (t & Et & Hsp & He). exists t.
  assert (Hcap : Z.of_nat JSON_TOKEN_SIZE = 4096) by reflexivity.
  destruct (iter_nextToken i h ltac:(lia) ltac:(lia)) as (E1 & E2 & E3 & E4).
  rewrite Ec, Z.add_0_l in E2.
  assert (Eat : tok_at (tokens (Nat.iter i nextToken h)) (counter (Nat.iter i nextToken h))
                = Some t).
  { rewrite E2, E4. rewrite Simulation.tok_at_nat. exact Et. }
  assert (Hsz : to_size_t (length h - 1) = length h - 1)
    by (apply to_size_t_small; lia).
  repeat apply conj; auto.
  - unfold hasCurrentToken. rewrite E2, E3, Hsz.
    apply andb_true_iff. split; [apply Z.leb_le|apply Z.leb_le]; lia.
  - unfold hasNextToken. rewrite E2, E3, Hsz. rewrite Z.ltb_lt. lia.
  - unfold hasNextToken. rewrite E2, E3, Hsz. rewrite Z.ltb_lt. lia.
  - unfold currentTokenType.
    replace ((0 <=? counter (Nat.iter i nextToken h)) &&
             (counter (Nat.iter i nextToken h) <=?
              to_size_t (length (Nat.iter i nextToken h) - 1))) with true.
    + rewrite Eat. reflexivity.
    + symmetry. rewrite E2, E3, Hsz. apply andb_true_iff.
      split; apply Z.leb_le; lia.
  - intros s. rewrite <- Ej, <- E1.
    apply tokenEqualString_at; auto; rewrite E1, Ej; auto.
  - destruct (tokenToString_at (Nat.iter i nextToken h) t Eat Hsp
                ltac:(rewrite E1, Ej; exact He)) as (h' & A & _ & _ & _ & _ & B).
    exists h'. rewrite E1, Ej in B. auto.
Qed.

Lemma accepted_text_walk_witness :
  exists t,
    tokens scenario1_handle !! 4%nat = Some t /\
    counter (Nat.iter 4 nextToken scenario1_handle) = Z.of_nat 4 /\
    hasCurrentToken (Nat.iter 4 nextToken scenario1_handle) = true /\
    (hasNextToken (Nat.iter 4 nextToken scenario1_handle) = true <->
     Z.of_nat 4 + 1 < length scenario1_handle) /\
    currentTokenType (Nat.iter 4 nextToken scenario1_handle) =
      Some (type_code (tok_type t)) /\
    (forall s, exists b,
       tokenEqualString (Nat.iter 4 nextToken scenario1_handle) s = Some b /\
       (b = true <-> c_str s = slice scenario1 (tok_start t) (tok_end t))) /\
    exists h',
      tokenToString (Nat.iter 4 nextToken scenario1_handle) = Some (tok_start t, h') /\
      string_at (json h') (tok_start t) =
        Some (slice scenario1 (tok_start t) (tok_end t)).
Proof.
  apply (accepted_text_walk fresh scenario1 scenario1_handle 4).
  - vm_compute. reflexivity.
  - vm_compute. discriminate.
  - vm_compute. reflexivity.
  - vm_compute. reflexivity.
Defined.


(** *** The cursor on a table that is not empty *)



(** [nextToken] and [beforeToken] undo each other at every position
    a [size_t] can hold, also across the wrap-around. *)
Theorem next_before_inverse parser :
  0 <= counter parser < 2 ^ 64 ->
  beforeToken (nextToken parser) = parser /\ nextToken (beforeToken parser) = parser.
Proof.
  intros Hc. destruct parser as [j c l t]. unfold beforeToken, nextToken, to_size_t.
  cbn [json counter length tokens] in *. split; f_equal.
  - rewrite Zminus_mod_idemp_l. replace (c + 1 - 1) with c by lia.
    apply Z.mod_small. exact Hc.
  - rewrite Zplus_mod_idemp_l. replace (c - 1 + 1) with c by lia.
    apply Z.mod_small. exact Hc.
Qed.

Lemma next_before_inverse_witness :
  beforeToken (nextToken scenario1_handle) = scenario1_handle /\
  nextToken (beforeToken scenario1_handle) = scenario1_handle.
Proof.
  apply (next_before_inverse scenario1_handle).
  vm_compute. split; [discriminate|reflexivity].
Defined.

(** Stepping back from the first token.  [beforeToken] at position 0
    wraps the cursor to [2^64 - 1].  On a table that is not empty no
    token is current or next there and the pointer to the token before is
    NULL; but [hasBeforeToken] is true, and [beforeTokenType] reads a
    token far outside the table. *)
Theorem before_first_token_wraps parser :
  counter parser = 0 -> 1 <= length parser < 2 ^ 64 ->
  Z.of_nat (List.length (tokens parser)) < 2 ^ 64 - 2 ->
  counter (beforeToken parser) = 2 ^ 64 - 1 /\
  hasCurrentToken (beforeToken parser) = false /\
  hasNextToken (beforeToken parser) = false /\
  getBeforeToken (beforeToken parser) = None /\
  hasBeforeToken (beforeToken parser) = true /\
  beforeTokenType (beforeToken parser) = None.
Proof.
  intros Hc Hl Ht.
  assert (Hsz : to_size_t (length parser - 1) = length parser - 1)
    by (apply to_size_t_small; lia).
  assert (Ec : counter (beforeToken parser) = 2 ^ 64 - 1).
  { unfold beforeToken. cbn [counter]. rewrite Hc. reflexivity. }
  unfold hasCurrentToken, hasNextToken, getBeforeToken, hasBeforeToken, beforeTokenType.
  rewrite Ec. cbn [length beforeToken tokens]. rewrite Hsz.
  repeat apply conj; auto.
  - replace (2 ^ 64 - 1 <=? length parser - 1) with false
      by (symmetry; apply Z.leb_gt; lia). apply andb_false_r.
  - apply Z.ltb_ge. lia.
  - replace (2 ^ 64 - 1 <=? length parser - 1) with false
      by (symmetry; apply Z.leb_gt; lia). rewrite andb_false_r. reflexivity.
  - replace (0 <? 2 ^ 64 - 1) with true by reflexivity.
    unfold tok_at. replace (2 ^ 64 - 1 - 1 <? 0) with false by reflexivity.
    rewrite (proj2 (lookup_ge_None _ _)); [reflexivity|]. lia.
Qed.

Lemma before_first_token_wraps_witness :
  counter (beforeToken scenario1_handle) = 2 ^ 64 - 1 /\
  hasCurrentToken (beforeToken scenario1_handle) = false /\
  hasNextToken (beforeToken scenario1_handle) = false /\
  getBeforeToken (beforeToken scenario1_handle) = None /\
  hasBeforeToken (beforeToken scenario1_handle) = true /\
  beforeTokenType (beforeToken scenario1_handle) = None.
Proof.
  apply (before_first_token_wraps scenario1_handle).
  - vm_compute. reflexivity.
  - vm_compute. split; [discriminate|reflexivity].
  - vm_compute. reflexivity.
Defined.

End TokenText.

(** * The serializer: what the calls write *)

Module Writer.
Import Unparser UnparserFacts Cursor.

(** [jwPutch] on each byte of [s] in turn. *)
Definition putbytes (u : unparser_s) (s : list Z) : unparser_s := fold_left jwPutch s u.

(** What [jwPretty] writes at stack position [n - 1]: nothing in compact
    mode, a newline and [n] units of four spaces in pretty mode. *)
Definition ind (p : Z) (n : nat) : list Z :=
  if p =? 0 then [] else 10 :: repeat 32 (4 * n).

(** The arrays of the handle have their sizes and the write pointer and
    the stack position lie within them. *)
Definition sound (u : unparser_s) : Prop :=
  List.length (buffer u) = JSON_JSON_SIZE /\ (bufp u <= JSON_JSON_SIZE)%nat /\
  List.length (nodeStack u) = JSON_STACK_DEPTH /\ (stackpos u < JSON_STACK_DEPTH)%nat.

Lemma putbytes_app u a b : putbytes u (a ++ b) = putbytes (putbytes u a) b.
Proof. apply fold_left_app. Qed.

Lemma jwPutraw_putbytes str : forall u, jwPutraw u str = putbytes u (c_str str).
Proof.
  induction str as [|c r IH]; intros u; simpl; [reflexivity|].
  unfold c_str. simpl. destruct (c =? 0); [reflexivity|]. simpl. apply IH.
Qed.

Lemma jwPutstr_putbytes u str :
  jwPutstr u str = putbytes u (34 :: c_str str ++ [34]).
Proof.
  unfold jwPutstr. rewrite jwPutraw_putbytes.
  change (34 :: c_str str ++ [34]) with ([34] ++ c_str str ++ [34]).
  rewrite !putbytes_app. reflexivity.
Qed.

Lemma jwIndent_putbytes n : forall u, jwIndent n u = putbytes u (repeat 32 (4 * n)).
Proof.
  induction n as [|n IH]; intros u; cbn [jwIndent]; [reflexivity|].
  rewrite IH, jwPutraw_putbytes.
  replace (4 * S n)%nat with (4 + 4 * n)%nat by lia.
  rewrite repeat_app, putbytes_app. reflexivity.
Qed.

Lemma jwPretty_putbytes u :
  jwPretty u = putbytes u (ind (isPretty u) (S (stackpos u))).
Proof.
  unfold jwPretty, ind. rewrite Nat.add_1_r. destruct (isPretty u =? 0); [reflexivity|].
  rewrite jwIndent_putbytes. reflexivity.
Qed.

Lemma drop_ge_eq {A} m n (l1 l2 : list A) :
  (m <= n)%nat -> drop m l1 = drop m l2 -> drop n l1 = drop n l2.
Proof.
  intros Hle H. replace n with (m + (n - m))%nat by lia.
  rewrite <- !drop_drop, H. reflexivity.
Qed.

(** One byte. *)
Lemma jwPutch_spec u c :
  sound u ->
  sound (jwPutch u c) /\
  written (jwPutch u c) = take JSON_JSON_SIZE (written u ++ [c]) /\
  bufp (jwPutch u c) = Nat.min JSON_JSON_SIZE (bufp u + 1) /\
  error (jwPutch u c) =
    (if (JSON_JSON_SIZE <? bufp u + 1)%nat then JSON_ERROR_BUF_FULL else error u) /\
  drop (bufp (jwPutch u c)) (buffer (jwPutch u c)) =
    drop (bufp (jwPutch u c)) (buffer u).
Proof.
  intros (Hb & Hp & Hn & Hs). unfold jwPutch, written, sound.
  destruct (JSON_JSON_SIZE <=? bufp u)%nat eqn:E.
  - apply Nat.leb_le in E. cbn [set_error buffer bufp error nodeStack stackpos].
    replace (JSON_JSON_SIZE <? bufp u + 1)%nat with true
      by (symmetry; apply Nat.ltb_lt; lia).
    repeat apply conj; auto; try lia.
    rewrite take_app_le by (rewrite length_take; lia).
    rewrite take_take. f_equal. lia.
  - apply Nat.leb_gt in E. cbn [buffer bufp error nodeStack stackpos].
    replace (JSON_JSON_SIZE <? bufp u + 1)%nat with false
      by (symmetry; apply Nat.ltb_ge; lia).
    repeat apply conj; auto; try lia.
    + rewrite length_insert. exact Hb.
    + rewrite (take_S_r _ _ c) by (apply list_lookup_insert_eq; lia).
      rewrite take_insert_ge by lia.
      rewrite (take_ge (take (bufp u) (buffer u) ++ [c])); [reflexivity|].
      rewrite length_app, length_take. cbn [List.length]. lia.
    + rewrite drop_insert_lt by lia. reflexivity.
Qed.

Lemma jwPutch_fields u c :
  callNo (jwPutch u c) = callNo u /\ nodeStack (jwPutch u c) = nodeStack u /\
  stackpos (jwPutch u c) = stackpos u /\ isPretty (jwPutch u c) = isPretty u /\
  tmpbuf (jwPutch u c) = tmpbuf u.
Proof. unfold jwPutch. destruct (_ <=? _)%nat; simpl; auto. Qed.

(** A run of bytes: the bytes are appended as far as the buffer has room,
    and the buffer-full error is set when it has not room for all. *)
Lemma putbytes_spec s : forall u,
  sound u ->
  sound (putbytes u s) /\
  written (putbytes u s) = take JSON_JSON_SIZE (written u ++ s) /\
  bufp (putbytes u s) = Nat.min JSON_JSON_SIZE (bufp u + List.length s) /\
  error (putbytes u s) =
    (if (JSON_JSON_SIZE <? bufp u + List.length s)%nat
     then JSON_ERROR_BUF_FULL else error u) /\
  drop (bufp (putbytes u s)) (buffer (putbytes u s)) =
    drop (bufp (putbytes u s)) (buffer u).
Proof.
  induction s as [|c r IH]; intros u Hu.
  - pose proof Hu as (Hb & Hp & _). unfold putbytes, written. cbn [fold_left List.length].
    replace (JSON_JSON_SIZE <? bufp u + 0)%nat with false
      by (symmetry; apply Nat.ltb_ge; lia).
    split; [exact Hu|]. repeat apply conj; auto; try lia.
    rewrite app_nil_r, take_take. f_equal. lia.
  - change (putbytes u (c :: r)) with (putbytes (jwPutch u c) r).
    destruct (jwPutch_spec u c Hu) as (H1 & H2 & H3 & H4 & H5).
    destruct (IH _ H1) as (I1 & I2 & I3 & I4 & I5).
    pose proof Hu as (Hb & Hp & _).
    assert (Hw : List.length (written u) = bufp u).
    { unfold written. rewrite length_take. lia. }
    split; [exact I1|]. repeat apply conj.
    + rewrite I2, H2. cbn [List.length].
      destruct (decide (bufp u + 1 <= JSON_JSON_SIZE)%nat) as [Hf|Hf].
      * rewrite (take_ge (written u ++ [c])) by (rewrite length_app, Hw; cbn [List.length]; lia).
        now rewrite <- app_assoc.
      * rewrite !take_app_le by (rewrite ?length_take, ?length_app, ?Hw; cbn [List.length]; lia).
        rewrite take_take. f_equal; lia.
    + rewrite I3, H3. cbn [List.length]. lia.
    + rewrite I4, H3, H4. cbn [List.length].
      destruct (JSON_JSON_SIZE <? bufp u + 1)%nat eqn:E1.
      * apply Nat.ltb_lt in E1.
        replace (JSON_JSON_SIZE <? bufp u + S (List.length r))%nat with true
          by (symmetry; apply Nat.ltb_lt; lia).
        match goal with |- (if ?b then _ else _) = _ => destruct b end; reflexivity.
      * apply Nat.ltb_ge in E1.
        replace (Nat.min JSON_JSON_SIZE (bufp u + 1)) with (bufp u + 1)%nat by lia.
        replace (bufp u + 1 + List.length r)%nat with (bufp u + S (List.length r))%nat
          by lia. reflexivity.
    + rewrite I5. apply (drop_ge_eq (bufp (jwPutch u c))); [|exact H5].
      rewrite I3. rewrite H3. lia.
Qed.

Lemma putbytes_fields s : forall u,
  callNo (putbytes u s) = callNo u /\ nodeStack (putbytes u s) = nodeStack u /\
  stackpos (putbytes u s) = stackpos u /\ isPretty (putbytes u s) = isPretty u /\
  tmpbuf (putbytes u s) = tmpbuf u.
Proof.
  induction s as [|c r IH]; intros u; [unfold putbytes; cbn [fold_left]; auto|].
  change (putbytes u (c :: r)) with (putbytes (jwPutch u c) r).
  destruct (IH (jwPutch u c)) as (-> & -> & -> & -> & ->). apply jwPutch_fields.
Qed.


(** *** The calls as runs of bytes *)

(** The separator before an element: a comma from the second on. *)
Definition sep (e : Z) : list Z := if 0 <? e then [44] else [].

(** The blank behind the colon of a member, in pretty mode. *)
Definition colon_ws (p : Z) : list Z := if p =? 0 then [] else [32].

(** The handle when a prologue has counted the call and the element. *)
Definition entered (u : unparser_s) : unparser_s :=
  bump_elementNo (set_callNo u (callNo u + 1)).

(** The text of a member's key: quote, key, quote, colon, blank. *)
Definition key_text (p : Z) (key : list Z) : list Z :=
  (34 :: c_str key ++ [34]) ++ 58 :: colon_ws p.

Lemma set_error_same u : set_error u (error u) = u.
Proof. destruct u. reflexivity. Qed.

(** Once the buffer is full and the error is set, bytes change nothing. *)
Lemma putbytes_full s : forall u,
  (JSON_JSON_SIZE <= bufp u)%nat -> error u = JSON_ERROR_BUF_FULL -> putbytes u s = u.
Proof.
  induction s as [|c r IH]; intros u Hb He; [reflexivity|].
  change (putbytes u (c :: r)) with (putbytes (jwPutch u c) r).
  assert (E : jwPutch u c = u).
  { unfold jwPutch. apply Nat.leb_le in Hb. rewrite Hb, <- He. apply set_error_same. }
  rewrite E. apply IH; auto.
Qed.

(** Bytes written only when the bytes before left no error: the same as
    writing them all. *)
Lemma putbytes_guard u a b :
  sound u -> error u = JSON_ERROR_OK ->
  (if error (putbytes u a) =? JSON_ERROR_OK then putbytes (putbytes u a) b
   else putbytes u a) = putbytes u (a ++ b).
Proof.
  intros Hu He. rewrite putbytes_app.
  destruct (putbytes_spec a u Hu) as (_ & _ & H3 & H4 & _).
  destruct (JSON_JSON_SIZE <? bufp u + List.length a)%nat eqn:E.
  - rewrite H4. cbn [Z.eqb JSON_ERROR_BUF_FULL JSON_ERROR_OK].
    apply Nat.ltb_lt in E. symmetry. apply putbytes_full; [rewrite H3; lia|exact H4].
  - rewrite H4, He. reflexivity.
Qed.

(** The fields that writing bytes leaves alone, read through the writes. *)
Ltac norm_fields :=
  repeat match goal with
  | |- context [isPretty (putbytes ?a ?b)] =>
      replace (isPretty (putbytes a b)) with (isPretty a)
        by (symmetry; apply putbytes_fields)
  | |- context [isPretty (jwPutch ?a ?b)] =>
      replace (isPretty (jwPutch a b)) with (isPretty a)
        by (symmetry; apply jwPutch_fields)
  | |- context [stackpos (putbytes ?a ?b)] =>
      replace (stackpos (putbytes a b)) with (stackpos a)
        by (symmetry; apply putbytes_fields)
  | |- context [stackpos (jwPutch ?a ?b)] =>
      replace (stackpos (jwPutch a b)) with (stackpos a)
        by (symmetry; apply jwPutch_fields)
  end.

Lemma top_set_callNo u n : top (set_callNo u n) = top u.
Proof. reflexivity. Qed.

Lemma entered_fields u :
  error (entered u) = error u /\ isPretty (entered u) = isPretty u /\
  stackpos (entered u) = stackpos u /\ buffer (entered u) = buffer u /\
  bufp (entered u) = bufp u /\ callNo (entered u) = callNo u + 1 /\
  nodeStack (entered u) =
    <[stackpos u := {| nodeType := nodeType (top u); elementNo := elementNo (top u) + 1 |}]>
      (nodeStack u).
Proof. unfold entered, bump_elementNo. cbn. repeat apply conj; reflexivity. Qed.

Lemma _jwArr_ok u :
  error u = JSON_ERROR_OK -> nodeType (top u) = JSON_ARRAY ->
  snd (_jwArr u) =
    putbytes (entered u) (sep (elementNo (top u)) ++ ind (isPretty u) (S (stackpos u))).
Proof.
  intros He Ht. unfold _jwArr. rewrite He. cbn [Z.eqb JSON_ERROR_OK].
  rewrite top_set_callNo, Ht. cbn [type_eqb type_code Z.eqb Pos.eqb negb snd].
  rewrite jwPretty_putbytes, putbytes_app. unfold sep, entered.
  destruct (0 <? elementNo (top u)); norm_fields; reflexivity.
Qed.

Lemma _jwObj_ok u key :
  error u = JSON_ERROR_OK -> nodeType (top u) = JSON_OBJECT ->
  snd (_jwObj u key) =
    putbytes (entered u)
      (sep (elementNo (top u)) ++ ind (isPretty u) (S (stackpos u)) ++
       key_text (isPretty u) key).
Proof.
  intros He Ht. unfold _jwObj. rewrite He. cbn [Z.eqb JSON_ERROR_OK].
  rewrite top_set_callNo, Ht. cbn [type_eqb type_code Z.eqb Pos.eqb negb snd].
  rewrite jwPretty_putbytes, jwPutstr_putbytes.
  unfold key_text, colon_ws. rewrite !putbytes_app.
  unfold sep, entered.
  destruct (0 <? elementNo (top u)); norm_fields;
    cbn [isPretty bump_elementNo set_frame set_callNo stackpos];
    destruct (isPretty u =? 0); reflexivity.
Qed.


(** *** The state after a call *)

Definition frame (t : djson_type_e) (e : Z) : nodestack_t :=
  {| nodeType := t; elementNo := e |}.

(** [u'] is what calls make of a handle [u] without error by appending
    [piece]: the bytes written are those of [u] and of [piece], as far as
    the buffer has room; when it has not room for all, the buffer is full
    and the buffer-full error is set; the bytes behind the write pointer
    are untouched. *)
Definition buf_after (u : unparser_s) (piece : list Z) (u' : unparser_s) : Prop :=
  sound u' /\
  written u' = take JSON_JSON_SIZE (written u ++ piece) /\
  drop (bufp u') (buffer u') = drop (bufp u') (buffer u) /\
  isPretty u' = isPretty u /\
  if (JSON_JSON_SIZE <? bufp u + List.length piece)%nat
  then error u' = JSON_ERROR_BUF_FULL /\ bufp u' = JSON_JSON_SIZE
  else error u' = JSON_ERROR_OK /\ bufp u' = (bufp u + List.length piece)%nat.

(** The stack after calls that added [k] elements to the top frame and
    closed whatever they opened. *)
Definition stack_after (u : unparser_s) (k : Z) (u' : unparser_s) : Prop :=
  stackpos u' = stackpos u /\
  take (stackpos u) (nodeStack u') = take (stackpos u) (nodeStack u) /\
  nodeStack u' !! stackpos u = Some (frame (nodeType (top u)) (elementNo (top u) + k)).

(** The stack after a call that added a container of kind [ty] to the
    top frame and left it open. *)
Definition stack_opened (u : unparser_s) (ty : djson_type_e) (u' : unparser_s) : Prop :=
  stackpos u' = S (stackpos u) /\
  take (stackpos u) (nodeStack u') = take (stackpos u) (nodeStack u) /\
  nodeStack u' !! stackpos u = Some (frame (nodeType (top u)) (elementNo (top u) + 1)) /\
  nodeStack u' !! S (stackpos u) = Some (frame ty 0).

Definition fits (u : unparser_s) (piece : list Z) : Prop :=
  (bufp u + List.length piece <= JSON_JSON_SIZE)%nat.

Definition wrote (u : unparser_s) (piece : list Z) (k : Z) (u' : unparser_s) : Prop :=
  buf_after u piece u' /\ (fits u piece -> stack_after u k u').

Definition opened (u : unparser_s) (piece : list Z) (ty : djson_type_e)
    (u' : unparser_s) : Prop :=
  buf_after u piece u' /\ (fits u piece -> stack_opened u ty u').

Lemma sound_top u : sound u -> nodeStack u !! stackpos u = Some (top u).
Proof.
  intros (_ & _ & Hn & Hs). unfold top, frame_at.
  destruct (nth_lookup_or_length (nodeStack u) (stackpos u) frame0) as [H|H]; [exact H|].
  lia.
Qed.

Lemma top_lookup u f : nodeStack u !! stackpos u = Some f -> top u = f.
Proof. intros H. unfold top, frame_at. apply nth_lookup_Some. exact H. Qed.

Lemma sound_entered u : sound u -> sound (entered u).
Proof.
  intros (H1 & H2 & H3 & H4). unfold sound.
  destruct (entered_fields u) as (_ & _ & -> & -> & -> & _ & ->).
  rewrite length_insert. auto.
Qed.

Lemma take_overflow {A} n (x y : list A) :
  (n <= List.length x)%nat -> take n (x ++ y) = take n x.
Proof. intros H. apply take_app_le. exact H. Qed.

Lemma written_length u : sound u -> List.length (written u) = bufp u.
Proof. intros (Hb & Hp & _). unfold written. rewrite length_take. lia. Qed.

(** Bytes written by a handle without error. *)
Lemma putbytes_after u s :
  sound u -> error u = JSON_ERROR_OK -> buf_after u s (putbytes u s).
Proof.
  intros Hu He. destruct (putbytes_spec s u Hu) as (H1 & H2 & H3 & H4 & H5).
  destruct (putbytes_fields s u) as (_ & _ & _ & Hp & _).
  unfold buf_after. split; [exact H1|]. repeat apply conj; auto.
  destruct (JSON_JSON_SIZE <? bufp u + List.length s)%nat eqn:E.
  - apply Nat.ltb_lt in E. split; [exact H4|]. rewrite H3. lia.
  - apply Nat.ltb_ge in E. rewrite H4, H3. split; [exact He|lia].
Qed.

(** Pieces written one after the other, the second one only when the
    first left no error. *)
Lemma buf_after_seq u a u1 b u2 :
  sound u ->
  buf_after u a u1 ->
  (error u1 = JSON_ERROR_OK -> buf_after u1 b u2) ->
  (error u1 <> JSON_ERROR_OK -> u2 = u1) ->
  buf_after u (a ++ b) u2.
Proof.
  intros Hu (A1 & A2 & A3 & A4 & A5) Hok Hbad. pose proof (written_length u Hu) as Hw.
  unfold buf_after at 1. rewrite length_app.
  destruct (JSON_JSON_SIZE <? bufp u + List.length a)%nat eqn:Ea.
  - destruct A5 as (A5 & A6). apply Nat.ltb_lt in Ea.
    rewrite (Hbad ltac:(rewrite A5; discriminate)).
    replace (JSON_JSON_SIZE <? bufp u + (List.length a + List.length b))%nat with true
      by (symmetry; apply Nat.ltb_lt; lia).
    split; [exact A1|]. repeat apply conj; auto.
    rewrite A2, app_assoc. symmetry. apply take_overflow. rewrite length_app. lia.
  - destruct A5 as (A5 & A6). apply Nat.ltb_ge in Ea.
    destruct (Hok A5) as (B1 & B2 & B3 & B4 & B5).
    split; [exact B1|]. repeat apply conj; auto.
    + rewrite B2, A2. rewrite (take_ge (written u ++ a)) by (rewrite length_app; lia).
      rewrite app_assoc. reflexivity.
    + rewrite B3. apply (drop_ge_eq (bufp u1)); [|exact A3].
      destruct (JSON_JSON_SIZE <? bufp u1 + List.length b)%nat eqn:Eb;
        destruct B5 as (_ & ->); [|lia]. destruct A1 as (_ & A1 & _). exact A1.
    + congruence.
    + rewrite A6 in B5.
      replace (bufp u + (List.length a + List.length b))%nat
        with (bufp u + List.length a + List.length b)%nat by lia.
      exact B5.
Qed.


Lemma buf_after_guard u a X b Y :
  sound u ->
  buf_after u a X ->
  (error X = JSON_ERROR_OK -> buf_after X b Y) ->
  buf_after u (a ++ b) (if error X =? JSON_ERROR_OK then Y else X).
Proof.
  intros Hu Ha Hb. apply (buf_after_seq u a X b _ Hu Ha).
  - intros E. rewrite E. cbn [Z.eqb JSON_ERROR_OK]. apply Hb. exact E.
  - intros E. apply Z.eqb_neq in E. rewrite E. reflexivity.
Qed.

(** The same, seen from the handle before the prologue counted the call. *)
Lemma entered_buf_after u piece u' :
  buf_after (entered u) piece u' -> buf_after u piece u'.
Proof.
  unfold buf_after, written.
  destruct (entered_fields u) as (_ & -> & _ & -> & -> & _ & _). auto.
Qed.

Lemma entered_putbytes_stack u piece :
  sound u -> stack_after u 1 (putbytes (entered u) piece).
Proof.
  intros Hu. pose proof Hu as (_ & _ & Hn & Hs). unfold stack_after.
  destruct (putbytes_fields piece (entered u)) as (_ & -> & -> & _).
  destruct (entered_fields u) as (_ & _ & -> & _ & _ & _ & ->).
  repeat apply conj; auto.
  - apply take_insert_ge. lia.
  - apply list_lookup_insert_eq. lia.
Qed.

(** A call that adds a string, a number or a literal. *)
Lemma leaf_wrote u piece :
  sound u -> error u = JSON_ERROR_OK -> wrote u piece 1 (putbytes (entered u) piece).
Proof.
  intros Hu He. split.
  - apply entered_buf_after. apply putbytes_after; [apply sound_entered; exact Hu|].
    destruct (entered_fields u) as (-> & _). exact He.
  - intros _. apply entered_putbytes_stack. exact Hu.
Qed.

Lemma sound_jwPush u ty : sound u -> sound (jwPush u ty).
Proof.
  intros (H1 & H2 & H3 & H4). unfold jwPush, sound.
  destruct (JSON_STACK_DEPTH <=? stackpos u + 1)%nat eqn:E;
    cbn [buffer bufp nodeStack stackpos set_error set_frame set_stackpos]; auto.
  apply Nat.leb_gt in E. rewrite length_insert. repeat apply conj; auto; lia.
Qed.

Lemma jwPush_buf_after u piece u' ty :
  buf_after u piece u' -> (S (stackpos u') < JSON_STACK_DEPTH)%nat ->
  buf_after u piece (jwPush u' ty).
Proof.
  intros (A1 & A2 & A3 & A4 & A5) Hd. unfold buf_after.
  split; [apply sound_jwPush; exact A1|].
  unfold jwPush, written in *.
  replace (JSON_STACK_DEPTH <=? stackpos u' + 1)%nat with false
    by (symmetry; apply Nat.leb_gt; lia).
  cbn [buffer bufp nodeStack stackpos error isPretty set_frame set_stackpos]. auto.
Qed.

(** A call that opens a container: the prologue's bytes, then the
    bracket and the push when the prologue left no error. *)
Lemma open_wrote u pro c ty :
  sound u -> error u = JSON_ERROR_OK -> (S (stackpos u) < JSON_STACK_DEPTH)%nat ->
  opened u (pro ++ [c]) ty
    (if error (putbytes (entered u) pro) =? JSON_ERROR_OK
     then jwPush (jwPutch (putbytes (entered u) pro) c) ty
     else putbytes (entered u) pro).
Proof.
  intros Hu He Hd.
  assert (He' : error (entered u) = JSON_ERROR_OK).
  { destruct (entered_fields u) as (-> & _). exact He. }
  pose proof (sound_entered u Hu) as Hs'.
  assert (Hsp : stackpos (putbytes (entered u) pro) = stackpos u).
  { destruct (putbytes_fields pro (entered u)) as (_ & _ & -> & _).
    destruct (entered_fields u) as (_ & _ & -> & _). reflexivity. }
  split.
  - apply buf_after_guard; [exact Hu| |].
    + apply entered_buf_after. apply putbytes_after; auto.
    + intros E. apply jwPush_buf_after.
      * apply (putbytes_after _ [c]); [apply putbytes_spec; exact Hs'|exact E].
      * destruct (jwPutch_fields (putbytes (entered u) pro) c) as (_ & _ & -> & _).
        rewrite Hsp. exact Hd.
  - intros Hf. unfold fits in Hf. rewrite length_app in Hf. cbn [List.length] in Hf.
    destruct (putbytes_spec pro (entered u) Hs') as (_ & _ & _ & H4 & _).
    destruct (entered_fields u) as (_ & _ & Es & _ & Eb & _ & En).
    rewrite Eb in H4.
    replace (JSON_JSON_SIZE <? bufp u + List.length pro)%nat with false in H4
      by (symmetry; apply Nat.ltb_ge; lia).
    rewrite H4, He'. cbn [Z.eqb JSON_ERROR_OK].
    pose proof Hu as (_ & _ & Hn & Hs).
    unfold jwPush.
    destruct (jwPutch_fields (putbytes (entered u) pro) c) as (_ & Ens & Esp & _).
    destruct (putbytes_fields pro (entered u)) as (_ & Ens2 & _).
    rewrite Esp, Hsp.
    replace (JSON_STACK_DEPTH <=? stackpos u + 1)%nat with false
      by (symmetry; apply Nat.leb_gt; lia).
    unfold stack_opened. cbn [stackpos nodeStack set_frame set_stackpos].
    rewrite Ens, Ens2, En. replace (stackpos u + 1)%nat with (S (stackpos u)) by lia.
    repeat apply conj; auto.
    + rewrite !take_insert_ge by lia. reflexivity.
    + rewrite list_lookup_insert_ne by lia. apply list_lookup_insert_eq. lia.
    + apply list_lookup_insert_eq. rewrite length_insert. lia.
Qed.


(** *** The calls of the interface *)

(** What the prologue of an array call writes, and that of an object
    call. *)
Definition pro_arr (u : unparser_s) : list Z :=
  sep (elementNo (top u)) ++ ind (isPretty u) (S (stackpos u)).

Definition pro_obj (u : unparser_s) (key : list Z) : list Z :=
  sep (elementNo (top u)) ++ ind (isPretty u) (S (stackpos u)) ++
  key_text (isPretty u) key.

Lemma arr_call u (f : unparser_s -> unparser_s) :
  error u = JSON_ERROR_OK -> nodeType (top u) = JSON_ARRAY ->
  (let '(r, v) := _jwArr u in if r =? JSON_ERROR_OK then f v else v) =
  (if error (putbytes (entered u) (pro_arr u)) =? JSON_ERROR_OK
   then f (putbytes (entered u) (pro_arr u)) else putbytes (entered u) (pro_arr u)).
Proof.
  intros He Ht. pose proof (_jwArr_ret u) as Hr. pose proof (_jwArr_ok u He Ht) as Hs.
  destruct (_jwArr u) as [r v]. cbn [fst snd] in Hr, Hs. subst r. rewrite Hs.
  reflexivity.
Qed.

Lemma obj_call u key (f : unparser_s -> unparser_s) :
  error u = JSON_ERROR_OK -> nodeType (top u) = JSON_OBJECT ->
  (let '(r, v) := _jwObj u key in if r =? JSON_ERROR_OK then f v else v) =
  (if error (putbytes (entered u) (pro_obj u key)) =? JSON_ERROR_OK
   then f (putbytes (entered u) (pro_obj u key))
   else putbytes (entered u) (pro_obj u key)).
Proof.
  intros He Ht. pose proof (_jwObj_ret u key) as Hr.
  pose proof (_jwObj_ok u key He Ht) as Hs.
  destruct (_jwObj u key) as [r v]. cbn [fst snd] in Hr, Hs. subst r. rewrite Hs.
  reflexivity.
Qed.

(** With an error latched the prologues do nothing, and so do the
    calls. *)
Lemma arr_call_latched u (f : unparser_s -> unparser_s) :
  error u <> JSON_ERROR_OK ->
  (let '(r, v) := _jwArr u in if r =? JSON_ERROR_OK then f v else v) = u.
Proof.
  intros He. apply Z.eqb_neq in He. unfold _jwArr. rewrite He, He. reflexivity.
Qed.

Lemma obj_call_latched u key (f : unparser_s -> unparser_s) :
  error u <> JSON_ERROR_OK ->
  (let '(r, v) := _jwObj u key in if r =? JSON_ERROR_OK then f v else v) = u.
Proof.
  intros He. apply Z.eqb_neq in He. unfold _jwObj. rewrite He, He. reflexivity.
Qed.

Lemma end_latched u :
  error u <> JSON_ERROR_OK ->
  endObject u = (error u, u) /\ endArray u = (error u, u) /\ endJSON u = (error u, u).
Proof.
  intros He. apply Z.eqb_neq in He. unfold endObject, endArray, endJSON.
  rewrite He. auto.
Qed.

(** A leaf call on an array, as bytes. *)
Lemma array_leaf u (g : unparser_s -> unparser_s) piece :
  sound u -> error u = JSON_ERROR_OK -> nodeType (top u) = JSON_ARRAY ->
  (forall v, g v = putbytes v piece) ->
  (let '(r, v) := _jwArr u in if r =? JSON_ERROR_OK then g v else v) =
  putbytes (entered u) (pro_arr u ++ piece).
Proof.
  intros Hu He Ht Hg. rewrite (arr_call u g He Ht), Hg.
  apply putbytes_guard; [apply sound_entered; exact Hu|].
  destruct (entered_fields u) as (-> & _). exact He.
Qed.

Lemma object_leaf u key (g : unparser_s -> unparser_s) piece :
  sound u -> error u = JSON_ERROR_OK -> nodeType (top u) = JSON_OBJECT ->
  (forall v, g v = putbytes v piece) ->
  (let '(r, v) := _jwObj u key in if r =? JSON_ERROR_OK then g v else v) =
  putbytes (entered u) (pro_obj u key ++ piece).
Proof.
  intros Hu He Ht Hg. rewrite (obj_call u key g He Ht), Hg.
  apply putbytes_guard; [apply sound_entered; exact Hu|].
  destruct (entered_fields u) as (-> & _). exact He.
Qed.

(** [endObject] and [endArray] on a frame above the root: the frame is
    popped, and the closing bracket of its kind is written, on a line of
    its own in pretty mode when the frame has elements. *)
Lemma close_call u L ty k :
  error u = JSON_ERROR_OK -> stackpos u = S L -> top u = frame ty k ->
  snd (endArray u) =
    putbytes (set_stackpos u L)
      ((if 0 <? k then ind (isPretty u) (S L) else []) ++ [closer ty]) /\
  snd (endObject u) =
    putbytes (set_stackpos u L)
      ((if 0 <? k then ind (isPretty u) (S L) else []) ++ [closer ty]).
Proof.
  intros He Hs Ht. unfold endArray, endObject, jwPop. rewrite He, Hs, Ht.
  cbn [Z.eqb JSON_ERROR_OK Nat.eqb elementNo nodeType frame snd].
  replace (S L - 1)%nat with L by lia. rewrite putbytes_app.
  destruct (0 <? k); [rewrite jwPretty_putbytes|]; split; reflexivity.
Qed.

End Writer.

(** * Documents written through the interface *)

Module Document.
Import Unparser UnparserFacts Json Cursor Writer.

(** A value of the grammar as a document to write: its white space is
    ignored, the writer lays the text out itself.  [put_elem] adds a value
    to the array on top of the stack, [put_member] adds it under a key
    to the object on top, through the calls of the interface. *)
Fixpoint put_elem (v : value) (u : unparser_s) {struct v} : unparser_s :=
  match v with
  | VPrim s => addRawTextToArray u s
  | VStr s => addStringToArray u s
  | VArr0 _ => snd (endArray (addArrayToArray u))
  | VArr es => snd (endArray (put_elems es (addArrayToArray u)))
  | VObj0 _ => snd (endObject (addObjectToArray u))
  | VObj ms => snd (endObject (put_members ms (addObjectToArray u)))
  end
with put_member (v : value) (key : list Z) (u : unparser_s) {struct v} : unparser_s :=
  match v with
  | VPrim s => addRawTextToObject u key s
  | VStr s => addStringToObject u key s
  | VArr0 _ => snd (endArray (addArrayToObject u key))
  | VArr es => snd (endArray (put_elems es (addArrayToObject u key)))
  | VObj0 _ => snd (endObject (addObjectToObject u key))
  | VObj ms => snd (endObject (put_members ms (addObjectToObject u key)))
  end
with put_elems (es : elems) (u : unparser_s) {struct es} : unparser_s :=
  match es with
  | EOne _ v _ => put_elem v u
  | ECons _ v _ r => put_elems r (put_elem v u)
  end
with put_members (ms : members) (u : unparser_s) {struct ms} : unparser_s :=
  match ms with
  | MOne _ key _ _ v _ => put_member v key u
  | MCons _ key _ _ v _ r => put_members r (put_member v key u)
  end.

(** The text of a value written at stack position [L] in mode [p], and
    the text of the elements and members written into a frame at stack
    position [L] that holds [e] elements already. *)
Fixpoint body (p : Z) (L : nat) (v : value) : list Z :=
  match v with
  | VPrim s => c_str s
  | VStr s => 34 :: c_str s ++ [34]
  | VArr0 _ => [91; 93]
  | VArr es => 91 :: body_elems p (S L) 0 es ++ ind p (S L) ++ [93]
  | VObj0 _ => [123; 125]
  | VObj ms => 123 :: body_members p (S L) 0 ms ++ ind p (S L) ++ [125]
  end
with body_elems (p : Z) (L : nat) (e : Z) (es : elems) : list Z :=
  match es with
  | EOne _ v _ => (sep e ++ ind p (S L)) ++ body p L v
  | ECons _ v _ r => ((sep e ++ ind p (S L)) ++ body p L v) ++ body_elems p L (e + 1) r
  end
with body_members (p : Z) (L : nat) (e : Z) (ms : members) : list Z :=
  match ms with
  | MOne _ key _ _ v _ => (sep e ++ ind p (S L) ++ key_text p key) ++ body p L v
  | MCons _ key _ _ v _ r =>
      ((sep e ++ ind p (S L) ++ key_text p key) ++ body p L v) ++
      body_members p L (e + 1) r
  end.

(** How many frames a value needs above the one it is added to. *)
Fixpoint depth (v : value) : nat :=
  match v with
  | VPrim _ | VStr _ => 0
  | VArr0 _ | VObj0 _ => 1
  | VArr es => S (depth_elems es)
  | VObj ms => S (depth_members ms)
  end
with depth_elems (es : elems) : nat :=
  match es with
  | EOne _ v _ => depth v
  | ECons _ v _ r => Nat.max (depth v) (depth_elems r)
  end
with depth_members (ms : members) : nat :=
  match ms with
  | MOne _ _ _ _ v _ => depth v
  | MCons _ _ _ _ v _ r => Nat.max (depth v) (depth_members r)
  end.


(** *** Putting calls together *)

Lemma buf_after_ok_fits u piece u' :
  buf_after u piece u' -> error u' = JSON_ERROR_OK -> fits u piece.
Proof.
  intros (_ & _ & _ & _ & H) He. unfold fits.
  destruct (JSON_JSON_SIZE <? bufp u + List.length piece)%nat eqn:E.
  - destruct H as (H & _). rewrite H in He. discriminate.
  - apply Nat.ltb_ge in E. exact E.
Qed.

Lemma buf_after_fits u piece u' :
  buf_after u piece u' -> fits u piece ->
  error u' = JSON_ERROR_OK /\ bufp u' = (bufp u + List.length piece)%nat.
Proof.
  intros (_ & _ & _ & _ & H) Hf. unfold fits in Hf.
  replace (JSON_JSON_SIZE <? bufp u + List.length piece)%nat with false in H
    by (symmetry; apply Nat.ltb_ge; lia).
  exact H.
Qed.

Lemma fits_app_l u a b : fits u (a ++ b) -> fits u a.
Proof. unfold fits. rewrite length_app. lia. Qed.

Lemma fits_app_r u a b u1 :
  fits u (a ++ b) -> bufp u1 = (bufp u + List.length a)%nat -> fits u1 b.
Proof. unfold fits. rewrite length_app. lia. Qed.

Lemma frame_top u : frame (nodeType (top u)) (elementNo (top u)) = top u.
Proof. destruct (top u). reflexivity. Qed.

(** Calls one after the other on the same frame. *)
Lemma wrote_seq u a k1 u1 b k2 u2 :
  sound u ->
  wrote u a k1 u1 ->
  (error u1 = JSON_ERROR_OK -> wrote u1 b k2 u2) ->
  (error u1 <> JSON_ERROR_OK -> u2 = u1) ->
  wrote u (a ++ b) (k1 + k2) u2.
Proof.
  intros Hu (A & As) Hok Hbad. split.
  - apply (buf_after_seq u a u1 b u2 Hu A); [|exact Hbad].
    intros E. apply Hok. exact E.
  - intros Hf. destruct (buf_after_fits u a u1 A (fits_app_l _ _ _ Hf)) as (E1 & Eb).
    destruct (As (fits_app_l _ _ _ Hf)) as (S1 & S2 & S3).
    destruct (Hok E1) as (B & Bs).
    destruct (Bs (fits_app_r _ _ _ _ Hf Eb)) as (T1 & T2 & T3).
    rewrite S1 in T1, T2, T3. rewrite (top_lookup u1 _ ltac:(rewrite S1; exact S3)) in T3.
    cbn [nodeType elementNo frame] in T3.
    unfold stack_after. repeat apply conj; auto; [congruence|].
    rewrite T3. f_equal. f_equal. lia.
Qed.

Lemma take_le_eq {A} n m (l1 l2 : list A) :
  (n <= m)%nat -> take m l1 = take m l2 -> take n l1 = take n l2.
Proof.
  intros Hle H. apply (f_equal (take n)) in H. rewrite !take_take in H.
  rewrite Nat.min_l in H by exact Hle. exact H.
Qed.

Lemma set_stackpos_buf_after u L piece u' :
  buf_after (set_stackpos u L) piece u' -> buf_after u piece u'.
Proof. unfold buf_after, written. cbn [set_stackpos buffer bufp isPretty]. auto. Qed.

Lemma sound_set_stackpos u L :
  sound u -> (L < JSON_STACK_DEPTH)%nat -> sound (set_stackpos u L).
Proof. intros (H1 & H2 & H3 & _) HL. unfold sound. cbn [set_stackpos buffer bufp nodeStack stackpos]. auto. Qed.

(** A container: the call that opens it, the calls that fill it, and
    [endArray] or [endObject]. *)
Lemma container_wrote u pro c ty u1 b k u2 :
  sound u -> error u = JSON_ERROR_OK ->
  opened u (pro ++ [c]) ty u1 ->
  (error u1 = JSON_ERROR_OK -> wrote u1 b k u2) ->
  (error u1 <> JSON_ERROR_OK -> u2 = u1) ->
  wrote u
    ((pro ++ [c]) ++ b ++
     (if 0 <? k then ind (isPretty u) (S (stackpos u)) else []) ++ [closer ty])
    1 (snd (endArray u2)) /\
  wrote u
    ((pro ++ [c]) ++ b ++
     (if 0 <? k then ind (isPretty u) (S (stackpos u)) else []) ++ [closer ty])
    1 (snd (endObject u2)).
Proof.
  intros Hu He (A & As) Hok Hbad.
  set (cl := (if 0 <? k then ind (isPretty u) (S (stackpos u)) else []) ++ [closer ty]).
  assert (W12 : buf_after u ((pro ++ [c]) ++ b) u2).
  { apply (buf_after_seq u _ u1 b u2 Hu A); [|exact Hbad]. intros E. apply Hok. exact E. }
  assert (Hstack : error u2 = JSON_ERROR_OK ->
            stackpos u2 = S (stackpos u) /\ top u2 = frame ty k /\
            isPretty u2 = isPretty u /\ sound u2 /\
            take (stackpos u) (nodeStack u2) = take (stackpos u) (nodeStack u) /\
            nodeStack u2 !! stackpos u =
              Some (frame (nodeType (top u)) (elementNo (top u) + 1))).
  { intros E2. pose proof (buf_after_ok_fits _ _ _ W12 E2) as Hf.
    destruct (buf_after_fits u _ u1 A (fits_app_l _ _ _ Hf)) as (E1 & Eb).
    destruct (As (fits_app_l _ _ _ Hf)) as (S1 & S2 & S3 & S4).
    destruct (Hok E1) as (B & Bs).
    destruct (Bs (fits_app_r _ _ _ _ Hf Eb)) as (T1 & T2 & T3).
    rewrite S1 in T1, T2, T3.
    rewrite (top_lookup u1 _ ltac:(rewrite S1; exact S4)) in T3.
    cbn [nodeType elementNo frame] in T3. rewrite Z.add_0_l in T3.
    destruct W12 as (Hs2 & _ & _ & Hp2 & _).
    split; [exact T1|]. split; [|split; [exact Hp2|split; [exact Hs2|split]]].
    - apply top_lookup. rewrite T1. exact T3.
    - transitivity (take (stackpos u) (nodeStack u1)); [|exact S2].
      apply (take_le_eq (stackpos u) (S (stackpos u))); [lia|exact T2].
    - transitivity (nodeStack u1 !! stackpos u); [|exact S3].
      rewrite <- (lookup_take_lt (nodeStack u2) (S (stackpos u))) by lia.
      rewrite <- (lookup_take_lt (nodeStack u1) (S (stackpos u))) by lia.
      rewrite T2. reflexivity. }
  assert (Hend : forall u3,
            (error u2 = JSON_ERROR_OK ->
             u3 = putbytes (set_stackpos u2 (stackpos u))
                    ((if 0 <? k then ind (isPretty u2) (S (stackpos u)) else []) ++
                     [closer ty])) ->
            (error u2 <> JSON_ERROR_OK -> u3 = u2) ->
            wrote u ((pro ++ [c]) ++ b ++ cl) 1 u3).
  { intros u3 H3ok H3bad. rewrite (app_assoc (pro ++ [c]) b cl). split.
    - apply (buf_after_seq u _ u2 cl u3 Hu W12); [|exact H3bad].
      intros E2. destruct (Hstack E2) as (S1 & S2 & S3 & S4 & _).
      rewrite (H3ok E2), S3. apply (set_stackpos_buf_after u2 (stackpos u)).
      apply putbytes_after; [|exact E2].
      apply sound_set_stackpos; [exact S4|]. destruct Hu as (_ & _ & _ & Hu). exact Hu.
    - intros Hf.
      destruct (buf_after_fits u _ u2 W12 (fits_app_l _ _ _ Hf)) as (E2 & _).
      destruct (Hstack E2) as (S1 & S2 & S3 & S4 & S5 & S6).
      rewrite (H3ok E2). unfold stack_after.
      destruct (putbytes_fields
                  ((if 0 <? k then ind (isPretty u2) (S (stackpos u)) else []) ++
                   [closer ty]) (set_stackpos u2 (stackpos u))) as (_ & -> & -> & _).
      cbn [set_stackpos stackpos nodeStack]. auto. }
  split; apply Hend.
  - intros E2. destruct (Hstack E2) as (S1 & S2 & _).
    apply (close_call u2 (stackpos u) ty k E2 S1 S2).
  - intros E2. destruct (end_latched u2 E2) as (_ & -> & _). reflexivity.
  - intros E2. destruct (Hstack E2) as (S1 & S2 & _).
    apply (close_call u2 (stackpos u) ty k E2 S1 S2).
  - intros E2. destruct (end_latched u2 E2) as (-> & _). reflexivity.
Qed.

Lemma wrote_nil u : sound u -> error u = JSON_ERROR_OK -> wrote u [] 0 u.
Proof.
  intros Hu He. split.
  - pose proof (putbytes_after u [] Hu He) as H. exact H.
  - intros _. unfold stack_after. rewrite Z.add_0_r, frame_top.
    repeat apply conj; auto. apply sound_top. exact Hu.
Qed.


(** *** A document, call by call *)

Lemma count_elems_pos es : (0 <? Z.of_nat (count_elems es)) = true.
Proof. apply Z.ltb_lt. destruct es; simpl; lia. Qed.

Lemma count_members_pos ms : (0 <? Z.of_nat (count_members ms)) = true.
Proof. apply Z.ltb_lt. destruct ms; simpl; lia. Qed.

(** With an error latched, writing a document changes nothing. *)
Lemma put_latched :
  (forall v u, error u <> JSON_ERROR_OK ->
     put_elem v u = u /\ forall key, put_member v key u = u) /\
  (forall es u, error u <> JSON_ERROR_OK -> put_elems es u = u) /\
  (forall ms u, error u <> JSON_ERROR_OK -> put_members ms u = u).
Proof.
  apply json_mutind.
  - intros s u He. split; [|intros key].
    + apply arr_call_latched. exact He.
    + apply obj_call_latched. exact He.
  - intros s u He. split; [|intros key].
    + apply arr_call_latched. exact He.
    + apply obj_call_latched. exact He.
  - intros w u He. split; [|intros key]; cbn [put_elem put_member].
    + unfold addArrayToArray. rewrite arr_call_latched by exact He.
      destruct (end_latched u He) as (_ & -> & _). reflexivity.
    + unfold addArrayToObject. rewrite obj_call_latched by exact He.
      destruct (end_latched u He) as (_ & -> & _). reflexivity.
  - intros es IH u He. split; [|intros key]; cbn [put_elem put_member].
    + unfold addArrayToArray. rewrite arr_call_latched by exact He.
      rewrite (IH u He). destruct (end_latched u He) as (_ & -> & _). reflexivity.
    + unfold addArrayToObject. rewrite obj_call_latched by exact He.
      rewrite (IH u He). destruct (end_latched u He) as (_ & -> & _). reflexivity.
  - intros w u He. split; [|intros key]; cbn [put_elem put_member].
    + unfold addObjectToArray. rewrite arr_call_latched by exact He.
      destruct (end_latched u He) as (-> & _). reflexivity.
    + unfold addObjectToObject. rewrite obj_call_latched by exact He.
      destruct (end_latched u He) as (-> & _). reflexivity.
  - intros ms IH u He. split; [|intros key]; cbn [put_elem put_member].
    + unfold addObjectToArray. rewrite arr_call_latched by exact He.
      rewrite (IH u He). destruct (end_latched u He) as (-> & _). reflexivity.
    + unfold addObjectToObject. rewrite obj_call_latched by exact He.
      rewrite (IH u He). destruct (end_latched u He) as (-> & _). reflexivity.
  - intros w1 v IH w2 u He. cbn [put_elems]. apply IH. exact He.
  - intros w1 v IHv w2 r IHr u He. cbn [put_elems].
    rewrite (proj1 (IHv u He)). apply IHr. exact He.
  - intros w1 key w2 w3 v IH w4 u He. cbn [put_members]. apply IH. exact He.
  - intros w1 key w2 w3 v IHv w4 r IHr u He. cbn [put_members].
    rewrite (proj2 (IHv u He)). apply IHr. exact He.
Qed.

(** The state a container call leaves, for the calls that fill the
    container. *)
Lemma opened_state u piece ty u1 :
  opened u piece ty u1 -> error u1 = JSON_ERROR_OK ->
  sound u1 /\ isPretty u1 = isPretty u /\ stackpos u1 = S (stackpos u) /\
  top u1 = frame ty 0.
Proof.
  intros (A & As) E1. pose proof (buf_after_ok_fits _ _ _ A E1) as Hf.
  destruct (As Hf) as (S1 & _ & _ & S4). destruct A as (Hs & _ & _ & Hp & _).
  split; [exact Hs|]. repeat apply conj; auto.
  apply top_lookup. rewrite S1. exact S4.
Qed.

Lemma wrote_state u piece k u1 :
  wrote u piece k u1 -> error u1 = JSON_ERROR_OK ->
  sound u1 /\ isPretty u1 = isPretty u /\ stackpos u1 = stackpos u /\
  top u1 = frame (nodeType (top u)) (elementNo (top u) + k).
Proof.
  intros (A & As) E1. pose proof (buf_after_ok_fits _ _ _ A E1) as Hf.
  destruct (As Hf) as (S1 & _ & S3). destruct A as (Hs & _ & _ & Hp & _).
  split; [exact Hs|]. repeat apply conj; auto.
  apply top_lookup. rewrite S1. exact S3.
Qed.


(** The calls that open an array or an object, in an array and under a
    key. *)
Lemma open_in_array u c ty :
  sound u -> error u = JSON_ERROR_OK -> nodeType (top u) = JSON_ARRAY ->
  (S (stackpos u) < JSON_STACK_DEPTH)%nat ->
  opened u (pro_arr u ++ [c]) ty
    (let '(r, v) := _jwArr u in
     if r =? JSON_ERROR_OK then jwPush (jwPutch v c) ty else v).
Proof.
  intros Hu He Ht Hd.
  rewrite (arr_call u (fun v => jwPush (jwPutch v c) ty) He Ht).
  apply open_wrote; auto.
Qed.

Lemma open_in_object u key c ty :
  sound u -> error u = JSON_ERROR_OK -> nodeType (top u) = JSON_OBJECT ->
  (S (stackpos u) < JSON_STACK_DEPTH)%nat ->
  opened u (pro_obj u key ++ [c]) ty
    (let '(r, v) := _jwObj u key in
     if r =? JSON_ERROR_OK then jwPush (jwPutch v c) ty else v).
Proof.
  intros Hu He Ht Hd.
  rewrite (obj_call u key (fun v => jwPush (jwPutch v c) ty) He Ht).
  apply open_wrote; auto.
Qed.

(** An empty container. *)
Lemma empty_container u pro c ty u1 :
  sound u -> error u = JSON_ERROR_OK -> opened u (pro ++ [c]) ty u1 ->
  wrote u (pro ++ [c; closer ty]) 1 (snd (endArray u1)) /\
  wrote u (pro ++ [c; closer ty]) 1 (snd (endObject u1)).
Proof.
  intros Hu He Ho.
  pose proof (container_wrote u pro c ty u1 [] 0 u1 Hu He Ho) as H.
  cbn [Z.ltb Z.compare app] in H. rewrite <- app_assoc in H. apply H.
  - intros E1. destruct (opened_state _ _ _ _ Ho E1) as (Hs & _).
    apply wrote_nil; auto.
  - reflexivity.
Qed.

(** A container with elements or members. *)
Lemma filled_container u pro c ty u1 b k u2 :
  sound u -> error u = JSON_ERROR_OK -> opened u (pro ++ [c]) ty u1 ->
  (error u1 = JSON_ERROR_OK -> wrote u1 b k u2) ->
  (error u1 <> JSON_ERROR_OK -> u2 = u1) ->
  (0 <? k) = true ->
  wrote u (pro ++ c :: b ++ ind (isPretty u) (S (stackpos u)) ++ [closer ty]) 1
    (snd (endArray u2)) /\
  wrote u (pro ++ c :: b ++ ind (isPretty u) (S (stackpos u)) ++ [closer ty]) 1
    (snd (endObject u2)).
Proof.
  intros Hu He Ho Hok Hbad Hk.
  pose proof (container_wrote u pro c ty u1 b k u2 Hu He Ho Hok Hbad) as H.
  rewrite Hk in H. rewrite <- app_assoc in H. exact H.
Qed.

(** What a document comes to, call by call: a value added to an array or
    under a key appends the prologue of the call and the text of the
    value, and counts one element on the frame; elements and members
    append their texts one after the other. *)
Lemma put_wrote :
  (forall v u, sound u -> error u = JSON_ERROR_OK ->
     (stackpos u + depth v < JSON_STACK_DEPTH)%nat ->
     (nodeType (top u) = JSON_ARRAY ->
      wrote u (pro_arr u ++ body (isPretty u) (stackpos u) v) 1 (put_elem v u)) /\
     (nodeType (top u) = JSON_OBJECT -> forall key,
      wrote u (pro_obj u key ++ body (isPretty u) (stackpos u) v) 1
        (put_member v key u))) /\
  (forall es u, sound u -> error u = JSON_ERROR_OK ->
     nodeType (top u) = JSON_ARRAY -> 0 <= elementNo (top u) ->
     (stackpos u + depth_elems es < JSON_STACK_DEPTH)%nat ->
     wrote u (body_elems (isPretty u) (stackpos u) (elementNo (top u)) es)
       (Z.of_nat (count_elems es)) (put_elems es u)) /\
  (forall ms u, sound u -> error u = JSON_ERROR_OK ->
     nodeType (top u) = JSON_OBJECT -> 0 <= elementNo (top u) ->
     (stackpos u + depth_members ms < JSON_STACK_DEPTH)%nat ->
     wrote u (body_members (isPretty u) (stackpos u) (elementNo (top u)) ms)
       (Z.of_nat (count_members ms)) (put_members ms u)).
Proof.
  apply json_mutind.
  - (* a number or a literal *)
    intros s u Hu He Hd. split; [intros Ht|intros Ht key]; cbn [put_elem put_member body].
    + unfold addRawTextToArray.
      rewrite (array_leaf u (fun v => jwPutraw v s) (c_str s) Hu He Ht
                 (fun v => jwPutraw_putbytes s v)).
      apply leaf_wrote; auto.
    + unfold addRawTextToObject.
      rewrite (object_leaf u key (fun v => jwPutraw v s) (c_str s) Hu He Ht
                 (fun v => jwPutraw_putbytes s v)).
      apply leaf_wrote; auto.
  - (* a string *)
    intros s u Hu He Hd. split; [intros Ht|intros Ht key]; cbn [put_elem put_member body].
    + unfold addStringToArray.
      rewrite (array_leaf u (fun v => jwPutstr v s) (34 :: c_str s ++ [34]) Hu He Ht
                 (fun v => jwPutstr_putbytes v s)).
      apply leaf_wrote; auto.
    + unfold addStringToObject.
      rewrite (object_leaf u key (fun v => jwPutstr v s) (34 :: c_str s ++ [34]) Hu He Ht
                 (fun v => jwPutstr_putbytes v s)).
      apply leaf_wrote; auto.
  - (* an empty array *)
    intros w u Hu He Hd. cbn [depth] in Hd.
    split; [intros Ht|intros Ht key]; cbn [put_elem put_member body].
    + apply (empty_container u (pro_arr u) 91 JSON_ARRAY); auto.
      apply open_in_array; auto; lia.
    + apply (empty_container u (pro_obj u key) 91 JSON_ARRAY); auto.
      apply open_in_object; auto; lia.
  - (* an array *)
    intros es IH u Hu He Hd. cbn [depth] in Hd.
    assert (Hfill : forall pro u1, opened u (pro ++ [91]) JSON_ARRAY u1 ->
              wrote u (pro ++ body (isPretty u) (stackpos u) (VArr es)) 1
                (snd (endArray (put_elems es u1)))).
    { intros pro u1 Ho. cbn [body].
      apply (filled_container u pro 91 JSON_ARRAY u1
               (body_elems (isPretty u) (S (stackpos u)) 0 es)
               (Z.of_nat (count_elems es))); auto.
      - intros E1. destruct (opened_state _ _ _ _ Ho E1) as (Hs & Hp & Hsp & Htop).
        pose proof (IH u1 Hs E1) as H. rewrite Htop, Hp, Hsp in H.
        apply H; cbn [frame nodeType elementNo]; auto; lia.
      - intros E1. apply (proj1 (proj2 put_latched)). exact E1.
      - apply count_elems_pos. }
    split; [intros Ht|intros Ht key]; cbn [put_elem put_member].
    + apply Hfill. apply open_in_array; auto; lia.
    + apply Hfill. apply open_in_object; auto; lia.
  - (* an empty object *)
    intros w u Hu He Hd. cbn [depth] in Hd.
    split; [intros Ht|intros Ht key]; cbn [put_elem put_member body].
    + apply (empty_container u (pro_arr u) 123 JSON_OBJECT); auto.
      apply open_in_array; auto; lia.
    + apply (empty_container u (pro_obj u key) 123 JSON_OBJECT); auto.
      apply open_in_object; auto; lia.
  - (* an object *)
    intros ms IH u Hu He Hd. cbn [depth] in Hd.
    assert (Hfill : forall pro u1, opened u (pro ++ [123]) JSON_OBJECT u1 ->
              wrote u (pro ++ body (isPretty u) (stackpos u) (VObj ms)) 1
                (snd (endObject (put_members ms u1)))).
    { intros pro u1 Ho. cbn [body].
      apply (filled_container u pro 123 JSON_OBJECT u1
               (body_members (isPretty u) (S (stackpos u)) 0 ms)
               (Z.of_nat (count_members ms))); auto.
      - intros E1. destruct (opened_state _ _ _ _ Ho E1) as (Hs & Hp & Hsp & Htop).
        pose proof (IH u1 Hs E1) as H. rewrite Htop, Hp, Hsp in H.
        apply H; cbn [frame nodeType elementNo]; auto; lia.
      - intros E1. apply (proj2 (proj2 put_latched)). exact E1.
      - apply count_members_pos. }
    split; [intros Ht|intros Ht key]; cbn [put_elem put_member].
    + apply Hfill. apply open_in_array; auto; lia.
    + apply Hfill. apply open_in_object; auto; lia.
  - (* one element *)
    intros w1 v IH w2 u Hu He Ht H0 Hd. cbn [put_elems body_elems count_elems depth_elems] in *.
    apply (proj1 (IH u Hu He Hd) Ht).
  - (* an element and more *)
    intros w1 v IHv w2 r IHr u Hu He Ht H0 Hd.
    cbn [put_elems body_elems count_elems depth_elems] in *.
    replace (Z.of_nat (S (count_elems r))) with (1 + Z.of_nat (count_elems r)) by lia.
    apply (wrote_seq u _ 1 (put_elem v u)); auto.
    + apply (proj1 (IHv u Hu He ltac:(lia)) Ht).
    + intros E1.
      destruct (wrote_state _ _ _ _ (proj1 (IHv u Hu He ltac:(lia)) Ht) E1)
        as (Hs & Hp & Hsp & Htop).
      pose proof (IHr (put_elem v u) Hs E1) as H. rewrite Htop, Hp, Hsp in H.
      cbn [frame nodeType elementNo] in H. apply H; auto; lia.
    + intros E1. apply (proj1 (proj2 put_latched)). exact E1.
  - (* one member *)
    intros w1 key w2 w3 v IH w4 u Hu He Ht H0 Hd.
    cbn [put_members body_members count_members depth_members] in *.
    apply (proj2 (IH u Hu He Hd) Ht).
  - (* a member and more *)
    intros w1 key w2 w3 v IHv w4 r IHr u Hu He Ht H0 Hd.
    cbn [put_members body_members count_members depth_members] in *.
    replace (Z.of_nat (S (count_members r))) with (1 + Z.of_nat (count_members r)) by lia.
    apply (wrote_seq u _ 1 (put_member v key u)); auto.
    + apply (proj2 (IHv u Hu He ltac:(lia)) Ht).
    + intros E1.
      destruct (wrote_state _ _ _ _ (proj2 (IHv u Hu He ltac:(lia)) Ht key) E1)
        as (Hs & Hp & Hsp & Htop).
      pose proof (IHr (put_member v key u) Hs E1) as H. rewrite Htop, Hp, Hsp in H.
      cbn [frame nodeType elementNo] in H. apply H; auto; lia.
    + intros E1. apply (proj2 (proj2 put_latched)). exact E1.
Qed.

End Document.

(** * Whole documents *)

Module Documents.
Import Unparser UnparserFacts Json Cursor CursorFacts Writer Document.

(** The arrays of a handle have the sizes of the struct. *)
Definition arrays_ok (h : unparser_s) : Prop :=
  List.length (buffer h) = JSON_JSON_SIZE /\
  List.length (nodeStack h) = JSON_STACK_DEPTH.

(** A document with an array as root: [startUnparsingJSON], the
    elements, [endJSON]. *)
Definition write_array (h : unparser_s) (fmt : djson_format_e) (es : elems)
    : Z * unparser_s :=
  endJSON (put_elems es (snd (startUnparsingJSON h JSON_ARRAY fmt))).

(** The same with an object as root. *)
Definition write_object (h : unparser_s) (fmt : djson_format_e) (ms : members)
    : Z * unparser_s :=
  endJSON (put_members ms (snd (startUnparsingJSON h JSON_OBJECT fmt))).

(** The text of a document: the opening byte that [startUnparsingJSON]
    writes for the root kind, the elements or members, and the closing
    bracket of the root kind, on a line of its own in pretty mode. *)
Definition document_text (root : djson_type_e) (p : Z) (inner : list Z) : list Z :=
  (if type_eqb root JSON_STRING then 123 else 91) :: inner ++ ind p 0 ++ [closer root].

Definition array_text (p : Z) (es : elems) : list Z :=
  document_text JSON_ARRAY p (body_elems p 0 0 es).

Definition object_text (p : Z) (ms : members) : list Z :=
  document_text JSON_OBJECT p (body_members p 0 0 ms).

(** A small document: a number, a string and an object that holds an
    array. *)
Definition example_elems : elems :=
  ECons [] (VPrim (bytes "1")) []
    (ECons [] (VStr (bytes "a")) []
       (EOne []
          (VObj (MOne [] (bytes "k") [] []
                   (VArr (EOne [] (VPrim (bytes "true")) [])) []))
          [])).

Definition example_members : members :=
  MCons [] (bytes "x") [] [] (VPrim (bytes "5")) []
    (MOne [] (bytes "y") [] [] (VStr (bytes "z")) []).

Lemma fresh_arrays_ok : arrays_ok fresh.
Proof. split; apply repeat_length. Qed.

Lemma size_pos : (0 < JSON_JSON_SIZE)%nat.
Proof. apply Nat.ltb_lt. vm_compute. reflexivity. Qed.

Lemma depth_pos : (0 < JSON_STACK_DEPTH)%nat.
Proof. apply Nat.ltb_lt. vm_compute. reflexivity. Qed.

(** The handle after [startUnparsingJSON]. *)
Lemma start_state h root fmt :
  arrays_ok h ->
  fst (startUnparsingJSON h root fmt) = JSON_ERROR_OK /\
  sound (snd (startUnparsingJSON h root fmt)) /\
  error (snd (startUnparsingJSON h root fmt)) = JSON_ERROR_OK /\
  written (snd (startUnparsingJSON h root fmt)) =
    [if type_eqb root JSON_STRING then 123 else 91] /\
  bufp (snd (startUnparsingJSON h root fmt)) = 1%nat /\
  stackpos (snd (startUnparsingJSON h root fmt)) = O /\
  top (snd (startUnparsingJSON h root fmt)) = frame root 0 /\
  isPretty (snd (startUnparsingJSON h root fmt)) = format_code fmt /\
  callNo (snd (startUnparsingJSON h root fmt)) = 1 /\
  drop 1 (buffer (snd (startUnparsingJSON h root fmt))) = drop 1 (buffer h).
Proof.
  intros (Hb & Hn). pose proof size_pos as Hsz. pose proof depth_pos as Hd.
  unfold startUnparsingJSON. cbn [fst snd]. unfold jwPutch.
  cbn [bufp buffer tmpbuf error callNo nodeStack stackpos isPretty].
  replace (JSON_JSON_SIZE <=? 0)%nat with false by (symmetry; apply Nat.leb_gt; lia).
  unfold sound, written, top, frame_at.
  cbn [bufp buffer tmpbuf error callNo nodeStack stackpos isPretty].
  rewrite !length_insert.
  split; [reflexivity|]. split; [repeat apply conj; auto; lia|].
  repeat apply conj; auto.
  - destruct (buffer h) as [|b r]; [simpl in Hb; lia|]. reflexivity.
  - destruct (nodeStack h) as [|f r]; [simpl in Hn; lia|]. reflexivity.
  - destruct (buffer h) as [|b r]; reflexivity.
Qed.

(** [endJSON] on the root frame. *)
Lemma endJSON_root u :
  error u = JSON_ERROR_OK -> stackpos u = O ->
  snd (endJSON u) =
    putbytes u (ind (isPretty u) 0 ++ [closer (nodeType (top u))]) /\
  fst (endJSON u) = error (snd (endJSON u)).
Proof.
  intros He Hs. unfold endJSON. rewrite He, Hs. cbn [Z.eqb JSON_ERROR_OK Nat.eqb fst snd].
  split; [|reflexivity]. unfold top. rewrite Hs. unfold ind.
  destruct (isPretty u =? 0) eqn:Ep; [reflexivity|].
  reflexivity.
Qed.


(** What a whole document comes to, given what the calls between
    [startUnparsingJSON] and [endJSON] come to. *)
Lemma document_wrote h root fmt inner k (fill : unparser_s -> unparser_s) :
  arrays_ok h ->
  wrote (snd (startUnparsingJSON h root fmt)) inner k
    (fill (snd (startUnparsingJSON h root fmt))) ->
  fst (endJSON (fill (snd (startUnparsingJSON h root fmt)))) =
    error (snd (endJSON (fill (snd (startUnparsingJSON h root fmt))))) /\
  written (snd (endJSON (fill (snd (startUnparsingJSON h root fmt))))) =
    take JSON_JSON_SIZE (document_text root (format_code fmt) inner) /\
  drop (bufp (snd (endJSON (fill (snd (startUnparsingJSON h root fmt))))))
       (buffer (snd (endJSON (fill (snd (startUnparsingJSON h root fmt)))))) =
    drop (bufp (snd (endJSON (fill (snd (startUnparsingJSON h root fmt))))))
         (buffer h) /\
  if (JSON_JSON_SIZE <? List.length (document_text root (format_code fmt) inner))%nat
  then fst (endJSON (fill (snd (startUnparsingJSON h root fmt)))) = JSON_ERROR_BUF_FULL /\
       bufp (snd (endJSON (fill (snd (startUnparsingJSON h root fmt))))) = JSON_JSON_SIZE
  else fst (endJSON (fill (snd (startUnparsingJSON h root fmt)))) = JSON_ERROR_OK /\
       bufp (snd (endJSON (fill (snd (startUnparsingJSON h root fmt))))) =
         List.length (document_text root (format_code fmt) inner).
Proof.
  intros Hh W.
  destruct (start_state h root fmt Hh)
    as (_ & Hs0 & He0 & Hw0 & Hb0 & Hp0 & Ht0 & Hf0 & _ & Hd0).
  set (u0 := snd (startUnparsingJSON h root fmt)) in *.
  set (u1 := fill u0) in *.
  set (tail := ind (format_code fmt) 0 ++ [closer root]).
  assert (Hend : buf_after u0 (inner ++ tail) (snd (endJSON u1)) /\
                 fst (endJSON u1) = error (snd (endJSON u1))).
  { destruct (Z.eq_dec (error u1) JSON_ERROR_OK) as [E1|E1].
    - destruct (wrote_state _ _ _ _ W E1) as (Hs1 & Hp1 & Hsp1 & Htop1).
      rewrite Hp0 in Hsp1. rewrite Ht0 in Htop1. cbn [frame nodeType] in Htop1.
      destruct (endJSON_root u1 E1 Hsp1) as (E & Er). split; [|exact Er].
      rewrite E, Htop1, Hp1, Hf0. cbn [nodeType frame]. fold tail.
      apply (buf_after_seq u0 inner u1 tail _ Hs0 (proj1 W)).
      + intros _. apply putbytes_after; auto.
      + intros H. contradiction.
    - destruct (end_latched u1 E1) as (_ & _ & E). rewrite E. cbn [fst snd].
      split; [|reflexivity].
      apply (buf_after_seq u0 inner u1 tail u1 Hs0 (proj1 W)).
      + intros H. contradiction.
      + reflexivity. }
  destruct Hend as ((B1 & B2 & B3 & B4 & B5) & Er).
  assert (Hlen : List.length (document_text root (format_code fmt) inner) =
                 (bufp u0 + List.length (inner ++ tail))%nat).
  { unfold document_text. cbn [List.length]. rewrite Hb0. fold tail. lia. }
  rewrite Hlen. split; [exact Er|]. split; [|split].
  - rewrite B2, Hw0. reflexivity.
  - rewrite B3. apply (drop_ge_eq 1); [|exact Hd0].
    destruct (JSON_JSON_SIZE <? bufp u0 + List.length (inner ++ tail))%nat;
      destruct B5 as (_ & ->); [apply size_pos|lia].
  - rewrite Er. exact B5.
Qed.

(** The buffer and the result of [write_array]. *)
Lemma write_array_state h fmt es :
  arrays_ok h -> (depth_elems es < JSON_STACK_DEPTH)%nat ->
  fst (write_array h fmt es) = error (snd (write_array h fmt es)) /\
  written (snd (write_array h fmt es)) =
    take JSON_JSON_SIZE (array_text (format_code fmt) es) /\
  drop (bufp (snd (write_array h fmt es))) (buffer (snd (write_array h fmt es))) =
    drop (bufp (snd (write_array h fmt es))) (buffer h) /\
  if (JSON_JSON_SIZE <? List.length (array_text (format_code fmt) es))%nat
  then fst (write_array h fmt es) = JSON_ERROR_BUF_FULL /\
       bufp (snd (write_array h fmt es)) = JSON_JSON_SIZE
  else fst (write_array h fmt es) = JSON_ERROR_OK /\
       bufp (snd (write_array h fmt es)) =
         List.length (array_text (format_code fmt) es).
Proof.
  intros Hh Hd. unfold write_array, array_text.
  apply (document_wrote h JSON_ARRAY fmt _ (Z.of_nat (count_elems es)) (put_elems es) Hh).
  destruct (start_state h JSON_ARRAY fmt Hh)
    as (_ & Hs0 & He0 & Hw0 & Hb0 & Hp0 & Ht0 & Hf0 & _ & Hd0).
  pose proof (proj1 (proj2 put_wrote) es _ Hs0 He0) as H.
  rewrite Ht0, Hp0, Hf0 in H. cbn [frame nodeType elementNo] in H.
  apply H; auto; lia.
Qed.

(** A document whose root is an array, in either mode.  On a handle
    whose arrays have their sizes and for elements nested less deep than
    the stack, the calls write the text of the document, as far as the
    buffer has room: [endJSON] returns OK when the text fits and the
    buffer-full error when it does not; the bytes of the buffer behind the
    text are left as they were, no NUL is written. *)
Theorem array_document h fmt es :
  arrays_ok h -> (depth_elems es < JSON_STACK_DEPTH)%nat ->
  fst (write_array h fmt es) = error (snd (write_array h fmt es)) /\
  written (snd (write_array h fmt es)) =
    take JSON_JSON_SIZE (array_text (format_code fmt) es) /\
  drop (bufp (snd (write_array h fmt es))) (buffer (snd (write_array h fmt es))) =
    drop (bufp (snd (write_array h fmt es))) (buffer h) /\
  if (JSON_JSON_SIZE <? List.length (array_text (format_code fmt) es))%nat
  then fst (write_array h fmt es) = JSON_ERROR_BUF_FULL /\
       bufp (snd (write_array h fmt es)) = JSON_JSON_SIZE
  else fst (write_array h fmt es) = JSON_ERROR_OK /\
       bufp (snd (write_array h fmt es)) =
         List.length (array_text (format_code fmt) es).
Proof. apply write_array_state. Qed.

Lemma array_document_witness :
  fst (write_array fresh JSON_PRETTY example_elems) =
    error (snd (write_array fresh JSON_PRETTY example_elems)) /\
  written (snd (write_array fresh JSON_PRETTY example_elems)) =
    take JSON_JSON_SIZE (array_text (format_code JSON_PRETTY) example_elems) /\
  drop (bufp (snd (write_array fresh JSON_PRETTY example_elems)))
       (buffer (snd (write_array fresh JSON_PRETTY example_elems))) =
    drop (bufp (snd (write_array fresh JSON_PRETTY example_elems))) (buffer fresh) /\
  if (JSON_JSON_SIZE <?
      List.length (array_text (format_code JSON_PRETTY) example_elems))%nat
  then fst (write_array fresh JSON_PRETTY example_elems) = JSON_ERROR_BUF_FULL /\
       bufp (snd (write_array fresh JSON_PRETTY example_elems)) = JSON_JSON_SIZE
  else fst (write_array fresh JSON_PRETTY example_elems) = JSON_ERROR_OK /\
       bufp (snd (write_array fresh JSON_PRETTY example_elems)) =
         List.length (array_text (format_code JSON_PRETTY) example_elems).
Proof.
  apply (array_document fresh JSON_PRETTY example_elems).
  - exact fresh_arrays_ok.
  - apply Nat.ltb_lt. vm_compute. reflexivity.
Defined.

(** A document whose root is an object.  The members and the closing
    brace are written as for any object, but the first byte of the text
    is the opening bracket of an array. *)
Theorem object_document h fmt ms :
  arrays_ok h -> (depth_members ms < JSON_STACK_DEPTH)%nat ->
  fst (write_object h fmt ms) = error (snd (write_object h fmt ms)) /\
  written (snd (write_object h fmt ms)) =
    take JSON_JSON_SIZE
      (91 :: body_members (format_code fmt) 0 0 ms ++ ind (format_code fmt) 0 ++ [125]) /\
  drop (bufp (snd (write_object h fmt ms))) (buffer (snd (write_object h fmt ms))) =
    drop (bufp (snd (write_object h fmt ms))) (buffer h) /\
  if (JSON_JSON_SIZE <? List.length (object_text (format_code fmt) ms))%nat
  then fst (write_object h fmt ms) = JSON_ERROR_BUF_FULL /\
       bufp (snd (write_object h fmt ms)) = JSON_JSON_SIZE
  else fst (write_object h fmt ms) = JSON_ERROR_OK /\
       bufp (snd (write_object h fmt ms)) =
         List.length (object_text (format_code fmt) ms).
Proof.
  intros Hh Hd. unfold write_object, object_text.
  apply (document_wrote h JSON_OBJECT fmt _ (Z.of_nat (count_members ms))
           (put_members ms) Hh).
  destruct (start_state h JSON_OBJECT fmt Hh)
    as (_ & Hs0 & He0 & Hw0 & Hb0 & Hp0 & Ht0 & Hf0 & _ & Hd0).
  pose proof (proj2 (proj2 put_wrote) ms _ Hs0 He0) as H.
  rewrite Ht0, Hp0, Hf0 in H. cbn [frame nodeType elementNo] in H.
  apply H; auto; lia.
Qed.

Lemma object_document_witness :
  fst (write_object fresh JSON_COMPACT example_members) =
    error (snd (write_object fresh JSON_COMPACT example_members)) /\
  written (snd (write_object fresh JSON_COMPACT example_members)) =
    take JSON_JSON_SIZE
      (91 :: body_members (format_code JSON_COMPACT) 0 0 example_members ++
       ind (format_code JSON_COMPACT) 0 ++ [125]) /\
  drop (bufp (snd (write_object fresh JSON_COMPACT example_members)))
       (buffer (snd (write_object fresh JSON_COMPACT example_members))) =
    drop (bufp (snd (write_object fresh JSON_COMPACT example_members))) (buffer fresh) /\
  if (JSON_JSON_SIZE <?
      List.length (object_text (format_code JSON_COMPACT) example_members))%nat
  then fst (write_object fresh JSON_COMPACT example_members) = JSON_ERROR_BUF_FULL /\
       bufp (snd (write_object fresh JSON_COMPACT example_members)) = JSON_JSON_SIZE
  else fst (write_object fresh JSON_COMPACT example_members) = JSON_ERROR_OK /\
       bufp (snd (write_object fresh JSON_COMPACT example_members)) =
         List.length (object_text (format_code JSON_COMPACT) example_members).
Proof.
  apply (object_document fresh JSON_COMPACT example_members).
  - exact fresh_arrays_ok.
  - apply Nat.ltb_lt. vm_compute. reflexivity.
Defined.


(** *** The text of a document holds no NUL *)

Lemma ind_nonzero p n : Forall (fun c => c <> 0) (ind p n).
Proof.
  unfold ind. destruct (p =? 0); [constructor|].
  constructor; [discriminate|]. apply List.Forall_forall. intros c Hc.
  apply repeat_spec in Hc. subst c. discriminate.
Qed.

Lemma sep_nonzero e : Forall (fun c => c <> 0) (sep e).
Proof. unfold sep. destruct (0 <? e); repeat constructor. discriminate. Qed.

Lemma key_text_nonzero p key : Forall (fun c => c <> 0) (key_text p key).
Proof.
  unfold key_text, colon_ws. apply Forall_app. split.
  - constructor; [discriminate|]. apply Forall_app. split.
    + apply strlen_take_nonzero.
    + repeat constructor. discriminate.
  - constructor; [discriminate|]. destruct (p =? 0); repeat constructor. discriminate.
Qed.

Lemma body_nonzero :
  (forall v p L, Forall (fun c => c <> 0) (body p L v)) /\
  (forall es p L e, Forall (fun c => c <> 0) (body_elems p L e es)) /\
  (forall ms p L e, Forall (fun c => c <> 0) (body_members p L e ms)).
Proof.
  apply json_mutind; intros; cbn [body body_elems body_members];
    repeat first
      [ apply strlen_take_nonzero | apply ind_nonzero | apply sep_nonzero
      | apply key_text_nonzero
      | match goal with H : forall p L, Forall _ (body p L ?v) |- Forall _ (body _ _ ?v) =>
          apply H end
      | match goal with H : forall p L e, Forall _ (body_elems p L e ?v)
                        |- Forall _ (body_elems _ _ _ ?v) => apply H end
      | match goal with H : forall p L e, Forall _ (body_members p L e ?v)
                        |- Forall _ (body_members _ _ _ ?v) => apply H end
      | apply Forall_nil_2
      | apply Forall_app; split
      | apply Forall_cons; split; [discriminate|] ].
Qed.

Lemma document_text_nonzero root p inner :
  Forall (fun c => c <> 0) inner -> Forall (fun c => c <> 0) (document_text root p inner).
Proof.
  intros H. unfold document_text, closer.
  apply Forall_cons. split; [destruct (type_eqb root JSON_STRING); discriminate|].
  apply Forall_app. split; [exact H|]. apply Forall_app. split; [apply ind_nonzero|].
  apply Forall_cons. split; [destruct (type_eqb root JSON_OBJECT); discriminate|].
  constructor.
Qed.

Lemma c_str_app_nonzero a b :
  Forall (fun c => c <> 0) a -> c_str (a ++ b) = a ++ c_str b.
Proof.
  intros H. unfold c_str. rewrite strlen_app_nonzero by exact H.
  rewrite take_app_add. reflexivity.
Qed.

(** The buffer and the C string at it after [write_array]. *)
Lemma getJSON_c_str h fmt es :
  arrays_ok h -> (depth_elems es < JSON_STACK_DEPTH)%nat ->
  (List.length (array_text (format_code fmt) es) < JSON_JSON_SIZE)%nat ->
  buffer (snd (write_array h fmt es)) =
    array_text (format_code fmt) es ++
    drop (List.length (array_text (format_code fmt) es)) (buffer h) /\
  c_str (getJSON (snd (write_array h fmt es))) =
    array_text (format_code fmt) es ++
    c_str (drop (List.length (array_text (format_code fmt) es)) (buffer h)) /\
  (buffer h !! List.length (array_text (format_code fmt) es) = Some 0 ->
   c_str (getJSON (snd (write_array h fmt es))) = array_text (format_code fmt) es).
Proof.
  intros Hh Hd Hlen.
  destruct (write_array_state h fmt es Hh Hd) as (_ & Hw & Hdr & Hb).
  replace (JSON_JSON_SIZE <? List.length (array_text (format_code fmt) es))%nat
    with false in Hb by (symmetry; apply Nat.ltb_ge; lia).
  destruct Hb as (_ & Hb).
  set (u := snd (write_array h fmt es)) in *.
  set (text := array_text (format_code fmt) es) in *.
  assert (Hn : Forall (fun c => c <> 0) text).
  { apply document_text_nonzero. apply body_nonzero. }
  assert (Hbuf : buffer u = text ++ drop (List.length text) (buffer h)).
  { rewrite <- (take_drop (bufp u) (buffer u)). rewrite Hdr, Hb. f_equal.
    unfold written in Hw. rewrite Hb in Hw. rewrite Hw. apply take_ge. lia. }
  split; [exact Hbuf|].
  unfold getJSON. rewrite Hbuf.
  rewrite c_str_app_nonzero by exact Hn.
  split; [reflexivity|].
  intros H0. destruct (drop (List.length text) (buffer h)) as [|c r] eqn:E.
  - apply (f_equal (fun l => l !! O)) in E. rewrite lookup_drop, Nat.add_0_r, H0 in E.
    discriminate.
  - apply (f_equal (fun l => l !! O)) in E. rewrite lookup_drop, Nat.add_0_r, H0 in E.
    injection E as <-. unfold c_str. cbn [strlen Z.eqb take]. apply app_nil_r.
Qed.

(** A C string with a NUL among its bytes ends before the end of the
    array. *)
Lemma strlen_lt_nul s i : s !! i = Some 0 -> (strlen s <= i)%nat.
Proof.
  revert i. induction s as [|c r IH]; intros i H; [discriminate|].
  cbn [strlen]. destruct (c =? 0) eqn:E; [lia|].
  destruct i as [|i]; [simpl in H; injection H as ->; discriminate|].
  simpl in H. specialize (IH i H). lia.
Qed.

(** What [getJSON] and [getJSONSize] give after a document that leaves
    room in the buffer, on a handle whose buffer held a NUL at or behind
    the offset where the text ends, so that the C string ends inside the
    array.  No call stores a NUL behind the text: the C string at the
    buffer is the text of the document followed by the bytes that the
    buffer held behind it before the document was started, up to the
    first NUL among them, and [getJSONSize] is the length of both, less
    than the size of the buffer.  They are the text and its length when
    the buffer held a NUL at the offset where the text ends, as on a
    handle used for the first time in zeroed storage. *)
Theorem getJSON_after_document h fmt es i :
  arrays_ok h -> (depth_elems es < JSON_STACK_DEPTH)%nat ->
  (List.length (array_text (format_code fmt) es) < JSON_JSON_SIZE)%nat ->
  (List.length (array_text (format_code fmt) es) <= i)%nat ->
  buffer h !! i = Some 0 ->
  c_str (getJSON (snd (write_array h fmt es))) =
    array_text (format_code fmt) es ++
    c_str (drop (List.length (array_text (format_code fmt) es)) (buffer h)) /\
  getJSONSize (snd (write_array h fmt es)) =
    Some (List.length (array_text (format_code fmt) es) +
          strlen (drop (List.length (array_text (format_code fmt) es)) (buffer h)))%nat /\
  (List.length (array_text (format_code fmt) es) +
   strlen (drop (List.length (array_text (format_code fmt) es)) (buffer h)) <= i)%nat /\
  (i < JSON_JSON_SIZE)%nat /\
  (buffer h !! List.length (array_text (format_code fmt) es) = Some 0 ->
   c_str (getJSON (snd (write_array h fmt es))) = array_text (format_code fmt) es /\
   getJSONSize (snd (write_array h fmt es)) =
     Some (List.length (array_text (format_code fmt) es))).
Proof.
  intros Hh Hd Hlen Hi H0.
  destruct (getJSON_c_str h fmt es Hh Hd Hlen) as (Hbuf & Hc & Hc0).
  set (u := snd (write_array h fmt es)) in *.
  set (text := array_text (format_code fmt) es) in *.
  assert (Hn : Forall (fun c => c <> 0) text).
  { apply document_text_nonzero. apply body_nonzero. }
  assert (Hi2 : (i < JSON_JSON_SIZE)%nat).
  { destruct Hh as (Hl & _). rewrite <- Hl. apply (lookup_lt_Some _ _ _ H0). }
  assert (Hlu : List.length (buffer u) = JSON_JSON_SIZE).
  { rewrite Hbuf, length_app, length_drop. destruct Hh as (-> & _). lia. }
  assert (Hd0 : drop (List.length text) (buffer h) !! (i - List.length text)%nat = Some 0).
  { rewrite lookup_drop. replace (List.length text + (i - List.length text))%nat with i by lia.
    exact H0. }
  pose proof (strlen_lt_nul _ _ Hd0) as Hs.
  assert (Hsz : strlen (buffer u) =
                (List.length text + strlen (drop (List.length text) (buffer h)))%nat).
  { rewrite Hbuf. apply strlen_app_nonzero. exact Hn. }
  assert (Hsize : getJSONSize u =
                  Some (List.length text + strlen (drop (List.length text) (buffer h)))%nat).
  { unfold getJSONSize. rewrite Hlu, Hsz.
    replace (List.length text + strlen (drop (List.length text) (buffer h)) <?
             JSON_JSON_SIZE)%nat with true by (symmetry; apply Nat.ltb_lt; lia).
    reflexivity. }
  split; [exact Hc|]. split; [exact Hsize|]. split; [lia|]. split; [exact Hi2|].
  intros Hz. split; [exact (Hc0 Hz)|]. rewrite Hsize. f_equal.
  assert (Hz0 : drop (List.length text) (buffer h) !! O = Some 0).
  { rewrite lookup_drop, Nat.add_0_r. exact Hz. }
  pose proof (strlen_lt_nul _ _ Hz0). lia.
Qed.

Lemma getJSON_after_document_witness :
  c_str (getJSON (snd (write_array fresh JSON_COMPACT example_elems))) =
    array_text (format_code JSON_COMPACT) example_elems ++
    c_str (drop (List.length (array_text (format_code JSON_COMPACT) example_elems))
             (buffer fresh)) /\
  getJSONSize (snd (write_array fresh JSON_COMPACT example_elems)) =
    Some (List.length (array_text (format_code JSON_COMPACT) example_elems) +
          strlen (drop (List.length (array_text (format_code JSON_COMPACT) example_elems))
                    (buffer fresh)))%nat /\
  (List.length (array_text (format_code JSON_COMPACT) example_elems) +
   strlen (drop (List.length (array_text (format_code JSON_COMPACT) example_elems))
             (buffer fresh)) <= 100)%nat /\
  (100 < JSON_JSON_SIZE)%nat /\
  (buffer fresh !! List.length (array_text (format_code JSON_COMPACT) example_elems) =
     Some 0 ->
   c_str (getJSON (snd (write_array fresh JSON_COMPACT example_elems))) =
     array_text (format_code JSON_COMPACT) example_elems /\
   getJSONSize (snd (write_array fresh JSON_COMPACT example_elems)) =
     Some (List.length (array_text (format_code JSON_COMPACT) example_elems))).
Proof.
  apply (getJSON_after_document fresh JSON_COMPACT example_elems 100).
  - exact fresh_arrays_ok.
  - apply Nat.ltb_lt. vm_compute. reflexivity.
  - apply Nat.ltb_lt. vm_compute. reflexivity.
  - apply Nat.leb_le. vm_compute. reflexivity.
  - vm_compute. reflexivity.
Defined.

End Documents.

(** * The scan reads a C string *)

Module CStringScan.
Import Tokenizer TokenizerFacts TokenizerScenarios Cursor CursorFacts.

(** Two texts with the same bytes at the offsets below [n]. *)
Definition agree (n : nat) (a b : list Z) : Prop :=
  forall i, (i < n)%nat -> char_at a i = char_at b i.

Lemma agree_le n m a b : (m <= n)%nat -> agree n a b -> agree m a b.
Proof. intros Hle H i Hi. apply H. lia. Qed.

Lemma guard_agree len a b pos :
  agree len a b ->
  (pos <? len)%nat && negb (char_at a pos =? 0) =
  (pos <? len)%nat && negb (char_at b pos =? 0).
Proof.
  intros H. destruct (pos <? len)%nat eqn:E; [|reflexivity].
  apply Nat.ltb_lt in E. rewrite (H pos E). reflexivity.
Qed.

Lemma prim_scan_agree left : forall a b pos,
  agree (pos + left) a b -> prim_scan left a pos = prim_scan left b pos.
Proof.
  induction left as [|left IH]; intros a b pos H; cbn [prim_scan]; [reflexivity|].
  rewrite (H pos ltac:(lia)).
  destruct (char_at b pos =? 0); [reflexivity|].
  destruct (is_prim_end (char_at b pos)); [reflexivity|].
  destruct ((char_at b pos <? 32) || (127 <=? char_at b pos)); [reflexivity|].
  apply IH. intros i Hi. apply H. lia.
Qed.

Lemma hex_loop_agree i : forall a b len pos,
  agree len a b -> hex_loop i a len pos = hex_loop i b len pos.
Proof.
  induction i as [|i IH]; intros a b len pos H; cbn [hex_loop]; [reflexivity|].
  rewrite (guard_agree len a b pos H).
  destruct (pos <? len)%nat eqn:E; [|reflexivity]. apply Nat.ltb_lt in E.
  rewrite (H pos E). cbn [andb].
  destruct (negb (char_at b pos =? 0)); [|reflexivity].
  destruct (is_hex (char_at b pos)); [|reflexivity]. apply IH. exact H.
Qed.

Lemma string_escape_agree a b len pos :
  agree len a b -> (pos < len)%nat ->
  string_escape a len pos = string_escape b len pos.
Proof.
  intros H Hlt. unfold string_escape. rewrite (H pos Hlt).
  destruct (char_at b pos =? 92); [|reflexivity]. cbn [andb].
  destruct (pos + 1 <? len)%nat eqn:E; [|reflexivity]. apply Nat.ltb_lt in E.
  rewrite (H (pos + 1)%nat E).
  destruct (is_simple_escape (char_at b (pos + 1))); [reflexivity|].
  destruct (char_at b (pos + 1) =? 117); [|reflexivity].
  rewrite (hex_loop_agree 4 a b len (pos + 2) H). reflexivity.
Qed.

Lemma string_loop_agree fuel : forall a b len start p tokens num pos,
  agree len a b ->
  string_loop fuel a len start p tokens num pos =
  string_loop fuel b len start p tokens num pos.
Proof.
  induction fuel as [|fuel IH]; intros a b len start p tokens num pos H;
    cbn [string_loop]; rewrite (guard_agree len a b pos H);
    (destruct (pos <? len)%nat eqn:E; [|reflexivity]); apply Nat.ltb_lt in E;
    rewrite (H pos E); cbn [andb];
    (destruct (negb (char_at b pos =? 0)); [|reflexivity]);
    (destruct (char_at b pos =? 34); [reflexivity|]);
    rewrite (string_escape_agree a b len pos H E);
    (destruct (string_escape b len pos); [|reflexivity]).
  - reflexivity.
  - apply IH. exact H.
Qed.

Lemma parse_step_agree a b len num p tokens k :
  agree len a b -> (pos p < len)%nat ->
  parse_step a len num p tokens k = parse_step b len num p tokens k.
Proof.
  intros H Hlt. unfold parse_step, jsmne_parse_string, jsmne_parse_primitive.
  rewrite (H (pos p) Hlt).
  rewrite (string_loop_agree len a b len (pos p) p tokens num (pos p + 1) H).
  rewrite (prim_scan_agree (len - pos p) a b (pos p)
             ltac:(apply (agree_le len); [lia|exact H])).
  reflexivity.
Qed.

Lemma parse_loop_agree fuel : forall a b len num p tokens k,
  agree len a b ->
  parse_loop fuel a len num p tokens k = parse_loop fuel b len num p tokens k.
Proof.
  induction fuel as [|fuel IH]; intros a b len num p tokens k H; cbn [parse_loop];
    rewrite (guard_agree len a b (pos p) H);
    (destruct (pos p <? len)%nat eqn:E; [|reflexivity]); apply Nat.ltb_lt in E.
  - reflexivity.
  - rewrite (parse_step_agree a b len num p tokens k H E).
    destruct (negb (char_at b (pos p) =? 0)); [|reflexivity]. cbn [andb].
    destruct (parse_step b len num p tokens k); [|reflexivity]. apply IH. exact H.
Qed.

Lemma strlen_c_str js : strlen js = List.length (c_str js).
Proof. unfold c_str. rewrite length_take. pose proof (strlen_le js). lia. Qed.

Lemma agree_c_str js : agree (strlen js) js (c_str js).
Proof.
  intros i Hi. unfold char_at, c_str. rewrite !nth_lookup.
  rewrite lookup_take_lt by exact Hi. reflexivity.
Qed.

Lemma parse_c_str p js tokens num :
  jsmne_parse p js (strlen js) tokens num =
  jsmne_parse p (c_str js) (strlen js) tokens num.
Proof. unfold jsmne_parse. apply parse_loop_agree. apply agree_c_str. Qed.

(** The scan reads its text as a C string: it depends on the bytes
    before the first NUL only and reads no byte behind it.  Two texts
    with the same bytes before their first NUL are scanned alike, and
    [startParsingJSON] returns the same code and leaves the same length
    and the same table for both. *)
Theorem scan_reads_c_string parser js js' :
  c_str js = c_str js' ->
  jsmne_parse jsmne_init js (strlen js) (tokens parser) JSON_TOKEN_SIZE =
  jsmne_parse jsmne_init js' (strlen js') (tokens parser) JSON_TOKEN_SIZE /\
  start_code parser js = start_code parser js' /\
  start_length parser js = start_length parser js' /\
  option_map (fun rh => tokens (snd rh)) (startParsingJSON parser js) =
  option_map (fun rh => tokens (snd rh)) (startParsingJSON parser js').
Proof.
  intros H.
  assert (E : jsmne_parse jsmne_init js (strlen js) (tokens parser) JSON_TOKEN_SIZE =
              jsmne_parse jsmne_init js' (strlen js') (tokens parser) JSON_TOKEN_SIZE).
  { rewrite (parse_c_str _ js), (parse_c_str _ js'), !strlen_c_str, H. reflexivity. }
  split; [exact E|].
  unfold start_code, start_length, startParsingJSON. rewrite E.
  destruct (jsmne_parse jsmne_init js' (strlen js') (tokens parser) JSON_TOKEN_SIZE)
    as [r p1 t1| |]; auto.
  destruct (r =? JSON_ERROR_NOMEM); auto.
Qed.

Lemma scan_reads_c_string_witness :
  jsmne_parse jsmne_init (scenario1 ++ 0 :: bytes "junk") (strlen (scenario1 ++ 0 :: bytes "junk"))
    (tokens fresh) JSON_TOKEN_SIZE =
  jsmne_parse jsmne_init scenario1 (strlen scenario1) (tokens fresh) JSON_TOKEN_SIZE /\
  start_code fresh (scenario1 ++ 0 :: bytes "junk") = start_code fresh scenario1 /\
  start_length fresh (scenario1 ++ 0 :: bytes "junk") = start_length fresh scenario1 /\
  option_map (fun rh => tokens (snd rh))
    (startParsingJSON fresh (scenario1 ++ 0 :: bytes "junk")) =
  option_map (fun rh => tokens (snd rh)) (startParsingJSON fresh scenario1).
Proof.
  apply (scan_reads_c_string fresh (scenario1 ++ 0 :: bytes "junk") scenario1).
  vm_compute. reflexivity.
Defined.

End CStringScan.

(** * From the serializer to the tokenizer *)

Module RoundTrip.
Import Unparser Json Cursor CursorFacts Writer Document Documents.

(** The white space the writer puts around the parts of a value written
    at stack position [L], and around the elements and members of a
    frame at stack position [L]: a line and its indentation before each
    element and member and before the closing bracket, a blank behind
    each colon, in pretty mode; none in compact mode. *)
Fixpoint layout (p : Z) (L : nat) (v : value) : value :=
  match v with
  | VPrim s => VPrim s
  | VStr s => VStr s
  | VArr0 _ => VArr0 []
  | VArr es => VArr (layout_elems p (S L) es)
  | VObj0 _ => VObj0 []
  | VObj ms => VObj (layout_members p (S L) ms)
  end
with layout_elems (p : Z) (L : nat) (es : elems) : elems :=
  match es with
  | EOne _ v _ => EOne (ind p (S L)) (layout p L v) (ind p L)
  | ECons _ v _ r => ECons (ind p (S L)) (layout p L v) [] (layout_elems p L r)
  end
with layout_members (p : Z) (L : nat) (ms : members) : members :=
  match ms with
  | MOne _ key _ _ v _ =>
      MOne (ind p (S L)) key [] (colon_ws p) (layout p L v) (ind p L)
  | MCons _ key _ _ v _ r =>
      MCons (ind p (S L)) key [] (colon_ws p) (layout p L v) [] (layout_members p L r)
  end.

(** The strings, keys and raw texts of a document hold no NUL. *)
Fixpoint plain (v : value) : Prop :=
  match v with
  | VPrim s | VStr s => Forall (fun c => c <> 0) s
  | VArr0 _ | VObj0 _ => True
  | VArr es => plain_elems es
  | VObj ms => plain_members ms
  end
with plain_elems (es : elems) : Prop :=
  match es with
  | EOne _ v _ => plain v
  | ECons _ v _ r => plain v /\ plain_elems r
  end
with plain_members (ms : members) : Prop :=
  match ms with
  | MOne _ key _ _ v _ => Forall (fun c => c <> 0) key /\ plain v
  | MCons _ key _ _ v _ r => Forall (fun c => c <> 0) key /\ plain v /\ plain_members r
  end.

Lemma c_str_plain s : Forall (fun c => c <> 0) s -> c_str s = s.
Proof.
  intros H. unfold c_str. rewrite TokenizerFacts.strlen_no_nul by exact H.
  apply firstn_all.
Qed.

Lemma sep_pos e : 0 < e -> sep e = [44].
Proof. intros H. unfold sep. apply Z.ltb_lt in H. rewrite H. reflexivity. Qed.

Lemma body_elems_pos es p L : forall e e',
  0 < e -> 0 < e' -> body_elems p L e es = body_elems p L e' es.
Proof.
  induction es as [w1 v w2|w1 v w2 r IH]; intros e e' He He'; cbn [body_elems];
    rewrite (sep_pos e He), (sep_pos e' He'); [reflexivity|].
  rewrite (IH (e + 1) (e' + 1)) by lia. reflexivity.
Qed.

Lemma body_members_pos ms p L : forall e e',
  0 < e -> 0 < e' -> body_members p L e ms = body_members p L e' ms.
Proof.
  induction ms as [w1 k w2 w3 v w4|w1 k w2 w3 v w4 r IH]; intros e e' He He';
    cbn [body_members]; rewrite (sep_pos e He), (sep_pos e' He'); [reflexivity|].
  rewrite (IH (e + 1) (e' + 1)) by lia. reflexivity.
Qed.

Lemma body_elems_sep es p L : body_elems p L 1 es = 44 :: body_elems p L 0 es.
Proof.
  destruct es as [w1 v w2|w1 v w2 r]; cbn [body_elems sep Z.ltb Z.compare app];
    [reflexivity|].
  rewrite (body_elems_pos r p L (1 + 1) (0 + 1)) by lia. reflexivity.
Qed.

Lemma body_members_sep ms p L : body_members p L 1 ms = 44 :: body_members p L 0 ms.
Proof.
  destruct ms as [w1 k w2 w3 v w4|w1 k w2 w3 v w4 r];
    cbn [body_members sep Z.ltb Z.compare app]; [reflexivity|].
  rewrite (body_members_pos r p L (1 + 1) (0 + 1)) by lia. reflexivity.
Qed.

(** The text the calls write is the text of the value laid out. *)
Lemma render_layout :
  (forall v, plain v -> forall p L, render (layout p L v) = body p L v) /\
  (forall es, plain_elems es -> forall p L,
     render_elems (layout_elems p L es) = body_elems p L 0 es ++ ind p L) /\
  (forall ms, plain_members ms -> forall p L,
     render_members (layout_members p L ms) = body_members p L 0 ms ++ ind p L).
Proof.
  apply json_mutind.
  - intros s Hp p L. cbn. rewrite c_str_plain by exact Hp. reflexivity.
  - intros s Hp p L. cbn. rewrite c_str_plain by exact Hp. reflexivity.
  - reflexivity.
  - intros es IH Hp p L. cbn [layout render body]. rewrite (IH Hp).
    rewrite <- app_assoc. reflexivity.
  - reflexivity.
  - intros ms IH Hp p L. cbn [layout render body]. rewrite (IH Hp).
    rewrite <- app_assoc. reflexivity.
  - intros w1 v IH w2 Hp p L. cbn [layout_elems render_elems body_elems sep Z.ltb Z.compare].
    rewrite (IH Hp). rewrite <- !app_assoc. reflexivity.
  - intros w1 v IHv w2 r IHr [Hv Hr] p L.
    cbn [layout_elems render_elems body_elems sep Z.ltb Z.compare].
    rewrite (IHv Hv), (IHr Hr). change (0 + 1) with 1. rewrite (body_elems_sep r p L).
    rewrite <- !app_assoc. reflexivity.
  - intros w1 key w2 w3 v IH w4 [Hk Hp] p L.
    cbn [layout_members render_members body_members sep Z.ltb Z.compare].
    rewrite (IH Hp). unfold key_text. rewrite c_str_plain by exact Hk.
    rewrite <- !app_assoc. cbn [app]. rewrite <- !app_assoc. reflexivity.
  - intros w1 key w2 w3 v IHv w4 r IHr (Hk & Hv & Hr) p L.
    cbn [layout_members render_members body_members sep Z.ltb Z.compare].
    rewrite (IHv Hv), (IHr Hr). change (0 + 1) with 1. rewrite (body_members_sep r p L).
    unfold key_text. rewrite c_str_plain by exact Hk.
    rewrite <- !app_assoc. cbn [app]. rewrite <- !app_assoc. reflexivity.
Qed.

Lemma ws_ind p n : ws (ind p n).
Proof.
  unfold ws, ind. destruct (p =? 0); [reflexivity|]. cbn [forallb].
  apply andb_true_iff. split; [reflexivity|].
  induction (4 * n)%nat as [|m IH]; [reflexivity|]. cbn [repeat forallb]. exact IH.
Qed.

Lemma ws_colon p : ws (colon_ws p).
Proof. unfold ws, colon_ws. destruct (p =? 0); reflexivity. Qed.

Lemma wf_layout :
  (forall v, wf v -> forall p L, wf (layout p L v)) /\
  (forall es, wf_elems es -> forall p L, wf_elems (layout_elems p L es)) /\
  (forall ms, wf_members ms -> forall p L, wf_members (layout_members p L ms)).
Proof.
  apply json_mutind; cbn [wf wf_elems wf_members layout layout_elems layout_members];
    intros; repeat match goal with H : _ /\ _ |- _ => destruct H end;
    repeat apply conj; auto using ws_ind, ws_colon; reflexivity.
Qed.

Lemma ntokens_layout :
  (forall v p L, ntokens (layout p L v) = ntokens v) /\
  (forall es p L, ntokens_elems (layout_elems p L es) = ntokens_elems es) /\
  (forall ms p L, ntokens_members (layout_members p L ms) = ntokens_members ms).
Proof.
  apply json_mutind;
    cbn [ntokens ntokens_elems ntokens_members layout layout_elems layout_members];
    intros; auto; congruence.
Qed.


Lemma array_text_render p es :
  plain_elems es -> array_text p es = render (VArr (layout_elems p 0 es)).
Proof.
  intros Hp. unfold array_text, document_text. cbn [render type_eqb type_code Z.eqb closer].
  rewrite (proj1 (proj2 render_layout) es Hp). rewrite <- app_assoc. reflexivity.
Qed.

(** From the serializer to the tokenizer.  A document whose root is an
    array, with well-formed strings, keys and raw texts without NUL, is
    written in either mode on a handle whose buffer holds a NUL where the
    text ends; the text fits the buffer and needs no more tokens than the
    table has.  Then [endJSON] returns OK, the C string that [getJSON]
    returns is the JSON text of the document as the writer lays it out,
    and [startParsingJSON] on it returns OK with the cursor at 0, the
    number of tokens of the document as length, and exactly the tokens of
    the laid-out document in the table. *)
Theorem document_round_trip h fmt es parser :
  arrays_ok h -> wf_elems es -> plain_elems es ->
  (depth_elems es < JSON_STACK_DEPTH)%nat ->
  (List.length (array_text (format_code fmt) es) < JSON_JSON_SIZE)%nat ->
  buffer h !! List.length (array_text (format_code fmt) es) = Some 0 ->
  List.length (Tokenizer.tokens parser) = JSON_TOKEN_SIZE ->
  (S (ntokens_elems es) <= JSON_TOKEN_SIZE)%nat ->
  fst (write_array h fmt es) = JSON_ERROR_OK /\
  c_str (getJSON (snd (write_array h fmt es))) =
    render (VArr (layout_elems (format_code fmt) 0 es)) /\
  exists q,
    Tokenizer.startParsingJSON parser (getJSON (snd (write_array h fmt es))) =
      Some (JSON_ERROR_OK, q) /\
    Tokenizer.counter q = 0 /\
    Tokenizer.length q = Z.of_nat (S (ntokens_elems es)) /\
    take (S (ntokens_elems es)) (Tokenizer.tokens q) =
      flatten (VArr (layout_elems (format_code fmt) 0 es)) 0 (-1) 0.
Proof.
  intros Hh Hwf Hpl Hd Hlen H0 Ht Hn.
  set (p := format_code fmt) in *.
  set (v := VArr (layout_elems p 0 es)).
  destruct (write_array_state h fmt es Hh Hd) as (_ & _ & _ & Hb).
  fold p in Hb.
  replace (JSON_JSON_SIZE <? List.length (array_text p es))%nat
    with false in Hb by (symmetry; apply Nat.ltb_ge; lia).
  destruct Hb as (Hok & _).
  destruct (getJSON_c_str h fmt es Hh Hd Hlen) as (_ & _ & Hc). fold p in Hc.
  pose proof (Hc H0) as Hc1. clear Hc.
  rewrite (array_text_render p es Hpl) in Hc1. fold v in Hc1.
  split; [exact Hok|]. split; [exact Hc1|].
  set (G := getJSON (snd (write_array h fmt es))) in *.
  assert (Hnz : Forall (fun c => c <> 0) (render v)).
  { unfold v. rewrite <- (array_text_render p es Hpl).
    apply document_text_nonzero. apply body_nonzero. }
  assert (Hnt : ntokens v = S (ntokens_elems es)).
  { unfold v. cbn [ntokens]. rewrite (proj1 (proj2 ntokens_layout)). reflexivity. }
  assert (Hparse :
    Tokenizer.jsmne_parse Tokenizer.jsmne_init G (strlen G) (Tokenizer.tokens parser)
      JSON_TOKEN_SIZE =
    Tokenizer.Ret (Z.of_nat (ntokens v))
      (Simulation.st (List.length (render v)) (ntokens v) (-1))
      (flatten v 0 (-1) 0 ++ drop (ntokens v) (Tokenizer.tokens parser))).
  { rewrite CStringScan.parse_c_str, CStringScan.strlen_c_str, Hc1.
    assert (Hcap : (ntokens v <= List.length (Tokenizer.tokens parser))%nat)
      by (rewrite Hnt, Ht; exact Hn).
    assert (Hv : wf v).
    { unfold v. cbn [wf]. apply (proj1 (proj2 wf_layout)). exact Hwf. }
    pose proof (Simulation.parse_value_text (render v) [] v [] (Tokenizer.tokens parser)
                  Hnz ltac:(rewrite app_nil_r; reflexivity) eq_refl eq_refl Hv eq_refl
                  Hcap) as P.
    rewrite (TokenizerFacts.strlen_no_nul (render v) Hnz), Ht in P. exact P. }
  unfold Tokenizer.startParsingJSON. rewrite Hparse.
  replace (Z.of_nat (ntokens v) =? JSON_ERROR_NOMEM) with false
    by (symmetry; apply Z.eqb_neq; unfold JSON_ERROR_NOMEM; lia).
  eexists. split; [reflexivity|].
  cbn [Tokenizer.counter Tokenizer.length Tokenizer.tokens].
  split; [reflexivity|]. split.
  - rewrite Hnt. unfold Tokenizer.to_size_t. apply Z.mod_small.
    assert (Z.of_nat JSON_TOKEN_SIZE = 4096) by reflexivity. lia.
  - rewrite <- Hnt. apply take_app_length'. symmetry. apply Simulation.flatten_len.
Qed.


Lemma document_round_trip_witness :
  fst (write_array fresh JSON_PRETTY example_elems) = JSON_ERROR_OK /\
  c_str (getJSON (snd (write_array fresh JSON_PRETTY example_elems))) =
    render (VArr (layout_elems (format_code JSON_PRETTY) 0 example_elems)) /\
  exists q,
    Tokenizer.startParsingJSON Tokenizer.fresh
      (getJSON (snd (write_array fresh JSON_PRETTY example_elems))) =
      Some (JSON_ERROR_OK, q) /\
    Tokenizer.counter q = 0 /\
    Tokenizer.length q = Z.of_nat (S (ntokens_elems example_elems)) /\
    take (S (ntokens_elems example_elems)) (Tokenizer.tokens q) =
      flatten (VArr (layout_elems (format_code JSON_PRETTY) 0 example_elems)) 0 (-1) 0.
Proof.
  apply (document_round_trip fresh JSON_PRETTY example_elems Tokenizer.fresh).
  - exact fresh_arrays_ok.
  - cbn [example_elems wf_elems wf wf_members]. repeat apply conj; try reflexivity;
      repeat (first [apply sb_end | apply sb_plain; [discriminate | discriminate |]]).
  - cbn [example_elems plain_elems plain plain_members].
    repeat apply conj; repeat constructor; discriminate.
  - apply Nat.ltb_lt. vm_compute. reflexivity.
  - apply Nat.ltb_lt. vm_compute. reflexivity.
  - vm_compute. reflexivity.
  - apply repeat_length.
  - apply Nat.leb_le. vm_compute. reflexivity.
Defined.

End RoundTrip.

(** * The serializer on every call: soundness, latched and nesting errors *)

Module WriterCalls.
Import Unparser UnparserFacts Cursor Writer Document Documents.

(** Every call of the interface: the add and open calls, and the three
    calls that close. *)
Inductive call :=
| Add (c : add_call)
| EndObject
| EndArray
| EndJSON.

Definition run_call (c : call) (u : unparser_s) : unparser_s :=
  match c with
  | Add a => run_add a u
  | EndObject => snd (endObject u)
  | EndArray => snd (endArray u)
  | EndJSON => snd (endJSON u)
  end.

(** *** Soundness is kept *)

Lemma sound_jwPutch u c : sound u -> sound (jwPutch u c).
Proof. intros H. apply jwPutch_spec. exact H. Qed.

Lemma sound_putbytes u s : sound u -> sound (putbytes u s).
Proof. intros H. apply putbytes_spec. exact H. Qed.

Lemma sound_jwPutraw u s : sound u -> sound (jwPutraw u s).
Proof. intros H. rewrite jwPutraw_putbytes. apply sound_putbytes. exact H. Qed.

Lemma sound_jwPutstr u s : sound u -> sound (jwPutstr u s).
Proof. intros H. rewrite jwPutstr_putbytes. apply sound_putbytes. exact H. Qed.

Lemma sound_jwPretty u : sound u -> sound (jwPretty u).
Proof. intros H. rewrite jwPretty_putbytes. apply sound_putbytes. exact H. Qed.

Lemma sound_set_error u e : sound u -> sound (set_error u e).
Proof. intros H. exact H. Qed.

Lemma sound_set_callNo u n : sound u -> sound (set_callNo u n).
Proof. intros H. exact H. Qed.

Lemma sound_set_tmpbuf u t : sound u -> sound (set_tmpbuf u t).
Proof. intros H. exact H. Qed.

Lemma sound_bump u : sound u -> sound (bump_elementNo u).
Proof.
  intros (H1 & H2 & H3 & H4). unfold sound, bump_elementNo.
  cbn [set_frame buffer bufp nodeStack stackpos]. rewrite length_insert. auto.
Qed.

Lemma sound_jwPop u : sound u -> sound (snd (jwPop u)).
Proof.
  intros (H1 & H2 & H3 & H4). unfold jwPop, sound.
  destruct (stackpos u =? 0)%nat;
    cbn [snd set_error set_stackpos buffer bufp nodeStack stackpos];
    repeat apply conj; auto; lia.
Qed.

Ltac sound_step :=
  first
    [ assumption
    | apply sound_jwPutch | apply sound_putbytes | apply sound_jwPutraw
    | apply sound_jwPutstr | apply sound_jwPretty | apply sound_set_error
    | apply sound_set_callNo | apply sound_set_tmpbuf | apply sound_bump
    | apply sound_jwPush
    | match goal with |- sound (if ?b then _ else _) => destruct b end
    | match goal with |- sound (let '(_, _) := ?x in _) => destruct x end ].

Lemma sound__jwArr u : sound u -> sound (snd (_jwArr u)).
Proof.
  intros H. unfold _jwArr. destruct (error u =? JSON_ERROR_OK); cbn [snd]; [|exact H].
  repeat sound_step.
Qed.

Lemma sound__jwObj u key : sound u -> sound (snd (_jwObj u key)).
Proof.
  intros H. unfold _jwObj. destruct (error u =? JSON_ERROR_OK); cbn [snd]; [|exact H].
  repeat sound_step.
Qed.

Lemma sound_arr_call u (f : unparser_s -> unparser_s) :
  sound u -> (forall v, sound v -> sound (f v)) ->
  sound (let '(r, v) := _jwArr u in if r =? JSON_ERROR_OK then f v else v).
Proof.
  intros H Hf. pose proof (sound__jwArr u H) as Hs.
  destruct (_jwArr u) as [r v]. cbn [snd] in Hs. destruct (r =? JSON_ERROR_OK); auto.
Qed.

Lemma sound_obj_call u key (f : unparser_s -> unparser_s) :
  sound u -> (forall v, sound v -> sound (f v)) ->
  sound (let '(r, v) := _jwObj u key in if r =? JSON_ERROR_OK then f v else v).
Proof.
  intros H Hf. pose proof (sound__jwObj u key H) as Hs.
  destruct (_jwObj u key) as [r v]. cbn [snd] in Hs. destruct (r =? JSON_ERROR_OK); auto.
Qed.

Lemma sound_run_add c u : sound u -> sound (run_add c u).
Proof.
  intros H. destruct c; cbn [run_add];
    unfold addIntegerToObject, addBooleanToObject, addNullToObject,
      addIntegerToArray, addBooleanToArray, addNullToArray,
      addRawTextToObject, addStringToObject, addObjectToObject, addArrayToObject,
      addRawTextToArray, addStringToArray, addObjectToArray, addArrayToArray;
    first [apply sound_obj_call | apply sound_arr_call];
    try (apply sound_set_tmpbuf); try exact H;
    intros v Hv; repeat sound_step.
Qed.

Lemma sound_end u :
  sound u -> sound (snd (endObject u)) /\ sound (snd (endArray u)) /\
  sound (snd (endJSON u)).
Proof.
  intros H. unfold endObject, endArray, endJSON.
  destruct (error u =? JSON_ERROR_OK); [|auto].
  pose proof (sound_jwPop u H) as Hp. destruct (jwPop u) as [node v]. cbn [snd] in *.
  split; [repeat sound_step|]. split; repeat sound_step.
Qed.

Lemma sound_run_call c u : sound u -> sound (run_call c u).
Proof.
  intros H. destruct c; cbn [run_call].
  - apply sound_run_add. exact H.
  - apply sound_end. exact H.
  - apply sound_end. exact H.
  - apply sound_end. exact H.
Qed.

(** Calls one after the other. *)
Definition run_calls (cs : list call) (u : unparser_s) : unparser_s :=
  fold_left (fun v c => run_call c v) cs u.

Lemma sound_run_calls cs : forall u, sound u -> sound (run_calls cs u).
Proof.
  induction cs as [|c cs IH]; intros u H; [exact H|].
  apply (IH (run_call c u)). apply sound_run_call. exact H.
Qed.

(** No call writes outside the arrays of the handle.  After
    [startUnparsingJSON] on a handle whose buffer and stack have the sizes
    of the struct, and after any sequence of add, open and end calls that
    follows it, whatever their arguments and whatever errors they latch,
    the write pointer lies within the buffer and the stack position within
    the stack, and both arrays have kept their sizes. *)
Theorem calls_keep_handle_sound h root fmt cs :
  arrays_ok h -> sound (run_calls cs (snd (startUnparsingJSON h root fmt))).
Proof.
  intros H. apply sound_run_calls. apply start_state. exact H.
Qed.

Lemma calls_keep_handle_sound_witness :
  sound (run_calls [Add (AddStringToObject (bytes "k") (bytes "v")); EndArray; EndJSON]
           (snd (startUnparsingJSON fresh JSON_ARRAY JSON_PRETTY))).
Proof.
  apply (calls_keep_handle_sound fresh JSON_ARRAY JSON_PRETTY
           [Add (AddStringToObject (bytes "k") (bytes "v")); EndArray; EndJSON]).
  exact fresh_arrays_ok.
Defined.

(** *** A latched error *)

Lemma set_tmpbuf_same u : set_tmpbuf u (tmpbuf u) = u.
Proof. destruct u. reflexivity. Qed.

Lemma run_add_latched c u :
  error u <> JSON_ERROR_OK -> exists t, run_add c u = set_tmpbuf u t.
Proof.
  intros He.
  destruct c; cbn [run_add];
    unfold addIntegerToObject, addBooleanToObject, addNullToObject,
      addIntegerToArray, addBooleanToArray, addNullToArray,
      addRawTextToObject, addStringToObject, addObjectToObject, addArrayToObject,
      addRawTextToArray, addStringToArray, addObjectToArray, addArrayToArray;
    try (rewrite obj_call_latched by exact He);
    try (rewrite arr_call_latched by exact He);
    eauto using eq_sym, set_tmpbuf_same.
Qed.

(** Once an error is latched, no call writes.  Every add, open and end
    call on a handle with a latched error leaves the buffer, the write
    pointer, the error, the call counter and the stack as they are (the
    integer calls still format their number into the scratch buffer), and
    the end calls return the latched error. *)
Theorem latched_error_stops_calls c u :
  error u <> JSON_ERROR_OK ->
  (exists t, run_call c u = set_tmpbuf u t) /\
  fst (endObject u) = error u /\ fst (endArray u) = error u /\
  fst (endJSON u) = error u.
Proof.
  intros He. destruct (end_latched u He) as (E1 & E2 & E3). split.
  - destruct c; cbn [run_call].
    + apply run_add_latched. exact He.
    + exists (tmpbuf u). rewrite E1. symmetry. apply set_tmpbuf_same.
    + exists (tmpbuf u). rewrite E2. symmetry. apply set_tmpbuf_same.
    + exists (tmpbuf u). rewrite E3. symmetry. apply set_tmpbuf_same.
  - rewrite E1, E2, E3. auto.
Qed.

Lemma latched_error_stops_calls_witness :
  (exists t,
     run_call (Add (AddIntegerToArray 7))
       (addNullToArray (snd (startUnparsingJSON fresh JSON_OBJECT JSON_COMPACT))) =
     set_tmpbuf
       (addNullToArray (snd (startUnparsingJSON fresh JSON_OBJECT JSON_COMPACT))) t) /\
  fst (endObject
         (addNullToArray (snd (startUnparsingJSON fresh JSON_OBJECT JSON_COMPACT)))) =
    error (addNullToArray (snd (startUnparsingJSON fresh JSON_OBJECT JSON_COMPACT))) /\
  fst (endArray
         (addNullToArray (snd (startUnparsingJSON fresh JSON_OBJECT JSON_COMPACT)))) =
    error (addNullToArray (snd (startUnparsingJSON fresh JSON_OBJECT JSON_COMPACT))) /\
  fst (endJSON
         (addNullToArray (snd (startUnparsingJSON fresh JSON_OBJECT JSON_COMPACT)))) =
    error (addNullToArray (snd (startUnparsingJSON fresh JSON_OBJECT JSON_COMPACT))).
Proof.
  apply (latched_error_stops_calls (Add (AddIntegerToArray 7))
           (addNullToArray (snd (startUnparsingJSON fresh JSON_OBJECT JSON_COMPACT)))).
  vm_compute. discriminate.
Defined.

(** *** A call on the wrong kind of container *)

(** The key of a member call. *)
Definition object_key (c : add_call) : option (list Z) :=
  match c with
  | AddRawTextToObject k _ | AddStringToObject k _ | AddIntegerToObject k _
  | AddBooleanToObject k _ | AddNullToObject k | AddObjectToObject k
  | AddArrayToObject k => Some k
  | _ => None
  end.

(** The kind of container a call needs on top of the stack, and the
    error it latches on another one. *)
Definition wanted (c : add_call) : djson_type_e :=
  match object_key c with Some _ => JSON_OBJECT | None => JSON_ARRAY end.

Definition wrong_code (c : add_call) : Z :=
  match object_key c with
  | Some _ => JSON_ERROR_NOT_OBJECT
  | None => JSON_ERROR_NOT_ARRAY
  end.

(** What a call still writes on the wrong container: the line break and
    the indentation of pretty mode, and for a member call the key and
    the colon. *)
Definition wrong_text (c : add_call) (u : unparser_s) : list Z :=
  ind (isPretty u) (S (stackpos u)) ++
  match object_key c with Some key => key_text (isPretty u) key | None => [] end.

Definition refused (u : unparser_s) (e : Z) : unparser_s :=
  set_error (set_callNo u (callNo u + 1)) e.

Lemma _jwObj_wrong u key :
  error u = JSON_ERROR_OK -> nodeType (top u) <> JSON_OBJECT ->
  snd (_jwObj u key) =
    putbytes (refused u JSON_ERROR_NOT_OBJECT)
      (ind (isPretty u) (S (stackpos u)) ++ key_text (isPretty u) key).
Proof.
  intros He Ht. unfold _jwObj. rewrite He. cbn [Z.eqb JSON_ERROR_OK].
  rewrite top_set_callNo.
  replace (type_eqb (nodeType (top u)) JSON_OBJECT) with false
    by (destruct (nodeType (top u)); try reflexivity; congruence).
  cbn [negb snd].
  rewrite jwPretty_putbytes, jwPutstr_putbytes.
  unfold key_text, colon_ws, refused. rewrite !putbytes_app.
  norm_fields. cbn [isPretty set_error set_callNo stackpos].
  destruct (isPretty u =? 0); reflexivity.
Qed.

Lemma _jwArr_wrong u :
  error u = JSON_ERROR_OK -> nodeType (top u) <> JSON_ARRAY ->
  snd (_jwArr u) =
    putbytes (refused u JSON_ERROR_NOT_ARRAY) (ind (isPretty u) (S (stackpos u))).
Proof.
  intros He Ht. unfold _jwArr. rewrite He. cbn [Z.eqb JSON_ERROR_OK].
  rewrite top_set_callNo.
  replace (type_eqb (nodeType (top u)) JSON_ARRAY) with false
    by (destruct (nodeType (top u)); try reflexivity; congruence).
  cbn [negb snd]. rewrite jwPretty_putbytes. reflexivity.
Qed.

(** Bytes written with an error latched leave an error latched. *)
Lemma putbytes_keeps_error u s :
  sound u -> error u <> JSON_ERROR_OK -> error (putbytes u s) <> JSON_ERROR_OK.
Proof.
  intros Hu He. destruct (putbytes_spec s u Hu) as (_ & _ & _ & H4 & _). rewrite H4.
  destruct (_ <? _)%nat; [discriminate|exact He].
Qed.

Lemma obj_call_wrong u key (f : unparser_s -> unparser_s) :
  sound u -> error u = JSON_ERROR_OK -> nodeType (top u) <> JSON_OBJECT ->
  (let '(r, v) := _jwObj u key in if r =? JSON_ERROR_OK then f v else v) =
  putbytes (refused u JSON_ERROR_NOT_OBJECT)
    (ind (isPretty u) (S (stackpos u)) ++ key_text (isPretty u) key).
Proof.
  intros Hu He Ht. pose proof (_jwObj_ret u key) as Hr.
  pose proof (_jwObj_wrong u key He Ht) as Hs.
  destruct (_jwObj u key) as [r v]. cbn [fst snd] in Hr, Hs. subst r. rewrite Hs.
  assert (E : error (putbytes (refused u JSON_ERROR_NOT_OBJECT)
                (ind (isPretty u) (S (stackpos u)) ++ key_text (isPretty u) key))
              <> JSON_ERROR_OK).
  { apply putbytes_keeps_error; [exact Hu|discriminate]. }
  apply Z.eqb_neq in E. rewrite E. reflexivity.
Qed.

Lemma arr_call_wrong u (f : unparser_s -> unparser_s) :
  sound u -> error u = JSON_ERROR_OK -> nodeType (top u) <> JSON_ARRAY ->
  (let '(r, v) := _jwArr u in if r =? JSON_ERROR_OK then f v else v) =
  putbytes (refused u JSON_ERROR_NOT_ARRAY) (ind (isPretty u) (S (stackpos u))).
Proof.
  intros Hu He Ht. pose proof (_jwArr_ret u) as Hr.
  pose proof (_jwArr_wrong u He Ht) as Hs.
  destruct (_jwArr u) as [r v]. cbn [fst snd] in Hr, Hs. subst r. rewrite Hs.
  assert (E : error (putbytes (refused u JSON_ERROR_NOT_ARRAY)
                (ind (isPretty u) (S (stackpos u)))) <> JSON_ERROR_OK).
  { apply putbytes_keeps_error; [exact Hu|discriminate]. }
  apply Z.eqb_neq in E. rewrite E. reflexivity.
Qed.

Lemma run_add_wrong c u :
  sound u -> error u = JSON_ERROR_OK -> nodeType (top u) <> wanted c ->
  exists t, run_add c u = putbytes (refused (set_tmpbuf u t) (wrong_code c)) (wrong_text c u).
Proof.
  intros Hu He Ht.
  destruct c; cbn [run_add]; unfold wanted, wrong_code, wrong_text in *;
    cbn [object_key] in *; rewrite ?app_nil_r;
    unfold addIntegerToObject, addBooleanToObject, addNullToObject,
      addIntegerToArray, addBooleanToArray, addNullToArray,
      addRawTextToObject, addStringToObject, addObjectToObject, addArrayToObject,
      addRawTextToArray, addStringToArray, addObjectToArray, addArrayToArray;
    first
      [ rewrite obj_call_wrong by assumption; exists (tmpbuf u);
        rewrite set_tmpbuf_same; reflexivity
      | rewrite arr_call_wrong by assumption; exists (tmpbuf u);
        rewrite set_tmpbuf_same; reflexivity
      | rewrite obj_call_wrong by assumption; eexists; reflexivity
      | rewrite arr_call_wrong by assumption; eexists; reflexivity ].
Qed.

(** A call on the wrong kind of container is refused, but not before it
    has written.  On a handle without error whose top frame is not of the
    kind the call needs, each of the fourteen add and open calls counts
    the call, leaves the stack as it is and latches the wrong-container
    error of its family; it still appends the line break and indentation
    of pretty mode and, for a member call, the quoted key and the colon,
    as far as the buffer has room, and the buffer-full error replaces the
    wrong-container error when the buffer has not room for all.  The value
    itself is never written. *)
Theorem call_on_wrong_container c u :
  sound u -> error u = JSON_ERROR_OK -> nodeType (top u) <> wanted c ->
  written (run_add c u) = take JSON_JSON_SIZE (written u ++ wrong_text c u) /\
  error (run_add c u) =
    (if (JSON_JSON_SIZE <? bufp u + List.length (wrong_text c u))%nat
     then JSON_ERROR_BUF_FULL else wrong_code c) /\
  callNo (run_add c u) = callNo u + 1 /\
  nodeStack (run_add c u) = nodeStack u /\
  stackpos (run_add c u) = stackpos u.
Proof.
  intros Hu He Ht. destruct (run_add_wrong c u Hu He Ht) as (t & ->).
  assert (Hs : sound (refused (set_tmpbuf u t) (wrong_code c))) by exact Hu.
  destruct (putbytes_spec (wrong_text c u) _ Hs) as (_ & H2 & _ & H4 & _).
  destruct (putbytes_fields (wrong_text c u) (refused (set_tmpbuf u t) (wrong_code c)))
    as (F1 & F2 & F3 & _).
  split; [exact H2|]. split; [exact H4|]. split; [exact F1|]. split; [exact F2|exact F3].
Qed.

Lemma call_on_wrong_container_witness :
  written (run_add (AddStringToObject (bytes "k") (bytes "v"))
             (snd (startUnparsingJSON fresh JSON_ARRAY JSON_PRETTY))) =
    take JSON_JSON_SIZE
      (written (snd (startUnparsingJSON fresh JSON_ARRAY JSON_PRETTY)) ++
       wrong_text (AddStringToObject (bytes "k") (bytes "v"))
         (snd (startUnparsingJSON fresh JSON_ARRAY JSON_PRETTY))) /\
  error (run_add (AddStringToObject (bytes "k") (bytes "v"))
           (snd (startUnparsingJSON fresh JSON_ARRAY JSON_PRETTY))) =
    (if (JSON_JSON_SIZE <?
         bufp (snd (startUnparsingJSON fresh JSON_ARRAY JSON_PRETTY)) +
         List.length
           (wrong_text (AddStringToObject (bytes "k") (bytes "v"))
              (snd (startUnparsingJSON fresh JSON_ARRAY JSON_PRETTY))))%nat
     then JSON_ERROR_BUF_FULL
     else wrong_code (AddStringToObject (bytes "k") (bytes "v"))) /\
  callNo (run_add (AddStringToObject (bytes "k") (bytes "v"))
            (snd (startUnparsingJSON fresh JSON_ARRAY JSON_PRETTY))) =
    callNo (snd (startUnparsingJSON fresh JSON_ARRAY JSON_PRETTY)) + 1 /\
  nodeStack (run_add (AddStringToObject (bytes "k") (bytes "v"))
               (snd (startUnparsingJSON fresh JSON_ARRAY JSON_PRETTY))) =
    nodeStack (snd (startUnparsingJSON fresh JSON_ARRAY JSON_PRETTY)) /\
  stackpos (run_add (AddStringToObject (bytes "k") (bytes "v"))
              (snd (startUnparsingJSON fresh JSON_ARRAY JSON_PRETTY))) =
    stackpos (snd (startUnparsingJSON fresh JSON_ARRAY JSON_PRETTY)).
Proof.
  apply (call_on_wrong_container (AddStringToObject (bytes "k") (bytes "v"))
           (snd (startUnparsingJSON fresh JSON_ARRAY JSON_PRETTY))).
  - apply start_state. exact fresh_arrays_ok.
  - reflexivity.
  - vm_compute. discriminate.
Defined.


(** *** Nesting: the full stack, the root, the open container *)

(** The kind of container an open call pushes, and the bracket it
    writes. *)
Definition opens (c : add_call) : option djson_type_e :=
  match c with
  | AddObjectToObject _ | AddObjectToArray => Some JSON_OBJECT
  | AddArrayToObject _ | AddArrayToArray => Some JSON_ARRAY
  | _ => None
  end.

Definition opener (ty : djson_type_e) : Z :=
  match ty with JSON_OBJECT => 123 | _ => 91 end.

(** What the prologue of a call writes on the right container. *)
Definition prologue (c : add_call) (u : unparser_s) : list Z :=
  match object_key c with Some key => pro_obj u key | None => pro_arr u end.

Lemma run_add_opens c ty u :
  opens c = Some ty -> error u = JSON_ERROR_OK -> nodeType (top u) = wanted c ->
  run_add c u =
    (if error (putbytes (entered u) (prologue c u)) =? JSON_ERROR_OK
     then jwPush (jwPutch (putbytes (entered u) (prologue c u)) (opener ty)) ty
     else putbytes (entered u) (prologue c u)).
Proof.
  intros Ho He Ht.
  destruct c; cbn [opens] in Ho; try discriminate Ho;
    injection Ho as <-; unfold wanted, prologue in *; cbn [object_key] in *;
    cbn [run_add opener];
    unfold addObjectToObject, addArrayToObject, addObjectToArray, addArrayToArray.
  - apply (obj_call u key (fun v => jwPush (jwPutch v 123) JSON_OBJECT) He Ht).
  - apply (obj_call u key (fun v => jwPush (jwPutch v 91) JSON_ARRAY) He Ht).
  - apply (arr_call u (fun v => jwPush (jwPutch v 123) JSON_OBJECT) He Ht).
  - apply (arr_call u (fun v => jwPush (jwPutch v 91) JSON_ARRAY) He Ht).
Qed.

Lemma top_entered u :
  sound u -> forall v,
  nodeStack v = nodeStack (entered u) -> stackpos v = stackpos u ->
  top v = frame (nodeType (top u)) (elementNo (top u) + 1).
Proof.
  intros (_ & _ & Hn & Hs) v En Es. apply top_lookup. rewrite En, Es.
  destruct (entered_fields u) as (_ & _ & _ & _ & _ & _ & ->).
  apply list_lookup_insert_eq. lia.
Qed.

(** An open call at the deepest stack position.  With the stack position
    at its last slot, a call that opens an object or an array in the right
    kind of container counts the element and writes its prologue and the
    opening bracket, then fails to push: no frame is added, the stack
    position stays, and the stack-full error is latched (the buffer-full
    error, when the buffer has not room for the prologue).  The bracket
    stays in the text without a frame to close it. *)
Theorem open_at_full_depth c ty u :
  opens c = Some ty -> sound u -> error u = JSON_ERROR_OK ->
  nodeType (top u) = wanted c -> S (stackpos u) = JSON_STACK_DEPTH ->
  written (run_add c u) =
    take JSON_JSON_SIZE (written u ++ prologue c u ++ [opener ty]) /\
  error (run_add c u) =
    (if (JSON_JSON_SIZE <? bufp u + List.length (prologue c u))%nat
     then JSON_ERROR_BUF_FULL else JSON_ERROR_STACK_FULL) /\
  stackpos (run_add c u) = stackpos u /\
  top (run_add c u) = frame (nodeType (top u)) (elementNo (top u) + 1).
Proof.
  intros Ho Hu He Ht Hd. rewrite (run_add_opens c ty u Ho He Ht).
  set (pro := prologue c u).
  pose proof (sound_entered u Hu) as Hs'.
  pose proof (written_length u Hu) as Hw.
  destruct (putbytes_spec pro (entered u) Hs') as (P1 & P2 & P3 & P4 & _).
  destruct (putbytes_fields pro (entered u)) as (_ & Pn & Ps & _).
  destruct (entered_fields u) as (Ee & _ & Es & Eb & Ep & _ & _).
  assert (Ew : written (entered u) = written u) by (unfold written; rewrite Eb, Ep; reflexivity).
  rewrite Ew in P2. rewrite Ep in P3, P4. rewrite Es in Ps.
  destruct (JSON_JSON_SIZE <? bufp u + List.length pro)%nat eqn:E.
  - apply Nat.ltb_lt in E. rewrite P4. cbn [Z.eqb JSON_ERROR_BUF_FULL JSON_ERROR_OK].
    split; [|split; [exact P4|split; [exact Ps|apply (top_entered u Hu); assumption]]].
    rewrite P2, app_assoc. symmetry. apply take_overflow. rewrite length_app. lia.
  - apply Nat.ltb_ge in E. rewrite P4, Ee, He. cbn [Z.eqb JSON_ERROR_OK].
    destruct (jwPutch_spec (putbytes (entered u) pro) (opener ty) P1) as (_ & C2 & _).
    destruct (jwPutch_fields (putbytes (entered u) pro) (opener ty)) as (_ & Cn & Cs & _).
    unfold jwPush. rewrite Cs, Ps.
    replace (JSON_STACK_DEPTH <=? stackpos u + 1)%nat with true
      by (symmetry; apply Nat.leb_le; lia).
    split; [|split; [reflexivity|split]].
    + change (written (set_error (jwPutch (putbytes (entered u) pro) (opener ty))
                         JSON_ERROR_STACK_FULL))
        with (written (jwPutch (putbytes (entered u) pro) (opener ty))).
      rewrite C2, P2.
      rewrite (take_ge (written u ++ pro)) by (rewrite length_app; lia).
      rewrite <- app_assoc. reflexivity.
    + cbn [set_error stackpos]. rewrite Cs. exact Ps.
    + apply (top_entered u Hu).
      * cbn [set_error nodeStack]. rewrite Cn. exact Pn.
      * cbn [set_error stackpos]. rewrite Cs. exact Ps.
Qed.

(** Arrays opened one inside the other. *)
Definition nest (n : nat) (u : unparser_s) : unparser_s :=
  Nat.iter n (run_add AddArrayToArray) u.

Lemma sound_nest n u : sound u -> sound (nest n u).
Proof.
  intros H. induction n as [|n IH]; [exact H|].
  change (nest (S n) u) with (run_add AddArrayToArray (nest n u)).
  apply sound_run_add. exact IH.
Qed.

Lemma open_at_full_depth_witness :
  written (run_add AddArrayToArray
             (nest 31 (snd (startUnparsingJSON fresh JSON_ARRAY JSON_COMPACT)))) =
    take JSON_JSON_SIZE
      (written (nest 31 (snd (startUnparsingJSON fresh JSON_ARRAY JSON_COMPACT))) ++
       prologue AddArrayToArray
         (nest 31 (snd (startUnparsingJSON fresh JSON_ARRAY JSON_COMPACT))) ++
       [opener JSON_ARRAY]) /\
  error (run_add AddArrayToArray
           (nest 31 (snd (startUnparsingJSON fresh JSON_ARRAY JSON_COMPACT)))) =
    (if (JSON_JSON_SIZE <?
         bufp (nest 31 (snd (startUnparsingJSON fresh JSON_ARRAY JSON_COMPACT))) +
         List.length
           (prologue AddArrayToArray
              (nest 31 (snd (startUnparsingJSON fresh JSON_ARRAY JSON_COMPACT)))))%nat
     then JSON_ERROR_BUF_FULL else JSON_ERROR_STACK_FULL) /\
  stackpos (run_add AddArrayToArray
              (nest 31 (snd (startUnparsingJSON fresh JSON_ARRAY JSON_COMPACT)))) =
    stackpos (nest 31 (snd (startUnparsingJSON fresh JSON_ARRAY JSON_COMPACT))) /\
  top (run_add AddArrayToArray
         (nest 31 (snd (startUnparsingJSON fresh JSON_ARRAY JSON_COMPACT)))) =
    frame
      (nodeType (top (nest 31 (snd (startUnparsingJSON fresh JSON_ARRAY JSON_COMPACT)))))
      (elementNo (top (nest 31 (snd (startUnparsingJSON fresh JSON_ARRAY JSON_COMPACT))))
       + 1).
Proof.
  apply (open_at_full_depth AddArrayToArray JSON_ARRAY
           (nest 31 (snd (startUnparsingJSON fresh JSON_ARRAY JSON_COMPACT)))).
  - reflexivity.
  - apply sound_nest. apply start_state. exact fresh_arrays_ok.
  - vm_compute. reflexivity.
  - vm_compute. reflexivity.
  - vm_compute. reflexivity.
Defined.

(** What [endObject] and [endArray] write: the closing bracket of the
    kind of the top frame, on a line of its own in pretty mode when the
    frame has elements, indented for the stack position they leave. *)
Definition close_text (u : unparser_s) : list Z :=
  (if 0 <? elementNo (top u) then ind (isPretty u) (S (Nat.pred (stackpos u))) else []) ++
  [closer (nodeType (top u))].

(** What [endJSON] writes at the root: in pretty mode a line break, then
    the closing bracket of the kind of the root frame. *)
Definition root_text (u : unparser_s) : list Z :=
  ind (isPretty u) 0 ++ [closer (nodeType (frame_at u 0))].

Lemma end_pop u :
  error u = JSON_ERROR_OK ->
  snd (endArray u) =
    putbytes
      (if (stackpos u =? 0)%nat then set_error u JSON_ERROR_STACK_EMPTY
       else set_stackpos u (stackpos u - 1))
      (close_text u).
Proof.
  intros He. unfold endArray, jwPop, close_text. rewrite He.
  cbn [Z.eqb JSON_ERROR_OK]. rewrite putbytes_app.
  destruct (stackpos u) as [|L] eqn:Es; cbn [Nat.eqb snd Nat.pred];
    destruct (0 <? elementNo (top u)); try rewrite jwPretty_putbytes;
    cbn [set_error set_stackpos isPretty stackpos];
    rewrite ?Es; cbn [Nat.sub]; rewrite ?Nat.sub_0_r; reflexivity.
Qed.

(** The end calls on a handle without error.  [endObject] and [endArray]
    are the same call: they append the closing bracket of the top frame
    and move the stack position down by one; at the root they still write
    the bracket, but the stack position stays and the stack-empty error
    is latched.  [endJSON] appends the closing bracket of the root frame
    when the stack position is at the root; with a container still open
    it writes nothing and latches the nesting error.  The buffer-full
    error replaces the others when the buffer has not room for the
    bytes. *)
Theorem end_calls_effect u :
  sound u -> error u = JSON_ERROR_OK ->
  endObject u = endArray u /\
  written (snd (endArray u)) = take JSON_JSON_SIZE (written u ++ close_text u) /\
  fst (endArray u) =
    (if (JSON_JSON_SIZE <? bufp u + List.length (close_text u))%nat
     then JSON_ERROR_BUF_FULL
     else if (stackpos u =? 0)%nat then JSON_ERROR_STACK_EMPTY else JSON_ERROR_OK) /\
  stackpos (snd (endArray u)) = Nat.pred (stackpos u) /\
  nodeStack (snd (endArray u)) = nodeStack u /\
  written (snd (endJSON u)) =
    (if (stackpos u =? 0)%nat then take JSON_JSON_SIZE (written u ++ root_text u)
     else written u) /\
  fst (endJSON u) =
    (if (stackpos u =? 0)%nat
     then if (JSON_JSON_SIZE <? bufp u + List.length (root_text u))%nat
          then JSON_ERROR_BUF_FULL else JSON_ERROR_OK
     else JSON_ERROR_NEST_ERROR) /\
  stackpos (snd (endJSON u)) = stackpos u /\
  nodeStack (snd (endJSON u)) = nodeStack u.
Proof.
  intros Hu He. split; [reflexivity|].
  destruct (end_close_ret u) as (_ & R2 & R3). rewrite R2, R3.
  rewrite (end_pop u He).
  assert (A :
    let v := putbytes
      (if (stackpos u =? 0)%nat then set_error u JSON_ERROR_STACK_EMPTY
       else set_stackpos u (stackpos u - 1)) (close_text u) in
    written v = take JSON_JSON_SIZE (written u ++ close_text u) /\
    error v =
      (if (JSON_JSON_SIZE <? bufp u + List.length (close_text u))%nat
       then JSON_ERROR_BUF_FULL
       else if (stackpos u =? 0)%nat then JSON_ERROR_STACK_EMPTY else JSON_ERROR_OK) /\
    stackpos v = Nat.pred (stackpos u) /\ nodeStack v = nodeStack u).
  { pose proof Hu as (H1 & H2 & H3 & H4).
    destruct (stackpos u =? 0)%nat eqn:Es.
    - apply Nat.eqb_eq in Es.
      assert (Hs : sound (set_error u JSON_ERROR_STACK_EMPTY)) by exact Hu.
      destruct (putbytes_spec (close_text u) _ Hs) as (_ & P2 & _ & P4 & _).
      destruct (putbytes_fields (close_text u) (set_error u JSON_ERROR_STACK_EMPTY))
        as (_ & F2 & F3 & _).
      cbv zeta. split; [exact P2|]. split; [exact P4|]. split; [|exact F2].
      rewrite F3. cbn [set_error stackpos]. rewrite Es. reflexivity.
    - apply Nat.eqb_neq in Es.
      assert (Hs : sound (set_stackpos u (stackpos u - 1))).
      { unfold sound. cbn [set_stackpos buffer bufp nodeStack stackpos].
        split; [exact H1|]. split; [exact H2|]. split; [exact H3|lia]. }
      destruct (putbytes_spec (close_text u) _ Hs) as (_ & P2 & _ & P4 & _).
      destruct (putbytes_fields (close_text u) (set_stackpos u (stackpos u - 1)))
        as (_ & F2 & F3 & _).
      cbv zeta. split; [exact P2|]. split.
      + rewrite P4. cbn [set_stackpos error bufp]. rewrite He. reflexivity.
      + split; [|exact F2]. rewrite F3. cbn [set_stackpos stackpos]. lia. }
  cbv zeta in A. destruct A as (A1 & A2 & A3 & A4).
  split; [exact A1|]. split; [exact A2|]. split; [exact A3|]. split; [exact A4|].
  unfold endJSON, root_text. rewrite He. cbn [Z.eqb JSON_ERROR_OK snd].
  destruct (stackpos u =? 0)%nat eqn:Es.
  - assert (E : jwPutch (if isPretty u =? 0 then u else jwPutch u 10)
                  (closer (nodeType (frame_at u 0))) =
                putbytes u (ind (isPretty u) 0 ++ [closer (nodeType (frame_at u 0))])).
    { unfold ind. destruct (isPretty u =? 0); reflexivity. }
    rewrite E.
    destruct (putbytes_spec (ind (isPretty u) 0 ++ [closer (nodeType (frame_at u 0))]) u Hu)
      as (_ & P2 & _ & P4 & _).
    destruct (putbytes_fields (ind (isPretty u) 0 ++ [closer (nodeType (frame_at u 0))]) u)
      as (_ & F2 & F3 & _).
    split; [exact P2|]. split; [|split; [exact F3|exact F2]].
    rewrite P4, He. reflexivity.
  - cbn [set_error error stackpos nodeStack]. auto.
Qed.

(** The handle of the example: a root array in pretty mode, nothing
    added yet. *)
Definition empty_root : unparser_s :=
  snd (startUnparsingJSON fresh JSON_ARRAY JSON_PRETTY).

Lemma sound_empty_root : sound empty_root.
Proof. apply start_state. exact fresh_arrays_ok. Qed.

Lemma end_calls_effect_witness :
  endObject empty_root = endArray empty_root /\
  written (snd (endArray empty_root)) =
    take JSON_JSON_SIZE (written empty_root ++ close_text empty_root) /\
  fst (endArray empty_root) =
    (if (JSON_JSON_SIZE <? bufp empty_root + List.length (close_text empty_root))%nat
     then JSON_ERROR_BUF_FULL
     else if (stackpos empty_root =? 0)%nat then JSON_ERROR_STACK_EMPTY
          else JSON_ERROR_OK) /\
  stackpos (snd (endArray empty_root)) = Nat.pred (stackpos empty_root) /\
  nodeStack (snd (endArray empty_root)) = nodeStack empty_root /\
  written (snd (endJSON empty_root)) =
    (if (stackpos empty_root =? 0)%nat
     then take JSON_JSON_SIZE (written empty_root ++ root_text empty_root)
     else written empty_root) /\
  fst (endJSON empty_root) =
    (if (stackpos empty_root =? 0)%nat
     then if (JSON_JSON_SIZE <? bufp empty_root + List.length (root_text empty_root))%nat
          then JSON_ERROR_BUF_FULL else JSON_ERROR_OK
     else JSON_ERROR_NEST_ERROR) /\
  stackpos (snd (endJSON empty_root)) = stackpos empty_root /\
  nodeStack (snd (endJSON empty_root)) = nodeStack empty_root.
Proof.
  apply (end_calls_effect empty_root).
  - exact sound_empty_root.
  - reflexivity.
Defined.

(** *** The close calls against the specification *)

(** A handle with an array open above the root and an error latched: a
    member call was made on the array. *)
Definition refused_in_array : unparser_s :=
  run_add (AddNullToObject (bytes "k")) (nest 1 empty_root).

(** C9, the part that fails: not every state.  With an error latched and
    an array open above the root, [endObject] and [endArray] pop no frame
    and write no character; and at the root, without error, they write
    the closing character but pop no frame. *)
Lemma C9_close_pops_and_writes_not_always :
  error refused_in_array = JSON_ERROR_NOT_OBJECT /\
  stackpos refused_in_array = 1%nat /\
  nodeType (top refused_in_array) = JSON_ARRAY /\
  stackpos (snd (endObject refused_in_array)) = stackpos refused_in_array /\
  stackpos (snd (endArray refused_in_array)) = stackpos refused_in_array /\
  written (snd (endObject refused_in_array)) = written refused_in_array /\
  written (snd (endArray refused_in_array)) = written refused_in_array /\
  error empty_root = JSON_ERROR_OK /\
  stackpos (snd (endArray empty_root)) = stackpos empty_root /\
  fst (endArray empty_root) = JSON_ERROR_STACK_EMPTY.
Proof. repeat split; vm_compute; reflexivity. Qed.

(** C9 as amended.  [endObject] and [endArray] are one function of the
    handle, whichever is called.  With an error latched they return it
    and leave the handle as it is.  On a handle without error (its write
    pointer and stack position in bounds) they append the closing
    character of the kind found in the top frame, in pretty mode on an
    indented line of its own when the frame has elements, as far as the
    buffer has room, and leave the bytes behind untouched; they move the
    stack position down by one, except at the root, where it stays and
    the stack-empty error is latched; the buffer-full error replaces it
    when the buffer has not room for the bytes; the value returned is the
    error latched at the end; the frames, the call counter, the mode and
    the scratch buffer stay as they are. *)
Theorem C9_close_calls_same_effect u :
  sound u ->
  endObject u = endArray u /\
  if error u =? JSON_ERROR_OK then
    written (snd (endObject u)) = take JSON_JSON_SIZE (written u ++ close_text u) /\
    bufp (snd (endObject u)) =
      Nat.min JSON_JSON_SIZE (bufp u + List.length (close_text u)) /\
    drop (bufp (snd (endObject u))) (buffer (snd (endObject u))) =
      drop (bufp (snd (endObject u))) (buffer u) /\
    fst (endObject u) = error (snd (endObject u)) /\
    error (snd (endObject u)) =
      (if (JSON_JSON_SIZE <? bufp u + List.length (close_text u))%nat
       then JSON_ERROR_BUF_FULL
       else if (stackpos u =? 0)%nat then JSON_ERROR_STACK_EMPTY else JSON_ERROR_OK) /\
    stackpos (snd (endObject u)) = Nat.pred (stackpos u) /\
    nodeStack (snd (endObject u)) = nodeStack u /\
    callNo (snd (endObject u)) = callNo u /\
    isPretty (snd (endObject u)) = isPretty u /\
    tmpbuf (snd (endObject u)) = tmpbuf u
  else endObject u = (error u, u).
Proof.
  intros Hu. split; [reflexivity|].
  destruct (error u =? JSON_ERROR_OK) eqn:E.
  - apply Z.eqb_eq in E. destruct (end_close_ret u) as (R1 & _).
    change (endObject u) with (endArray u) in *. rewrite (end_pop u E) in *.
    pose proof Hu as (H1 & H2 & H3 & H4).
    destruct (stackpos u =? 0)%nat eqn:Es.
    + apply Nat.eqb_eq in Es.
      assert (Hs : sound (set_error u JSON_ERROR_STACK_EMPTY)) by exact Hu.
      destruct (putbytes_spec (close_text u) _ Hs) as (_ & P2 & P3 & P4 & P5).
      destruct (putbytes_fields (close_text u) (set_error u JSON_ERROR_STACK_EMPTY))
        as (F1 & F2 & F3 & F4 & F5).
      split; [exact P2|]. split; [exact P3|]. split; [exact P5|]. split; [exact R1|].
      split; [exact P4|]. split; [rewrite F3; cbn [set_error stackpos]; lia|].
      split; [exact F2|]. split; [exact F1|]. split; [exact F4|exact F5].
    + apply Nat.eqb_neq in Es.
      assert (Hs : sound (set_stackpos u (stackpos u - 1))).
      { unfold sound. cbn [set_stackpos buffer bufp nodeStack stackpos].
        split; [exact H1|]. split; [exact H2|]. split; [exact H3|lia]. }
      destruct (putbytes_spec (close_text u) _ Hs) as (_ & P2 & P3 & P4 & P5).
      destruct (putbytes_fields (close_text u) (set_stackpos u (stackpos u - 1)))
        as (F1 & F2 & F3 & F4 & F5).
      split; [exact P2|]. split; [exact P3|]. split; [exact P5|]. split; [exact R1|].
      split; [rewrite P4; cbn [set_stackpos error bufp]; rewrite E; reflexivity|].
      split; [rewrite F3; cbn [set_stackpos stackpos]; lia|].
      split; [exact F2|]. split; [exact F1|]. split; [exact F4|exact F5].
  - apply Z.eqb_neq in E. apply end_latched. exact E.
Qed.

Lemma C9_close_calls_same_effect_witness :
  endObject (nest 1 empty_root) = endArray (nest 1 empty_root) /\
  if error (nest 1 empty_root) =? JSON_ERROR_OK then
    written (snd (endObject (nest 1 empty_root))) =
      take JSON_JSON_SIZE (written (nest 1 empty_root) ++ close_text (nest 1 empty_root)) /\
    bufp (snd (endObject (nest 1 empty_root))) =
      Nat.min JSON_JSON_SIZE
        (bufp (nest 1 empty_root) + List.length (close_text (nest 1 empty_root))) /\
    drop (bufp (snd (endObject (nest 1 empty_root))))
         (buffer (snd (endObject (nest 1 empty_root)))) =
      drop (bufp (snd (endObject (nest 1 empty_root)))) (buffer (nest 1 empty_root)) /\
    fst (endObject (nest 1 empty_root)) = error (snd (endObject (nest 1 empty_root))) /\
    error (snd (endObject (nest 1 empty_root))) =
      (if (JSON_JSON_SIZE <?
           bufp (nest 1 empty_root) + List.length (close_text (nest 1 empty_root)))%nat
       then JSON_ERROR_BUF_FULL
       else if (stackpos (nest 1 empty_root) =? 0)%nat then JSON_ERROR_STACK_EMPTY
            else JSON_ERROR_OK) /\
    stackpos (snd (endObject (nest 1 empty_root))) =
      Nat.pred (stackpos (nest 1 empty_root)) /\
    nodeStack (snd (endObject (nest 1 empty_root))) = nodeStack (nest 1 empty_root) /\
    callNo (snd (endObject (nest 1 empty_root))) = callNo (nest 1 empty_root) /\
    isPretty (snd (endObject (nest 1 empty_root))) = isPretty (nest 1 empty_root) /\
    tmpbuf (snd (endObject (nest 1 empty_root))) = tmpbuf (nest 1 empty_root)
  else endObject (nest 1 empty_root) =
       (error (nest 1 empty_root), nest 1 empty_root).
Proof.
  apply (C9_close_calls_same_effect (nest 1 empty_root)).
  apply sound_nest. exact sound_empty_root.
Defined.

End WriterCalls.

(** * Integers as text *)

Module IntegerText.
Import Unparser UnparserFacts Cursor CursorFacts Writer WriterCalls.

(** [strreverse]: [b] and [e] are the offsets of [begin] and [end] in the
    array [s].  A round of the loop reads [*end], stores [*begin] there,
    stores what it read at [begin], and moves both.  The loop makes at
    most [e - b] rounds. *)
Fixpoint strreverse_loop (fuel : nat) (s : list Z) (b e : nat) : list Z :=
  match fuel with
  | O => s
  | S f =>
      if (b <? e)%nat then
        let aux := nth e s 0 in
        let s := <[e := nth b s 0]> s in
        let s := <[b := aux]> s in
        strreverse_loop f s (S b) (e - 1)
      else s
  end.

Definition strreverse (s : list Z) (b e : nat) : list Z :=
  strreverse_loop (e - b) s b e.

(** [modp_itoa10] as it works on the array: the digits and the sign are
    written from offset 0 on, then reversed in place from offset 0 to the
    last byte written. *)
Definition modp_itoa10_in_place (value : Z) : list Z :=
  let uvalue := (if value <? 0 then - value else value) mod 2 ^ 32 in
  let wstr := itoa_loop 10 uvalue in
  let wstr := if value <? 0 then wstr ++ [45] else wstr in
  strreverse wstr 0 (List.length wstr - 1).

(** The number a run of decimal digits denotes, and the number a decimal
    text with an optional minus sign denotes. *)
Definition read_digits (s : list Z) : Z :=
  fold_left (fun acc c => 10 * acc + (c - 48)) s 0.

Definition read_decimal (s : list Z) : Z :=
  match s with
  | 45 :: r => - read_digits r
  | _ => read_digits s
  end.

Definition is_digit (c : Z) : Prop := 48 <= c <= 57.

(** The decimal text of [v] as one writes it: a minus sign for a negative
    number, then the digits of its absolute value without leading zero. *)
Definition decimal_of (v : Z) (s : list Z) : Prop :=
  exists ds,
    s = (if v <? 0 then [45] else []) ++ ds /\
    ds <> [] /\ Forall is_digit ds /\
    (hd 0 ds = 48 -> ds = [48]) /\
    read_digits ds = Z.abs v.

(** *** The reversal *)

Lemma insert_middle {A} (l1 : list A) a l2 x :
  <[List.length l1 := x]> (l1 ++ a :: l2) = l1 ++ x :: l2.
Proof. induction l1 as [|y l1 IH]; simpl; [reflexivity|]. f_equal. exact IH. Qed.

Lemma strreverse_loop_spec n : forall mid fuel pre post,
  (List.length mid <= n)%nat -> (List.length mid <= 2 * fuel + 1)%nat ->
  strreverse_loop fuel (pre ++ mid ++ post) (List.length pre)
    (List.length pre + List.length mid - 1) = pre ++ rev mid ++ post.
Proof.
  induction n as [|n IH]; intros mid fuel pre post Hn Hf.
  - destruct mid; [|simpl in Hn; lia]. simpl.
    destruct fuel; cbn [strreverse_loop]; [reflexivity|].
    replace (List.length pre <? List.length pre + 0 - 1)%nat with false
      by (symmetry; apply Nat.ltb_ge; lia). reflexivity.
  - destruct mid as [|x m].
    { simpl. destruct fuel; cbn [strreverse_loop]; [reflexivity|].
      replace (List.length pre <? List.length pre + 0 - 1)%nat with false
        by (symmetry; apply Nat.ltb_ge; lia). reflexivity. }
    destruct (exists_last (l := x :: m) ltac:(discriminate)) as (m' & y & E).
    destruct m' as [|x' m'].
    { (* one byte *)
      simpl in E. injection E as -> ->. simpl.
      destruct fuel; cbn [strreverse_loop]; [reflexivity|].
      replace (List.length pre <? List.length pre + 1 - 1)%nat with false
        by (symmetry; apply Nat.ltb_ge; lia). reflexivity. }
    simpl in E. injection E as <- ->.
    assert (Hl : List.length ((x :: m') ++ [y]) = S (S (List.length m'))).
    { rewrite length_app. simpl. lia. }
    change (x :: m' ++ [y]) with ((x :: m') ++ [y]) in *.
    rewrite Hl in *.
    destruct fuel as [|f]; [lia|]. cbn [strreverse_loop].
    replace (List.length pre <? List.length pre + S (S (List.length m')) - 1)%nat
      with true by (symmetry; apply Nat.ltb_lt; lia).
    set (e := (List.length pre + S (S (List.length m')) - 1)%nat).
    assert (He : e = List.length (pre ++ x :: m')).
    { unfold e. rewrite length_app. simpl. lia. }
    assert (S1 : pre ++ ((x :: m') ++ [y]) ++ post = (pre ++ x :: m') ++ y :: post).
    { rewrite <- !app_assoc. reflexivity. }
    assert (Ny : nth e (pre ++ ((x :: m') ++ [y]) ++ post) 0 = y).
    { rewrite S1, He. apply nth_middle. }
    assert (Nx : nth (List.length pre) (pre ++ ((x :: m') ++ [y]) ++ post) 0 = x).
    { simpl. apply nth_middle. }
    rewrite Ny, Nx.
    assert (S2 : <[e := x]> (pre ++ ((x :: m') ++ [y]) ++ post) =
                 pre ++ x :: (m' ++ x :: post)).
    { rewrite S1, He, insert_middle. rewrite <- app_assoc. reflexivity. }
    rewrite S2, insert_middle.
    replace (pre ++ y :: m' ++ x :: post) with ((pre ++ [y]) ++ m' ++ (x :: post))
      by (rewrite <- app_assoc; reflexivity).
    replace (S (List.length pre)) with (List.length (pre ++ [y]))
      by (rewrite length_app; simpl; lia).
    replace (e - 1)%nat with (List.length (pre ++ [y]) + List.length m' - 1)%nat
      by (unfold e; rewrite length_app; simpl; lia).
    rewrite (IH m' f (pre ++ [y]) (x :: post)) by lia.
    rewrite rev_app_distr. simpl. rewrite <- !app_assoc. reflexivity.
Qed.

(** [strreverse] reverses in place.  Called with the offsets of the
    first and the last byte of a stretch of the array, it leaves that
    stretch reversed and every byte before and behind it as it was. *)
Theorem strreverse_reverses pre mid post :
  strreverse (pre ++ mid ++ post) (List.length pre)
    (List.length pre + List.length mid - 1) = pre ++ rev mid ++ post.
Proof.
  unfold strreverse. apply (strreverse_loop_spec (List.length mid)); lia.
Qed.

Lemma strreverse_whole s : strreverse s 0 (List.length s - 1) = rev s.
Proof.
  pose proof (strreverse_loop_spec (List.length s) s (List.length s - 1 - 0) [] []) as H.
  rewrite app_nil_r in H. cbn [List.length app Nat.add] in H.
  unfold strreverse. rewrite H by lia. apply app_nil_r.
Qed.

(** The function on the array is the function on the text. *)
Lemma modp_itoa10_array value : modp_itoa10_in_place value = modp_itoa10 value.
Proof. unfold modp_itoa10_in_place, modp_itoa10. cbv zeta. apply strreverse_whole. Qed.


(** *** The digits *)

(** The number that digits written least significant first denote. *)
Definition value_le (ds : list Z) : Z :=
  fold_right (fun c acc => 10 * acc + (c - 48)) 0 ds.

Lemma read_digits_rev ds : read_digits (rev ds) = value_le ds.
Proof.
  unfold read_digits, value_le.
  rewrite <- (fold_left_rev_right (fun c acc => 10 * acc + (c - 48))).
  rewrite rev_involutive. reflexivity.
Qed.

Lemma itoa_loop_spec fuel : forall u,
  0 <= u < 10 ^ Z.of_nat fuel -> (0 < fuel)%nat ->
  Forall is_digit (itoa_loop fuel u) /\
  value_le (itoa_loop fuel u) = u /\
  (1 <= List.length (itoa_loop fuel u) <= fuel)%nat /\
  (u <> 0 -> List.last (itoa_loop fuel u) 0 <> 48).
Proof.
  induction fuel as [|f IH]; intros u Hu Hf; [lia|].
  cbn [itoa_loop].
  assert (Hm : 0 <= u mod 10 < 10) by (apply Z.mod_pos_bound; lia).
  assert (Hd : u = 10 * (u / 10) + u mod 10) by (apply Z.div_mod; lia).
  assert (Hq : 0 <= u / 10) by (apply Z.div_pos; lia).
  destruct (u / 10 =? 0) eqn:E.
  - apply Z.eqb_eq in E. repeat apply conj.
    + constructor; [unfold is_digit; lia|constructor].
    + unfold value_le. cbn [fold_right]. lia.
    + simpl. lia.
    + simpl. lia.
    + intros Hn. cbn [List.last]. lia.
  - apply Z.eqb_neq in E.
    assert (Hq' : u / 10 < 10 ^ Z.of_nat f).
    { apply Z.div_lt_upper_bound; [lia|].
      replace (10 * 10 ^ Z.of_nat f) with (10 ^ Z.of_nat (S f)); [lia|].
      rewrite Nat2Z.inj_succ, Z.pow_succ_r by lia. reflexivity. }
    assert (Hf' : (0 < f)%nat).
    { destruct f; [|lia]. simpl in Hq'. lia. }
    destruct (IH (u / 10) ltac:(lia) Hf') as (I1 & I2 & I3 & I4).
    repeat apply conj.
    + constructor; [unfold is_digit; lia|exact I1].
    + unfold value_le in *. cbn [fold_right]. rewrite I2. lia.
    + simpl. lia.
    + simpl. lia.
    + intros _. specialize (I4 E).
      destruct (itoa_loop f (u / 10)) as [|d r] eqn:El; [simpl in I3; lia|].
      exact I4.
Qed.

Lemma hd_rev_last (l : list Z) : hd 0 (rev l) = List.last l 0.
Proof.
  destruct l as [|x l]; [reflexivity|].
  destruct (exists_last (l := x :: l) ltac:(discriminate)) as (m & y & ->).
  rewrite rev_app_distr, last_last. reflexivity.
Qed.

Lemma is_digit_nonzero ds : Forall is_digit ds -> Forall (fun c => c <> 0) ds.
Proof. intros H. eapply List.Forall_impl; [|exact H]. unfold is_digit. intros c Hc. lia. Qed.

Lemma modp_itoa10_spec v :
  - 2 ^ 31 < v < 2 ^ 31 ->
  decimal_of v (modp_itoa10 v) /\
  read_decimal (modp_itoa10 v) = v /\
  (List.length (modp_itoa10 v) <= 11)%nat /\
  Forall (fun c => c <> 0) (modp_itoa10 v).
Proof.
  intros Hv. unfold modp_itoa10. cbv zeta.
  set (a := if v <? 0 then - v else v).
  assert (Ha : a = Z.abs v).
  { unfold a. destruct (v <? 0) eqn:E; [apply Z.ltb_lt in E|apply Z.ltb_ge in E]; lia. }
  assert (Hr : 0 <= a < 2 ^ 31) by lia.
  assert (Hmod : a mod 2 ^ 32 = a) by (apply Z.mod_small; lia).
  rewrite Hmod.
  destruct (itoa_loop_spec 10 a ltac:(simpl; lia) ltac:(lia)) as (I1 & I2 & I3 & I4).
  set (ds := itoa_loop 10 a) in *.
  assert (Hne : rev ds <> []).
  { intros H. apply (f_equal (@List.length Z)) in H. rewrite length_rev in H.
    simpl in H. lia. }
  assert (Hdig : Forall is_digit (rev ds)).
  { apply Forall_rev. exact I1. }
  assert (Hlead : hd 0 (rev ds) = 48 -> rev ds = [48]).
  { intros H. rewrite hd_rev_last in H.
    destruct (Z.eq_dec a 0) as [Z0|NZ]; [|exfalso; exact (I4 NZ H)].
    unfold ds. rewrite Z0. reflexivity. }
  assert (Hval : read_digits (rev ds) = Z.abs v).
  { rewrite read_digits_rev, I2. exact Ha. }
  assert (Hh : hd 0 (rev ds) <> 45).
  { destruct (rev ds) as [|d r]; [congruence|].
    apply Forall_cons in Hdig. destruct Hdig as (Hd & _). unfold is_digit in Hd.
    simpl. lia. }
  unfold decimal_of.
  destruct (v <? 0) eqn:E.
  - apply Z.ltb_lt in E. rewrite rev_app_distr. cbn [rev app].
    repeat apply conj.
    + exists (rev ds). repeat apply conj; auto.
    + cbn [read_decimal]. rewrite Hval. lia.
    + cbn [List.length]. rewrite length_rev. lia.
    + constructor; [discriminate|]. apply is_digit_nonzero. exact Hdig.
  - apply Z.ltb_ge in E. repeat apply conj.
    + exists (rev ds). repeat apply conj; auto.
    + unfold read_decimal. destruct (rev ds) as [|d r] eqn:Er; [congruence|].
      assert (Hd : d <> 45) by exact Hh.
      rewrite <- Er in *.
      replace (match rev ds with | [] => read_digits (rev ds) | _ => read_digits (rev ds) end)
        with (read_digits (rev ds)) by (destruct (rev ds); reflexivity).
      rewrite Er.
      transitivity (read_digits (d :: r)).
      * destruct d as [|q|q]; try reflexivity.
        do 6 (destruct q as [q|q|]; try reflexivity). congruence.
      * rewrite <- Er, Hval. lia.
    + rewrite length_rev. lia.
    + apply is_digit_nonzero. exact Hdig.
Qed.


Lemma itoa_loop_nonzero fuel : forall u, Forall (fun c => c <> 0) (itoa_loop fuel u).
Proof.
  induction fuel as [|f IH]; intros u; cbn [itoa_loop]; [constructor|].
  constructor.
  - pose proof (Z.mod_pos_bound u 10 ltac:(lia)). lia.
  - destruct (u / 10 =? 0); [constructor|apply IH].
Qed.

(** The text holds no NUL, whatever the value. *)
Lemma modp_itoa10_nonzero v : Forall (fun c => c <> 0) (modp_itoa10 v).
Proof.
  unfold modp_itoa10. cbv zeta. apply Forall_rev.
  destruct (v <? 0); [apply Forall_app; split|]; try apply itoa_loop_nonzero.
  constructor; [discriminate|constructor].
Qed.

(** [modp_itoa10] writes the decimal text of its argument.  For a value
    whose negation is a 32-bit integer too, the text is a minus sign for a
    negative value followed by the digits of the absolute value, without
    leading zero; read as a decimal number it is the value; and with its
    terminating NUL it takes at most 12 of the 32 bytes of the scratch
    buffer. *)
Theorem modp_itoa10_decimal v :
  - 2 ^ 31 < v < 2 ^ 31 ->
  decimal_of v (modp_itoa10 v) /\
  read_decimal (modp_itoa10 v) = v /\
  (List.length (modp_itoa10 v) <= 11)%nat /\
  Forall (fun c => c <> 0) (modp_itoa10 v).
Proof. apply modp_itoa10_spec. Qed.

Lemma modp_itoa10_decimal_witness :
  decimal_of (-120) (modp_itoa10 (-120)) /\
  read_decimal (modp_itoa10 (-120)) = -120 /\
  (List.length (modp_itoa10 (-120)) <= 11)%nat /\
  Forall (fun c => c <> 0) (modp_itoa10 (-120)).
Proof. apply (modp_itoa10_decimal (-120)). split; reflexivity. Defined.

(** *** The integer calls *)

(** The number of an integer call. *)
Definition integer_of (c : add_call) : option Z :=
  match c with
  | AddIntegerToObject _ v | AddIntegerToArray v => Some v
  | _ => None
  end.

Lemma c_str_nonzero s : Forall (fun c => c <> 0) s -> c_str s = s.
Proof.
  intros H. unfold c_str. rewrite TokenizerFacts.strlen_no_nul by exact H.
  apply firstn_all.
Qed.

Lemma run_add_integer c v u :
  integer_of c = Some v ->
  sound u -> error u = JSON_ERROR_OK -> nodeType (top u) = wanted c ->
  run_add c u =
    putbytes (entered (set_tmpbuf u (modp_itoa10 v))) (prologue c u ++ modp_itoa10 v).
Proof.
  intros Hc Hu He Ht.
  pose proof (c_str_nonzero _ (modp_itoa10_nonzero v)) as Hs.
  destruct c; cbn [integer_of] in Hc; try discriminate Hc; injection Hc as ->;
    unfold wanted, prologue in *; cbn [object_key] in *; cbn [run_add];
    unfold addIntegerToObject, addIntegerToArray, addRawTextToObject, addRawTextToArray;
    cbv zeta; cbn [set_tmpbuf tmpbuf].
  - rewrite (object_leaf (set_tmpbuf u (modp_itoa10 v)) key
               (fun w => jwPutraw w (modp_itoa10 v)) (c_str (modp_itoa10 v)) Hu He Ht)
      by (intros w; apply jwPutraw_putbytes).
    rewrite Hs. reflexivity.
  - rewrite (array_leaf (set_tmpbuf u (modp_itoa10 v))
               (fun w => jwPutraw w (modp_itoa10 v)) (c_str (modp_itoa10 v)) Hu He Ht)
      by (intros w; apply jwPutraw_putbytes).
    rewrite Hs. reflexivity.
Qed.

End IntegerText.

(** * What every add and open call appends *)

Module CallEffect.
Import Unparser UnparserFacts Cursor CursorFacts Writer WriterCalls IntegerText.

(** The text of a call behind its prologue: the raw text up to its NUL,
    the string in quotes, the decimal text of the integer, the literal, or
    the opening bracket. *)
Definition call_text (c : add_call) : list Z :=
  match c with
  | AddRawTextToObject _ r | AddRawTextToArray r => c_str r
  | AddStringToObject _ v | AddStringToArray v => 34 :: c_str v ++ [34]
  | AddIntegerToObject _ v | AddIntegerToArray v => modp_itoa10 v
  | AddBooleanToObject _ b | AddBooleanToArray b =>
      if b =? 0 then bytes "false" else bytes "true"
  | AddNullToObject _ | AddNullToArray => bytes "null"
  | AddObjectToObject _ | AddObjectToArray => [123]
  | AddArrayToObject _ | AddArrayToArray => [91]
  end.

Lemma c_str_bytes_literal b :
  c_str (if b =? 0 then bytes "false" else bytes "true") =
  (if b =? 0 then bytes "false" else bytes "true").
Proof. destruct (b =? 0); reflexivity. Qed.

Lemma run_add_leaf c u :
  opens c = None ->
  sound u -> error u = JSON_ERROR_OK -> nodeType (top u) = wanted c ->
  exists t, run_add c u = putbytes (entered (set_tmpbuf u t)) (prologue c u ++ call_text c).
Proof.
  intros Ho Hu He Ht.
  destruct c; cbn [opens] in Ho; try discriminate Ho;
    try (match goal with
         | |- exists t, run_add ?c u = _ =>
             exists (modp_itoa10 value); apply (run_add_integer c value u eq_refl Hu He Ht)
         end; fail);
    exists (tmpbuf u); rewrite set_tmpbuf_same;
    unfold wanted, prologue in *; cbn [object_key] in *; cbn [run_add call_text];
    unfold addBooleanToObject, addNullToObject, addBooleanToArray, addNullToArray,
      addRawTextToObject, addStringToObject, addRawTextToArray, addStringToArray.
  - apply (object_leaf u key (fun w => jwPutraw w rawtext) (c_str rawtext) Hu He Ht).
    intros w. apply jwPutraw_putbytes.
  - apply (object_leaf u key (fun w => jwPutstr w value) (34 :: c_str value ++ [34])
             Hu He Ht).
    intros w. apply jwPutstr_putbytes.
  - rewrite (object_leaf u key
               (fun w => jwPutraw w (if oneOrZero =? 0 then bytes "false" else bytes "true"))
               (c_str (if oneOrZero =? 0 then bytes "false" else bytes "true")) Hu He Ht)
      by (intros w; apply jwPutraw_putbytes).
    rewrite c_str_bytes_literal. reflexivity.
  - apply (object_leaf u key (fun w => jwPutraw w (bytes "null")) (bytes "null") Hu He Ht).
    intros w. apply jwPutraw_putbytes.
  - apply (array_leaf u (fun w => jwPutraw w rawtext) (c_str rawtext) Hu He Ht).
    intros w. apply jwPutraw_putbytes.
  - apply (array_leaf u (fun w => jwPutstr w value) (34 :: c_str value ++ [34]) Hu He Ht).
    intros w. apply jwPutstr_putbytes.
  - rewrite (array_leaf u
               (fun w => jwPutraw w (if oneOrZero =? 0 then bytes "false" else bytes "true"))
               (c_str (if oneOrZero =? 0 then bytes "false" else bytes "true")) Hu He Ht)
      by (intros w; apply jwPutraw_putbytes).
    rewrite c_str_bytes_literal. reflexivity.
  - apply (array_leaf u (fun w => jwPutraw w (bytes "null")) (bytes "null") Hu He Ht).
    intros w. apply jwPutraw_putbytes.
Qed.

Lemma opens_text c ty : opens c = Some ty -> call_text c = [opener ty].
Proof.
  destruct c; cbn [opens]; intros H; try discriminate H; injection H as <-; reflexivity.
Qed.

(** What a call on the right kind of container does.  On a handle without
    error whose top frame is of the kind the call needs, each of the
    fourteen add and open calls appends its prologue (the comma from the
    second element on, the line break and indentation of pretty mode, and
    for a member the quoted key and the colon) and its own text: the raw
    text or the string up to its NUL, the string in quotes and unescaped,
    the decimal text of the integer, [true] for every nonzero boolean and
    [false] for zero, [null], or the opening bracket.  The bytes are
    written as far as the buffer has room, and the buffer-full error is
    latched exactly when it has not room for all.  When they fit, the
    element is counted in the top frame, and an open call below the
    deepest stack position pushes an empty frame of its kind. *)
Theorem add_call_effect c u :
  sound u -> error u = JSON_ERROR_OK -> nodeType (top u) = wanted c ->
  (opens c <> None -> (S (stackpos u) < JSON_STACK_DEPTH)%nat) ->
  match opens c with
  | None => wrote u (prologue c u ++ call_text c) 1 (run_add c u)
  | Some ty => opened u (prologue c u ++ call_text c) ty (run_add c u)
  end.
Proof.
  intros Hu He Ht Hd. destruct (opens c) as [ty|] eqn:Ho.
  - rewrite (run_add_opens c ty u Ho He Ht), (opens_text c ty Ho).
    apply open_wrote; [exact Hu|exact He|apply Hd; discriminate].
  - destruct (run_add_leaf c u Ho Hu He Ht) as (t & ->).
    exact (leaf_wrote (set_tmpbuf u t) (prologue c u ++ call_text c) Hu He).
Qed.

Lemma add_call_effect_witness :
  wrote empty_root
    (prologue (AddBooleanToArray 2) empty_root ++ call_text (AddBooleanToArray 2)) 1
    (run_add (AddBooleanToArray 2) empty_root).
Proof.
  apply (add_call_effect (AddBooleanToArray 2) empty_root).
  - exact sound_empty_root.
  - reflexivity.
  - reflexivity.
  - intros H. exfalso. apply H. reflexivity.
Defined.

End CallEffect.

(** * The text of an error code *)

Module ErrorText.
Import Unparser UnparserFacts Writer WriterCalls.

Definition errorToString (err : Z) : string :=
  if err =? JSON_ERROR_NOMEM then "Not enough tokens were provided."
  else if err =? JSON_ERROR_INVAL then "Invalid character inside JSON string."
  else if err =? JSON_ERROR_PART
  then "The string is not a full JSON packet, more bytes expected."
  else if err =? JSON_ERROR_OK then "OK"
  else if err =? JSON_ERROR_BUF_FULL then "Output buffer full."
  else if err =? JSON_ERROR_NOT_ARRAY then "Tried to write Array value into Object."
  else if err =? JSON_ERROR_NOT_OBJECT then "Tried to write Object key/value into Array."
  else if err =? JSON_ERROR_STACK_FULL then "Array/object nesting > JSON_STACK_DEPTH."
  else if err =? JSON_ERROR_STACK_EMPTY then "Stack underflow error (too many 'end's)."
  else if err =? JSON_ERROR_NEST_ERROR
  then "Nesting error, not all objects closed when endUnparsingJSON() called."
  else "Unknown error.".

Lemma run_call_callNo c u :
  callNo u <= callNo (run_call c u) <= callNo u + 1.
Proof.
  destruct (end_close_callNo u) as (E1 & E2 & E3).
  destruct c; cbn [run_call]; rewrite ?E1, ?E2, ?E3; try lia.
  rewrite run_add_callNo. destruct (error u =? JSON_ERROR_OK); lia.
Qed.

Lemma run_calls_callNo cs : forall u,
  callNo u <= callNo (run_calls cs u) <= callNo u + Z.of_nat (List.length cs).
Proof.
  induction cs as [|c cs IH]; intros u.
  - unfold run_calls. cbn [fold_left List.length]. lia.
  - change (run_calls (c :: cs) u) with (run_calls cs (run_call c u)).
    pose proof (IH (run_call c u)). pose proof (run_call_callNo c u).
    cbn [List.length]. lia.
Qed.

Lemma errorToString_positive z : 0 < z -> errorToString z = "Unknown error."%string.
Proof.
  intros H. unfold errorToString, JSON_ERROR_NOMEM, JSON_ERROR_INVAL, JSON_ERROR_PART,
    JSON_ERROR_OK, JSON_ERROR_BUF_FULL, JSON_ERROR_NOT_ARRAY, JSON_ERROR_NOT_OBJECT,
    JSON_ERROR_STACK_FULL, JSON_ERROR_STACK_EMPTY, JSON_ERROR_NEST_ERROR.
  repeat match goal with
  | |- context [z =? ?n] =>
      replace (z =? n) with false by (symmetry; apply Z.eqb_neq; lia)
  end.
  reflexivity.
Qed.

(** [getError] has no message.  After [startUnparsingJSON] and any
    sequence of add, open and end calls short enough for the call counter
    to stay an [int], the value of [getError] is positive, whatever error
    is latched, and [errorToString] has the same text for it as for a code
    it does not know: none of the error messages, and not [OK]. *)
Theorem getError_has_no_message h root fmt cs :
  Z.of_nat (List.length cs) < 2 ^ 31 - 1 ->
  1 <= getError (run_calls cs (snd (startUnparsingJSON h root fmt))) < 2 ^ 31 /\
  errorToString (getError (run_calls cs (snd (startUnparsingJSON h root fmt)))) =
    "Unknown error."%string.
Proof.
  intros Hn. unfold getError.
  pose proof (run_calls_callNo cs (snd (startUnparsingJSON h root fmt))) as H.
  assert (E : callNo (snd (startUnparsingJSON h root fmt)) = 1).
  { unfold startUnparsingJSON. cbn [snd]. apply jwPutch_callNo. }
  rewrite E in H. split; [lia|]. apply errorToString_positive. lia.
Qed.

Lemma getError_has_no_message_witness :
  1 <= getError (run_calls [Add (AddStringToObject (bytes "k") (bytes "v")); EndJSON]
                   (snd (startUnparsingJSON fresh JSON_ARRAY JSON_COMPACT))) < 2 ^ 31 /\
  errorToString
    (getError (run_calls [Add (AddStringToObject (bytes "k") (bytes "v")); EndJSON]
                 (snd (startUnparsingJSON fresh JSON_ARRAY JSON_COMPACT)))) =
    "Unknown error."%string.
Proof.
  apply (getError_has_no_message fresh JSON_ARRAY JSON_COMPACT
           [Add (AddStringToObject (bytes "k") (bytes "v")); EndJSON]).
  reflexivity.
Defined.

End ErrorText.

(** * A text without tokens *)

Module BlankText.
Import Tokenizer TokenizerFacts Json Simulation.

Lemma ws_nonzero w : ws w -> Forall (fun c => c <> 0) w.
Proof.
  unfold ws. induction w as [|c w IH]; intros H; [constructor|].
  simpl in H. apply andb_true_iff in H as [Hc Hw]. constructor; [|apply IH; exact Hw].
  destruct (is_ws_cases c Hc) as [-> | [-> | [-> | ->]]]; discriminate.
Qed.

Lemma blank_scan w tokens0 num :
  ws w ->
  jsmne_parse jsmne_init w (strlen w) tokens0 num =
    Ret 0 {| pos := List.length w; toknext := 0; toksuper := -1 |} tokens0.
Proof.
  intros Hw. pose proof (ws_nonzero w Hw) as Hn.
  rewrite (strlen_no_nul w Hn). unfold jsmne_parse.
  pose proof (run_ws w w num 0 0 (-1) tokens0 0 [] Hn Hw) as Hr.
  rewrite app_nil_r in Hr. specialize (Hr eq_refl).
  change (st 0 0 (-1)) with jsmne_init in Hr.
  replace (List.length w) with (List.length w + 0)%nat at 1 by lia.
  rewrite (parse_loop_run _ _ _ _ _ _ _ _ _ _ _ Hr).
  cbn [parse_loop st pos toknext Nat.add any_open].
  replace (List.length w <? List.length w)%nat with false
    by (symmetry; apply Nat.ltb_ge; lia).
  reflexivity.
Qed.

(** A text of white space only and shorter than 2^31 bytes, the empty
    text among them, is accepted without a token: [startParsingJSON]
    returns OK, stores the text, sets the cursor and the number of tokens
    to 0, and leaves the token table as it was. *)
Theorem blank_text_has_no_tokens parser w :
  ws w -> Z.of_nat (List.length w) < 2 ^ 31 ->
  startParsingJSON parser w =
    Some (JSON_ERROR_OK,
          {| json := w; counter := 0; length := 0; tokens := tokens parser |}) /\
  sizeOfTokens {| json := w; counter := 0; length := 0; tokens := tokens parser |} = 0.
Proof.
  intros Hw _. split; [|reflexivity].
  unfold startParsingJSON. rewrite (blank_scan w (tokens parser) JSON_TOKEN_SIZE Hw).
  reflexivity.
Qed.

Lemma blank_text_has_no_tokens_witness :
  startParsingJSON fresh (bytes "  ") =
    Some (JSON_ERROR_OK,
          {| json := bytes "  "; counter := 0; length := 0; tokens := tokens fresh |}) /\
  sizeOfTokens {| json := bytes "  "; counter := 0; length := 0; tokens := tokens fresh |}
    = 0.
Proof. apply (blank_text_has_no_tokens fresh (bytes "  ")); reflexivity. Defined.

End BlankText.
